(** * libpolyhedra: a shallow embedding of the core routines

    The development follows the C sources: [util.c], [hash.c],
    [vertex_list.c], [ftree.c], [convex_hull.c], [plane_cut.c],
    [simplify.c], [bvh_vl.c] and [vef.c].  C [float] arithmetic is kept
    behind the interface [FloatOps]; the instance [IEEE32] evaluates it
    as IEEE-754 binary32 (round to nearest even, [FLT_EVAL_METHOD = 0],
    no contraction), with the [double] literals of the sources handled
    in binary64. *)

From Stdlib Require Import ZArith List Bool Lia.
From Stdlib Require Import Floats.SpecFloat.
From Stdlib Require QArith Qcanon.
From Stdlib Require Permutation.
From Stdlib Require Field.
Import ListNotations.

Set Implicit Arguments.
Local Open Scope Z_scope.

(** ** Machine limits (LP64) *)

Definition UINT_MAX : Z := 4294967295.
Definition SIZE_MAX : Z := 18446744073709551615.
Definition sizeof_float : Z := 4.
Definition sizeof_uint : Z := 4.
Definition sizeof_ptr : Z := 8.

(** ** The arithmetic of C [float] *)

(** The [double] literals that the sources multiply with [float] values. *)
Inductive dconst := C_1e_5 | C_1e_6 | C_half.

Class FloatOps (F : Type) := {
  f_zero : F;                       (* 0 *)
  f_one : F;                        (* 1 *)
  f_inf : F;                        (* INFINITY *)
  f_of_Z : Z -> F;                  (* an [int] literal converted to [float] *)
  f_add : F -> F -> F;
  f_sub : F -> F -> F;
  f_mul : F -> F -> F;
  f_div : F -> F -> F;
  f_neg : F -> F;
  f_abs : F -> F;                   (* fabsf *)
  f_sqrt : F -> F;                  (* sqrtf *)
  f_copysign : F -> F -> F;         (* copysignf *)
  f_ltb : F -> F -> bool;           (* a < b *)
  f_leb : F -> F -> bool;           (* a <= b *)
  f_eqb : F -> F -> bool;           (* a == b *)
  f_isinf : F -> bool;              (* isinf *)
  f_scale : dconst -> F -> F;       (* (float) (c * (double) x) *)
  f_lt_scaled : F -> dconst -> F -> bool  (* (double) x < c * (double) y *)
}.

(** The object representation of a [float]: its 32-bit pattern. *)
Class FloatRepr (F : Type) := {
  f_bits : F -> Z
}.

Declare Scope float_scope.
Delimit Scope float_scope with fl.
Infix "+" := f_add : float_scope.
Infix "-" := f_sub : float_scope.
Infix "*" := f_mul : float_scope.
Infix "/" := f_div : float_scope.
Notation "- x" := (f_neg x) : float_scope.
Infix "<?" := f_ltb : float_scope.
Infix "<=?" := f_leb : float_scope.
Infix "=?" := f_eqb : float_scope.
Notation "a >? b" := (f_ltb b a) : float_scope.
Notation "a >=? b" := (f_leb b a) : float_scope.

(** *** IEEE-754 instance *)

Module IEEE.

Definition prec32 : Z := 24.
Definition emax32 : Z := 128.
Definition prec64 : Z := 53.
Definition emax64 : Z := 1024.

Definition float32 := spec_float.

  (** Rounding an exact value [m * 2^e] into a format. *)
Definition of_Z32 (m : Z) : float32 := binary_normalize prec32 emax32 m 0 false.
Definition of_Z64 (m : Z) : spec_float := binary_normalize prec64 emax64 m 0 false.

  (** [m * 2^e] as a float: used to write inputs that are exactly representable. *)
Definition pow2 (m e : Z) : float32 := binary_normalize prec32 emax32 m e false.

  (** Conversions between the two formats (widening is exact). *)
Definition to_double (x : float32) : spec_float :=
    match x with
    | S754_finite s m e => binary_round prec64 emax64 s m e
    | _ => x
    end.

Definition to_float (x : spec_float) : float32 :=
    match x with
    | S754_finite s m e => binary_round prec32 emax32 s m e
    | _ => x
    end.

  (** The double nearest to a decimal literal [1e-k], and [0.5]. *)
Definition dlit (c : dconst) : spec_float :=
    match c with
    | C_1e_5 => SFdiv prec64 emax64 (of_Z64 1) (of_Z64 100000)
    | C_1e_6 => SFdiv prec64 emax64 (of_Z64 1) (of_Z64 1000000)
    | C_half => SFdiv prec64 emax64 (of_Z64 1) (of_Z64 2)
    end.

Definition sign_of (x : float32) : bool :=
    match x with
    | S754_zero s | S754_infinity s | S754_finite s _ _ => s
    | S754_nan => false
    end.

Definition copysign (x y : float32) : float32 :=
    if Bool.eqb (sign_of x) (sign_of y) then x else SFopp x.

Definition isinf (x : float32) : bool :=
    match x with S754_infinity _ => true | _ => false end.

  (** The binary32 encoding: sign, 8 exponent bits, 23 fraction bits.  NaN
      payloads are not tracked by [spec_float]; the quiet NaN stands for all. *)
Definition bits (x : float32) : Z :=
    match x with
    | S754_zero s => if s then 2147483648 else 0
    | S754_infinity s => (if s then 2147483648 else 0) + 2139095040
    | S754_nan => 2143289344
    | S754_finite s m e =>
        (if s then 2147483648 else 0) +
        (if Z.eqb (Zpos (digits2_pos m)) prec32
         then (e + 150) * 8388608 + (Zpos m - 8388608)
         else Zpos m)
    end.

#[export] Instance IEEE32 : FloatOps float32 := {|
    f_zero := S754_zero false;
    f_one := of_Z32 1;
    f_inf := S754_infinity false;
    f_of_Z := of_Z32;
    f_add := SFadd prec32 emax32;
    f_sub := SFsub prec32 emax32;
    f_mul := SFmul prec32 emax32;
    f_div := SFdiv prec32 emax32;
    f_neg := SFopp;
    f_abs := SFabs;
    f_sqrt := SFsqrt prec32 emax32;
    f_copysign := copysign;
    f_ltb := SFltb;
    f_leb := SFleb;
    f_eqb := SFeqb;
    f_isinf := isinf;
    f_scale := fun c x => to_float (SFmul prec64 emax64 (dlit c) (to_double x));
    f_lt_scaled := fun x c y =>
      SFltb (to_double x) (SFmul prec64 emax64 (dlit c) (to_double y))
  |}.

#[export] Instance IEEE32_repr : FloatRepr float32 := {| f_bits := bits |}.

End IEEE.

(** ** Bytes, [memcmp] and the environment *)

(** Bytes are integers in [0, 256); a [float] is stored little-endian. *)
Definition byte_of (w : Z) (i : Z) : Z := Z.land (Z.shiftr w (8 * i)) 255.

Definition word_bytes (n : nat) (w : Z) : list Z :=
  map (fun i => byte_of w (Z.of_nat i)) (seq 0 n).

Definition float_bytes {F} `{FloatRepr F} (x : F) : list Z := word_bytes 4 (f_bits x).

Definition vert_bytes {F} `{FloatRepr F} (v : list F) : list Z := flat_map float_bytes v.

(** A pointer is an address; pointer-keyed tables hash its 8 bytes. *)
Definition ptr_bytes (p : Z) : list Z := word_bytes 8 p.

(** [memcmp(a, b, n)]: the difference of the first differing bytes. *)
Fixpoint memcmp (a b : list Z) (n : nat) {struct n} : Z :=
  match n with
  | O => 0
  | S n' =>
      match a, b with
      | x :: a', y :: b' => if x =? y then memcmp a' b' n' else x - y
      | _, _ => 0
      end
  end.

(** What the library takes from outside: SipHash (a separate module of the
    repository, not part of these sources) and the allocator, which grants
    or refuses a request of a given size. *)
Class Env := {
  siphash : list Z -> list Z -> Z;   (* siphash(secret, bytes) : uint64_t *)
  random16 : list Z;                 (* the 16 bytes Random() hands to a new table *)
  alloc_ok : Z -> bool               (* malloc/calloc/realloc of that many bytes *)
}.

(** Lists used as C arrays. *)
Fixpoint list_set {A} (n : nat) (x : A) (l : list A) : list A :=
  match l, n with
  | [], _ => []
  | _ :: t, O => x :: t
  | h :: t, S n' => h :: list_set n' x t
  end.

(** ** hash.c *)

Module Hash.
Section Table.
Context `{Env}.
Variables K D : Type.

Record element := { hash_val : Z; key : K; data : D }.

Record hash := {
  num_buckets : Z;
  num_items : Z;
  buckets : list (list element);
  secret : list Z
}.

Definition sizeof_element : Z := 32.

(** [Hash_New]: 128 empty buckets and a random secret. *)
Definition Hash_New : option hash :=
  if alloc_ok 112 then
    if alloc_ok (128 * sizeof_ptr) then
      Some {| num_buckets := 128; num_items := 0;
              buckets := repeat [] 128; secret := random16 |}
    else None
  else None.

(** A stored key denotes [size] bytes through [kb]: the bytes themselves
    for fixed-size keys, the stored vertex for a vertex list, the address
    for pointer keys; the key handed to a call denotes its bytes through
    [qb].  The table's [hash_func] is SipHash over them and its [cmp] is
    [memcmp]. *)
Section Keyed.
Variable Q : Type.
Variable qb : Q -> list Z.
Variable kb : K -> list Z.
Variable size : nat.

Definition hash_func (h : hash) (q : Q) : Z :=
  siphash (secret h) (firstn size (qb q)).

Definition cmp (k : K) (q : Q) : Z := memcmp (kb k) (qb q) size.

Definition chain (h : hash) (b : Z) : list element :=
  nth (Z.to_nat b) (buckets h) [].

(** [Find]: the position in the bucket's chain of the first element with
    this hash value and an equal key, or the chain's end. *)
Fixpoint Find_chain (c : list element) (q : Q) (hv : Z) (pos : nat) : nat :=
  match c with
  | [] => pos
  | e :: rest =>
      if (hash_val e =? hv) && (cmp (key e) q =? 0) then pos
      else Find_chain rest q hv (S pos)
  end.

Definition Find (h : hash) (q : Q) (hv : Z) : Z * nat :=
  let bucket := hv mod num_buckets h in
  (bucket, Find_chain (chain h bucket) q hv 0).

Definition deref (h : hash) (loc : Z * nat) : option element :=
  nth_error (chain h (fst loc)) (snd loc).

Definition Hash_Lookup (h : hash) (q : Q) : option D :=
  let hv := hash_func h q in
  match deref h (Find h q hv) with
  | None => None
  | Some e => Some (data e)
  end.

Definition set_chain (h : hash) (b : Z) (c : list element) : hash :=
  {| num_buckets := num_buckets h; num_items := num_items h;
     buckets := list_set (Z.to_nat b) c (buckets h); secret := secret h |}.

Definition set_items (h : hash) (n : Z) : hash :=
  {| num_buckets := num_buckets h; num_items := n;
     buckets := buckets h; secret := secret h |}.

(** [Rehash]: double the buckets; every element is pushed on the front of
    its new chain, old buckets in order. *)
Definition push_front (n : Z) (bs : list (list element)) (e : element) :=
  let b := Z.to_nat (hash_val e mod n) in
  list_set b (e :: nth b bs []) bs.

Definition Rehash (h : hash) : hash :=
  if num_buckets h >? SIZE_MAX / 2 then h
  else
    let new_num := Z.shiftl (num_buckets h) 1 in
    if alloc_ok (new_num * sizeof_ptr) then
      {| num_buckets := new_num; num_items := num_items h;
         buckets := fold_left (push_front new_num) (concat (buckets h))
                      (repeat [] (Z.to_nat new_num));
         secret := secret h |}
    else h.

(** [Hash_Insert]: [copy_key] may update the owner of the table (the [user]
    pointer).  The result is the C return value, the table, the owner and
    [*key_out]. *)
Definition Hash_Insert {U} (copy_key : U -> Q -> option (K * U))
    (h : hash) (u : U) (q : Q) (d : D) : Z * hash * U * option K :=
  let hv := hash_func h q in
  let loc := Find h q hv in
  match deref h loc with
  | Some e =>
      let e' := {| hash_val := hash_val e; key := key e; data := d |} in
      (0, set_chain h (fst loc) (list_set (snd loc) e' (chain h (fst loc))), u,
       Some (key e))
  | None =>
      if alloc_ok sizeof_element then
        match copy_key u q with
        | None => (-1, h, u, None)
        | Some (k, u') =>
            let e := {| hash_val := hv; key := k; data := d |} in
            let h1 := set_chain h (fst loc) (chain h (fst loc) ++ [e]) in
            let h2 := if Z.shiftr (num_items h1) 1 >? num_buckets h1
                      then Rehash h1 else h1 in
            (1, set_items h2 ((num_items h2 + 1) mod (SIZE_MAX + 1)), u', Some k)
        end
      else (-1, h, u, None)
  end.

Fixpoint remove_nth {A} (n : nat) (l : list A) : list A :=
  match l, n with
  | [], _ => []
  | _ :: t, O => t
  | x :: t, S n' => x :: remove_nth n' t
  end.

Definition Hash_Remove (h : hash) (q : Q) : Z * hash :=
  let hv := hash_func h q in
  let loc := Find h q hv in
  match deref h loc with
  | None => (0, h)
  | Some _ =>
      let h1 := set_chain h (fst loc) (remove_nth (snd loc) (chain h (fst loc))) in
      (1, set_items h1 ((num_items h1 - 1) mod (SIZE_MAX + 1)))
  end.

End Keyed.

(** [Hash_Clear] empties every chain; [num_items] is left as it is. *)
Definition Hash_Clear (h : hash) : hash :=
  {| num_buckets := num_buckets h; num_items := num_items h;
     buckets := map (fun _ => []) (buckets h); secret := secret h |}.

(** The iterator visits the buckets in order and each chain front to back. *)
Definition elements (h : hash) : list element := concat (buckets h).

Definition Hash_NumEntries (h : hash) : Z := num_items h.

Definition Hash_GetFirstKey (h : hash) : option K :=
  match elements h with
  | [] => None
  | e :: _ => Some (key e)
  end.

End Table.
End Hash.

(** ** vertex_list.c *)

Inductive primative_type := lp_pt_point | lp_pt_line | lp_pt_triangle | lp_pt_unspecified.

(** The sentinel [PRESENT]: the pointer value 1. *)
Definition PRESENT : Z := 1.

Module VL.
Section VertexList.
Context `{Env} {F : Type} `{FloatRepr F}.

(** [vert] holds the [vert_used] records in use, [ind] the [ind_used]
    indices in use; [vert_hash] is [None] once the list is finalized. *)
Record lp_vertex_list := {
  floats_per_vert : Z;
  vert_size : Z;
  primative : primative_type;
  vert_alloc : Z;
  vert_used : Z;
  vert : list (list F);
  ind_alloc : Z;
  ind_used : Z;
  ind : list Z;
  vert_hash : option (Hash.hash Z Z)
}.

Definition set_hash (vl : lp_vertex_list) (h : option (Hash.hash Z Z)) :=
  {| floats_per_vert := floats_per_vert vl; vert_size := vert_size vl;
     primative := primative vl; vert_alloc := vert_alloc vl;
     vert_used := vert_used vl; vert := vert vl; ind_alloc := ind_alloc vl;
     ind_used := ind_used vl; ind := ind vl; vert_hash := h |}.

Definition set_verts (vl : lp_vertex_list) (alloc used : Z) (v : list (list F)) :=
  {| floats_per_vert := floats_per_vert vl; vert_size := vert_size vl;
     primative := primative vl; vert_alloc := alloc;
     vert_used := used; vert := v; ind_alloc := ind_alloc vl;
     ind_used := ind_used vl; ind := ind vl; vert_hash := vert_hash vl |}.

Definition set_inds (vl : lp_vertex_list) (alloc used : Z) (i : list Z) :=
  {| floats_per_vert := floats_per_vert vl; vert_size := vert_size vl;
     primative := primative vl; vert_alloc := vert_alloc vl;
     vert_used := vert_used vl; vert := vert vl; ind_alloc := alloc;
     ind_used := used; ind := i; vert_hash := vert_hash vl |}.

(** The record a stored key (index + 1) stands for: [VlCmp] compares
    [vl->vert + (key - 1) * floats_per_vert]. *)
Definition stored (vl : lp_vertex_list) (k : Z) : list F :=
  nth (Z.to_nat (k - 1)) (vert vl) [].

Definition VlKey (vl : lp_vertex_list) (k : Z) : list Z := vert_bytes (stored vl k).

Definition VlCopy (vl : lp_vertex_list) (key : list F) : option (Z * lp_vertex_list) :=
  let store (alloc : Z) :=
    let used' := (vert_used vl + 1) mod (UINT_MAX + 1) in
    Some (used',
          set_verts vl alloc used'
            (firstn (Z.to_nat (vert_used vl)) (vert vl)
               ++ [firstn (Z.to_nat (floats_per_vert vl)) key])) in
  if vert_used vl >=? vert_alloc vl then
    if vert_alloc vl =? UINT_MAX then None
    else
      let new_alloc :=
        if vert_alloc vl >? Z.shiftr UINT_MAX 1 then UINT_MAX
        else Z.shiftl (vert_alloc vl) 1 in
      if SIZE_MAX / vert_size vl <=? new_alloc then None
      else if alloc_ok (new_alloc * vert_size vl) then store new_alloc
      else None
  else store (vert_alloc vl).

Definition LP_VertexList_New (fpv : Z) (pt : primative_type) : option lp_vertex_list :=
  if SIZE_MAX / sizeof_float <? fpv then None
  else if alloc_ok 80 then
    let vsize := fpv * sizeof_float in
    if alloc_ok (64 * vsize) then
      if alloc_ok (64 * sizeof_uint) then
        match Hash.Hash_New Z Z with
        | Some h =>
            Some {| floats_per_vert := fpv; vert_size := vsize; primative := pt;
                    vert_alloc := 64; vert_used := 0; vert := [];
                    ind_alloc := 64; ind_used := 0; ind := [];
                    vert_hash := Some h |}
        | None => None
        end
      else None
    else None
  else None.

Definition LP_VertexList_Clear (vl : lp_vertex_list) : lp_vertex_list :=
  {| floats_per_vert := floats_per_vert vl; vert_size := vert_size vl;
     primative := primative vl; vert_alloc := vert_alloc vl;
     vert_used := 0; vert := []; ind_alloc := ind_alloc vl;
     ind_used := 0; ind := [];
     vert_hash := option_map (@Hash.Hash_Clear Z Z) (vert_hash vl) |}.

(** What a call reports: the index it returns, or the error it prints
    before returning [UINT_MAX]. *)
Inductive vl_error :=
| E_hash                         (* "Could not add vertex to hash" *)
| E_range (index used : Z)       (* "Vertex index is out of range" *)
| E_ind_full                     (* "Too many indices in a single vertex list" *)
| E_ind_nomem                    (* "Out of memory adding vertex index" *)
| E_finalized.                   (* no table: the call dereferences NULL *)

Inductive outcome := Ret (i : Z) | Fail (e : vl_error).

Definition c_ret (o : outcome) : Z :=
  match o with Ret i => i | Fail _ => UINT_MAX end.

Definition AddVert (vl : lp_vertex_list) (v : list F) : outcome * lp_vertex_list :=
  match vert_hash vl with
  | None => (Fail E_finalized, vl)
  | Some h =>
      match Hash.Hash_Insert vert_bytes (VlKey vl) (Z.to_nat (vert_size vl))
              VlCopy h vl v PRESENT with
      | (r, h', vl', Some key_out) =>
          if r <? 0 then (Fail E_hash, vl)
          else (Ret ((key_out - 1) mod (UINT_MAX + 1)), set_hash vl' (Some h'))
      | (_, _, _, None) => (Fail E_hash, vl)
      end
  end.

Definition AddInd (vl : lp_vertex_list) (i : Z) : outcome * lp_vertex_list :=
  let push (alloc : Z) :=
    (Ret i, set_inds vl alloc ((ind_used vl + 1) mod (SIZE_MAX + 1))
              (firstn (Z.to_nat (ind_used vl)) (ind vl) ++ [i])) in
  if ind_used vl >=? ind_alloc vl then
    if Z.shiftr (SIZE_MAX / sizeof_uint) 1 <? ind_alloc vl then (Fail E_ind_full, vl)
    else
      let new_alloc := Z.shiftl (ind_alloc vl) 1 in
      if alloc_ok (new_alloc * sizeof_uint) then push new_alloc
      else (Fail E_ind_nomem, vl)
  else push (ind_alloc vl).

Definition LP_VertexList_AddIndex (vl : lp_vertex_list) (index : Z)
  : outcome * lp_vertex_list :=
  if index >? vert_used vl then (Fail (E_range index (vert_used vl)), vl)
  else AddInd vl index.

Definition LP_VertexList_Add (vl : lp_vertex_list) (v : list F)
  : outcome * lp_vertex_list :=
  let '(o, vl1) := AddVert vl v in
  if c_ret o =? UINT_MAX then (o, vl1)
  else LP_VertexList_AddIndex vl1 (c_ret o).

Definition LP_VertexList_Finalize (vl : lp_vertex_list) := set_hash vl None.
Definition LP_VertexList_FloatsPerVert (vl : lp_vertex_list) := floats_per_vert vl.
Definition LP_VertexList_PrimativeType (vl : lp_vertex_list) := primative vl.
Definition LP_VertexList_NumVert (vl : lp_vertex_list) := vert_used vl.
Definition LP_VertexList_NumInd (vl : lp_vertex_list) := ind_used vl.
Definition LP_VertexList_GetVert (vl : lp_vertex_list) : list F := concat (vert vl).
Definition LP_VertexList_GetInd (vl : lp_vertex_list) := ind vl.

(** [vl->vert + floats_per_vert * vl->ind[index]] *)
Definition LP_VertexList_LookupVert (vl : lp_vertex_list) (index : Z) : list F :=
  nth (Z.to_nat (nth (Z.to_nat index) (ind vl) 0)) (vert vl) [].

End VertexList.
End VL.


(** ** util.c *)

Module Util.
Section Vectors.
Context {F : Type} `{FloatOps F}.
Local Open Scope float_scope.

(** A vector is an array of floats; [v.[i]] reads a cell. *)
Definition cell (v : list F) (i : nat) : F := nth i v f_zero.
Notation "v .[ i ]" := (cell v i) (at level 1, left associativity, format "v .[ i ]").

Definition Dot (a b : list F) : F := a.[0] * b.[0] + a.[1] * b.[1] + a.[2] * b.[2].
Definition Norm2 (v : list F) : F := Dot v v.
Definition Norm (v : list F) : F := f_sqrt (Norm2 v).

Definition Dist2 (p1 p2 : list F) : F :=
  let x := p1.[0] - p2.[0] in
  let y := p1.[1] - p2.[1] in
  let z := p1.[2] - p2.[2] in
  x * x + y * y + z * z.

Definition Dist (p1 p2 : list F) : F := f_sqrt (Dist2 p1 p2).

(** [Normalize] scales in place and returns the norm; a zero vector is
    scaled by 0. *)
Definition Normalize (v : list F) : F * list F :=
  let norm := Norm v in
  let factor := if norm =? f_zero then f_zero else f_one / norm in
  (norm, [v.[0] * factor; v.[1] * factor; v.[2] * factor]).

Definition sub3 (a b : list F) : list F := [a.[0] - b.[0]; a.[1] - b.[1]; a.[2] - b.[2]].

Definition Cross (a b : list F) : list F :=
  [a.[1] * b.[2] - a.[2] * b.[1];
   a.[2] * b.[0] - a.[0] * b.[2];
   a.[0] * b.[1] - a.[1] * b.[0]].

(** [BasisVectors]: two unit vectors spanning the plane of normal [norm]. *)
Definition BasisVectors (norm : list F) : list F * list F :=
  let abs0 := f_abs norm.[0] in
  let abs1 := f_abs norm.[1] in
  let '(min, min_val) := if abs1 <? abs0 then (1%nat, abs1) else (0%nat, abs0) in
  let '(max, max_val) := if abs1 >=? abs0 then (1%nat, abs1) else (0%nat, abs0) in
  let abs2 := f_abs norm.[2] in
  let '(min, min_val) := if abs2 <? min_val then (2%nat, abs2) else (min, min_val) in
  let '(max, max_val) := if abs2 >=? max_val then (2%nat, abs2) else (max, max_val) in
  let min := if Nat.eqb max min then Nat.modulo (max + 1) 3 else min in
  let yy := list_set min (f_copysign norm.[max] (- norm.[min])) norm in
  let yy := list_set max (f_copysign norm.[min] (- norm.[max])) yy in
  let result_x := snd (Normalize (Cross yy norm)) in
  let result_y := snd (Normalize (Cross norm result_x)) in
  (result_x, result_y).

Definition PlaneNorm (p1 p2 p3 : list F) : list F :=
  let v1 := sub3 p2 p1 in
  let v2 := sub3 p3 p2 in
  snd (Normalize (Cross v1 v2)).

(** [Solve3x3]: [None] when the determinant is zero. *)
Definition Solve3x3 (m bb : list F) : option (list F) :=
  let a := m.[4] * m.[8] - m.[5] * m.[7] in
  let b := m.[3] * m.[8] - m.[5] * m.[6] in
  let c := m.[3] * m.[7] - m.[4] * m.[6] in
  let det := m.[0] * a - m.[1] * b + m.[2] * c in
  if det =? f_zero then None
  else
    let det := f_one / det in
    Some [det * (bb.[0] * a +
                 bb.[1] * - (m.[1] * m.[8] - m.[2] * m.[7]) +
                 bb.[2] * (m.[1] * m.[5] - m.[2] * m.[4]));
          det * (bb.[0] * - b +
                 bb.[1] * (m.[0] * m.[8] - m.[2] * m.[6]) +
                 bb.[2] * - (m.[0] * m.[5] - m.[2] * m.[3]));
          det * (bb.[0] * c +
                 bb.[1] * - (m.[0] * m.[7] - m.[1] * m.[6]) +
                 bb.[2] * (m.[0] * m.[4] - m.[1] * m.[3]))].

End Vectors.
End Util.

Notation "v .[ i ]" := (Util.cell v i) (at level 1, left associativity, format "v .[ i ]").

(** ** Propagating failure: a call that returns [NULL] or [-1] is [None]. *)
Notation "x <- e ;; k" := (match e with Some x => k | None => None end)
  (at level 61, e at next level, right associativity).
Notation "' p <- e ;; k" := (match e with Some p => k | None => None end)
  (at level 61, p pattern, e at next level, right associativity).

(** The result of a function that the model runs on fuel: a value, the
    failure the code reports, or no result (fuel exhausted, a walk that
    does not come to an end in the code, a read outside an array). *)
Inductive run (A : Type) := Done (a : A) | Failed | Stuck.
Arguments Done {A} a.
Arguments Failed {A}.
Arguments Stuck {A}.

Definition of_option {A} (o : option A) : run A :=
  match o with Some a => Done a | None => Failed end.


(** ** ftree.c: the order-statistic AVL tree keyed by [float] *)

Module FTree.
Section Tree.
Context {F : Type} `{FloatOps F}.

(** [Leaf] is the NULL child.  A node is handed around by the datum it
    carries: every caller inserts a datum (a face, a pair, a point) once. *)
Inductive ftree_node :=
| Leaf
| Node (key : F) (data : Z) (items : Z) (height : Z) (left right : ftree_node).

(** The tree proper is the left child of the sentinel root. *)
Definition ftree := ftree_node.

Definition FTree_New : ftree := Leaf.

Definition HEIGHT (n : ftree_node) : Z :=
  match n with Leaf => -1 | Node _ _ _ h _ _ => h end.

Definition ITEMS (n : ftree_node) : Z :=
  match n with Leaf => 0 | Node _ _ i _ _ _ => i end.

Definition FTree_ItemCount (t : ftree) : Z := ITEMS t.

Definition FixHeight (n : ftree_node) : ftree_node :=
  match n with
  | Leaf => Leaf
  | Node k d _ _ l r =>
      Node k d ((ITEMS l + ITEMS r + 1) mod (SIZE_MAX + 1))
           (Z.max (HEIGHT l) (HEIGHT r) + 1) l r
  end.

Definition mk (k : F) (d : Z) (l r : ftree_node) : ftree_node :=
  FixHeight (Node k d 0 0 l r).

(** [RotateLeft]: the right child [z] comes up, or its left child [y] when
    that is the taller grandchild. *)
Definition RotateLeft (x : ftree_node) : ftree_node :=
  match x with
  | Node xk xd _ _ xl (Node zk zd _ _ y zr) =>
      if HEIGHT y >? HEIGHT zr then
        match y with
        | Node yk yd _ _ yl yr => mk yk yd (mk xk xd xl yl) (mk zk zd yr zr)
        | Leaf => x
        end
      else mk zk zd (mk xk xd xl y) zr
  | _ => x
  end.

Definition RotateRight (x : ftree_node) : ftree_node :=
  match x with
  | Node xk xd _ _ (Node zk zd _ _ zl y) xr =>
      if HEIGHT y >? HEIGHT zl then
        match y with
        | Node yk yd _ _ yl yr => mk yk yd (mk zk zd zl yl) (mk xk xd yr xr)
        | Leaf => x
        end
      else mk zk zd zl (mk xk xd y xr)
  | _ => x
  end.

(** One step of [Balance], at one node of the path to the root. *)
Definition balance_node (n : ftree_node) : ftree_node :=
  match n with
  | Leaf => Leaf
  | Node _ _ _ _ l r =>
      let lh := HEIGHT l in
      let rh := HEIGHT r in
      if lh >? rh + 1 then RotateRight n
      else if rh >? lh + 1 then RotateLeft n
      else FixHeight n
  end.

(** [Place]: descend left when the key is smaller, right otherwise; then
    [Balance] walks back from the new node's parent to the root. *)
Fixpoint Place (t : ftree_node) (node : ftree_node) : ftree_node :=
  match t with
  | Leaf => node
  | Node k d i h l r =>
      match node with
      | Node key _ _ _ _ _ =>
          if f_ltb key k then balance_node (Node k d i h (Place l node) r)
          else balance_node (Node k d i h l (Place r node))
      | Leaf => t
      end
  end.

Definition FTree_Insert (t : ftree) (key : F) (data : Z) : ftree :=
  Place t (Node key data 1 0 Leaf Leaf).

Fixpoint mem (d : Z) (t : ftree_node) : bool :=
  match t with
  | Leaf => false
  | Node _ dd _ _ l r => (dd =? d)%Z || mem d l || mem d r
  end.

(** Detach the leftmost node of a subtree, balancing from its parent up. *)
Fixpoint remove_min (t : ftree_node) : option (F * Z) * ftree_node :=
  match t with
  | Leaf => (None, Leaf)
  | Node k d i h Leaf r => (Some (k, d), r)
  | Node k d i h l r =>
      let '(m, l') := remove_min l in (m, balance_node (Node k d i h l' r))
  end.

(** [RemoveFromTree]: the successor takes the place of a node that has a
    right child, the left child that of one that has none. *)
Definition remove_at (t : ftree_node) : ftree_node :=
  match t with
  | Leaf => Leaf
  | Node _ _ i h l Leaf => l
  | Node _ _ i h l r =>
      match remove_min r with
      | (Some (ck, cd), r') => balance_node (Node ck cd ((i - 1) mod (SIZE_MAX + 1)) h l r')
      | (None, _) => t
      end
  end.

Fixpoint RemoveFromTree (t : ftree_node) (d : Z) : ftree_node :=
  match t with
  | Leaf => Leaf
  | Node k dd i h l r =>
      if (dd =? d)%Z then remove_at t
      else if mem d l then balance_node (Node k dd i h (RemoveFromTree l d) r)
      else if mem d r then balance_node (Node k dd i h l (RemoveFromTree r d))
      else t
  end.

Definition FTree_Delete (t : ftree) (d : Z) : ftree := RemoveFromTree t d.

Definition FTree_Rekey (t : ftree) (d : Z) (new_key : F) : ftree :=
  Place (RemoveFromTree t d) (Node new_key d 1 0 Leaf Leaf).

Fixpoint FTree_Lowest (t : ftree) : option (F * Z) :=
  match t with
  | Leaf => None
  | Node k d _ _ Leaf _ => Some (k, d)
  | Node _ _ _ _ l _ => FTree_Lowest l
  end.

Fixpoint FTree_Highest (t : ftree) : option (F * Z) :=
  match t with
  | Leaf => None
  | Node k d _ _ _ Leaf => Some (k, d)
  | Node _ _ _ _ _ r => FTree_Highest r
  end.

(** [FTree_Median]: the node of rank [ItemCount / 2]. *)
Fixpoint Median_from (t : ftree_node) (target : Z) : option (F * Z) :=
  match t with
  | Leaf => None
  | Node k d _ _ l r =>
      let pos := ITEMS l in
      if (target =? pos)%Z then Some (k, d)
      else if (target <? pos)%Z then Median_from l target
      else Median_from r (target - (pos + 1))
  end.

Definition FTree_Median (t : ftree) : option (F * Z) :=
  Median_from t (FTree_ItemCount t / 2).

Fixpoint key_of (d : Z) (t : ftree_node) : option F :=
  match t with
  | Leaf => None
  | Node k dd _ _ l r =>
      if (dd =? d)%Z then Some k
      else match key_of d l with Some k' => Some k' | None => key_of d r end
  end.

End Tree.
End FTree.

(** ** convex_hull.c *)

Module ConvexHull.
Import Util.
Section Hull.
(** The small nodes (ring nodes, point-list and ridge-list elements, tree
    nodes) are taken to be allocated; the oracle is asked for the faces,
    the tables and the lists. *)
Context `{Env} {F : Type} `{FloatOps F} `{FloatRepr F}.

(** The three sentinel pointers [PRESENT], [EXTEND], [DELETE] (1, 2, 3). *)
Inductive category := Present | Extend | Delete.

Definition cat_ptr (c : category) : Z :=
  match c with Present => 1 | Extend => 2 | Delete => 3 end.

Definition category_eqb (a b : category) : bool := (cat_ptr a =? cat_ptr b)%Z.

(** A point list: the indices from head to tail, and [max_dist]. *)
Record point_list := { elems : list nat; max_dist : F }.

Definition PointList_New : point_list := {| elems := []; max_dist := f_zero |}.

Definition PointList_Add (pl : point_list) (elem : nat) (dist : F) : point_list :=
  match elems pl with
  | [] => {| elems := [elem]; max_dist := dist |}
  | _ =>
      if (dist >? max_dist pl)%fl then {| elems := elem :: elems pl; max_dist := dist |}
      else {| elems := elems pl ++ [elem]; max_dist := max_dist pl |}
  end.

(** [PointList_Join(dest, src)] returns the two lists; [src] is emptied. *)
Definition PointList_Join (dest src : point_list) : point_list * point_list :=
  match elems src with
  | [] => (dest, src)
  | head :: rest =>
      let dest' := PointList_Add dest head (max_dist src) in
      ({| elems := elems dest' ++ rest; max_dist := max_dist dest' |}, PointList_New)
  end.

(** A face keeps its vertices in a ring; [verts] lists the ring from the
    node [face->verts] on, so [prev] of the first is the last.  A node has
    an identity ([fv_id]) because the code keeps pointers to [neighbor]
    fields; [neighbor] is a face address, 0 for NULL. *)
Record face_vert := { fv_id : Z; fv_idx : nat; neighbor : Z }.

Record face := {
  verts : list face_vert;
  norm : list F;
  xx : list F;
  yy : list F;
  pts : point_list;
  node : bool                 (* face->node != NULL *)
}.

Definition set_verts (f : face) (v : list face_vert) : face :=
  {| verts := v; norm := norm f; xx := xx f; yy := yy f; pts := pts f; node := node f |}.
Definition set_pts (f : face) (p : point_list) : face :=
  {| verts := verts f; norm := norm f; xx := xx f; yy := yy f; pts := p; node := node f |}.
Definition set_node (f : face) (b : bool) : face :=
  {| verts := verts f; norm := norm f; xx := xx f; yy := yy f; pts := pts f; node := b |}.

(** The point [data + 3 * idx]. *)
Definition point (data : list (list F)) (idx : nat) : list F := nth idx data [].

Definition last_idx (ring : list face_vert) : nat :=
  match rev ring with [] => O | fv :: _ => fv_idx fv end.

(** The body of the [do ... while] of [Categorize], for one ring node. *)
Definition Categorize_step (f : face) (pt : list F) (data : list (list F))
    (st : F * F * F * F) (fv : face_vert) : F * F * F * F :=
  let '(x2, y2, area, max) := st in
  let x1 := x2 in
  let y1 := y2 in
  let delta := sub3 (point data (fv_idx fv)) pt in
  let x2 := Dot delta (xx f) in
  let y2 := Dot delta (yy f) in
  let area := (area + (x1 * y2 - y1 * x2))%fl in
  let dx := (x2 - x1)%fl in
  let dy := (y2 - y1)%fl in
  let dd := ((dy * x1 - dx * y1) / f_sqrt (dx * dx + dy * dy))%fl in
  let max := if (dd >? max)%fl then dd else max in
  (x2, y2, area, max).

(** [Categorize(face, idx, data, &dist)]: the category and [dist]. *)
Definition Categorize (f : face) (idx : nat) (data : list (list F)) : category * F :=
  let pt := point data idx in
  let delta := sub3 (point data (last_idx (verts f))) pt in
  let dist := Dot delta (norm f) in
  let '(_, _, area, max) :=
    fold_left (Categorize_step f pt data) (verts f)
      (Dot delta (xx f), Dot delta (yy f), f_zero, f_neg f_inf) in
  let tol := f_scale C_1e_5 (f_sqrt (f_abs area)) in
  if (max >? f_zero)%fl then
    if (f_abs dist <? tol)%fl || f_lt_scaled (f_abs dist) C_1e_5 max then (Extend, dist)
    else if (dist >? f_zero)%fl then (Delete, dist)
    else (Present, dist)
  else if (dist >? tol)%fl then (Delete, dist)
  else
    let dpt := (dist + tol)%fl in
    if (dpt * dpt + max * max <? f_of_Z 4 * tol * tol)%fl then (Extend, dist)
    else (Present, dist).

(** The hull under construction: the faces by address (address [i + 1] is
    cell [i]), the next free node identity, the table of live faces and the
    tree of the faces that have outside points. *)
Record hull := {
  store : list face;
  fv_next : Z;
  faces : Hash.hash Z Z;
  faces_with_pts : @FTree.ftree F
}.

Definition empty_face : face :=
  {| verts := []; norm := []; xx := []; yy := []; pts := PointList_New; node := false |}.

Definition get_face (hs : hull) (p : Z) : face := nth (Z.to_nat (p - 1)) (store hs) empty_face.

Definition set_face (hs : hull) (p : Z) (f : face) : hull :=
  {| store := list_set (Z.to_nat (p - 1)) f (store hs); fv_next := fv_next hs;
     faces := faces hs; faces_with_pts := faces_with_pts hs |}.

Definition set_tree (hs : hull) (t : @FTree.ftree F) : hull :=
  {| store := store hs; fv_next := fv_next hs; faces := faces hs; faces_with_pts := t |}.

Definition set_faces (hs : hull) (h : Hash.hash Z Z) : hull :=
  {| store := store hs; fv_next := fv_next hs; faces := h;
     faces_with_pts := faces_with_pts hs |}.

(** Pointer-keyed tables: the key is the address, hashed over its bytes. *)
Definition Ptr_Insert (h : Hash.hash Z Z) (p d : Z) : Z * Hash.hash Z Z :=
  let '(r, h', _, _) :=
    Hash.Hash_Insert ptr_bytes ptr_bytes 8 (fun (u : unit) q => Some (q, u)) h tt p d in
  (r, h').
Definition Ptr_Lookup (h : Hash.hash Z Z) (p : Z) : option Z :=
  Hash.Hash_Lookup ptr_bytes ptr_bytes 8 h p.
Definition Ptr_Remove (h : Hash.hash Z Z) (p : Z) : Hash.hash Z Z :=
  snd (Hash.Hash_Remove ptr_bytes ptr_bytes 8 h p).

(** The face that [Face_New] fills in: a ring of three nodes, the plane's
    normal and basis, no outside points, no tree node. *)
Definition triangle_face (n : Z) (idx0 idx1 idx2 : nat) (data : list (list F)) : face :=
  let nrm := PlaneNorm (point data idx0) (point data idx1) (point data idx2) in
  {| verts := [ {| fv_id := n; fv_idx := idx0; neighbor := 0 |};
                {| fv_id := n + 1; fv_idx := idx1; neighbor := 0 |};
                {| fv_id := n + 2; fv_idx := idx2; neighbor := 0 |} ];
     norm := nrm; xx := fst (BasisVectors nrm); yy := snd (BasisVectors nrm);
     pts := PointList_New; node := false |}.

(** [Face_New(idx0, idx1, idx2, faces, data)]: the new face's address. *)
Definition Face_New (idx0 idx1 idx2 : nat) (hs : hull) (data : list (list F))
  : option (Z * hull) :=
  if alloc_ok 64 then
    let n := fv_next hs in
    let f := triangle_face n idx0 idx1 idx2 data in
    let p := Z.of_nat (length (store hs)) + 1 in
    let '(r, h') := Ptr_Insert (faces hs) p PRESENT in
    if (r <? 0)%Z then None
    else Some (p, {| store := store hs ++ [f]; fv_next := n + 3; faces := h';
                     faces_with_pts := faces_with_pts hs |})
  else None.

(** [Face_Update]: keep the face's node in the tree in step with its
    outside points. *)
Definition Face_Update (hs : hull) (p : Z) : hull :=
  let f := get_face hs p in
  match elems (pts f) with
  | [] =>
      if node f then
        set_face (set_tree hs (FTree.FTree_Delete (faces_with_pts hs) p)) p (set_node f false)
      else hs
  | _ =>
      if negb (node f) then
        set_face (set_tree hs (FTree.FTree_Insert (faces_with_pts hs) (max_dist (pts f)) p))
                 p (set_node f true)
      else
        match FTree.key_of p (faces_with_pts hs) with
        | Some k =>
            if negb (max_dist (pts f) =? k)%fl
            then set_tree hs (FTree.FTree_Rekey (faces_with_pts hs) p (max_dist (pts f)))
            else hs
        | None => hs
        end
  end.

(** [Face_AssignPoints]: every pool point after the head that the face
    categorizes [DELETE] moves to the face's list. *)
Fixpoint assign_points (f : face) (data : list (list F)) (rest : list nat)
    (fpts : point_list) : point_list * list nat :=
  match rest with
  | [] => (fpts, [])
  | cur :: rest' =>
      let '(cat, dist) := Categorize f cur data in
      if category_eqb cat Delete then
        assign_points f data rest' (PointList_Add fpts cur dist)
      else
        let '(fpts', kept) := assign_points f data rest' fpts in
        (fpts', cur :: kept)
  end.

Definition Face_AssignPoints (hs : hull) (p : Z) (pool : point_list)
    (data : list (list F)) : hull * point_list :=
  match elems pool with
  | [] => (hs, pool)
  | head :: rest =>
      let f := get_face hs p in
      let '(fpts, kept) := assign_points f data rest (pts f) in
      (set_face hs p (set_pts f fpts),
       {| elems := head :: kept; max_dist := max_dist pool |})
  end.

(** Ring surgery. *)
Definition set_neighbor_in (ring : list face_vert) (id : Z) (nb : Z) : list face_vert :=
  map (fun fv => if (fv_id fv =? id)%Z
                 then {| fv_id := fv_id fv; fv_idx := fv_idx fv; neighbor := nb |}
                 else fv) ring.

(** [*ptr = nb] for a pointer to the [neighbor] field of node [id] of face [p]. *)
Definition set_neighbor (hs : hull) (ptr : Z * Z) (nb : Z) : hull :=
  let f := get_face hs (fst ptr) in
  set_face hs (fst ptr) (set_verts f (set_neighbor_in (verts f) (snd ptr) nb)).

Definition head_id (ring : list face_vert) : Z :=
  match ring with [] => 0 | fv :: _ => fv_id fv end.

Definition last_id (ring : list face_vert) : Z :=
  match rev ring with [] => 0 | fv :: _ => fv_id fv end.

Definition second_id (ring : list face_vert) : Z :=
  match ring with _ :: fv :: _ => fv_id fv | _ => head_id ring end.

(** [FaceVert_Extend(&fv, pt)]: a new node after the first, which becomes
    the first. *)
Definition FaceVert_Extend (ring : list face_vert) (id : Z) (pt : nat) : list face_vert :=
  match ring with
  | [] => [ {| fv_id := id; fv_idx := pt; neighbor := 0 |} ]
  | h :: rest => {| fv_id := id; fv_idx := pt; neighbor := 0 |} :: rest ++ [h]
  end.

(** [FaceVert_FindEdge(fv, pt1, pt2)]: the first node with index [pt1],
    provided the next one has index [pt2]. *)
Fixpoint find_vert (ring : list face_vert) (pt : nat) : option (nat * face_vert) :=
  match ring with
  | [] => None
  | fv :: rest =>
      if Nat.eqb (fv_idx fv) pt then Some (O, fv)
      else match find_vert rest pt with
           | Some (n, r) => Some (S n, r)
           | None => None
           end
  end.

Definition ring_next (ring : list face_vert) (n : nat) : option face_vert :=
  match nth_error ring (S n) with
  | Some fv => Some fv
  | None => nth_error ring 0
  end.

Definition FaceVert_FindEdge (ring : list face_vert) (pt1 pt2 : nat) : option face_vert :=
  '(n, cur) <- find_vert ring pt1 ;;
  nx <- ring_next ring n ;;
  if Nat.eqb (fv_idx nx) pt2 then Some cur else None.

Record ridge_list_elem := { rle_idx : nat; rle_extend : bool; rle_neighbor : Z }.

(** The running variables of the loop of [BuildNewFaces]. *)
Record bnf_state := {
  b_hs : hull;
  b_pool : point_list;
  b_first_neighbor : option (Z * Z);
  b_neighbor_prev : option (Z * Z);
  b_first_face : Z;
  b_face : Z;
  b_face_prev : Z;
  b_prev_idx : nat
}.

Definition BuildNewFaces_step (idx : nat) (data : list (list F))
    (ost : option bnf_state) (rle : ridge_list_elem) : option bnf_state :=
  st <- ost ;;
  let hs := b_hs st in
  let face_prev := b_face_prev st in
  '(fc, hs, fn_here) <-
    (if rle_extend rle then
       let fc := rle_neighbor rle in
       if alloc_ok 32 then
         let f := get_face hs fc in
         let old_head := head_id (verts f) in
         let ring := FaceVert_Extend (verts f) (fv_next hs) idx in
         let hs := {| store := store hs; fv_next := fv_next hs + 1; faces := faces hs;
                      faces_with_pts := faces_with_pts hs |} in
         let hs := set_face hs fc (set_verts f ring) in
         let hs := set_neighbor hs (fc, last_id ring) face_prev in
         Some (fc, hs, (fc, last_id ring))
       else None
     else
       '(fc, hs) <- Face_New idx (rle_idx rle) (b_prev_idx st) hs data ;;
       let ring := verts (get_face hs fc) in
       let hs := set_neighbor hs (fc, last_id ring) face_prev in
       let hs := set_neighbor hs (fc, second_id ring) (rle_neighbor rle) in
       vcur <- FaceVert_FindEdge (verts (get_face hs (rle_neighbor rle)))
                 (b_prev_idx st) (rle_idx rle) ;;
       let hs := set_neighbor hs (rle_neighbor rle, fv_id vcur) fc in
       Some (fc, hs, (fc, last_id ring))) ;;
  let first_neighbor :=
    match b_first_neighbor st with Some p => Some p | None => Some fn_here end in
  let hs := match b_neighbor_prev st with
            | Some ptr => set_neighbor hs ptr fc
            | None => hs
            end in
  let neighbor_prev :=
    if rle_extend rle
    then (rle_neighbor rle, head_id (verts (get_face hs (rle_neighbor rle))))
    else (fc, head_id (verts (get_face hs fc))) in
  let first_face := if (b_first_face st =? 0)%Z then fc else b_first_face st in
  let '(hs, pool) := Face_AssignPoints hs fc (b_pool st) data in
  let hs := Face_Update hs fc in
  Some {| b_hs := hs; b_pool := pool; b_first_neighbor := first_neighbor;
          b_neighbor_prev := Some neighbor_prev; b_first_face := first_face;
          b_face := fc; b_face_prev := fc; b_prev_idx := rle_idx rle |}.

Definition BuildNewFaces (rl : list ridge_list_elem) (pool : point_list) (hs : hull)
    (data : list (list F)) : option (hull * point_list) :=
  match elems pool, rev rl with
  | idx :: _, tail :: _ =>
      st <- fold_left (BuildNewFaces_step idx data) rl
              (Some {| b_hs := hs; b_pool := pool; b_first_neighbor := None;
                       b_neighbor_prev := None; b_first_face := 0; b_face := 0;
                       b_face_prev := 0; b_prev_idx := rle_idx tail |}) ;;
      fnb <- b_first_neighbor st ;;
      npv <- b_neighbor_prev st ;;
      let hs := set_neighbor (b_hs st) fnb (b_face st) in
      let hs := set_neighbor hs npv (b_first_face st) in
      Some (hs, b_pool st)
  | _, _ => None
  end.


(** [InitSimplex]: the two extreme points in x, then the point with the
    largest summed distance to them. *)
Definition pick_extremes (len : nat) (data : list (list F)) : nat * nat :=
  let '(_, _, min_idx, max_idx) :=
    fold_left (fun (st : F * F * nat * nat) idx =>
                 let '(min_f, max_f, min_idx, max_idx) := st in
                 let ff := (point data idx).[0] in
                 let '(max_f, max_idx) :=
                   if (ff >? max_f)%fl then (ff, idx) else (max_f, max_idx) in
                 let '(min_f, min_idx) :=
                   if (ff <? min_f)%fl then (ff, idx) else (min_f, min_idx) in
                 (min_f, max_f, min_idx, max_idx))
              (seq 0 len) (f_inf, f_neg f_inf, O, O) in
  (min_idx, max_idx).

Definition pick_third (len : nat) (data : list (list F)) (min_idx max_idx : nat) : nat :=
  snd (fold_left (fun (st : F * nat) idx =>
                    let '(dd_f, dd_idx) := st in
                    let dist := (Dist (point data idx) (point data min_idx)
                                 + Dist (point data idx) (point data max_idx))%fl in
                    if (dist >? dd_f)%fl then (dist, idx) else (dd_f, dd_idx))
                 (seq 0 len) (f_zero, O)).

(** Sorting the other points as above ([face->pts]), coplanar ([pool]) or
    below ([below]). *)
Definition classify_step (f : face) (data : list (list F)) (skip : nat * nat * nat)
    (st : point_list * point_list * point_list) (idx : nat)
  : point_list * point_list * point_list :=
  let '(above, pool, below) := st in
  let '(a, b, c) := skip in
  if Nat.eqb idx a || Nat.eqb idx b || Nat.eqb idx c then st
  else
    let '(cat, dist) := Categorize f idx data in
    match cat with
    | Delete => (PointList_Add above idx dist, pool, below)
    | Extend => (above, PointList_Add pool idx (f_abs dist), below)
    | Present => (above, pool, PointList_Add below idx (f_neg dist))
    end.

Definition classify (f : face) (data : list (list F)) (len : nat) (skip : nat * nat * nat)
  : point_list * point_list * point_list :=
  fold_left (classify_step f data skip) (seq 0 len)
    (pts f, PointList_New, PointList_New).

(** "If furthest point was above, flip face". *)
Definition flip_test (above below : point_list) : bool :=
  (max_dist above >? max_dist below)%fl.

Definition swap_first_two (ring : list face_vert) : list face_vert :=
  match ring with
  | a :: b :: rest =>
      {| fv_id := fv_id a; fv_idx := fv_idx b; neighbor := neighbor a |} ::
      {| fv_id := fv_id b; fv_idx := fv_idx a; neighbor := neighbor b |} :: rest
  | _ => ring
  end.

Definition flip_face (f : face) (above below : point_list) : face * point_list :=
  if flip_test above below then
    ({| verts := swap_first_two (verts f);
        norm := [f_neg (norm f).[0]; f_neg (norm f).[1]; f_neg (norm f).[2]];
        xx := xx f; yy := yy f; pts := below; node := node f |}, above)
  else (set_pts f above, below).

Inductive init_error := Too_few | Colinear | Coplanar | Internal.

Definition initial_triangle (len : nat) (data : list (list F)) : nat * nat * nat :=
  let '(min_idx, max_idx) := pick_extremes len data in
  (min_idx, max_idx, pick_third len data min_idx max_idx).

(** [InitSimplex]: the hull after the first four faces, or the error. *)
Definition InitSimplex (len : nat) (data : list (list F)) (hs : hull)
  : hull + init_error :=
  if (len <? 4)%nat then inr Too_few
  else
    let '(min_idx, max_idx, dd_idx) := initial_triangle len data in
    match Face_New min_idx max_idx dd_idx hs data with
    | None => inr Internal
    | Some (fc, hs) =>
        let f := get_face hs fc in
        if (Norm2 (norm f) =? f_zero)%fl then inr Colinear
        else
          let '(above, pool, below) := classify f data len (min_idx, max_idx, dd_idx) in
          let '(f, below) := flip_face f above below in
          let hs := set_face hs fc f in
          match elems below with
          | [] => inr Coplanar
          | _ =>
              let hs := Face_Update hs fc in
              let '(pool, below) := PointList_Join pool below in
              let rl := map (fun fv => {| rle_idx := fv_idx fv; rle_extend := false;
                                          rle_neighbor := fc |})
                            (verts (get_face hs fc)) in
              match BuildNewFaces rl pool hs data with
              | Some (hs, _) => inl hs
              | None => inr Internal
              end
          end
    end.

(** unique_queue.c: a list of values and the table of the values that are
    queued. *)
Record unique_queue := { uq_hash : Hash.hash Z Z; uq_items : list Z }.

Definition UniqueQueue_New : option unique_queue :=
  if alloc_ok 24 then
    h <- Hash.Hash_New Z Z ;; Some {| uq_hash := h; uq_items := [] |}
  else None.

(** [UniqueQueue_PushBack]: 0 for a value that is queued, 1 for a value it
    appends, -1 when it cannot. *)
Definition UniqueQueue_PushBack (uq : unique_queue) (value : Z) : Z * unique_queue :=
  let old := match Ptr_Lookup (uq_hash uq) value with Some d => d | None => 0 end in
  if negb (old =? 0)%Z then (0, uq)
  else
    let '(r, h) := Ptr_Insert (uq_hash uq) value PRESENT in
    if (r <? 0)%Z then (-1, uq)
    else if alloc_ok 16 then
      (1, {| uq_hash := h; uq_items := uq_items uq ++ [value] |})
    else (-1, {| uq_hash := Ptr_Remove h value; uq_items := uq_items uq |}).

(** [UniqueQueue_Pop]: the head, which leaves the table; NULL when there
    is none. *)
Definition UniqueQueue_Pop (uq : unique_queue) : Z * unique_queue :=
  match uq_items uq with
  | [] => (0, uq)
  | value :: rest =>
      (value, {| uq_hash := Ptr_Remove (uq_hash uq) value; uq_items := rest |})
  end.

Definition visible (visited : Hash.hash Z Z) (p : Z) : bool :=
  match Ptr_Lookup visited p with
  | Some c => (c =? cat_ptr Delete)%Z || (c =? cat_ptr Extend)%Z
  | None => false
  end.

Definition is_cat (visited : Hash.hash Z Z) (p : Z) (c : category) : bool :=
  match Ptr_Lookup visited p with
  | Some c' => (c' =? cat_ptr c)%Z
  | None => false
  end.

Definition rotate1 {A} (l : list A) : list A :=
  match l with [] => [] | a :: rest => rest ++ [a] end.

Definition rotate_back1 {A} (l : list A) : list A :=
  match rev l with [] => [] | a :: rest => a :: rev rest end.

(** [FaceVert_PrepForRetention]: turn the ring to the first node whose
    neighbor is marked [DELETE]. *)
Fixpoint PrepForRetention (fuel : nat) (visited : Hash.hash Z Z) (ring : list face_vert)
  : option (list face_vert) :=
  match fuel with
  | O => None
  | S fuel' =>
      match ring with
      | [] => None
      | cur :: _ =>
          if is_cat visited (neighbor cur) Delete then Some ring
          else PrepForRetention fuel' visited (rotate1 ring)
      end
  end.

(** [FaceVert_PrepForExtend]: back to a node with a hidden neighbor,
    forward to the first with a visible one, then unlink the nodes that
    follow it as long as their neighbors are visible. *)
Fixpoint turn_back (fuel : nat) (visited : Hash.hash Z Z) (ring : list face_vert)
  : option (list face_vert) :=
  match fuel with
  | O => None
  | S fuel' =>
      match ring with
      | [] => None
      | cur :: _ =>
          if visible visited (neighbor cur) then turn_back fuel' visited (rotate_back1 ring)
          else Some ring
      end
  end.

Fixpoint turn_forward (fuel : nat) (visited : Hash.hash Z Z) (ring : list face_vert)
  : option (list face_vert) :=
  match fuel with
  | O => None
  | S fuel' =>
      match ring with
      | [] => None
      | cur :: _ =>
          if visible visited (neighbor cur) then Some ring
          else turn_forward fuel' visited (rotate1 ring)
      end
  end.

Fixpoint unlink_visible (fuel : nat) (visited : Hash.hash Z Z) (ring : list face_vert)
  : option (list face_vert) :=
  match fuel with
  | O => None
  | S fuel' =>
      match ring with
      | cur :: nxt :: rest =>
          if visible visited (neighbor nxt) then unlink_visible fuel' visited (cur :: rest)
          else Some ring
      | [cur] =>
          if visible visited (neighbor cur) then None else Some ring
      | [] => None
      end
  end.

Definition PrepForExtend (visited : Hash.hash Z Z) (ring : list face_vert)
  : option (list face_vert) :=
  let fuel := S (length ring) in
  r1 <- turn_back fuel visited ring ;;
  r2 <- turn_forward fuel visited r1 ;;
  unlink_visible fuel visited r2.

(** [RidgeListElem_NewV]: prepare the neighbor's ring, then take the index
    after its first node. *)
Definition RidgeListElem_NewV (hs : hull) (nb : Z) (visited : Hash.hash Z Z)
  : run (hull * ridge_list_elem) :=
  let f := get_face hs nb in
  let extend := is_cat visited nb Extend in
  match (if extend then PrepForExtend visited (verts f)
         else PrepForRetention (S (length (verts f))) visited (verts f)) with
  | None => Stuck
  | Some ring =>
      match ring_next ring 0 with
      | None => Stuck
      | Some nx =>
          Done (set_face hs nb (set_verts f ring),
                {| rle_idx := fv_idx nx; rle_extend := extend; rle_neighbor := nb |})
      end
  end.

Definition rl_tail_idx (rl : list ridge_list_elem) : nat :=
  match rev rl with [] => O | r :: _ => rle_idx r end.

(** Tracing the horizon ridge from the first ridge element on. *)
Fixpoint trace_ridge (fuel : nat) (hs : hull) (visited : Hash.hash Z Z)
    (rl : list ridge_list_elem) (fc : Z) (first_idx : nat)
  : run (hull * list ridge_list_elem) :=
  match fuel with
  | O => Stuck
  | S fuel' =>
      if Nat.eqb (rl_tail_idx rl) first_idx then Done (hs, rl)
      else
        match find_vert (verts (get_face hs fc)) (rl_tail_idx rl) with
        | None => Failed
        | Some (n, cur) =>
            let nb := neighbor cur in
            if is_cat visited nb Delete then
              match ring_next (verts (get_face hs fc)) n with
              | Some nx =>
                  trace_ridge fuel' hs visited
                    (rl ++ [ {| rle_idx := fv_idx nx; rle_extend := false;
                                rle_neighbor := fc |} ]) fc first_idx
              | None => Failed
              end
            else if is_cat visited nb Extend then
              match RidgeListElem_NewV hs nb visited with
              | Done (hs', rle) => trace_ridge fuel' hs' visited (rl ++ [rle]) nb first_idx
              | Failed => Failed
              | Stuck => Stuck
              end
            else trace_ridge fuel' hs visited rl nb first_idx
        end
  end.

(** The flood over the faces that see the point. *)
Fixpoint flood (fuel : nat) (hs : hull) (visited : Hash.hash Z Z) (queued : unique_queue)
    (pool : point_list) (fc : Z) (no_view : Z) (idx : nat) (data : list (list F))
  : run (hull * Hash.hash Z Z * unique_queue * point_list * Z) :=
  match fuel with
  | O => Stuck
  | S fuel' =>
      let cat := fst (Categorize (get_face hs fc) idx data) in
      let '(r, visited) := Ptr_Insert visited fc (cat_ptr cat) in
      if (r <? 0)%Z then Failed
      else
        let '(hs, oq, pool, no_view) :=
          if negb (category_eqb cat Delete) then (hs, Some queued, pool, fc)
          else
            let f := get_face hs fc in
            let '(pool, fpts) :=
              PointList_Join pool {| elems := elems (pts f); max_dist := f_zero |} in
            let hs := set_face hs fc (set_pts f fpts) in
            let oq :=
              fold_left (fun o fv =>
                           q <- o ;;
                           match Ptr_Lookup visited (neighbor fv) with
                           | Some _ => Some q
                           | None =>
                               let '(r, q') := UniqueQueue_PushBack q (neighbor fv) in
                               if (r <? 0)%Z then None else Some q'
                           end) (verts f) (Some queued) in
            (hs, oq, pool, no_view) in
        match oq with
        | None => Failed
        | Some queued =>
            let '(nxt, queued) := UniqueQueue_Pop queued in
            if (nxt =? 0)%Z then Done (hs, visited, queued, pool, no_view)
            else flood fuel' hs visited queued pool nxt no_view idx data
        end
  end.

(** One turn of the main loop of [FindHull], for the face [fc] that
    [FTree_Highest] returned. *)
Definition find_delete_face (hs : hull) (fc : Z) (idx : nat) (data : list (list F))
  : option Z :=
  if category_eqb (fst (Categorize (get_face hs fc) idx data)) Delete then Some fc
  else
    match find (fun fv => category_eqb
                            (fst (Categorize (get_face hs (neighbor fv)) idx data)) Delete)
               (verts (get_face hs fc)) with
    | Some fv => Some (neighbor fv)
    | None => None
    end.

Definition FindHull_turn (fuel : nat) (hs : hull) (visited : Hash.hash Z Z)
    (queued : unique_queue) (fc : Z) (data : list (list F))
  : run (hull * Hash.hash Z Z * unique_queue) :=
  let f := get_face hs fc in
  match elems (pts f) with
  | [] => Done (Face_Update hs fc, visited, queued)
  | _ =>
      let '(pool, fpts) := PointList_Join PointList_New (pts f) in
      let hs := set_face hs fc (set_pts f fpts) in
      match elems pool with
      | [] => Failed
      | idx :: _ =>
          match find_delete_face hs fc idx data with
          | None =>
              (* no deletion face: hand the pool back and drop the rest *)
              let '(hs, pool) := Face_AssignPoints hs fc pool data in
              let hs := Face_Update hs fc in
              let '(hs, pool) :=
                fold_left (fun (st : hull * point_list) fv =>
                             let '(hs, pool) := st in
                             let '(hs, pool) := Face_AssignPoints hs (neighbor fv) pool data in
                             (Face_Update hs fc, pool))
                          (verts (get_face hs fc)) (hs, pool) in
              Done (hs, visited, queued)
          | Some dface =>
                  match flood fuel hs visited queued pool dface 0 idx data with
                  | Stuck => Stuck
                  | Failed => Failed
                  | Done (hs, visited, queued, pool, no_view) =>
                      if (no_view =? 0)%Z then Failed
                      else
                        match RidgeListElem_NewV hs no_view visited with
                        | Stuck => Stuck
                        | Failed => Failed
                        | Done (hs, rle) =>
                            let first_idx :=
                              match verts (get_face hs no_view) with
                              | fv :: _ => fv_idx fv
                              | [] => O
                              end in
                            match trace_ridge fuel hs visited [rle] (rle_neighbor rle)
                                    first_idx with
                            | Stuck => Stuck
                            | Failed => Failed
                            | Done (hs, rl) =>
                                let hs :=
                                  fold_left (fun hs e =>
                                     let c := Hash.data e in
                                     if (c =? cat_ptr Delete)%Z || (c =? cat_ptr Extend)%Z then
                                       let hs := Face_Update hs (Hash.key e) in
                                       if (c =? cat_ptr Delete)%Z
                                       then set_faces hs (Ptr_Remove (faces hs) (Hash.key e))
                                       else hs
                                     else hs)
                                    (Hash.elements visited) hs in
                                match BuildNewFaces rl pool hs data with
                                | None => Failed
                                | Some (hs, _) => Done (hs, Hash.Hash_Clear visited, queued)
                                end
                            end
                        end
                  end
          end
      end
  end.

Fixpoint FindHull_loop (fuel : nat) (hs : hull) (visited : Hash.hash Z Z)
    (queued : unique_queue) (data : list (list F)) : run hull :=
  match fuel with
  | O => Stuck
  | S fuel' =>
      match FTree.FTree_Highest (faces_with_pts hs) with
      | None => Done hs
      | Some (_, fc) =>
          match FindHull_turn fuel' hs visited queued fc data with
          | Done (hs, visited, queued) => FindHull_loop fuel' hs visited queued data
          | Failed => Failed
          | Stuck => Stuck
          end
      end
  end.

Definition FindHull (fuel : nat) (hs : hull) (data : list (list F)) : run hull :=
  if alloc_ok 24 && alloc_ok 16 then
    match Hash.Hash_New Z Z, UniqueQueue_New with
    | Some visited, Some queued => FindHull_loop fuel hs visited queued data
    | _, _ => Failed
    end
  else Failed.

(** [BuildVl]: every face as a fan of triangles around its first vertex. *)
Fixpoint fan (first : nat) (ring : list face_vert) : list nat :=
  match ring with
  | prev :: ((cur :: _) as rest) => first :: fv_idx cur :: fv_idx prev :: fan first rest
  | _ => []
  end.

Definition BuildVl_AddFace (out : @VL.lp_vertex_list F) (f : face) (data : list (list F))
  : option (@VL.lp_vertex_list F) :=
  match verts f with
  | first :: rest =>
      fold_left (fun o idx =>
                   vl <- o ;;
                   let '(r, vl') := VL.LP_VertexList_Add vl (point data idx) in
                   if (VL.c_ret r =? UINT_MAX)%Z then None else Some vl')
                (fan (fv_idx first) rest) (Some out)
  | [] => Some out
  end.

Definition BuildVl (hs : hull) (data : list (list F)) : option (@VL.lp_vertex_list F) :=
  out <- VL.LP_VertexList_New 3 lp_pt_triangle ;;
  fold_left (fun o e => vl <- o ;; BuildVl_AddFace vl (get_face hs (Hash.key e)) data)
            (Hash.elements (faces hs)) (Some out).

(** The list whose points [LP_ConvexHull] works on: the input itself when
    it has three floats per vertex, else the first three floats of every
    vertex, added to [in3] (which merges equal points). *)
Definition hull_points (in3 vin : @VL.lp_vertex_list F) : option (@VL.lp_vertex_list F) :=
  let fpv := VL.LP_VertexList_FloatsPerVert vin in
  if negb (fpv =? 3)%Z then
    if (fpv <? 3)%Z then None
    else
      fold_left (fun o v =>
                   vl <- o ;;
                   let '(r, vl') := VL.LP_VertexList_Add vl v in
                   if (VL.c_ret r =? UINT_MAX)%Z then None else Some vl')
                (firstn (Z.to_nat (VL.LP_VertexList_NumVert vin)) (VL.vert vin))
                (Some in3)
  else Some vin.

(** [LP_ConvexHull(in)]: the hull, or NULL. *)
Definition LP_ConvexHull (fuel : nat) (vin : @VL.lp_vertex_list F)
  : run (@VL.lp_vertex_list F) :=
  match VL.LP_VertexList_New 3 lp_pt_triangle with
  | None => Failed
  | Some in3 =>
      match hull_points in3 vin with
      | None => Failed
      | Some vin =>
          let data := VL.vert vin in
          let len := Z.to_nat (VL.LP_VertexList_NumVert vin) in
          match Hash.Hash_New Z Z with
          | None => Failed
          | Some fcs =>
              if alloc_ok 32 then
                match InitSimplex len data
                        {| store := []; fv_next := 1; faces := fcs;
                           faces_with_pts := FTree.FTree_New |} with
                | inr _ => Failed
                | inl hs =>
                    match FindHull fuel hs data with
                    | Stuck => Stuck
                    | Failed => Failed
                    | Done hs => of_option (BuildVl hs data)
                    end
                end
              else Failed
          end
      end
  end.

End Hull.
End ConvexHull.

(** ** queue.c *)

Module Queue.
Section Q.
Context `{Env}.

(** The queue as the list of its values from head to tail; [len] is its
    length. *)
Definition queue := list Z.

Definition Queue_New : option queue := if alloc_ok 24 then Some [] else None.

Definition Queue_Length (q : queue) : Z := Z.of_nat (length q).

Definition Queue_PushBack (q : queue) (value : Z) : option queue :=
  if alloc_ok 16 then Some (q ++ [value]) else None.

Definition Queue_Push (q : queue) (value : Z) : option queue :=
  if alloc_ok 16 then Some (value :: q) else None.

(** [Queue_Pop]: NULL on an empty queue. *)
Definition Queue_Pop (q : queue) : Z * queue :=
  match q with
  | [] => (0, [])
  | v :: rest => (v, rest)
  end.

End Q.
End Queue.

(** ** vef.c *)

Module Vef.
Import Util.
Section VefModel.
Context `{Env} {F : Type} `{FloatOps F} `{FloatRepr F}.

(** Vertices, edges and faces live at addresses; address [i + 1] is cell
    [i] of its store, 0 is NULL.  The fields of an edge and of a face that
    only [Vef_CalcInfo], [Vef_CalcBasis] and [Vef_CalcCoord2D] fill in are
    left out. *)
Record vert := { point : list F; v_edges : Hash.hash Z Z }.
Record edge := { e_vert : list Z; e_face : list Z }.
Record face := { f_vert : list Z; f_edge : list Z; f_norm : list F; f_dist : F }.

Record vef := {
  verts : Hash.hash (list F) Z;
  edges : Hash.hash Z Z;
  faces : Hash.hash Z Z;
  vmin : list F;
  vmax : list F;
  vert_mem : list vert;
  edge_mem : list edge;
  face_mem : list face
}.

Definition null_vert : vert :=
  {| point := []; v_edges := {| Hash.num_buckets := 0; Hash.num_items := 0;
                                Hash.buckets := []; Hash.secret := [] |} |}.
Definition null_edge : edge := {| e_vert := [0; 0]; e_face := [0; 0] |}.
Definition null_face : face :=
  {| f_vert := [0; 0; 0]; f_edge := [0; 0; 0]; f_norm := []; f_dist := f_zero |}.

Definition get_vert (v : vef) (p : Z) : vert := nth (Z.to_nat (p - 1)) (vert_mem v) null_vert.
Definition get_edge (v : vef) (p : Z) : edge := nth (Z.to_nat (p - 1)) (edge_mem v) null_edge.
Definition get_face (v : vef) (p : Z) : face := nth (Z.to_nat (p - 1)) (face_mem v) null_face.

(** The table of vertices is keyed by the 12 bytes of a point
    ([Hash_NewFixed(3 * sizeof(float), ...)]); a key is a copy of them. *)
Definition point_size : nat := 12.

Definition Fixed_Lookup (h : Hash.hash (list F) Z) (pt : list F) : option Z :=
  Hash.Hash_Lookup vert_bytes vert_bytes point_size h pt.

Definition FixedCopyKey (u : unit) (key : list F) : option (list F * unit) :=
  if alloc_ok (Z.of_nat point_size) then Some (firstn 3 key, u) else None.

Definition Fixed_Insert (h : Hash.hash (list F) Z) (pt : list F) (d : Z)
  : Z * Hash.hash (list F) Z :=
  let '(r, h', _, _) :=
    Hash.Hash_Insert vert_bytes vert_bytes point_size FixedCopyKey h tt pt d in
  (r, h').

Definition Ptr_Lookup (h : Hash.hash Z Z) (p : Z) : option Z :=
  Hash.Hash_Lookup ptr_bytes ptr_bytes 8 h p.

Definition Ptr_Insert (h : Hash.hash Z Z) (p d : Z) : Z * Hash.hash Z Z :=
  let '(r, h', _, _) :=
    Hash.Hash_Insert ptr_bytes ptr_bytes 8 (fun (u : unit) q => Some (q, u)) h tt p d in
  (r, h').

(** A lookup "finds" when it returns a pointer that is not NULL. *)
Definition found (o : option Z) : Z :=
  match o with Some d => d | None => 0 end.

Definition set_verts (v : vef) (h : Hash.hash (list F) Z) (mn mx : list F)
    (mem : list vert) : vef :=
  {| verts := h; edges := edges v; faces := faces v; vmin := mn; vmax := mx;
     vert_mem := mem; edge_mem := edge_mem v; face_mem := face_mem v |}.

Definition set_vert_mem (v : vef) (mem : list vert) : vef :=
  set_verts v (verts v) (vmin v) (vmax v) mem.

Definition set_edges (v : vef) (h : Hash.hash Z Z) (mem : list edge) : vef :=
  {| verts := verts v; edges := h; faces := faces v; vmin := vmin v; vmax := vmax v;
     vert_mem := vert_mem v; edge_mem := mem; face_mem := face_mem v |}.

Definition set_faces (v : vef) (h : Hash.hash Z Z) (mem : list face) : vef :=
  {| verts := verts v; edges := edges v; faces := h; vmin := vmin v; vmax := vmax v;
     vert_mem := vert_mem v; edge_mem := edge_mem v; face_mem := mem |}.

Definition lower (pt mn : list F) : list F :=
  map (fun c => if (pt.[c] <? mn.[c])%fl then pt.[c] else mn.[c]) [0; 1; 2]%nat.

Definition raise (pt mx : list F) : list F :=
  map (fun c => if (pt.[c] >? mx.[c])%fl then pt.[c] else mx.[c]) [0; 1; 2]%nat.

(** [Vert_New(pt, vef)]: the vertex with these bytes, made if there is none. *)
Definition Vert_New (pt : list F) (v : vef) : option (Z * vef) :=
  let old := found (Fixed_Lookup (verts v) pt) in
  if negb (old =? 0) then Some (old, v)
  else if alloc_ok 24 then
    eh <- Hash.Hash_New Z Z ;;
    let p := Z.of_nat (length (vert_mem v)) + 1 in
    let nv := {| point := firstn 3 pt; v_edges := eh |} in
    let '(r, h') := Fixed_Insert (verts v) (point nv) p in
    if r <? 0 then None
    else Some (p, set_verts v h' (lower pt (vmin v)) (raise pt (vmax v))
                           (vert_mem v ++ [nv]))
  else None.

Definition set_v_edges (v : vef) (p : Z) (h : Hash.hash Z Z) : vef :=
  set_vert_mem v (list_set (Z.to_nat (p - 1))
                           {| point := point (get_vert v p); v_edges := h |} (vert_mem v)).

(** [Edge_New(v1, v2, vef)]: the edge from [v1] to [v2], made if [v1] does
    not list one. *)
Definition Edge_New (v1 v2 : Z) (v : vef) : option (Z * vef) :=
  let old := found (Ptr_Lookup (v_edges (get_vert v v1)) v2) in
  if negb (old =? 0) then Some (old, v)
  else if alloc_ok 64 then
    let p := Z.of_nat (length (edge_mem v)) + 1 in
    let ne := {| e_vert := [v1; v2]; e_face := [0; 0] |} in
    let '(r1, h1) := Ptr_Insert (v_edges (get_vert v v1)) v2 p in
    if r1 <? 0 then None
    else
      let v := set_v_edges v v1 h1 in
      let '(r2, h2) := Ptr_Insert (v_edges (get_vert v v2)) v1 p in
      if r2 <? 0 then None
      else
        let v := set_v_edges v v2 h2 in
        let '(r3, h3) := Ptr_Insert (edges v) p PRESENT in
        if r3 <? 0 then None
        else Some (p, set_edges v h3 (edge_mem v ++ [ne]))
  else None.

Definition set_e_face (v : vef) (e : Z) (fc : Z) : vef :=
  let ed := get_edge v e in
  let slot := if nth 0 (e_face ed) 0 =? 0 then 0%nat else 1%nat in
  set_edges v (edges v)
    (list_set (Z.to_nat (e - 1))
              {| e_vert := e_vert ed; e_face := list_set slot fc (e_face ed) |}
              (edge_mem v)).

(** The loop of [Face_New] over the three sides. *)
Fixpoint face_edges (fc : Z) (vs : list Z) (counts : list nat) (v : vef)
  : option (list Z * vef) :=
  match counts with
  | [] => Some ([], v)
  | count :: rest =>
      '(e, v) <- Edge_New (nth count vs 0) (nth ((count + 1) mod 3) vs 0) v ;;
      let v := set_e_face v e fc in
      '(es, v) <- face_edges fc vs rest v ;;
      Some (e :: es, v)
  end.

(** [Face_New(p1, p2, p3, vef)]. *)
Definition Face_New (p1 p2 p3 : list F) (v : vef) : option (Z * vef) :=
  if alloc_ok 112 then
    let nrm := PlaneNorm p1 p2 p3 in
    let dist := Dot nrm p1 in
    let fc := Z.of_nat (length (face_mem v)) + 1 in
    '(a, v) <- Vert_New p1 v ;;
    '(b, v) <- Vert_New p2 v ;;
    '(c, v) <- Vert_New p3 v ;;
    '(es, v) <- face_edges fc [a; b; c] [0; 1; 2]%nat v ;;
    let '(r, h) := Ptr_Insert (faces v) fc PRESENT in
    if r <? 0 then None
    else Some (fc, set_faces v h
                     (face_mem v ++ [ {| f_vert := [a; b; c]; f_edge := es;
                                         f_norm := nrm; f_dist := dist |} ]))
  else None.

(** [Face_Adj(face, count)]: the face on the other side of side [count]. *)
Definition Face_Adj (v : vef) (fc : Z) (count : nat) : Z :=
  let ed := get_edge v (nth count (f_edge (get_face v fc)) 0) in
  nth (if nth 0 (e_face ed) 0 =? fc then 1%nat else 0%nat) (e_face ed) 0.

(** [Vef_New(vl)]: a face for every three indices.  The loop runs while
    [count < num - 2] in unsigned arithmetic; reading past the index array
    has no result. *)
Fixpoint Vef_New_loop (fuel : nat) (count num : Z) (vl : @VL.lp_vertex_list F) (v : vef)
  : run vef :=
  match fuel with
  | O => Stuck
  | S fuel' =>
      if count <? (num - 2) mod (SIZE_MAX + 1) then
        if count + 2 <? num then
          match Face_New (VL.LP_VertexList_LookupVert vl count)
                         (VL.LP_VertexList_LookupVert vl (count + 1))
                         (VL.LP_VertexList_LookupVert vl (count + 2)) v with
          | Some (_, v') => Vef_New_loop fuel' (count + 3) num vl v'
          | None => Failed
          end
        else Stuck
      else Done v
  end.

Definition Vef_New (vl : @VL.lp_vertex_list F) : run vef :=
  if alloc_ok 48 && alloc_ok 40 then
    match Hash.Hash_New (list F) Z, Hash.Hash_New Z Z, Hash.Hash_New Z Z with
    | Some hv, Some he, Some hf =>
        Vef_New_loop (S (Z.to_nat (VL.LP_VertexList_NumInd vl))) 0
          (VL.LP_VertexList_NumInd vl) vl
          {| verts := hv; edges := he; faces := hf;
             vmin := [f_inf; f_inf; f_inf];
             vmax := [f_neg f_inf; f_neg f_inf; f_neg f_inf];
             vert_mem := []; edge_mem := []; face_mem := [] |}
    | _, _, _ => Failed
    end
  else Failed.

(** The search of [Vef_ConvexInteriorDist]: the state is the table of seen
    faces, the queue, [min] and [min_face]; the result is [min] and
    [min_face], or the error value. *)
Definition visit_adjacent (v : vef) (fc : Z) (st : option (Hash.hash Z Z * Queue.queue))
    (count : nat) : option (Hash.hash Z Z * Queue.queue) :=
  '(seen, q) <- st ;;
  let adj := Face_Adj v fc count in
  if negb (found (Ptr_Lookup seen adj) =? 0) then Some (seen, q)
  else
    let '(r, seen') := Ptr_Insert seen adj PRESENT in
    if r <? 0 then None
    else q' <- Queue.Queue_PushBack q adj ;; Some (seen', q').

Fixpoint search (fuel : nat) (v : vef) (pt : list F) (tol : F)
    (seen : Hash.hash Z Z) (q : Queue.queue) (min : F) (min_face : Z)
  : run (F * Z) :=
  match fuel with
  | O => Stuck
  | S fuel' =>
      if Queue.Queue_Length q >? 0 then
        let '(fc, q) := Queue.Queue_Pop q in
        if fc =? 0 then Failed
        else
          let f := get_face v fc in
          let dist := (f_dist f - Dot (f_norm f) pt)%fl in
          if (dist <? f_neg tol)%fl then Done (dist, fc)
          else if (dist >? min + tol)%fl then search fuel' v pt tol seen q min min_face
          else
            let '(min, min_face) :=
              if (dist <? min)%fl then (dist, fc) else (min, min_face) in
            match fold_left (visit_adjacent v fc) [0; 1; 2]%nat (Some (seen, q)) with
            | None => Failed
            | Some (seen, q) => search fuel' v pt tol seen q min min_face
            end
      else Done (min, min_face)
  end.

(** [Vef_ConvexInteriorDist(vef, pt, start)]: [start] is [None] for a NULL
    argument, else the face [*start] (0 for NULL).  The result is the
    returned distance and [*start] after the call. *)
Definition Vef_ConvexInteriorDist (fuel : nat) (v : vef) (pt : list F) (start : option Z)
  : run (F * option Z) :=
  let tol := f_scale C_1e_6 (Dist (vmax v) (vmin v)) in
  if negb (found (Fixed_Lookup (verts v) pt) =? 0) then Done (f_zero, start)
  else
    let err := Done (f_neg f_inf, start) in
    match Hash.Hash_New Z Z with
    | None => err
    | Some seen =>
        match Queue.Queue_New with
        | None => err
        | Some q =>
            let first :=
              match start with
              | Some s => if negb (s =? 0) then s
                          else found (Hash.Hash_GetFirstKey (faces v))
              | None => found (Hash.Hash_GetFirstKey (faces v))
              end in
            if first =? 0 then err
            else
              let '(r, seen) := Ptr_Insert seen first PRESENT in
              if r <? 0 then err
              else
                match Queue.Queue_PushBack q first with
                | None => err
                | Some q =>
                    match search fuel v pt tol seen q f_inf 0 with
                    | Stuck => Stuck
                    | Failed => err
                    | Done (min, min_face) =>
                        Done
                          (min, match start with Some _ => Some min_face | None => None end)
                    end
                end
        end
    end.

End VefModel.
End Vef.

(** ** array.c *)

Module Array.
Section Arr.
Context `{Env}.

Record array := { len : Z; num_alloc : Z; data : list Z }.

Definition Array_New (initial_alloc : Z) : option array :=
  if alloc_ok 32 && alloc_ok (initial_alloc * sizeof_ptr)
  then Some {| len := 0; num_alloc := initial_alloc; data := [] |}
  else None.

(** [Array_Add]: the C return value and the array. *)
Definition Array_Add (arr : array) (d : Z) : Z * array :=
  if len arr >=? num_alloc arr then
    if num_alloc arr >=? Z.shiftr SIZE_MAX 1 then (-1, arr)
    else
      let new_alloc := Z.shiftl (num_alloc arr) 1 in
      if alloc_ok (new_alloc * sizeof_ptr)
      then (0, {| len := len arr + 1; num_alloc := new_alloc; data := data arr ++ [d] |})
      else (-1, arr)
  else (0, {| len := len arr + 1; num_alloc := num_alloc arr; data := data arr ++ [d] |}).

Definition Array_Length (arr : array) : Z := len arr.
Definition Array_Data (arr : array) : list Z := data arr.

End Arr.
End Array.

(** ** bvh_vl.c *)

Module Bvh.
Import Array.
Section BvhModel.
Context `{Env} {F : Type} `{FloatOps F}.

(** A node; [BNull] is the NULL pointer, [points] is [None] once the node
    is split.  A point is the index of its vertex in the list. *)
Inductive bvh_node :=
| BNull
| BNode (axis : nat) (bmin bmax : list F) (a b : bvh_node) (points : option array).

Definition coord (verts : list (list F)) (p : Z) (c : nat) : F :=
  (nth (Z.to_nat p) verts []).[c].

Definition BNode_New (init_alloc : Z) : option bvh_node :=
  if alloc_ok 56 then
    arr <- Array_New init_alloc ;;
    Some (BNode 0 [f_inf; f_inf; f_inf] [f_neg f_inf; f_neg f_inf; f_neg f_inf]
                BNull BNull (Some arr))
  else None.

(** The bounding-box update of [BvhVl_New]: per coordinate. *)
Definition grow_min (verts : list (list F)) (p : Z) (mn : list F) : list F :=
  map (fun count => if (coord verts p count <? mn.[count])%fl
                    then coord verts p count else mn.[count]) [0; 1; 2]%nat.

Definition grow_max (verts : list (list F)) (p : Z) (mx : list F) : list F :=
  map (fun count => if (coord verts p count >? mx.[count])%fl
                    then coord verts p count else mx.[count]) [0; 1; 2]%nat.

(** The update of [max] in [Split_BNode]: the test reads [vert[axis]]. *)
Definition grow_max_split (verts : list (list F)) (axis : nat) (p : Z) (mx : list F)
  : list F :=
  map (fun count => if (coord verts p axis >? mx.[count])%fl
                    then coord verts p count else mx.[count]) [0; 1; 2]%nat.

Definition add_point (verts : list (list F)) (axis : nat) (nn : bvh_node) (p : Z)
  : bvh_node :=
  match nn with
  | BNode ax mn mx a b (Some arr) =>
      BNode ax (grow_min verts p mn) (grow_max_split verts axis p mx) a b
            (Some (snd (Array_Add arr p)))
  | _ => nn
  end.

Definition pick_axis (mn mx : list F) : nat :=
  let r0 := (mx.[0] - mn.[0])%fl in
  let r1 := (mx.[1] - mn.[1])%fl in
  let r2 := (mx.[2] - mn.[2])%fl in
  if (r0 >=? r1)%fl && (r0 >=? r2)%fl then 0%nat
  else if (r1 >=? r2)%fl then 1%nat else 2%nat.

Definition split_median (verts : list (list F)) (axis : nat) (pts : list Z)
    (mn mx : list F) : F :=
  let ftree := fold_left (fun t p => FTree.FTree_Insert t (coord verts p axis) p)
                         pts FTree.FTree_New in
  let median := match FTree.FTree_Median ftree with
                | Some (k, _) => k
                | None => f_zero
                end in
  if (median =? mx.[axis])%fl || (median =? mn.[axis])%fl
  then f_scale C_half (mx.[axis] + mn.[axis])%fl
  else median.

(** [Split_BNode(node, dist)]: the C return value and the node. *)
Fixpoint Split_BNode (fuel : nat) (verts : list (list F)) (node : bvh_node) (dist : F)
  : run (Z * bvh_node) :=
  match fuel with
  | O => Stuck
  | S fuel' =>
      match node with
      | BNode _ mn mx a b (Some arr) =>
          let len := Array_Length arr in
          if len <? 4 then Done (0, node)
          else
            let axis := pick_axis mn mx in
            if (mx.[axis] - mn.[axis] <? dist)%fl
            then Done (0, BNode axis mn mx a b (Some arr))
            else if alloc_ok 32 then
              let median := split_median verts axis (Array_Data arr) mn mx in
              match BNode_New len with
              | None => Done (-1, BNode axis mn mx BNull b (Some arr))
              | Some na =>
                  match BNode_New len with
                  | None => Done (-1, BNode axis mn mx na BNull (Some arr))
                  | Some nb =>
                      let '(na, nb) :=
                        fold_left (fun (ab : bvh_node * bvh_node) p =>
                                     if (coord verts p axis <=? median)%fl
                                     then (add_point verts axis (fst ab) p, snd ab)
                                     else (fst ab, add_point verts axis (snd ab) p))
                                  (Array_Data arr) (na, nb) in
                      match Split_BNode fuel' verts na dist with
                      | Done (_, na') =>
                          match Split_BNode fuel' verts nb dist with
                          | Done (_, nb') => Done (0, BNode axis mn mx na' nb' None)
                          | Failed => Failed
                          | Stuck => Stuck
                          end
                      | Failed => Failed
                      | Stuck => Stuck
                      end
                  end
              end
            else Done (-1, BNode axis mn mx a b (Some arr))
      | _ => Stuck
      end
  end.

(** [BvhVl_New(vl, dist)]: the root, or NULL. *)
Definition BvhVl_New (fuel : nat) (vl : @VL.lp_vertex_list F) (dist : F) : run bvh_node :=
  if alloc_ok 16 then
    match BNode_New (VL.LP_VertexList_NumVert vl) with
    | None => Failed
    | Some node =>
        let verts := VL.vert vl in
        let node :=
          fold_left (fun nd p =>
                       match nd with
                       | BNode ax mn mx a b (Some arr) =>
                           BNode ax (grow_min verts p mn) (grow_max verts p mx) a b
                                 (Some (snd (Array_Add arr p)))
                       | _ => nd
                       end)
                    (map Z.of_nat (seq 0 (Z.to_nat (VL.LP_VertexList_NumVert vl)))) node in
        match Split_BNode fuel verts node dist with
        | Done (r, node') => if r <? 0 then Failed else Done node'
        | Failed => Failed
        | Stuck => Stuck
        end
    end
  else Failed.

End BvhModel.
End Bvh.

(** ** plane_cut.c *)

Module PlaneCut.
Import Util.
Section Cut.
Context `{Env} {F : Type} `{FloatOps F} `{FloatRepr F}.

(** [LP_Triangulate2D] (triangulate2d.c) is not modelled.  The cut is
    modelled for whatever the call does with the outline, which it only
    reads: it returns a list ([Done]), it returns NULL ([Failed]), or it
    does not return ([Stuck]). *)
Variable LP_Triangulate2D : @VL.lp_vertex_list F -> run (@VL.lp_vertex_list F).

Record plane := { p_norm : list F; x_axis : list F; y_axis : list F; p_dist : F }.

Record vert := { point : list F; v_edges : Hash.hash Z Z; v_dist : F }.
Record edge := { e_vert : list Z; e_face : list Z; inter : list F; inter_vld : bool }.
Record face := { f_vert : list Z; f_edge : list Z; visited : bool }.

(** A shape: its tables, the outline of the cap, and the vertices, edges
    and faces by address (address [i + 1] is cell [i], 0 is NULL). *)
Record shape := {
  verts : Hash.hash (list F) Z;
  edges : Hash.hash Z Z;
  faces : Hash.hash Z Z;
  pt2d : Hash.hash (list F) Z;
  edge2d : Hash.hash Z Z;
  poly2d : @VL.lp_vertex_list F;
  vert_mem : list vert;
  edge_mem : list edge;
  face_mem : list face
}.

Definition null_table {K} : Hash.hash K Z :=
  {| Hash.num_buckets := 0; Hash.num_items := 0; Hash.buckets := []; Hash.secret := [] |}.
Definition null_vert : vert := {| point := []; v_edges := null_table; v_dist := f_zero |}.
Definition null_edge : edge :=
  {| e_vert := [0; 0]; e_face := [0; 0]; inter := [f_zero; f_zero; f_zero];
     inter_vld := false |}.
(** What a read outside the store of faces finds: nothing to visit. *)
Definition null_face : face := {| f_vert := [0; 0; 0]; f_edge := [0; 0; 0]; visited := true |}.

Definition get_vert (s : shape) (p : Z) : vert := nth (Z.to_nat (p - 1)) (vert_mem s) null_vert.
Definition get_edge (s : shape) (p : Z) : edge := nth (Z.to_nat (p - 1)) (edge_mem s) null_edge.
Definition get_face (s : shape) (p : Z) : face := nth (Z.to_nat (p - 1)) (face_mem s) null_face.

Definition with_verts (s : shape) (h : Hash.hash (list F) Z) (mem : list vert) : shape :=
  {| verts := h; edges := edges s; faces := faces s; pt2d := pt2d s; edge2d := edge2d s;
     poly2d := poly2d s; vert_mem := mem; edge_mem := edge_mem s; face_mem := face_mem s |}.
Definition with_edges (s : shape) (h : Hash.hash Z Z) (mem : list edge) : shape :=
  {| verts := verts s; edges := h; faces := faces s; pt2d := pt2d s; edge2d := edge2d s;
     poly2d := poly2d s; vert_mem := vert_mem s; edge_mem := mem; face_mem := face_mem s |}.
Definition with_faces (s : shape) (h : Hash.hash Z Z) (mem : list face) : shape :=
  {| verts := verts s; edges := edges s; faces := h; pt2d := pt2d s; edge2d := edge2d s;
     poly2d := poly2d s; vert_mem := vert_mem s; edge_mem := edge_mem s; face_mem := mem |}.
Definition with_2d (s : shape) (p : Hash.hash (list F) Z) (e : Hash.hash Z Z)
    (vl : @VL.lp_vertex_list F) : shape :=
  {| verts := verts s; edges := edges s; faces := faces s; pt2d := p; edge2d := e;
     poly2d := vl; vert_mem := vert_mem s; edge_mem := edge_mem s; face_mem := face_mem s |}.

(** Tables keyed by the bytes of [n] floats, and by address. *)
Definition Fixed_Lookup (n : nat) (h : Hash.hash (list F) Z) (key : list F) : Z :=
  match Hash.Hash_Lookup vert_bytes vert_bytes (4 * n) h key with
  | Some d => d
  | None => 0
  end.

Definition Fixed_Insert (n : nat) (h : Hash.hash (list F) Z) (key : list F) (d : Z)
  : Z * Hash.hash (list F) Z :=
  let '(r, h', _, _) :=
    Hash.Hash_Insert vert_bytes vert_bytes (4 * n)
      (fun (u : unit) k => if alloc_ok (Z.of_nat (4 * n)) then Some (firstn n k, u) else None)
      h tt key d in
  (r, h').

Definition Ptr_Lookup (h : Hash.hash Z Z) (p : Z) : Z :=
  match Hash.Hash_Lookup ptr_bytes ptr_bytes 8 h p with
  | Some d => d
  | None => 0
  end.

Definition Ptr_Insert (h : Hash.hash Z Z) (p d : Z) : Z * Hash.hash Z Z :=
  let '(r, h', _, _) :=
    Hash.Hash_Insert ptr_bytes ptr_bytes 8 (fun (u : unit) q => Some (q, u)) h tt p d in
  (r, h').

Definition Ptr_Remove (h : Hash.hash Z Z) (p : Z) : Hash.hash Z Z :=
  snd (Hash.Hash_Remove ptr_bytes ptr_bytes 8 h p).

(** The tolerance of [Vert_New]: [1e-5] times the larger of the point's
    norm and [|plane->dist|]. *)
Definition snap_tol (pl : plane) (pt : list F) : F :=
  let tol := Norm pt in
  let tol := if (f_abs (p_dist pl) >? tol)%fl then f_abs (p_dist pl) else tol in
  f_scale C_1e_5 tol.

(** [vert->dist]: the distance to the plane, exactly zero within the
    tolerance. *)
Definition vert_dist (pl : plane) (pt : list F) : F :=
  let d := (Dot pt (p_norm pl) - p_dist pl)%fl in
  if (f_abs d <? snap_tol pl pt)%fl then f_zero else d.

(** The test of [Edge_New]: the end points lie strictly on opposite sides. *)
Definition straddles (d1 d2 : F) : bool :=
  ((d1 >? f_zero)%fl && (d2 <? f_zero)%fl) || ((d1 <? f_zero)%fl && (d2 >? f_zero)%fl).

(** [edge->inter]. *)
Definition intersection (d1 d2 : F) (p1 p2 : list F) : list F :=
  let x := (f_neg d1 / (d2 - d1))%fl in
  let y := (f_one - x)%fl in
  [ (y * p1.[0] + x * p2.[0])%fl; (y * p1.[1] + x * p2.[1])%fl;
    (y * p1.[2] + x * p2.[2])%fl ].

(** [Vert_New(point, plane, shape)]; [plane] is [None] for NULL. *)
Definition Vert_New (pt : list F) (pl : option plane) (s : shape) : option (Z * shape) :=
  let old := Fixed_Lookup 3 (verts s) pt in
  if negb (old =? 0) then Some (old, s)
  else if alloc_ok 32 then
    let d := match pl with Some p => vert_dist p pt | None => f_zero end in
    eh <- Hash.Hash_New Z Z ;;
    let p := Z.of_nat (length (vert_mem s)) + 1 in
    let '(r, h') := Fixed_Insert 3 (verts s) pt p in
    if r <? 0 then None
    else Some (p, with_verts s h'
                    (vert_mem s ++ [ {| point := firstn 3 pt; v_edges := eh; v_dist := d |} ]))
  else None.

Definition set_v_edges (s : shape) (p : Z) (h : Hash.hash Z Z) : shape :=
  let v := get_vert s p in
  with_verts s (verts s)
    (list_set (Z.to_nat (p - 1)) {| point := point v; v_edges := h; v_dist := v_dist v |}
              (vert_mem s)).

(** [Edge_New(v1, v2, plane, shape)]. *)
Definition Edge_New (v1 v2 : Z) (pl : option plane) (s : shape) : option (Z * shape) :=
  let old := Ptr_Lookup (v_edges (get_vert s v1)) v2 in
  if negb (old =? 0) then Some (old, s)
  else if alloc_ok 48 then
    let p := Z.of_nat (length (edge_mem s)) + 1 in
    let '(r1, h1) := Ptr_Insert (v_edges (get_vert s v1)) v2 p in
    if r1 <? 0 then None
    else
      let s := set_v_edges s v1 h1 in
      let '(r2, h2) := Ptr_Insert (v_edges (get_vert s v2)) v1 p in
      if r2 <? 0 then None
      else
        let s := set_v_edges s v2 h2 in
        let a := get_vert s v1 in
        let b := get_vert s v2 in
        let cut := match pl with
                   | Some _ => straddles (v_dist a) (v_dist b)
                   | None => false
                   end in
        let ne := {| e_vert := [v1; v2]; e_face := [0; 0];
                     inter := if cut
                              then intersection (v_dist a) (v_dist b) (point a) (point b)
                              else [f_zero; f_zero; f_zero];
                     inter_vld := cut |} in
        let '(r3, h3) := Ptr_Insert (edges s) p PRESENT in
        if r3 <? 0 then None
        else Some (p, with_edges s h3 (edge_mem s ++ [ne]))
  else None.

Definition set_e_face (s : shape) (e : Z) (fc : Z) : shape :=
  let ed := get_edge s e in
  let slot := if nth 0 (e_face ed) 0 =? 0 then 0%nat else 1%nat in
  with_edges s (edges s)
    (list_set (Z.to_nat (e - 1))
              {| e_vert := e_vert ed; e_face := list_set slot fc (e_face ed);
                 inter := inter ed; inter_vld := inter_vld ed |}
              (edge_mem s)).

Fixpoint new_verts (pts : list (list F)) (pl : option plane) (s : shape)
  : option (list Z * shape) :=
  match pts with
  | [] => Some ([], s)
  | pt :: rest =>
      '(v, s) <- Vert_New pt pl s ;;
      '(vs, s) <- new_verts rest pl s ;;
      Some (v :: vs, s)
  end.

(** The three sides, from vertex [count] to vertex [(count + 1) % 3];
    [fc] is the face they are entered for, 0 for none. *)
Fixpoint new_edges (fc : Z) (vs : list Z) (counts : list nat) (pl : option plane)
    (s : shape) : option (list Z * shape) :=
  match counts with
  | [] => Some ([], s)
  | count :: rest =>
      '(e, s) <- Edge_New (nth count vs 0) (nth ((count + 1) mod 3) vs 0) pl s ;;
      let s := if fc =? 0 then s else set_e_face s e fc in
      '(es, s) <- new_edges fc vs rest pl s ;;
      Some (e :: es, s)
  end.

(** [Face_New(p1, p2, p3, shape)]. *)
Definition Face_New (p1 p2 p3 : list F) (s : shape) : option (Z * shape) :=
  if alloc_ok 56 then
    let fc := Z.of_nat (length (face_mem s)) + 1 in
    '(vs, s) <- new_verts [p1; p2; p3] None s ;;
    '(es, s) <- new_edges fc vs [0; 1; 2]%nat None s ;;
    let '(r, h) := Ptr_Insert (faces s) fc PRESENT in
    if r <? 0 then None
    else Some (fc, with_faces s h
                     (face_mem s ++ [ {| f_vert := vs; f_edge := es; visited := false |} ]))
  else None.

Definition Make_Quad (p1 p2 p3 p4 : list F) (s : shape) : option shape :=
  if (Dist2 p1 p3 >? Dist2 p2 p4)%fl then
    '(_, s) <- Face_New p2 p3 p4 s ;;
    '(_, s) <- Face_New p1 p2 p4 s ;;
    Some s
  else
    '(_, s) <- Face_New p1 p3 p4 s ;;
    '(_, s) <- Face_New p1 p2 p3 s ;;
    Some s.

Definition Add2dPoint (pt : list F) (pl : plane) (s : shape) : option shape :=
  '(v, s) <- Vert_New pt None s ;;
  let ff := [Dot pt (x_axis pl); Dot pt (y_axis pl)] in
  let '(r, vl) := VL.LP_VertexList_Add (poly2d s) ff in
  if VL.c_ret r =? UINT_MAX then None
  else
    let '(r2, h) := Fixed_Insert 2 (pt2d s) ff v in
    if r2 <? 0 then None else Some (with_2d s h (edge2d s) vl).

Definition side (d : F) : nat := if (d >? f_zero)%fl then 1%nat else 0%nat.

Definition shapes := list shape.
Definition sh (ss : shapes) (i : nat) : shape :=
  nth i ss {| verts := null_table; edges := null_table; faces := null_table;
              pt2d := null_table; edge2d := null_table;
              poly2d := VL.LP_VertexList_Clear
                          {| VL.floats_per_vert := 2; VL.vert_size := 8;
                             VL.primative := lp_pt_line; VL.vert_alloc := 0;
                             VL.vert_used := 0; VL.vert := []; VL.ind_alloc := 0;
                             VL.ind_used := 0; VL.ind := []; VL.vert_hash := None |};
              vert_mem := []; edge_mem := []; face_mem := [] |}.
Definition on_shape (ss : shapes) (i : nat) (f : shape -> option shape) : option shapes :=
  s <- f (sh ss i) ;; Some (list_set i s ss).

Definition is_zero (d : F) : bool := (d =? f_zero)%fl.
Definition count_true (l : list bool) : nat := length (filter (fun b => b) l).

(** [Make_Faces(p1, p2, p3, plane, shape)]: the triangle goes to the side
    it lies on, or is cut. *)
Definition Make_Faces (p1 p2 p3 : list F) (pl : plane) (ss : shapes) : option shapes :=
  '(v, s2) <- new_verts [p1; p2; p3] (Some pl) (sh ss 2) ;;
  '(e, s2) <- new_edges 0 v [0; 1; 2]%nat (Some pl) s2 ;;
  let ss := list_set 2 s2 ss in
  let vd := fun i => v_dist (get_vert s2 (nth i v 0)) in
  let vp := fun i => point (get_vert s2 (nth i v 0)) in
  let ev := fun i => inter_vld (get_edge s2 (nth i e 0)) in
  let ei := fun i => inter (get_edge s2 (nth i e 0)) in
  match count_true [ev 0; ev 1; ev 2]%nat with
  | 0%nat =>
      match count_true [is_zero (vd 0%nat); is_zero (vd 1%nat); is_zero (vd 2%nat)] with
      | 0%nat | 1%nat =>
          let non1 := if negb (is_zero (vd 0%nat)) then 0%nat else 1%nat in
          on_shape ss (side (vd non1)) (fun s => '(_, s) <- Face_New p1 p2 p3 s ;; Some s)
      | 2%nat =>
          let non1 := if negb (is_zero (vd 0%nat)) then 0%nat
                      else if negb (is_zero (vd 1%nat)) then 1%nat else 2%nat in
          let i1 := ((non1 + 1) mod 3)%nat in
          on_shape ss (side (vd non1))
            (fun s =>
               '(fc, s) <- Face_New p1 p2 p3 s ;;
               let ed := nth i1 (f_edge (get_face s fc)) 0 in
               if negb (Ptr_Lookup (edge2d s) ed =? 0)
               then Some (with_2d s (pt2d s) (Ptr_Remove (edge2d s) ed) (poly2d s))
               else
                 let '(r, h) := Ptr_Insert (edge2d s) ed PRESENT in
                 if r <? 0 then None else Some (with_2d s (pt2d s) h (poly2d s)))
      | _ => Some ss
      end
  | 1%nat =>
      let i1 := if ev 0%nat then 0%nat else if ev 1%nat then 1%nat else 2%nat in
      let non1 := ((i1 + 1) mod 3)%nat in
      let non2 := ((i1 + 2) mod 3)%nat in
      if negb (is_zero (vd non2)) then None
      else
        ss <- on_shape ss 0 (Add2dPoint (ei i1) pl) ;;
        ss <- on_shape ss 1 (Add2dPoint (ei i1) pl) ;;
        ss <- on_shape ss 0 (Add2dPoint (vp non2) pl) ;;
        ss <- on_shape ss 1 (Add2dPoint (vp non2) pl) ;;
        ss <- on_shape ss (side (vd non1))
                (fun s => '(_, s) <- Face_New (vp non1) (vp non2) (ei i1) s ;; Some s) ;;
        on_shape ss (side (vd i1))
          (fun s => '(_, s) <- Face_New (vp non2) (vp i1) (ei i1) s ;; Some s)
  | 2%nat =>
      let non1 := if negb (ev 0%nat) then 0%nat
                  else if negb (ev 1%nat) then 1%nat else 2%nat in
      let i1 := ((non1 + 1) mod 3)%nat in
      let i2 := ((non1 + 2) mod 3)%nat in
      ss <- on_shape ss 0 (Add2dPoint (ei i1) pl) ;;
      ss <- on_shape ss 1 (Add2dPoint (ei i1) pl) ;;
      ss <- on_shape ss 0 (Add2dPoint (ei i2) pl) ;;
      ss <- on_shape ss 1 (Add2dPoint (ei i2) pl) ;;
      ss <- on_shape ss (side (vd i2))
              (fun s => '(_, s) <- Face_New (vp i2) (ei i2) (ei i1) s ;; Some s) ;;
      on_shape ss (side (vd i1)) (Make_Quad (vp non1) (vp i1) (ei i1) (ei i2))
  | _ => None
  end.

(** [AddEdge2d]: both ends of every edge that lies on the plane. *)
Definition AddEdge2d (pl : plane) (s : shape) : option shape :=
  fold_left (fun o el =>
               s <- o ;;
               let ed := get_edge s (Hash.key el) in
               s <- Add2dPoint (point (get_vert s (nth 0 (e_vert ed) 0))) pl s ;;
               Add2dPoint (point (get_vert s (nth 1 (e_vert ed) 0))) pl s)
            (Hash.elements (edge2d s)) (Some s).

Definition Make_Face_From_2d (p1 p2 p3 : list F) (s : shape) (sense : bool) : option shape :=
  let v1 := Fixed_Lookup 2 (pt2d s) p1 in
  let v2 := Fixed_Lookup 2 (pt2d s) p2 in
  let v3 := Fixed_Lookup 2 (pt2d s) p3 in
  if (v1 =? 0) || (v2 =? 0) || (v3 =? 0) then None
  else if sense then
    '(_, s) <- Face_New (point (get_vert s v1)) (point (get_vert s v2))
                        (point (get_vert s v3)) s ;; Some s
  else
    '(_, s) <- Face_New (point (get_vert s v1)) (point (get_vert s v3))
                        (point (get_vert s v2)) s ;; Some s.

Definition Get_Next (s : shape) (fc : Z) (e : Z) : Z :=
  let ed := get_edge s e in
  nth (if nth 0 (e_face ed) 0 =? fc then 1%nat else 0%nat) (e_face ed) 0.

Definition marked (f : face) : face :=
  {| f_vert := f_vert f; f_edge := f_edge f; visited := true |}.

(** [face->visited = 1]. *)
Definition set_visited (s : shape) (fc : Z) : shape :=
  with_faces s (faces s)
    (list_set (Z.to_nat (fc - 1)) (marked (get_face s fc)) (face_mem s)).

(** One face of [Build_Poly3d]: its three vertices go to the list, its
    unvisited neighbours to the queue.  [LP_VertexList_Add] returns an
    [unsigned int], so the test [LP_VertexList_Add(...) < 0] never holds
    and the loop goes on with the list as the call left it. *)
Definition poly_step (fc : Z)
    (st : option (shape * Queue.queue * @VL.lp_vertex_list F)) (count : nat)
  : option (shape * Queue.queue * @VL.lp_vertex_list F) :=
  '(s, q, poly) <- st ;;
  let f := get_face s fc in
  let poly := snd (VL.LP_VertexList_Add poly (point (get_vert s (nth count (f_vert f) 0)))) in
  let next := Get_Next s fc (nth count (f_edge f) 0) in
  if next =? 0 then Some (s, q, poly)
  else if visited (get_face s next) then Some (s, q, poly)
  else q' <- Queue.Queue_Push q next ;; Some (set_visited s next, q', poly).

Fixpoint poly_loop (fuel : nat) (s : shape) (q : Queue.queue)
    (poly : @VL.lp_vertex_list F) : run (shape * @VL.lp_vertex_list F) :=
  match fuel with
  | O => Stuck
  | S fuel' =>
      if Queue.Queue_Length q >? 0 then
        let '(fc, q) := Queue.Queue_Pop q in
        match fold_left (poly_step fc) [0; 1; 2]%nat (Some (s, q, poly)) with
        | None => Failed
        | Some (s, q, poly) => poly_loop fuel' s q poly
        end
      else Done (s, poly)
  end.

(** The faces that are not marked. *)
Definition unvisited (s : shape) : nat :=
  length (filter (fun f => negb (visited f)) (face_mem s)).

(** [Build_Poly3d(poly3d, face)].  Every turn of the loop takes a face off
    the queue, and a face is queued when it is marked: the loop is run
    with one turn more than there are faces to mark and faces queued. *)
Definition Build_Poly3d (poly : @VL.lp_vertex_list F) (fc : Z) (s : shape)
  : run (shape * @VL.lp_vertex_list F) :=
  match Queue.Queue_New with
  | None => Failed
  | Some q =>
      match Queue.Queue_Push q fc with
      | None => Failed
      | Some q =>
          let s := set_visited s fc in
          poly_loop (S (unvisited s + length q)) s q poly
      end
  end.

Definition Shape_New : option shape :=
  if alloc_ok 48 then
    if alloc_ok 40 then
      hv <- Hash.Hash_New (list F) Z ;;
      he <- Hash.Hash_New Z Z ;;
      hf <- Hash.Hash_New Z Z ;;
      if alloc_ok 40 then
        hp <- Hash.Hash_New (list F) Z ;;
        h2 <- Hash.Hash_New Z Z ;;
        vl <- VL.LP_VertexList_New 2 lp_pt_line ;;
        Some {| verts := hv; edges := he; faces := hf; pt2d := hp; edge2d := h2;
                poly2d := vl; vert_mem := []; edge_mem := []; face_mem := [] |}
      else None
    else None
  else None.

(** What the caller gets: the list of polyhedra, or NULL; with NULL the
    model also tells which lists had been built and were freed. *)
Inductive cut_result :=
| Cut (out : list (@VL.lp_vertex_list F))
| Cut_failed (freed : list (@VL.lp_vertex_list F)).

Definition make_plane (norm : list F) (dist : F) : plane :=
  let n := snd (Normalize norm) in
  {| p_norm := n; x_axis := fst (BasisVectors n); y_axis := snd (BasisVectors n);
     p_dist := dist |}.

(** The loop over the triangles of the input, then [AddEdge2d] on both
    sides. *)
Fixpoint cut_triangles (fuel : nat) (count num : Z) (vin : @VL.lp_vertex_list F)
    (pl : plane) (ss : shapes) : option shapes :=
  match fuel with
  | O => Some ss
  | S fuel' =>
      if count <? num then
        ss <- Make_Faces (VL.LP_VertexList_LookupVert vin count)
                         (VL.LP_VertexList_LookupVert vin (count + 1))
                         (VL.LP_VertexList_LookupVert vin (count + 2)) pl ss ;;
        cut_triangles fuel' (count + 3) num vin pl ss
      else Some ss
  end.

Definition cut_shapes (vin : @VL.lp_vertex_list F) (pl : plane) : option shapes :=
  s0 <- Shape_New ;;
  s1 <- Shape_New ;;
  s2 <- Shape_New ;;
  let num := VL.LP_VertexList_NumInd vin in
  ss <- cut_triangles (S (Z.to_nat num)) 0 num vin pl [s0; s1; s2] ;;
  ss <- on_shape ss 0 (AddEdge2d pl) ;;
  on_shape ss 1 (AddEdge2d pl).

(** The faces of the triangulated cap ([None]: a 2D point is not known). *)
Fixpoint cap_faces (fuel : nat) (count num : Z) (tri : @VL.lp_vertex_list F)
    (s : shape) (sense : bool) : option shape :=
  match fuel with
  | O => Some s
  | S fuel' =>
      if count <? num then
        s <- Make_Face_From_2d (VL.LP_VertexList_LookupVert tri count)
                               (VL.LP_VertexList_LookupVert tri (count + 1))
                               (VL.LP_VertexList_LookupVert tri (count + 2)) s sense ;;
        cap_faces fuel' (count + 3) num tri s sense
      else Some s
  end.

(** The polyhedra of one side: a list for every component of faces.  The
    state is the side and [out], or the failure, and the lists that
    [out] holds at that point. *)
Definition side_state : Type :=
  run (shape * list (@VL.lp_vertex_list F)) * list (@VL.lp_vertex_list F).

Definition side_polys_step (st : side_state) (el : Hash.element Z Z) : side_state :=
  match st with
  | (Done (s, out), _) =>
      if visited (get_face s (Hash.key el)) then st
      else
        match VL.LP_VertexList_New 3 lp_pt_triangle with
        | None => (Failed, out)
        | Some poly =>
            match Build_Poly3d poly (Hash.key el) s with
            | Done (s, poly) =>
                if alloc_ok 16 then (Done (s, out ++ [poly]), out ++ [poly])
                else (Failed, out)
            | Failed => (Failed, out)
            | Stuck => (Stuck, out)
            end
        end
  | _ => st
  end.

Definition side_polys (s : shape) (out : list (@VL.lp_vertex_list F)) : side_state :=
  fold_left side_polys_step (Hash.elements (faces s)) (Done (s, out), out).

(** One turn of the loop over the two sides: [valid] and [out] after it. *)
Definition cut_side (s_count : nat) (ss : shapes) (valid : bool)
    (out : list (@VL.lp_vertex_list F))
  : run (shapes * bool * list (@VL.lp_vertex_list F)) * list (@VL.lp_vertex_list F) :=
  let s := sh ss s_count in
  let capped : run (shape * bool) :=
    match LP_Triangulate2D (poly2d s) with
    | Stuck => Stuck
    | Failed => Done (s, false)
    | Done tri =>
        let num := VL.LP_VertexList_NumInd tri in
        match cap_faces (S (Z.to_nat num)) 0 num tri s (Nat.eqb s_count 1) with
        | Some s' => Done (s', valid)
        | None => Failed
        end
    end in
  match capped with
  | Stuck => (Stuck, out)
  | Failed => (Failed, out)
  | Done (s, valid) =>
      match side_polys s out with
      | (Done (s, out'), _) => (Done (list_set s_count s ss, valid, out'), out')
      | (Failed, built) => (Failed, built)
      | (Stuck, built) => (Stuck, built)
      end
  end.

(** [LP_PlaneCut(in, norm, dist)]. *)
Definition LP_PlaneCut (vin : @VL.lp_vertex_list F) (norm : list F) (dist : F)
  : run cut_result :=
  let pl := make_plane norm dist in
  if VL.LP_VertexList_FloatsPerVert vin <? 3 then Done (Cut_failed [])
  else
    match VL.LP_VertexList_PrimativeType vin with
    | lp_pt_triangle =>
        match cut_shapes vin pl with
        | None => Done (Cut_failed [])
        | Some ss =>
            match cut_side 0 ss true [] with
            | (Done (ss, valid, out), _) =>
                match cut_side 1 ss valid out with
                | (Done (ss, valid, out), _) =>
                    if valid then Done (Cut out) else Done (Cut_failed out)
                | (Failed, built) => Done (Cut_failed built)
                | (Stuck, _) => Stuck
                end
            | (Failed, built) => Done (Cut_failed built)
            | (Stuck, _) => Stuck
            end
        end
    | _ => Done (Cut_failed [])
    end.

End Cut.
End PlaneCut.

(** ** vertex_list.c: [LP_VertexList_Copy] *)

Module VLCopy.
Import VL.
Section Copy.
Context `{Env} {F : Type} `{FloatRepr F}.

(** One turn of the copy loop; [None] once an [LP_VertexList_Add] has
    returned [UINT_MAX]. *)
Definition Copy_step (vl : @lp_vertex_list F) (o : option (@lp_vertex_list F))
    (count : nat) : option (@lp_vertex_list F) :=
  match o with
  | None => None
  | Some out =>
      let '(r, out') :=
        LP_VertexList_Add out (LP_VertexList_LookupVert vl (Z.of_nat count)) in
      if c_ret r =? UINT_MAX then None else Some out'
  end.

(** The test against the list's [floats_per_vert] comes first, the
    replacement of [SIZE_MAX] by it second. *)
Definition LP_VertexList_Copy (vl : @lp_vertex_list F) (new_floats_per_vert : Z)
  : option (@lp_vertex_list F) :=
  let fpv := LP_VertexList_FloatsPerVert vl in
  if fpv <? new_floats_per_vert then None
  else
    let new_floats_per_vert :=
      if new_floats_per_vert =? SIZE_MAX then fpv else new_floats_per_vert in
    match LP_VertexList_New new_floats_per_vert (LP_VertexList_PrimativeType vl) with
    | None => None
    | Some out =>
        fold_left (Copy_step vl) (seq 0 (Z.to_nat (LP_VertexList_NumInd vl))) (Some out)
    end.

End Copy.
End VLCopy.

(** ** array.c: [Array_Remove] *)

Module ArrayRemove.
Import Array.

(** A negative index counts from the end. *)
Definition from_end (arr : array) (idx : Z) : Z :=
  if idx <? 0 then idx + len arr else idx.

(** [Array_Remove]: the last element takes the place of the one removed;
    an index out of range leaves the array alone. *)
Definition Array_Remove (arr : array) (idx : Z) : array :=
  let idx := from_end arr idx in
  if (idx <? 0) || (idx >=? len arr) then arr
  else
    let last := nth (Z.to_nat (len arr - 1)) (data arr) 0 in
    {| len := len arr - 1; num_alloc := num_alloc arr;
       data := firstn (Z.to_nat (len arr - 1)) (list_set (Z.to_nat idx) last (data arr)) |}.

End ArrayRemove.

(** ** util.c: [Solve2x2] *)

Module Util2.
Import Util.
Section Vectors.
Context {F : Type} `{FloatOps F}.
Local Open Scope float_scope.

(** [Solve2x2]: [None] when the determinant is zero. *)
Definition Solve2x2 (m bb : list F) : option (list F) :=
  let a := m.[0] in
  let b := m.[1] in
  let c := m.[2] in
  let d := m.[3] in
  let det := a * d - b * c in
  if det =? f_zero then None
  else
    let det := f_one / det in
    Some [det * (bb.[0] * d - bb.[1] * b);
          det * (bb.[1] * a - bb.[0] * c)].

End Vectors.
End Util2.

(** ** simplify.c: [Face_Cannonize] *)

Module Simplify.

(** The three vertices of a face, by address.  [Face_Cannonize] turns them
    so that the smallest address comes first. *)
Definition Face_Cannonize (v : Z * Z * Z) : Z * Z * Z :=
  let '(v0, v1, v2) := v in
  if (v0 <? v1) && (v0 <? v2) then v
  else if v1 <? v2 then (v1, v2, v0)
  else (v2, v0, v1).

End Simplify.

(** ** queue.c: the queue as the linked list it is *)

Module QueueMem.
Section Q.
Context `{Env}.

(** Elements live at addresses; address [i + 1] is cell [i] of [cells],
    0 is NULL.  [malloc] hands out the next cell; a freed cell is not
    looked at again. *)
Record elem := { value : Z; next : Z }.
Record queue := { cells : list elem; head : Z; tail : Z; len : Z }.

Definition null_elem : elem := {| value := 0; next := 0 |}.

Definition get (q : queue) (p : Z) : elem := nth (Z.to_nat (p - 1)) (cells q) null_elem.

Definition Queue_New : option queue :=
  if alloc_ok 24 then Some {| cells := []; head := 0; tail := 0; len := 0 |} else None.

Definition Queue_Clear (q : queue) : queue :=
  {| cells := cells q; head := 0; tail := 0; len := 0 |}.

Definition Queue_Length (q : queue) : Z := len q.

(** [Queue_Push]: the new element becomes the head. *)
Definition Queue_Push (q : queue) (v : Z) : Z * queue :=
  if alloc_ok 16 then
    let p := Z.of_nat (length (cells q)) + 1 in
    (0, {| cells := cells q ++ [{| value := v; next := head q |}];
           head := p;
           tail := if len q =? 0 then p else tail q;
           len := (len q + 1) mod (SIZE_MAX + 1) |})
  else (-1, q).

(** [Queue_PushBack]: the new element is linked behind the tail. *)
Definition Queue_PushBack (q : queue) (v : Z) : Z * queue :=
  if alloc_ok 16 then
    let p := Z.of_nat (length (cells q)) + 1 in
    let t := tail q in
    let linked :=
      if t =? 0 then cells q
      else list_set (Z.to_nat (t - 1)) {| value := value (get q t); next := p |} (cells q) in
    (0, {| cells := linked ++ [{| value := v; next := 0 |}];
           head := if t =? 0 then p else head q;
           tail := p;
           len := (len q + 1) mod (SIZE_MAX + 1) |})
  else (-1, q).

(** [Queue_Pop]: NULL on an empty queue. *)
Definition Queue_Pop (q : queue) : Z * queue :=
  if head q =? 0 then (0, q)
  else
    let e := get q (head q) in
    let l := (len q - 1) mod (SIZE_MAX + 1) in
    (value e, {| cells := cells q; head := next e;
                 tail := if l =? 0 then 0 else tail q; len := l |}).

Definition Queue_Peak (q : queue) : Z :=
  if head q =? 0 then 0 else value (get q (head q)).

Definition Queue_PeakBack (q : queue) : Z :=
  if tail q =? 0 then 0 else value (get q (tail q)).

End Q.
End QueueMem.
(** * Invariants and specification-side definitions *)

(** ** The table invariant *)

Module HashInv.
Import Hash.
Section Inv.
Context `{Env} {K D Q : Type}.
Variables (qb : Q -> list Z) (kb : K -> list Z) (size : nat).

(** The test [Find] applies to an element of a chain. *)
Definition matchb (q : Q) (hv : Z) (e : element K D) : bool :=
  (hash_val e =? hv) && (cmp qb kb size (key e) q =? 0).

(** Every element sits in the bucket of its hash value, which is SipHash
    of the [size] bytes its key stands for. *)
Record wf (h : hash K D) : Prop := {
  wf_pos : 0 < num_buckets h;
  wf_len : Z.of_nat (length (buckets h)) = num_buckets h;
  wf_bucket : forall b c e, nth_error (buckets h) b = Some c -> In e c ->
                hash_val e mod num_buckets h = Z.of_nat b;
  wf_hash : forall e, In e (elements h) ->
                hash_val e = siphash (secret h) (firstn size (kb (key e))) /\
                length (kb (key e)) = size
}.

End Inv.
End HashInv.

(** ** The vertex-list invariant *)

Module VLInv.
Import Hash VL.
Section Inv.
Context `{Env} {F : Type} `{FloatRepr F}.

(** The invariant of a vertex list that has not been finalized: the table
    indexes exactly the stored records, which are pairwise distinct as
    byte strings. *)
Record wf (vl : @lp_vertex_list F) : Prop := {
  wf_fpv : 1 <= floats_per_vert vl;
  wf_vsize : vert_size vl = floats_per_vert vl * sizeof_float;
  wf_used : vert_used vl = Z.of_nat (length (vert vl));
  wf_alloc : vert_used vl <= vert_alloc vl <= UINT_MAX /\ 1 <= vert_alloc vl;
  wf_rec : forall r, In r (vert vl) -> Z.of_nat (length r) = floats_per_vert vl;
  wf_uniq : forall i j ri rj,
      nth_error (vert vl) i = Some ri -> nth_error (vert vl) j = Some rj ->
      vert_bytes ri = vert_bytes rj -> i = j;
  wf_ind_used : ind_used vl = Z.of_nat (length (ind vl));
  wf_ind_alloc : ind_used vl <= ind_alloc vl <= SIZE_MAX / sizeof_uint /\ 1 <= ind_alloc vl;
  wf_table : exists h, vert_hash vl = Some h /\
      HashInv.wf (VlKey vl) (Z.to_nat (vert_size vl)) h /\
      (forall e, In e (elements h) -> 1 <= key e <= vert_used vl /\ data e = PRESENT) /\
      (forall i, 0 <= i < vert_used vl -> exists e, In e (elements h) /\ key e = i + 1)
}.

(** A record with the bytes of [v] is stored at index [i]. *)
Definition stored_at (vl : @lp_vertex_list F) (v : list F) (i : Z) : Prop :=
  0 <= i < vert_used vl /\
  exists r, nth_error (vert vl) (Z.to_nat i) = Some r /\ vert_bytes r = vert_bytes v.

Definition same_verts (vl vl' : @lp_vertex_list F) : Prop :=
  floats_per_vert vl' = floats_per_vert vl /\ vert_size vl' = vert_size vl /\
  vert_alloc vl' = vert_alloc vl /\ vert_used vl' = vert_used vl /\
  vert vl' = vert vl /\ vert_hash vl' = vert_hash vl.

(** Room for one more index: a free slot, or a growth that the size check
    and the allocator both allow. *)
Definition ind_room (vl : @lp_vertex_list F) : Prop :=
  ind_used vl < ind_alloc vl \/
  (ind_alloc vl <= Z.shiftr (SIZE_MAX / sizeof_uint) 1 /\
   alloc_ok (Z.shiftl (ind_alloc vl) 1 * sizeof_uint) = true).

End Inv.
End VLInv.


(** ** Quickhull: the quantities the classification is stated with *)

Module HullSpec.
Import Util ConvexHull.
Section Spec.
Context {F : Type} `{FloatOps F}.

(** Signed distance of point [idx] to the face's plane, measured from the
    ring's last vertex against the normal. *)
Definition plane_dist (f : @face F) (idx : nat) (data : list (list F)) : F :=
  Dot (sub3 (point data (last_idx (verts f))) (point data idx)) (norm f).

(** A vertex in the face's basis, seen from the point. *)
Definition in_plane (f : @face F) (pt v : list F) : F * F :=
  (Dot (sub3 v pt) (xx f), Dot (sub3 v pt) (yy f)).

(** Signed distance of the origin to the edge from [p1] to [p2]. *)
Definition edge_dist (p1 p2 : F * F) : F :=
  let dx := (fst p2 - fst p1)%fl in
  let dy := (snd p2 - snd p1)%fl in
  ((dy * fst p1 - dx * snd p1) / f_sqrt (dx * dx + dy * dy))%fl.

(** The edge's term of the polygon area sum. *)
Definition edge_area (p1 p2 : F * F) : F :=
  (fst p1 * snd p2 - snd p1 * fst p2)%fl.

Fixpoint edges_from (prev : F * F) (l : list (F * F)) : list ((F * F) * (F * F)) :=
  match l with
  | [] => []
  | p :: rest => (prev, p) :: edges_from p rest
  end.

(** The ring's edges, the one that ends at the first vertex first. *)
Definition ring_edges (f : @face F) (idx : nat) (data : list (list F))
  : list ((F * F) * (F * F)) :=
  let pt := point data idx in
  edges_from (in_plane f pt (point data (last_idx (verts f))))
             (map (fun fv => in_plane f pt (point data (fv_idx fv))) (verts f)).

Definition max_edge_dist (f : @face F) (idx : nat) (data : list (list F)) : F :=
  fold_left (fun m e => let dd := edge_dist (fst e) (snd e) in
                        if (dd >? m)%fl then dd else m)
            (ring_edges f idx data) (f_neg f_inf).

(** The sum over the ring's edges of [x1 * y2 - y1 * x2]: twice the area
    the ring encloses. *)
Definition edge_sum (f : @face F) (idx : nat) (data : list (list F)) : F :=
  fold_left (fun a e => (a + edge_area (fst e) (snd e))%fl) (ring_edges f idx data) f_zero.

Definition tolerance (A : F) : F := f_scale C_1e_5 (f_sqrt (f_abs A)).

(** The decision table. *)
Definition decide (dist max tol : F) : category :=
  if (max >? f_zero)%fl then
    if (f_abs dist <? tol)%fl || f_lt_scaled (f_abs dist) C_1e_5 max then Extend
    else if (dist >? f_zero)%fl then Delete
    else Present
  else if (dist >? tol)%fl then Delete
  else if ((dist + tol) * (dist + tol) + max * max <? f_of_Z 4 * tol * tol)%fl then Extend
  else Present.

(** The area of the triangle of the ring's first three vertices: half the
    length of the cross product of two of its sides. *)
Definition triangle_area (f : @face F) (data : list (list F)) : F :=
  match verts f with
  | a :: b :: c :: _ =>
      f_scale C_half
        (Norm (Cross (sub3 (point data (fv_idx b)) (point data (fv_idx a)))
                     (sub3 (point data (fv_idx c)) (point data (fv_idx a)))))
  | _ => f_zero
  end.

(** The table with the tolerance taken from the triangle's area. *)
Definition table_with_triangle_area (f : @face F) (idx : nat) (data : list (list F))
  : category :=
  decide (plane_dist f idx data) (max_edge_dist f idx data)
         (tolerance (triangle_area f data)).

(** Two readings of "the below points exceed the above points": by number,
    and by the distance of the furthest one. *)
Definition below_exceeds_above_count (above below : @point_list F) : bool :=
  (length (elems above) <? length (elems below))%nat.

Definition below_exceeds_above_dist (above below : @point_list F) : bool :=
  (max_dist below >? max_dist above)%fl.

(** The face after the flip: first two ring indices exchanged, normal negated. *)
Definition flipped (f : @face F) : face :=
  {| verts := swap_first_two (verts f);
     norm := [f_neg (norm f).[0]; f_neg (norm f).[1]; f_neg (norm f).[2]];
     xx := xx f; yy := yy f; pts := pts f; node := node f |}.

(** Two faces hold the same triangle: the indices of the ring in order,
    the normal and the outside points. *)
Definition same_triangle (f g : @face F) : Prop :=
  map fv_idx (verts f) = map fv_idx (verts g) /\ norm f = norm g /\ pts f = pts g.

(** Every point other than the triangle's is categorized [EXTEND]. *)
Definition all_extend (f : @face F) (len : nat) (skip : nat * nat * nat)
    (data : list (list F)) : Prop :=
  forall idx, (idx < len)%nat ->
    idx <> fst (fst skip) -> idx <> snd (fst skip) -> idx <> snd skip ->
    fst (Categorize f idx data) = Extend.

End Spec.
End HullSpec.

(** ** The invariant of a vef's table of vertices *)

Module VefInv.
Import Vef.
Section Inv.
Context `{Env} {F : Type} `{FloatOps F} `{FloatRepr F}.

(** The points of the vertices, by address. *)
Definition points (v : @vef F) : list (list F) := map point (vert_mem v).

(** The table of vertices is a well-formed table over 12-byte keys, its
    entries are vertex addresses, and it lists every vertex under the bytes
    of its point. *)
Record wf (v : @vef F) : Prop := {
  wf_verts : HashInv.wf vert_bytes point_size (verts v);
  wf_data : forall e, In e (Hash.elements (verts v)) -> Hash.data e <> 0;
  wf_listed : forall i r, nth_error (points v) i = Some r ->
                exists e, In e (Hash.elements (verts v)) /\ Hash.key e = r
}.

(** [pt] has the bytes of the point of a vertex of [v]. *)
Definition is_vertex (v : @vef F) (pt : list F) : Prop :=
  exists r, In r (points v) /\ vert_bytes r = vert_bytes pt.

(** Two vefs with the same table of vertices and the same points. *)
Definition same_points (v v' : @vef F) : Prop :=
  verts v' = verts v /\ points v' = points v.

(** Every index of the list looks up a record of three floats. *)
Definition three_floats (vl : @VL.lp_vertex_list F) : Prop :=
  Forall (fun i => length (VL.LP_VertexList_LookupVert vl (Z.of_nat i)) = 3%nat)
         (seq 0 (Z.to_nat (VL.LP_VertexList_NumInd vl))).

End Inv.
End VefInv.

(** ** The bounding boxes of the BVH *)

Module BvhSpec.
Import Array Bvh.
Section Spec.
Context {F : Type} `{FloatOps F}.

(** The points stored under a node. *)
Fixpoint subtree_points (node : @bvh_node F) : list Z :=
  match node with
  | BNull => []
  | BNode _ _ _ a b pts =>
      match pts with Some arr => data arr | None => [] end
      ++ subtree_points a ++ subtree_points b
  end.

(** [min[i] <= p[i] <= max[i]] for the three coordinates. *)
Definition in_box (verts : list (list F)) (mn mx : list F) (p : Z) : bool :=
  forallb (fun i => (mn.[i] <=? coord verts p i)%fl && (coord verts p i <=? mx.[i])%fl)
          [0; 1; 2]%nat.

(** Every node's box bounds all points under it. *)
Fixpoint bounds_ok (verts : list (list F)) (node : @bvh_node F) : bool :=
  match node with
  | BNull => true
  | BNode _ mn mx a b _ =>
      forallb (in_box verts mn mx) (subtree_points node)
      && bounds_ok verts a && bounds_ok verts b
  end.

End Spec.
End BvhSpec.

(** ** Exact arithmetic *)

(** The rationals as an arithmetic in which no operation rounds.  There is
    no infinity and no square root in it (0 and the identity stand in):
    it serves to compare formulas built from [+], [-], [*] and [/]. *)
Module Exact.

Definition lit (c : dconst) : Qcanon.Qc :=
  match c with
  | C_1e_5 => Qcanon.Q2Qc (QArith_base.Qmake 1 100000)
  | C_1e_6 => Qcanon.Q2Qc (QArith_base.Qmake 1 1000000)
  | C_half => Qcanon.Q2Qc (QArith_base.Qmake 1 2)
  end.

Definition ltb (a b : Qcanon.Qc) : bool :=
  match Qcanon.Qccompare a b with Lt => true | _ => false end.

Definition eqb (a b : Qcanon.Qc) : bool :=
  match Qcanon.Qccompare a b with Eq => true | _ => false end.

#[export] Instance rational : FloatOps Qcanon.Qc := {|
  f_zero := Qcanon.Q2Qc (QArith_base.inject_Z 0);
  f_one := Qcanon.Q2Qc (QArith_base.inject_Z 1);
  f_inf := Qcanon.Q2Qc (QArith_base.inject_Z 0);
  f_of_Z := fun z => Qcanon.Q2Qc (QArith_base.inject_Z z);
  f_add := Qcanon.Qcplus;
  f_sub := Qcanon.Qcminus;
  f_mul := Qcanon.Qcmult;
  f_div := Qcanon.Qcdiv;
  f_neg := Qcanon.Qcopp;
  f_abs := fun x => if ltb x (Qcanon.Q2Qc (QArith_base.inject_Z 0)) then Qcanon.Qcopp x else x;
  f_sqrt := fun x => x;
  f_copysign := fun x y =>
    if Bool.eqb (ltb x (Qcanon.Q2Qc (QArith_base.inject_Z 0)))
                (ltb y (Qcanon.Q2Qc (QArith_base.inject_Z 0)))
    then x else Qcanon.Qcopp x;
  f_ltb := ltb;
  f_leb := fun a b => negb (ltb b a);
  f_eqb := eqb;
  f_isinf := fun _ => false;
  f_scale := fun c x => Qcanon.Qcmult (lit c) x;
  f_lt_scaled := fun x c y => ltb x (Qcanon.Qcmult (lit c) y)
|}.

End Exact.

(** ** The plane cut: what the claims are stated with *)

Module CutSpec.
Import Util PlaneCut.
Section Spec.
Context {F : Type} `{FloatOps F}.

(** The larger of two floats. *)
Definition fmax (a b : F) : F := if (b >? a)%fl then b else a.

(** [v . n - d], exactly zero when [|v . n - d| < 1e-5 * max(|v|, |d|)]. *)
Definition snapped_dist (n : list F) (d : F) (v : list F) : F :=
  let dist := (Dot v n - d)%fl in
  if (f_abs dist <? f_scale C_1e_5 (fmax (Norm v) (f_abs d)))%fl then f_zero else dist.

Definition opposite_signs (d0 d1 : F) : bool :=
  ((d0 >? f_zero)%fl && (d1 <? f_zero)%fl) || ((d0 <? f_zero)%fl && (d1 >? f_zero)%fl).

(** [x = -d0 / (d1 - d0)]. *)
Definition cut_ratio (d0 d1 : F) : F := (f_neg d0 / (d1 - d0))%fl.

(** [(1 - x) * v0 + x * v1], coordinate by coordinate. *)
Definition convex_point (x : F) (v0 v1 : list F) : list F :=
  map (fun i => ((f_one - x) * v0.[i] + x * v1.[i])%fl) [0; 1; 2]%nat.

(** [v0 + x * (v1 - v0)], coordinate by coordinate. *)
Definition along_edge (x : F) (v0 v1 : list F) : list F :=
  map (fun i => (v0.[i] + x * (v1.[i] - v0.[i]))%fl) [0; 1; 2]%nat.

(** The triangulation that returns the list [e] where [tri] returns
    NULL, and does what [tri] does otherwise. *)
Definition or_no_triangles (e : @VL.lp_vertex_list F)
    (tri : @VL.lp_vertex_list F -> run (@VL.lp_vertex_list F))
  : @VL.lp_vertex_list F -> run (@VL.lp_vertex_list F) :=
  fun v => match tri v with Failed => Done e | r => r end.

(** NULL in place of a list of polyhedra, which are freed. *)
Definition freed_instead (r : run (@cut_result F)) : run (@cut_result F) :=
  match r with Done (Cut out) => Done (Cut_failed out) | _ => r end.

End Spec.
End CutSpec.

(** ** The table as a finite map *)

Module HashMap.
Import Hash.
Section Map.
Context `{Env} {K D : Type}.
Variable kb : K -> list Z.

(** The bytes the stored keys stand for, in iteration order. *)
Definition key_bytes (h : hash K D) : list (list Z) :=
  map (fun e => kb (key e)) (elements h).

(** No two elements stand for the same bytes. *)
Definition unique (h : hash K D) : Prop := NoDup (key_bytes h).

(** [num_items] is the number of elements. *)
Definition counted (h : hash K D) : Prop :=
  num_items h = Z.of_nat (length (elements h)).

End Map.
End HashMap.

(** ** Vertex lists whose indices all name a stored vertex *)

Module VLSpec.
Import VL.
Section Spec.
Context {F : Type}.

Definition valid_inds (vl : @lp_vertex_list F) : Prop :=
  forall j, In j (ind vl) -> 0 <= j < vert_used vl.

End Spec.
End VLSpec.

(** ** Arrays, unique queues and point lists *)

Module ArraySpec.
Import Array.

(** [data] holds the [len] elements in use, within the capacity. *)
Definition arr_ok (a : array) : Prop :=
  len a = Z.of_nat (length (data a)) /\ len a <= num_alloc a.

End ArraySpec.

Module UQSpec.
Import Hash ConvexHull.
Section Spec.
Context `{Env}.

(** The table holds exactly the queued values, each once and with data
    that is not NULL. *)
Record uq_ok (uq : unique_queue) : Prop := {
  uq_wf : HashInv.wf ptr_bytes 8 (uq_hash uq);
  uq_unique : HashMap.unique ptr_bytes (uq_hash uq);
  uq_nodup : NoDup (map ptr_bytes (uq_items uq));
  uq_marked : forall e, In e (elements (uq_hash uq)) ->
      data e <> 0 /\ In (ptr_bytes (key e)) (map ptr_bytes (uq_items uq));
  uq_queued : forall v, In v (uq_items uq) ->
      exists e, In e (elements (uq_hash uq)) /\ ptr_bytes (key e) = ptr_bytes v
}.

Definition queued (uq : unique_queue) (v : Z) : Prop :=
  In (ptr_bytes v) (map ptr_bytes (uq_items uq)).

End Spec.
End UQSpec.

Module PointSpec.
Import ConvexHull.
Section Spec.
Context {F : Type} `{FloatOps F}.

(** The face puts the point in category [c]. *)
Definition in_category (f : @face F) (data : list (list F)) (c : category) (i : nat) : bool :=
  category_eqb (fst (Categorize f i data)) c.

Definition skipped (skip : nat * nat * nat) (i : nat) : bool :=
  let '(a, b, c) := skip in Nat.eqb i a || Nat.eqb i b || Nat.eqb i c.

(** [classify] sends the point to the list of category [c]. *)
Definition goes (f : @face F) (data : list (list F)) (skip : nat * nat * nat)
    (c : category) (i : nat) : bool :=
  negb (skipped skip i) && in_category f data c i.

End Spec.
End PointSpec.

(** ** Linear systems, row-major *)

Module LinSpec.
Import Util.
Section Spec.
Context {F : Type} `{FloatOps F}.
Local Open Scope float_scope.

Definition det2 (m : list F) : F := m.[0] * m.[3] - m.[1] * m.[2].

Definition det3 (m : list F) : F :=
  m.[0] * (m.[4] * m.[8] - m.[5] * m.[7])
  - m.[1] * (m.[3] * m.[8] - m.[5] * m.[6])
  + m.[2] * (m.[3] * m.[7] - m.[4] * m.[6]).

(** The product of the matrix and a vector. *)
Definition times2 (m x : list F) : list F :=
  [m.[0] * x.[0] + m.[1] * x.[1];
   m.[2] * x.[0] + m.[3] * x.[1]].

Definition times3 (m x : list F) : list F :=
  [m.[0] * x.[0] + m.[1] * x.[1] + m.[2] * x.[2];
   m.[3] * x.[0] + m.[4] * x.[1] + m.[5] * x.[2];
   m.[6] * x.[0] + m.[7] * x.[1] + m.[8] * x.[2]].

End Spec.
End LinSpec.

(** ** The entries of a tree in order *)

Module FTreeSpec.
Import FTree.
Section Spec.
Context {F : Type}.

(** Keys and data from left to right. *)
Fixpoint inorder (t : @ftree_node F) : list (F * Z) :=
  match t with
  | Leaf => []
  | Node k d _ _ l r => inorder l ++ (k, d) :: inorder r
  end.

(** Every node's [items] is the number of entries under it, and no
    [height] is negative. *)
Fixpoint counted (t : @ftree_node F) : Prop :=
  match t with
  | Leaf => True
  | Node _ _ i h l r =>
      i = Z.of_nat (length (inorder t)) /\ 0 <= h /\ counted l /\ counted r
  end.

End Spec.
End FTreeSpec.

(** ** The order of binary32 values that are not NaN *)

Module IEEEOrder.
Import IEEE.

Definition not_nan (x : float32) : bool :=
  match x with S754_nan => false | _ => true end.

(** A key whose lexicographic order is the order of the comparison:
    infinities outermost, the two zeros together. *)
Definition rank (x : float32) : Z * Z * Z :=
  match x with
  | S754_infinity true => (-2, 0, 0)
  | S754_infinity false => (2, 0, 0)
  | S754_finite false m e => (1, e, Zpos m)
  | S754_finite true m e => (-1, - e, Zneg m)
  | _ => (0, 0, 0)
  end.

(** The lexicographic comparison of two keys. *)
Definition lexc (k1 k2 : Z * Z * Z) : comparison :=
  let '(a, b, c) := k1 in
  let '(a', b', c') := k2 in
  match a ?= a' with
  | Eq => match b ?= b' with Eq => c ?= c' | o => o end
  | o => o
  end.

Definition lt3 (k1 k2 : Z * Z * Z) : Prop :=
  let '(a, b, c) := k1 in
  let '(a', b', c') := k2 in
  a < a' \/ (a = a' /\ (b < b' \/ (b = b' /\ c < c'))).

End IEEEOrder.

Module BvhShape.
Import Array Bvh.
Section Shape.
Context {F : Type}.

(** A node that has not been split, whose points are among [l]. *)
Definition leaf_within (nd : @bvh_node F) (l : list Z) : Prop :=
  exists ax mn mx arr, nd = BNode ax mn mx BNull BNull (Some arr) /\ incl (data arr) l.

End Shape.
End BvhShape.

Module BvhOrder.
Import IEEE Bvh IEEEOrder.

(** No coordinate of the first [n] vertices is NaN. *)
Definition no_nan (verts : list (list float32)) (n : Z) : bool :=
  forallb (fun p => forallb (fun c => not_nan (coord verts p c)) [0; 1; 2]%nat)
          (map Z.of_nat (seq 0 (Z.to_nat n))).

(** The corners [mn] and [mx] bound the points [pts], none of whose
    coordinates is NaN. *)
Definition boxed (verts : list (list float32)) (mn mx : list float32) (pts : list Z) : Prop :=
  (forall c, (c < 3)%nat -> not_nan mn.[c] = true /\ not_nan mx.[c] = true) /\
  (forall q c, In q pts -> (c < 3)%nat ->
     not_nan (coord verts q c) = true /\
     SFleb mn.[c] (coord verts q c) = true /\ SFleb (coord verts q c) mx.[c] = true).

End BvhOrder.

(** ** Rotations of a triangle *)

Module SimplifySpec.

Definition rotate (v : Z * Z * Z) : Z * Z * Z :=
  let '(v0, v1, v2) := v in (v1, v2, v0).

Definition distinct (v : Z * Z * Z) : Prop :=
  let '(v0, v1, v2) := v in v0 <> v1 /\ v1 <> v2 /\ v0 <> v2.

End SimplifySpec.

(** ** What a linked queue holds *)

Module QueueSpec.
Import QueueMem.

(** The chain that starts at [p]: the addresses of its elements and their
    values, up to the NULL [next]. *)
Fixpoint chain (m : list elem) (p : Z) (l : list (Z * Z)) : Prop :=
  match l with
  | [] => p = 0
  | (a, v) :: rest =>
      p = a /\ 0 < a <= Z.of_nat (length m) /\
      value (nth (Z.to_nat (a - 1)) m null_elem) = v /\
      chain m (next (nth (Z.to_nat (a - 1)) m null_elem)) rest
  end.

(** The queue holds the elements [l], head first: they are chained from
    [head], at distinct addresses, [len] counts them and [tail] is the
    last, or NULL when there is none. *)
Definition holds (q : queue) (l : list (Z * Z)) : Prop :=
  chain (cells q) (head q) l /\ NoDup (map fst l) /\
  len q = Z.of_nat (length l) /\ tail q = last (map fst l) 0.

End QueueSpec.
(** ** An environment to evaluate in *)

Module Sample.
Import IEEE.

(** A stand-in for SipHash (any function of secret and bytes will do), an
    all-zero secret, and an allocator that never refuses. *)
#[export] Instance env : Env := {|
  siphash := fun s b => fold_left (fun a x => (a * 131 + x) mod 18446744073709551616) (s ++ b) 0;
  random16 := repeat 0 16;
  alloc_ok := fun _ => true
|}.

Definition fl (m : Z) : IEEE.float32 := IEEE.of_Z32 m.

(** The empty three-float triangle list, a vertex, and the list after one
    [LP_VertexList_Add]. *)
Definition vl0 : @VL.lp_vertex_list IEEE.float32 :=
  {| VL.floats_per_vert := 3; VL.vert_size := 12; VL.primative := lp_pt_triangle;
     VL.vert_alloc := 64; VL.vert_used := 0; VL.vert := [];
     VL.ind_alloc := 64; VL.ind_used := 0; VL.ind := [];
     VL.vert_hash := Some {| Hash.num_buckets := 128; Hash.num_items := 0;
                             Hash.buckets := repeat [] 128;
                             Hash.secret := repeat 0 16 |} |}.

Definition v123 : list IEEE.float32 := [fl 1; fl 2; fl 3].

Definition vl1 : @VL.lp_vertex_list IEEE.float32 := snd (VL.LP_VertexList_Add vl0 v123).

(** The list that holds the given points, added in order. *)
Definition points (ps : list (list IEEE.float32)) : @VL.lp_vertex_list IEEE.float32 :=
  fold_left (fun vl p => snd (VL.LP_VertexList_Add vl p)) ps vl0.

(** The triangle (0,0,0), (4,0,0), (2,4,0) and a point 2^-15 off its plane. *)
Definition near_plane : list (list IEEE.float32) :=
  [ [fl 0; fl 0; fl 0]; [fl 4; fl 0; fl 0]; [fl 2; fl 4; fl 0];
    [fl 2; fl 1; IEEE.pow2 (-1) (-15)] ].

(** The same triangle with two points on one side, one on the other. *)
Definition two_sides : list (list IEEE.float32) :=
  [ [fl 0; fl 0; fl 0]; [fl 4; fl 0; fl 0]; [fl 2; fl 4; fl 0];
    [fl 2; fl 1; fl (-1)]; [fl 2; fl 1; fl (-2)]; [fl 2; fl 1; fl 1] ].

(** The same triangle with a fourth point in it. *)
Definition flat_small : list (list IEEE.float32) :=
  [ [fl 0; fl 0; fl 0]; [fl 4; fl 0; fl 0]; [fl 2; fl 4; fl 0]; [fl 2; fl 1; fl 0] ].

(** Four points of the plane z = 0 whose coordinates are powers of two
    near 2^100. *)
Definition flat_large : list (list IEEE.float32) :=
  [ [IEEE.pow2 1 99; IEEE.pow2 1 100; fl 0]; [fl 0; fl 0; fl 0];
    [IEEE.pow2 1 100; fl 0; fl 0]; [IEEE.pow2 1 99; IEEE.pow2 1 98; fl 0] ].

(** Four points of a line, and three points. *)
Definition on_a_line : list (list IEEE.float32) :=
  [ [fl 0; fl 0; fl 0]; [fl 4; fl 0; fl 0]; [fl 2; fl 0; fl 0]; [fl 1; fl 0; fl 0] ].

Definition three_points : list (list IEEE.float32) :=
  [ [fl 0; fl 0; fl 0]; [fl 4; fl 0; fl 0]; [fl 2; fl 4; fl 0] ].

(** A tetrahedron as four triangles, and its vef. *)
Definition tetra_mesh : @VL.lp_vertex_list IEEE.float32 :=
  let p0 := [fl 0; fl 0; fl 0] in
  let p1 := [fl 4; fl 0; fl 0] in
  let p2 := [fl 2; fl 4; fl 0] in
  let p3 := [fl 2; fl 1; fl 3] in
  points [p0; p1; p2; p3; p1; p0; p3; p0; p2; p3; p2; p1].

Definition tetra_vef : @Vef.vef IEEE.float32 :=
  match Vef.Vef_New tetra_mesh with
  | Done v => v
  | _ => {| Vef.verts := Hash.Build_hash 0 0 [] []; Vef.edges := Hash.Build_hash 0 0 [] [];
            Vef.faces := Hash.Build_hash 0 0 [] []; Vef.vmin := []; Vef.vmax := [];
            Vef.vert_mem := []; Vef.edge_mem := []; Vef.face_mem := [] |}
  end.

(** Four vertices spread along x, one of them off the axis. *)
Definition spread : @VL.lp_vertex_list IEEE.float32 :=
  points [ [fl 0; fl 0; fl 0]; [fl (-1); fl 5; fl 0]; [fl 10; fl 0; fl 0];
           [fl 11; fl 0; fl 0] ].

(** The plane z = 1, an empty shape, and a triangulation that fails. *)
Definition cut_plane : @PlaneCut.plane IEEE.float32 :=
  PlaneCut.make_plane [fl 0; fl 0; fl 1] (fl 1).

Definition empty_shape : @PlaneCut.shape IEEE.float32 :=
  match PlaneCut.Shape_New with
  | Some s => s
  | None => PlaneCut.sh [] 0
  end.

Definition no_triangulation (v : @VL.lp_vertex_list IEEE.float32)
  : run (@VL.lp_vertex_list IEEE.float32) := Failed.

(** A pointer-keyed table: empty, and after the insertion of 5 with data 7. *)
Definition table : Hash.hash Z Z :=
  {| Hash.num_buckets := 128; Hash.num_items := 0;
     Hash.buckets := repeat [] 128; Hash.secret := repeat 0 16 |}.

Definition ptr_copy (u : unit) (q : Z) : option (Z * unit) := Some (q, u).

Definition table1 : Hash.hash Z Z :=
  match Hash.Hash_Insert ptr_bytes ptr_bytes 8 ptr_copy table tt 5 7 with
  | (_, h, _, _) => h
  end.

(** An array of three elements, and a queue that holds nothing. *)
Definition arr3 : Array.array :=
  {| Array.len := 3; Array.num_alloc := 4; Array.data := [10; 20; 30] |}.

Definition uq0 : ConvexHull.unique_queue :=
  {| ConvexHull.uq_hash := table; ConvexHull.uq_items := [] |}.

Definition uq1 : ConvexHull.unique_queue := snd (ConvexHull.UniqueQueue_PushBack uq0 5).

(** A hull that holds the triangle of [two_sides], and a pool of its other
    points. *)
Definition hull1 : @ConvexHull.hull IEEE.float32 :=
  {| ConvexHull.store := [ConvexHull.triangle_face 0 0 1 2 two_sides];
     ConvexHull.fv_next := 3; ConvexHull.faces := table;
     ConvexHull.faces_with_pts := FTree.FTree_New |}.

Definition pool1 : @ConvexHull.point_list IEEE.float32 :=
  {| ConvexHull.elems := [3; 4; 5]%nat; ConvexHull.max_dist := fl 2 |}.

(** A tree of three entries. *)
Definition tree3 : @FTree.ftree IEEE.float32 :=
  FTree.FTree_Insert (FTree.FTree_Insert (FTree.FTree_Insert FTree.FTree_New (fl 2) 20)
                        (fl 1) 10) (fl 3) 30.

(** The hierarchy over [spread]. *)
Definition spread_bvh : @Bvh.bvh_node IEEE.float32 :=
  match Bvh.BvhVl_New 3 spread (fl 1) with
  | Done n => n
  | _ => Bvh.BNull
  end.

(** The hull [LP_ConvexHull] starts with, and the hull of four faces that
    [InitSimplex] makes of the points of [two_sides]. *)
Definition hull0 : @ConvexHull.hull IEEE.float32 :=
  {| ConvexHull.store := []; ConvexHull.fv_next := 1; ConvexHull.faces := table;
     ConvexHull.faces_with_pts := FTree.FTree_New |}.

Definition simplex1 : @ConvexHull.hull IEEE.float32 :=
  match ConvexHull.InitSimplex 6 two_sides hull0 with
  | inl hs => hs
  | inr _ => hull0
  end.

(** A linked queue that holds 7. *)
Definition queue0 : QueueMem.queue :=
  {| QueueMem.cells := []; QueueMem.head := 0; QueueMem.tail := 0; QueueMem.len := 0 |}.

Definition queue1 : QueueMem.queue := snd (QueueMem.Queue_PushBack queue0 7).

End Sample.

(** * Facts and claims *)

(** * Facts on lists used as arrays *)

Lemma list_set_length {A} (n : nat) (x : A) l : length (list_set n x l) = length l.
Proof. revert n; induction l as [|a l IH]; intros [|n]; simpl; auto. Qed.

Lemma list_set_nth_eq {A} (n : nat) (x : A) l :
  (n < length l)%nat -> nth_error (list_set n x l) n = Some x.
Proof.
  revert n; induction l as [|a l IH]; intros [|n] Hn; simpl in *; try lia; auto.
  apply IH; lia.
Qed.

Lemma list_set_nth_neq {A} (n m : nat) (x : A) l :
  n <> m -> nth_error (list_set n x l) m = nth_error l m.
Proof.
  revert n m; induction l as [|a l IH]; intros [|n] [|m] Hn; simpl; auto; try congruence.
Qed.

Lemma list_set_same {A} (n : nat) (x : A) l :
  nth_error l n = Some x -> list_set n x l = l.
Proof.
  revert n; induction l as [|a l IH]; intros [|n] Hn; simpl in *; try congruence.
  f_equal; auto.
Qed.

Lemma nth_error_nth_default {A} (l : list A) n d x :
  nth_error l n = Some x -> nth n l d = x.
Proof. intros; apply nth_error_nth; auto. Qed.

Lemma nth_nth_error_lt {A} (l : list A) n d :
  (n < length l)%nat -> nth_error l n = Some (nth n l d).
Proof. intros; apply nth_error_nth'; auto. Qed.

Lemma in_concat_list_set {A} (n : nat) (c : list A) bs x :
  (n < length bs)%nat ->
  In x (concat (list_set n c bs)) <->
  In x c \/ exists m c', m <> n /\ nth_error bs m = Some c' /\ In x c'.
Proof.
  intros Hn; rewrite in_concat; split.
  - intros (c0 & Hc0 & Hx). apply In_nth_error in Hc0 as [m Hm].
    destruct (Nat.eq_dec n m) as [->|Hne].
    + rewrite list_set_nth_eq in Hm by auto. left; congruence.
    + rewrite list_set_nth_neq in Hm by auto. right; exists m, c0; auto.
  - intros [Hx|(m & c' & Hne & Hm & Hx)].
    + exists c; split; auto. eapply nth_error_In. apply list_set_nth_eq; auto.
    + exists c'; split; auto. eapply nth_error_In.
      rewrite list_set_nth_neq; eauto.
Qed.

(** * [memcmp] decides equality of the compared bytes *)

Lemma memcmp_eq a b n :
  (n <= length a)%nat -> (n <= length b)%nat ->
  (memcmp a b n = 0 <-> firstn n a = firstn n b).
Proof.
  revert a b; induction n as [|n IH]; intros a b Ha Hb; simpl.
  - split; reflexivity.
  - destruct a as [|x a], b as [|y b]; simpl in *; try lia.
    destruct (Z.eqb_spec x y) as [->|Hne].
    + rewrite IH by lia. split; intros E; [f_equal; auto | congruence].
    + split; intros E; [lia | congruence].
Qed.

(** * The table invariant *)

Module HashFacts.
Import Hash HashInv.
Section Facts.
Context `{Env} {K D Q : Type}.
Variables (qb : Q -> list Z) (kb : K -> list Z) (size : nat).

Local Abbreviation matchb := (HashInv.matchb qb kb size).
Local Abbreviation wf := (HashInv.wf kb size).

Lemma Find_chain_shift (c : list (element K D)) q hv pos :
  Find_chain qb kb size c q hv pos = (pos + Find_chain qb kb size c q hv 0)%nat.
Proof.
  revert pos; induction c as [|e c IH]; intros pos; simpl.
  - lia.
  - destruct ((hash_val e =? hv) && (cmp qb kb size (key e) q =? 0)); [lia|].
    rewrite IH, (IH 1%nat). lia.
Qed.

Lemma Find_chain_some (c : list (element K D)) q hv e :
  nth_error c (Find_chain qb kb size c q hv 0) = Some e ->
  matchb q hv e = true /\ In e c.
Proof.
  induction c as [|a c IH]; simpl.
  - discriminate.
  - destruct ((hash_val a =? hv) && (cmp qb kb size (key a) q =? 0)) eqn:E.
    + simpl. intros [= ->]. auto.
    + rewrite Find_chain_shift. simpl. intros Hn. destruct (IH Hn); auto.
Qed.

Lemma Find_chain_none (c : list (element K D)) q hv :
  nth_error c (Find_chain qb kb size c q hv 0) = None ->
  Find_chain qb kb size c q hv 0 = length c /\
  forall e, In e c -> matchb q hv e = false.
Proof.
  induction c as [|a c IH]; simpl.
  - intros _; split; auto. intros e [].
  - destruct ((hash_val a =? hv) && (cmp qb kb size (key a) q =? 0)) eqn:E.
    + simpl. discriminate.
    + rewrite Find_chain_shift. simpl. intros Hn. destruct (IH Hn) as [Hl Hall].
      split; [lia|]. intros e [<-|He]; auto.
Qed.

Lemma Find_chain_hit (c : list (element K D)) q hv e :
  In e c -> matchb q hv e = true ->
  exists e', nth_error c (Find_chain qb kb size c q hv 0) = Some e'.
Proof.
  intros Hin Hm.
  destruct (nth_error c (Find_chain qb kb size c q hv 0)) eqn:E; eauto.
  apply Find_chain_none in E as [_ Hall]. rewrite (Hall e Hin) in Hm. discriminate.
Qed.

Lemma chain_nth_error (h : hash K D) b :
  0 <= b < Z.of_nat (length (buckets h)) ->
  nth_error (buckets h) (Z.to_nat b) = Some (chain h b).
Proof. intros Hb. unfold chain. apply nth_nth_error_lt. lia. Qed.

Lemma in_chain_elements (h : hash K D) b e :
  In e (chain h b) -> In e (elements h).
Proof.
  unfold chain, elements. intros Hin.
  destruct (Nat.lt_ge_cases (Z.to_nat b) (length (buckets h))) as [Hlt|Hge].
  - apply in_concat. exists (nth (Z.to_nat b) (buckets h) []). split; auto.
    apply nth_In; auto.
  - rewrite nth_overflow in Hin by lia. destruct Hin.
Qed.

Lemma in_elements_chain (h : hash K D) e :
  wf h -> In e (elements h) -> In e (chain h (hash_val e mod num_buckets h)).
Proof.
  intros W Hin. unfold elements in Hin. apply in_concat in Hin as (c & Hc & He).
  apply In_nth_error in Hc as [b Hb].
  rewrite (wf_bucket W _ _ Hb He). unfold chain. rewrite Nat2Z.id.
  erewrite nth_error_nth_default; eauto.
Qed.

Lemma matchb_true q hv e (h : hash K D) :
  wf h -> In e (elements h) -> length (qb q) = size ->
  hv = hash_func qb size h q ->
  (matchb q hv e = true <-> kb (key e) = qb q).
Proof.
  intros W Hin Hq ->. destruct (wf_hash W _ Hin) as [Hh Hl].
  unfold matchb, cmp, hash_func. rewrite andb_true_iff, !Z.eqb_eq.
  rewrite memcmp_eq by lia.
  assert (E1 : firstn size (kb (key e)) = kb (key e)) by (apply firstn_all2; lia).
  assert (E2 : firstn size (qb q) = qb q) by (apply firstn_all2; lia).
  rewrite E1 in *. rewrite E2. split.
  - tauto.
  - intros E. split; congruence.
Qed.

(** A lookup finds a stored key with the same bytes, if there is one. *)
Lemma deref_Find_some (h : hash K D) q e :
  wf h -> length (qb q) = size ->
  deref h (Find qb kb size h q (hash_func qb size h q)) = Some e ->
  In e (elements h) /\ kb (key e) = qb q.
Proof.
  intros W Hq. unfold deref, Find; simpl. intros Hd.
  apply Find_chain_some in Hd as [Hm Hin].
  apply in_chain_elements in Hin. split; auto.
  eapply matchb_true; eauto.
Qed.

Lemma deref_Find_none (h : hash K D) q :
  wf h -> length (qb q) = size ->
  deref h (Find qb kb size h q (hash_func qb size h q)) = None ->
  forall e, In e (elements h) -> kb (key e) <> qb q.
Proof.
  intros W Hq. unfold deref, Find; simpl. intros Hd e Hin E.
  apply Find_chain_none in Hd as [_ Hall].
  assert (Hm : matchb q (hash_func qb size h q) e = true) by (eapply matchb_true; eauto).
  assert (Hh : hash_val e = hash_func qb size h q).
  { unfold matchb in Hm. apply andb_true_iff in Hm as [Hm _]. now apply Z.eqb_eq. }
  pose proof (in_elements_chain e W Hin) as Hc. rewrite Hh in Hc.
  rewrite (Hall e Hc) in Hm. discriminate.
Qed.

Lemma Hash_Lookup_some (h : hash K D) q e :
  wf h -> length (qb q) = size -> In e (elements h) -> kb (key e) = qb q ->
  exists e', In e' (elements h) /\ kb (key e') = qb q /\
             Hash_Lookup qb kb size h q = Some (data e').
Proof.
  intros W Hq Hin E. unfold Hash_Lookup.
  destruct (deref h (Find qb kb size h q (hash_func qb size h q))) as [e'|] eqn:Hd.
  - edestruct deref_Find_some as [? ?]; eauto.
  - exfalso. eapply deref_Find_none; eauto.
Qed.

End Facts.
End HashFacts.

Module HashFacts2.
Import Hash HashInv HashFacts.
Section Facts.
Context `{Env} {K D : Type}.
Variable size : nat.

Lemma wf_ext (kb kb' : K -> list Z) (h : hash K D) :
  (forall e, In e (elements h) -> kb' (key e) = kb (key e)) ->
  wf kb size h -> wf kb' size h.
Proof.
  intros E [W1 W2 W3 W4]. split; auto.
  intros e He. rewrite (E e He). auto.
Qed.

Lemma in_concat_nth_error {A} (bs : list (list A)) x :
  In x (concat bs) <-> exists b c, nth_error bs b = Some c /\ In x c.
Proof.
  rewrite in_concat. split.
  - intros (c & Hc & Hx). apply In_nth_error in Hc as [b Hb]. eauto.
  - intros (b & c & Hb & Hx). exists c. split; auto. eapply nth_error_In; eauto.
Qed.

Lemma elements_set_chain (h : hash K D) b c x :
  0 <= b < Z.of_nat (length (buckets h)) ->
  In x (elements (set_chain h b c)) <->
  In x c \/ exists m c', m <> Z.to_nat b /\ nth_error (buckets h) m = Some c' /\ In x c'.
Proof.
  intros Hb. unfold elements, set_chain; simpl.
  apply in_concat_list_set. lia.
Qed.

Lemma wf_set_items kb (h : hash K D) n : wf kb size h -> wf kb size (set_items h n).
Proof. intros [W1 W2 W3 W4]. split; auto. Qed.

Lemma elements_set_items (h : hash K D) n : elements (set_items h n) = elements h.
Proof. reflexivity. Qed.

(** Appending to the chain of the element's own bucket. *)
Lemma wf_append kb (h : hash K D) b e :
  wf kb size h -> 0 <= b < num_buckets h ->
  hash_val e mod num_buckets h = b ->
  hash_val e = siphash (secret h) (firstn size (kb (key e))) ->
  length (kb (key e)) = size ->
  wf kb size (set_chain h b (chain h b ++ [e])) /\
  (forall x, In x (elements (set_chain h b (chain h b ++ [e]))) <->
             In x (elements h) \/ x = e).
Proof.
  intros W Hb Hmod Hhash Hlen. pose proof W as [W1 W2 W3 W4].
  assert (Hb' : 0 <= b < Z.of_nat (length (buckets h))) by lia.
  assert (Hel : forall x, In x (elements (set_chain h b (chain h b ++ [e]))) <->
             In x (elements h) \/ x = e).
  { intros x. rewrite elements_set_chain by auto. rewrite in_app_iff. simpl.
    unfold elements at 1. rewrite in_concat_nth_error. split.
    - intros [ [Hx | [<- | [] ] ] | (m & c' & Hne & Hm & Hx) ]; auto.
      + left. exists (Z.to_nat b), (chain h b). split; auto. apply chain_nth_error; auto.
      + left. eauto.
    - intros [(m & c & Hm & Hx)| -> ]; auto.
      destruct (Nat.eq_dec m (Z.to_nat b)) as [ -> |Hne].
      + rewrite chain_nth_error in Hm by auto. injection Hm as <-. auto.
      + right. eauto. }
  split; auto. split; simpl; auto.
  - rewrite list_set_length. auto.
  - intros b0 c x Hn Hx.
    destruct (Nat.eq_dec (Z.to_nat b) b0) as [ <- |Hne].
    + rewrite list_set_nth_eq in Hn by lia. injection Hn as <-.
      apply in_app_iff in Hx as [Hx | [<- | [] ] ].
      * eapply W3; eauto. apply chain_nth_error; auto.
      * lia.
    + rewrite list_set_nth_neq in Hn by auto. eapply W3; eauto.
  - intros x Hx. apply Hel in Hx as [Hx| ->]; auto.
Qed.

Lemma fold_push_front n (l : list (element K D)) bs :
  0 < n -> length bs = Z.to_nat n ->
  (forall b c e, nth_error bs b = Some c -> In e c -> hash_val e mod n = Z.of_nat b) ->
  length (fold_left (push_front n) l bs) = Z.to_nat n /\
  (forall b c e, nth_error (fold_left (push_front n) l bs) b = Some c -> In e c ->
                 hash_val e mod n = Z.of_nat b) /\
  (forall x, In x (concat (fold_left (push_front n) l bs)) <-> In x l \/ In x (concat bs)).
Proof.
  intros Hn. revert bs. induction l as [|a l IH]; intros bs Hlen Hbs; simpl.
  - split; [|split]; auto. intros x; simpl; tauto.
  - assert (Hr : (Z.to_nat (hash_val a mod n) < length bs)%nat).
    { pose proof (Z.mod_pos_bound (hash_val a) n Hn). lia. }
    destruct (IH (push_front n bs a)) as (I1 & I2 & I3).
    + unfold push_front. rewrite list_set_length. auto.
    + unfold push_front. intros b c e Hb He.
      destruct (Nat.eq_dec (Z.to_nat (hash_val a mod n)) b) as [ <- |Hne].
      * rewrite list_set_nth_eq in Hb by auto. injection Hb as <-.
        destruct He as [ <- |He].
        -- pose proof (Z.mod_pos_bound (hash_val a) n Hn). lia.
        -- eapply Hbs; eauto. apply nth_nth_error_lt; auto.
      * rewrite list_set_nth_neq in Hb by auto. eauto.
    + split; [|split]; auto. intros x. rewrite I3. unfold push_front.
      rewrite in_concat_list_set by auto. rewrite in_concat_nth_error. simpl. split.
      * intros [Hx | [ [<- | Hx] | (m & c' & Hne & Hm & Hx) ] ]; auto.
        -- right. exists (Z.to_nat (hash_val a mod n)), (nth (Z.to_nat (hash_val a mod n)) bs []).
           split; auto. apply nth_nth_error_lt; auto.
        -- right. eauto.
      * intros [ [<- | Hx] | (m & c & Hm & Hx) ]; auto.
        destruct (Nat.eq_dec m (Z.to_nat (hash_val a mod n))) as [ -> |Hne].
        -- right. left. right. erewrite nth_error_nth_default; eauto.
        -- right. right. eauto.
Qed.

Lemma nth_error_repeat_nil {A} n b (c : list A) :
  nth_error (repeat [] n) b = Some c -> c = [].
Proof. intros Hn. apply nth_error_In in Hn. apply repeat_spec in Hn. auto. Qed.

Lemma concat_repeat_nil {A} n : concat (repeat (@nil A) n) = [].
Proof. induction n; simpl; auto. Qed.

Lemma wf_Rehash kb (h : hash K D) :
  wf kb size h ->
  wf kb size (Rehash h) /\
  (forall x, In x (elements (Rehash h)) <-> In x (elements h)) /\
  secret (Rehash h) = secret h.
Proof.
  intros W. pose proof W as [W1 W2 W3 W4]. unfold Rehash.
  assert (Hid : wf kb size h /\ (forall x, In x (elements h) <-> In x (elements h)) /\
                secret h = secret h) by (split; [|split]; auto; intros; tauto).
  destruct (num_buckets h >? SIZE_MAX / 2); [exact Hid|].
  destruct (alloc_ok _); [|exact Hid]. clear Hid.
  rewrite Z.shiftl_mul_pow2 by lia. change (2 ^ 1) with 2.
  destruct (@fold_push_front (num_buckets h * 2) (concat (buckets h))
              (repeat [] (Z.to_nat (num_buckets h * 2)))) as (I1 & I2 & I3).
  - lia.
  - apply repeat_length.
  - intros b c e Hb He. apply nth_error_repeat_nil in Hb. subst. destruct He.
  - assert (Hel : forall x, In x (concat (fold_left (push_front (num_buckets h * 2))
               (concat (buckets h)) (repeat [] (Z.to_nat (num_buckets h * 2))))) <->
               In x (elements h)).
    { intros x. rewrite I3, concat_repeat_nil. unfold elements. simpl. tauto. }
    split; [|split; auto].
    split; simpl; auto.
    + lia.
    + rewrite I1. lia.
    + intros e He. apply W4. apply Hel. exact He.
Qed.

Lemma elements_empty n rnd :
  elements {| num_buckets := n; num_items := 0;
              buckets := repeat (@nil (element K D)) (Z.to_nat n); secret := rnd |} = [].
Proof. unfold elements. cbn [buckets]. apply concat_repeat_nil. Qed.

Lemma wf_empty kb n rnd :
  0 < n ->
  wf kb size {| num_buckets := n; num_items := 0;
                buckets := repeat (@nil (element K D)) (Z.to_nat n); secret := rnd |}.
Proof.
  intros Hn. split; cbn [num_buckets buckets secret].
  - exact Hn.
  - rewrite repeat_length. lia.
  - intros b c e Hb He. apply nth_error_repeat_nil in Hb. subst. destruct He.
  - intros e He. rewrite elements_empty in He. destruct He.
Qed.

Lemma Hash_New_eq (h : hash K D) :
  Hash_New K D = Some h ->
  h = {| num_buckets := 128; num_items := 0;
         buckets := repeat [] (Z.to_nat 128); secret := random16 |}.
Proof.
  unfold Hash_New. destruct (alloc_ok 112); [|discriminate].
  destruct (alloc_ok (128 * sizeof_ptr)); [|discriminate].
  intros E. injection E as <-. reflexivity.
Qed.

Lemma Hash_New_wf kb (h : hash K D) : Hash_New K D = Some h -> wf kb size h.
Proof. intros E. rewrite (Hash_New_eq E). apply wf_empty; lia. Qed.

Lemma Hash_New_elements (h : hash K D) : Hash_New K D = Some h -> elements h = [].
Proof. intros E. rewrite (Hash_New_eq E). apply elements_empty. Qed.

End Facts.
End HashFacts2.

Module HashFacts3.
Import Hash HashInv HashFacts HashFacts2.
Section Facts.
Context `{Env} {K D Q U : Type}.
Variable qb : Q -> list Z.
Variable kb : K -> list Z.
Variable size : nat.

(** Inserting under bytes that the table does not hold adds one element
    and keeps the others. *)
Lemma Hash_Insert_new (copy_key : U -> Q -> option (K * U)) (h : hash K D) u q d r h' u' ko :
  wf kb size h -> length (qb q) = size ->
  (forall k u1, copy_key u q = Some (k, u1) -> kb k = qb q) ->
  Hash_Lookup qb kb size h q = None ->
  Hash_Insert qb kb size copy_key h u q d = (r, h', u', ko) ->
  (r <? 0) = false ->
  wf kb size h' /\
  exists e, kb (key e) = qb q /\ data e = d /\ ko = Some (key e) /\
            copy_key u q = Some (key e, u') /\
            forall x, In x (elements h') <-> In x (elements h) \/ x = e.
Proof.
  intros W Hq Hck Hlk. unfold Hash_Insert. unfold Hash_Lookup in Hlk.
  set (hv := hash_func qb size h q) in *.
  set (loc := Find qb kb size h q hv) in *.
  destruct (deref h loc) as [e0|] eqn:Hd; [discriminate|].
  destruct (alloc_ok sizeof_element); [|intros [= <- <- <- <-]; discriminate].
  destruct (copy_key u q) as [[k u1]|] eqn:Ek; [|intros [= <- <- <- <-]; discriminate].
  pose proof (Hck _ _ eq_refl) as Hkq.
  set (e := {| hash_val := hv; key := k; data := d |}).
  set (h1 := set_chain h (fst loc) (chain h (fst loc) ++ [e])).
  assert (Hb : 0 <= fst loc < num_buckets h).
  { unfold loc, Find. cbn [fst]. apply Z.mod_pos_bound. apply (wf_pos W). }
  destruct (@wf_append _ _ _ size kb h (fst loc) e W Hb) as [Wh1 Hel1].
  { reflexivity. }
  { simpl. rewrite Hkq. rewrite firstn_all2 by lia. unfold hv, hash_func.
    rewrite firstn_all2 by lia. reflexivity. }
  { simpl. rewrite Hkq. exact Hq. }
  fold h1 in Wh1, Hel1.
  set (h2 := if Z.shiftr (num_items h1) 1 >? num_buckets h1 then Rehash h1 else h1).
  assert (W2 : wf kb size h2 /\ forall x, In x (elements h2) <-> In x (elements h1)).
  { unfold h2. destruct (Z.shiftr (num_items h1) 1 >? num_buckets h1).
    - destruct (wf_Rehash Wh1) as (? & ? & ?). auto.
    - split; auto. intros; tauto. }
  destruct W2 as [Wh2 Hel2].
  intros [= <- <- <- <-] _. split; [apply wf_set_items; exact Wh2|].
  exists e. split; [exact Hkq|]. do 3 (split; [reflexivity|]).
  intros x. rewrite elements_set_items, Hel2, Hel1. tauto.
Qed.

End Facts.
End HashFacts3.

Module VLFacts.
Import Hash HashInv HashFacts HashFacts2 VL VLInv.
Section Facts.
Context `{Env} {F : Type} `{FloatRepr F}.

Lemma vert_bytes_length (r : list F) : length (vert_bytes r) = (4 * length r)%nat.
Proof.
  unfold vert_bytes. induction r as [|x r IH]; [reflexivity|].
  cbn [flat_map]. rewrite length_app, IH. unfold float_bytes, word_bytes. rewrite length_map, length_seq. simpl length. lia.
Qed.

Lemma stored_nth (vl : @lp_vertex_list F) k r :
  nth_error (vert vl) (Z.to_nat (k - 1)) = Some r -> stored vl k = r.
Proof. unfold stored. apply nth_error_nth_default. Qed.

Lemma set_chain_same (h : hash Z Z) b :
  0 <= b < Z.of_nat (length (buckets h)) -> set_chain h b (chain h b) = h.
Proof.
  intros Hb. unfold set_chain. rewrite list_set_same by (apply chain_nth_error; auto).
  destruct h; reflexivity.
Qed.

Lemma set_hash_same (vl : @lp_vertex_list F) h : vert_hash vl = Some h -> set_hash vl (Some h) = vl.
Proof. intros E. unfold set_hash. rewrite <- E. destruct vl; reflexivity. Qed.

Lemma Find_bucket_range (h : hash Z Z) qb kb size (q : list F) hv :
  0 < num_buckets h -> 0 <= fst (Find qb kb size h q hv) < num_buckets h.
Proof. intros Hp. simpl. apply Z.mod_pos_bound; auto. Qed.

Lemma deref_some_lt (h : hash Z Z) loc e :
  deref h loc = Some e -> (snd loc < length (chain h (fst loc)))%nat.
Proof. unfold deref. intros E. apply nth_error_Some. congruence. Qed.

Lemma VlCopy_spec (vl : @lp_vertex_list F) (v : list F) k vl1 :
  wf vl -> Z.of_nat (length v) = floats_per_vert vl ->
  VlCopy vl v = Some (k, vl1) ->
  k = vert_used vl + 1 /\ k <= UINT_MAX /\
  exists alloc, vl1 = set_verts vl alloc (vert_used vl + 1) (vert vl ++ [v]) /\
                vert_used vl + 1 <= alloc <= UINT_MAX.
Proof.
  intros W Hv. pose proof (wf_used W) as Hu. pose proof (wf_alloc W) as [[Ha1 Ha2] Ha3].
  assert (Hs : firstn (Z.to_nat (vert_used vl)) (vert vl)
                 ++ [firstn (Z.to_nat (floats_per_vert vl)) v] = vert vl ++ [v]).
  { rewrite !firstn_all2 by lia. reflexivity. }
  unfold VlCopy. rewrite Hs. unfold UINT_MAX in *.
  destruct (Z.geb_spec (vert_used vl) (vert_alloc vl)) as [Hge|Hlt].
  - destruct (Z.eqb_spec (vert_alloc vl) 4294967295) as [Hm|Hm]; [discriminate|].
    rewrite Z.shiftr_div_pow2, Z.shiftl_mul_pow2 by lia.
    change (4294967295 / 2 ^ 1) with 2147483647. change (2 ^ 1) with 2.
    destruct (SIZE_MAX / vert_size vl <=? _); [discriminate|].
    destruct (alloc_ok _); [|discriminate].
    rewrite Z.mod_small by lia. intros [= <- <-].
    split; auto. split; [lia|]. eexists; split; [reflexivity|].
    destruct (Z.gtb_spec (vert_alloc vl) 2147483647); lia.
  - rewrite Z.mod_small by lia. intros [= <- <-].
    split; auto. split; [lia|]. eexists; split; [reflexivity|]. lia.
Qed.


Lemma key_size (vl : @lp_vertex_list F) (v : list F) :
  wf vl -> Z.of_nat (length v) = floats_per_vert vl ->
  length (vert_bytes v) = Z.to_nat (vert_size vl).
Proof.
  intros W Hv. rewrite vert_bytes_length, (wf_vsize W). unfold sizeof_float. lia.
Qed.

Lemma VlKey_old (vl : @lp_vertex_list F) alloc used v k :
  wf vl -> 1 <= k <= vert_used vl ->
  VlKey (set_verts vl alloc used (vert vl ++ [v])) k = VlKey vl k.
Proof.
  intros W Hk. unfold VlKey, stored; simpl. pose proof (wf_used W).
  rewrite app_nth1 by lia. reflexivity.
Qed.

Lemma VlKey_new (vl : @lp_vertex_list F) alloc used v :
  wf vl ->
  VlKey (set_verts vl alloc used (vert vl ++ [v])) (vert_used vl + 1) = vert_bytes v.
Proof.
  intros W. unfold VlKey, stored; simpl. pose proof (wf_used W).
  rewrite app_nth2 by lia. replace (Z.to_nat (vert_used vl + 1 - 1) - length (vert vl))%nat with 0%nat by lia.
  reflexivity.
Qed.

Lemma stored_at_key (vl : @lp_vertex_list F) v k :
  wf vl -> 1 <= k <= vert_used vl -> VlKey vl k = vert_bytes v -> stored_at vl v (k - 1).
Proof.
  intros W Hk E. pose proof (wf_used W). split; [lia|].
  exists (stored vl k). split; auto. unfold stored. apply nth_nth_error_lt. lia.
Qed.

(** [AddVert]: the index of a stored record with the bytes of [v], or of
    the record it appends. *)
Lemma AddVert_spec (vl : @lp_vertex_list F) v o vl' :
  wf vl -> Z.of_nat (length v) = floats_per_vert vl ->
  AddVert vl v = (o, vl') ->
  match o with
  | Fail _ => vl' = vl
  | Ret idx =>
      wf vl' /\ ind vl' = ind vl /\ ind_used vl' = ind_used vl /\
      ind_alloc vl' = ind_alloc vl /\ floats_per_vert vl' = floats_per_vert vl /\
      0 <= idx < UINT_MAX /\
      ((exists i, stored_at vl v i) -> stored_at vl v idx /\ vl' = vl) /\
      (~ (exists i, stored_at vl v i) ->
         idx = vert_used vl /\ vert vl' = vert vl ++ [v] /\
         vert_used vl' = vert_used vl + 1) /\
      stored_at vl' v idx
  end.
Proof.
  intros W Hv. pose proof (key_size v W Hv) as Hsz.
  pose proof (wf_used W) as Hu. pose proof (wf_alloc W) as [[Ha1 Ha2] Ha3].
  destruct (wf_table W) as (h & Eh & Wh & Hkeys & Hcompl).
  unfold AddVert. rewrite Eh. unfold Hash_Insert.
  set (hv := hash_func vert_bytes (Z.to_nat (vert_size vl)) h v).
  set (loc := Find vert_bytes (VlKey vl) (Z.to_nat (vert_size vl)) h v hv).
  pose proof (@Find_bucket_range h vert_bytes (VlKey vl) (Z.to_nat (vert_size vl)) v hv
                (HashInv.wf_pos Wh)) as Hb. fold loc in Hb.
  destruct (deref h loc) as [e|] eqn:Hd.
  - (* a stored record has these bytes *)
    destruct (@deref_Find_some _ _ _ _ vert_bytes (VlKey vl) _ h v e Wh Hsz Hd) as [Hin Hk].
    destruct (Hkeys e Hin) as [Hke Hde].
    change (0 <? 0) with false. cbv iota. intros [= <- <-].
    assert (Ee : {| hash_val := hash_val e; key := key e; data := PRESENT |} = e)
      by (destruct e; simpl in *; subst; reflexivity).
    rewrite Ee. unfold deref, loc, Find in Hd. unfold loc, Find in Hb. cbn [fst snd] in Hd, Hb.
    rewrite (list_set_same _ _ Hd).
    rewrite set_chain_same by (rewrite (HashInv.wf_len Wh); auto).
    rewrite (set_hash_same _ Eh). unfold UINT_MAX in *.
    rewrite Z.mod_small by lia.
    assert (Hst : stored_at vl v (key e - 1)) by (eapply stored_at_key; eauto).
    split; [exact W|]. do 4 (split; [reflexivity|]). split; [lia|].
    split; [intros _; split; [exact Hst|reflexivity]|].
    split; [intros Hno; exfalso; apply Hno; eauto|exact Hst].
  - (* no stored record has these bytes *)
    assert (Hnone : forall i, ~ stored_at vl v i).
    { intros i [Hi (r & Hr & Er)].
      destruct (Hcompl i Hi) as (e & Hin & Hk).
      eapply (@deref_Find_none _ _ _ _ vert_bytes (VlKey vl)); eauto.
      unfold VlKey. erewrite stored_nth; eauto. rewrite Hk.
      replace (i + 1 - 1) with i by lia. exact Hr. }
    destruct (alloc_ok sizeof_element); [|intros [= <- <-]; reflexivity].
    destruct (VlCopy vl v) as [[k vl1]|] eqn:Hc; [|intros [= <- <-]; reflexivity].
    edestruct VlCopy_spec as (Ek & Hkmax & alloc & Evl & Halloc); [exact W|exact Hv|exact Hc|]. subst k vl1.
    change (1 <? 0) with false. cbv iota.
    set (vl1 := set_verts vl alloc (vert_used vl + 1) (vert vl ++ [v])).
    set (e := {| hash_val := hv; key := vert_used vl + 1; data := PRESENT |}).
    set (h1 := set_chain h (fst loc) (chain h (fst loc) ++ [e])).
    assert (Wh0 : HashInv.wf (VlKey vl1) (Z.to_nat (vert_size vl)) h).
    { apply wf_ext with (kb := VlKey vl); auto.
      intros x Hx. apply VlKey_old; auto. apply Hkeys; auto. }
    destruct (@wf_append _ _ _ (Z.to_nat (vert_size vl)) (VlKey vl1) h (fst loc) e Wh0 Hb)
      as [Wh1 Hel1].
    { reflexivity. }
    { simpl. unfold vl1. rewrite VlKey_new by auto. reflexivity. }
    { simpl. unfold vl1. rewrite VlKey_new by auto. exact Hsz. }
    fold h1 in Wh1, Hel1.
    set (h2 := if Z.shiftr (num_items h1) 1 >? num_buckets h1 then Rehash h1 else h1).
    assert (W2 : HashInv.wf (VlKey vl1) (Z.to_nat (vert_size vl)) h2 /\
                 forall x, In x (elements h2) <-> In x (elements h1)).
    { unfold h2. destruct (Z.shiftr (num_items h1) 1 >? num_buckets h1).
      - destruct (wf_Rehash Wh1) as (? & ? & ?). auto.
      - split; auto. intros; tauto. }
    destruct W2 as [Wh2 Hel2].
    intros [= <- <-]. unfold UINT_MAX in *.
    assert (Eidx : forall m, m = 4294967296 -> (vert_used vl + 1 - 1) mod m = vert_used vl)
      by (intros; subst; rewrite Z.mod_small; lia).
    rewrite Eidx by reflexivity.
    assert (Hel : forall x, In x (elements (set_items h2 ((num_items h2 + 1) mod (SIZE_MAX + 1)))) <->
                            In x (elements h) \/ x = e).
    { intros x. rewrite elements_set_items, Hel2, Hel1. tauto. }
    assert (Hst : stored_at (set_hash vl1 (Some (set_items h2 ((num_items h2 + 1) mod (SIZE_MAX + 1))))) v
                    (vert_used vl)).
    { split; simpl; [lia|]. exists v. split; auto.
      rewrite nth_error_app2 by lia.
      replace (Z.to_nat (vert_used vl) - length (vert vl))%nat with 0%nat by lia. reflexivity. }
    split; [|do 4 (split; [reflexivity|]); split; [lia|];
             split; [intros [i Hi]; exfalso; eapply Hnone; eauto|];
             split; [intros _; repeat split; reflexivity|exact Hst]].
    split; simpl; try apply W; auto.
    + rewrite length_app; simpl. lia.
    + unfold UINT_MAX. lia.
    + intros r Hr. apply in_app_iff in Hr as [Hr | [ <- | [] ] ]; auto. apply (wf_rec W); auto.
    + intros i j ri rj Hi Hj E.
      destruct (Nat.lt_ge_cases i (length (vert vl))) as [Hil|Hil];
      destruct (Nat.lt_ge_cases j (length (vert vl))) as [Hjl|Hjl].
      * rewrite nth_error_app1 in Hi, Hj by auto. eapply (wf_uniq W); eauto.
      * rewrite nth_error_app1 in Hi by auto.
        assert (Hjx : (j < length (vert vl ++ [v]))%nat) by (apply nth_error_Some; congruence).
        rewrite length_app in Hjx; simpl in Hjx.
        rewrite nth_error_app2 in Hj by auto.
        replace (j - length (vert vl))%nat with 0%nat in Hj by lia. injection Hj as <-.
        exfalso. apply (Hnone (Z.of_nat i)). split; [lia|]. exists ri. rewrite Nat2Z.id. auto.
      * rewrite nth_error_app1 in Hj by auto.
        assert (Hix : (i < length (vert vl ++ [v]))%nat) by (apply nth_error_Some; congruence).
        rewrite length_app in Hix; simpl in Hix.
        rewrite nth_error_app2 in Hi by auto.
        replace (i - length (vert vl))%nat with 0%nat in Hi by lia. injection Hi as <-.
        exfalso. apply (Hnone (Z.of_nat j)). split; [lia|]. exists rj. rewrite Nat2Z.id. auto.
      * assert (Hix : (i < length (vert vl ++ [v]))%nat) by (apply nth_error_Some; congruence).
        assert (Hjx : (j < length (vert vl ++ [v]))%nat) by (apply nth_error_Some; congruence).
        rewrite length_app in Hix, Hjx; simpl in Hix, Hjx. lia.
    + eexists. split; [reflexivity|]. split; [|split].
      * apply wf_set_items. exact Wh2.
      * intros x Hx. apply Hel in Hx as [Hx| ->].
        -- destruct (Hkeys x Hx). split; auto. lia.
        -- simpl. split; [lia|reflexivity].
      * intros i Hi. destruct (Z.eq_dec i (vert_used vl)) as [->|Hne].
        -- exists e. split; [apply Hel; auto|reflexivity].
        -- destruct (Hcompl i) as (x & Hx & Ex); [lia|].
           exists x. split; [apply Hel; auto|auto].
Qed.


Lemma wf_same_verts (vl vl' : @lp_vertex_list F) :
  wf vl -> same_verts vl vl' ->
  ind_used vl' = Z.of_nat (length (ind vl')) ->
  (ind_used vl' <= ind_alloc vl' <= SIZE_MAX / sizeof_uint /\ 1 <= ind_alloc vl') ->
  wf vl'.
Proof.
  intros W (E1 & E2 & E3 & E4 & E5 & E6) Hi Ha.
  split; auto; rewrite ?E1, ?E2, ?E3, ?E4, ?E5, ?E6; try apply W.
  destruct (wf_table W) as (h & Eh & Wh & Hk & Hc).
  exists h. unfold VlKey, stored in *. rewrite E5. auto.
Qed.

Lemma AddInd_spec (vl : @lp_vertex_list F) i o vl' :
  wf vl -> AddInd vl i = (o, vl') ->
  match o with
  | Ret j => j = i /\ ind vl' = ind vl ++ [i] /\ ind_used vl' = ind_used vl + 1 /\
             same_verts vl vl' /\ wf vl'
  | Fail e => vl' = vl /\ (e = E_ind_full \/ e = E_ind_nomem) /\ ~ ind_room vl
  end.
Proof.
  intros W. pose proof (wf_ind_used W) as Hu. pose proof (wf_ind_alloc W) as [[Ha1 Ha2] Ha3].
  assert (Hs : firstn (Z.to_nat (ind_used vl)) (ind vl) ++ [i] = ind vl ++ [i])
    by (rewrite firstn_all2 by lia; reflexivity).
  assert (Hmax : SIZE_MAX / sizeof_uint = 4611686018427387903) by reflexivity.
  assert (Hmax2 : Z.shiftr (SIZE_MAX / sizeof_uint) 1 = 2305843009213693951) by reflexivity.
  unfold AddInd. rewrite Hs, Hmax2.
  assert (Hmod : (ind_used vl + 1) mod (SIZE_MAX + 1) = ind_used vl + 1)
    by (apply Z.mod_small; unfold SIZE_MAX; lia).
  rewrite Hmod.
  assert (Hok : forall alloc, ind_used vl + 1 <= alloc <= SIZE_MAX / sizeof_uint ->
      i = i /\ ind (set_inds vl alloc (ind_used vl + 1) (ind vl ++ [i])) = ind vl ++ [i] /\
      ind_used (set_inds vl alloc (ind_used vl + 1) (ind vl ++ [i])) = ind_used vl + 1 /\
      same_verts vl (set_inds vl alloc (ind_used vl + 1) (ind vl ++ [i])) /\
      wf (set_inds vl alloc (ind_used vl + 1) (ind vl ++ [i]))).
  { intros alloc Hal.
    assert (Hsv : same_verts vl (set_inds vl alloc (ind_used vl + 1) (ind vl ++ [i])))
      by (repeat split).
    do 3 (split; [reflexivity|]). split; [exact Hsv|].
    eapply wf_same_verts; eauto; simpl.
    - rewrite length_app; simpl. lia.
    - lia. }
  destruct (Z.geb_spec (ind_used vl) (ind_alloc vl)) as [Hge|Hlt].
  - destruct (Z.ltb_spec 2305843009213693951 (ind_alloc vl)) as [Hfull|Hfull].
    + intros [= <- <-]. split; auto. split; auto.
      unfold ind_room. rewrite Hmax2. lia.
    + rewrite Z.shiftl_mul_pow2 by lia. change (2 ^ 1) with 2.
      destruct (alloc_ok (ind_alloc vl * 2 * sizeof_uint)) eqn:Eal.
      * intros [= <- <-]. apply Hok. lia.
      * intros [= <- <-]. split; auto. split; auto.
        unfold ind_room. rewrite Z.shiftl_mul_pow2 by lia. change (2 ^ 1) with 2.
        rewrite Eal. intros [?|[_ ?]]; [lia|discriminate].
  - intros [= <- <-]. apply Hok. lia.
Qed.

Lemma Add_spec (vl : @lp_vertex_list F) v idx vl' :
  wf vl -> Z.of_nat (length v) = floats_per_vert vl ->
  LP_VertexList_Add vl v = (Ret idx, vl') ->
  wf vl' /\ stored_at vl' v idx /\
  floats_per_vert vl' = floats_per_vert vl /\
  ((exists i, stored_at vl v i) -> stored_at vl v idx /\ vert vl' = vert vl) /\
  (~ (exists i, stored_at vl v i) -> idx = vert_used vl /\ vert vl' = vert vl ++ [v]) /\
  ind vl' = ind vl ++ [idx] /\ ind_used vl' = ind_used vl + 1.
Proof.
  intros W Hv. unfold LP_VertexList_Add.
  destruct (AddVert vl v) as [o vl1] eqn:Ha.
  pose proof (AddVert_spec _ W Hv Ha) as Hs.
  destruct o as [i|e]; [|cbn; intros; discriminate].
  destruct Hs as (W1 & Ei & Eu & Eal & Efpv & Hi & Hold & Hnew & Hst).
  simpl c_ret. destruct (Z.eqb_spec i UINT_MAX) as [->|Hne]; [lia|].
  unfold LP_VertexList_AddIndex.
  destruct Hst as [Hr Hst'].
  destruct (Z.gtb_spec i (vert_used vl1)) as [Hgt|Hle]; [lia|].
  intros Hadd. pose proof (AddInd_spec _ W1 Hadd) as Hs. simpl in Hs.
  destruct Hs as (-> & Eind & Eused & (S1 & S2 & S3 & S4 & S5 & S6) & W').
  split; [exact W'|]. split.
  { split; [lia|]. rewrite S5. exact Hst'. }
  split; [congruence|].
  split; [intros Hex; destruct (Hold Hex) as [? ->]; rewrite S5; auto|].
  split; [intros Hno; destruct (Hnew Hno) as (? & ? & ?); rewrite S5; auto|].
  rewrite Eind, Ei, Eused, Eu. auto.
Qed.

End Facts.
End VLFacts.

Module VLClaims.
Import Hash HashInv HashFacts HashFacts2 VL VLInv VLFacts.
Section Claims.
Context `{Env} {F : Type} `{FloatRepr F}.

Lemma wf_New fpv pt (vl : @lp_vertex_list F) :
  1 <= fpv -> LP_VertexList_New fpv pt = Some vl -> wf vl.
Proof.
  intros Hf. unfold LP_VertexList_New.
  destruct (SIZE_MAX / sizeof_float <? fpv); [discriminate|].
  destruct (alloc_ok 80); [|discriminate].
  destruct (alloc_ok (64 * (fpv * sizeof_float))); [|discriminate].
  destruct (alloc_ok (64 * sizeof_uint)); [|discriminate].
  destruct (Hash_New Z Z) as [h|] eqn:Eh; [|discriminate].
  intros [= <-].
  split; cbn [floats_per_vert vert_size vert_used vert_alloc vert ind_used ind_alloc ind vert_hash length].
  - lia.
  - reflexivity.
  - reflexivity.
  - unfold UINT_MAX; lia.
  - intros r [].
  - intros [|i] j ri rj; discriminate.
  - reflexivity.
  - change (SIZE_MAX / sizeof_uint) with 4611686018427387903. lia.
  - exists h. split; [reflexivity|].
    split; [apply Hash_New_wf; exact Eh|]. rewrite (Hash_New_elements Eh). split.
    + intros e [].
    + intros i Hi. lia.
Qed.

(** C1.  A successful [LP_VertexList_Add(vl, v)] on a well-formed list
    returns the index of a stored record whose bytes equal those of [v] if
    there is one, and otherwise appends [v] and returns its new index; in
    both cases it appends exactly that index to the index array, whose
    length grows by one; and a further [Add] of any byte-identical vertex
    returns the same index. *)
Theorem LP_VertexList_Add_dedup (vl : @lp_vertex_list F) (v : list F) idx vl' :
  wf vl -> Z.of_nat (length v) = floats_per_vert vl ->
  LP_VertexList_Add vl v = (Ret idx, vl') ->
  ((exists i, stored_at vl v i) -> stored_at vl v idx /\ vert vl' = vert vl) /\
  (~ (exists i, stored_at vl v i) -> idx = vert_used vl /\ vert vl' = vert vl ++ [v]) /\
  ind vl' = ind vl ++ [idx] /\
  LP_VertexList_NumInd vl' = LP_VertexList_NumInd vl + 1 /\
  (forall w idx2 vl2, vert_bytes w = vert_bytes v ->
     Z.of_nat (length w) = floats_per_vert vl ->
     LP_VertexList_Add vl' w = (Ret idx2, vl2) -> idx2 = idx).
Proof.
  intros W Hv Hadd.
  destruct (Add_spec _ W Hv Hadd) as (W' & Hst & Efpv & Hold & Hnew & Hind & Hused).
  do 4 (split; [assumption|]).
  intros w idx2 vl2 Eb Hw Hadd2.
  rewrite <- Efpv in Hw.
  destruct (Add_spec _ W' Hw Hadd2) as (_ & _ & _ & Hold2 & _).
  assert (Hstw : stored_at vl' w idx).
  { destruct Hst as [Hr (r & Hn & Er)]. split; auto. exists r. split; congruence. }
  destruct (Hold2 (ex_intro _ idx Hstw)) as [[Hr2 (r2 & Hn2 & Er2)] _].
  destruct Hstw as [Hr (r & Hn & Er)].
  assert (E : Z.to_nat idx2 = Z.to_nat idx) by (eapply (wf_uniq W'); eauto; congruence).
  lia.
Qed.

(** C8.  [LP_VertexList_AddIndex(vl, index)] reports "out of range"
    exactly when [index > NumVert(vl)]; every index up to and including the
    vertex count passes the check and, when there is room for it, is
    returned and appended to the index array. *)
Theorem LP_VertexList_AddIndex_range (vl : @lp_vertex_list F) (index : Z) :
  wf vl ->
  (index > LP_VertexList_NumVert vl <->
   exists u, fst (LP_VertexList_AddIndex vl index) = Fail (E_range index u)) /\
  (index > LP_VertexList_NumVert vl ->
   LP_VertexList_AddIndex vl index = (Fail (E_range index (vert_used vl)), vl)) /\
  (index <= LP_VertexList_NumVert vl -> ind_room vl ->
   exists vl', LP_VertexList_AddIndex vl index = (Ret index, vl') /\
               ind vl' = ind vl ++ [index] /\
               LP_VertexList_NumInd vl' = LP_VertexList_NumInd vl + 1 /\
               vert vl' = vert vl).
Proof.
  intros W. unfold LP_VertexList_NumVert, LP_VertexList_NumInd, LP_VertexList_AddIndex.
  destruct (Z.gtb_spec index (vert_used vl)) as [Hgt|Hle].
  - split; [|split]; simpl.
    + split; eauto. intros _; lia.
    + reflexivity.
    + lia.
  - destruct (AddInd vl index) as [o vl'] eqn:Ha.
    pose proof (AddInd_spec _ W Ha) as Hs. destruct o as [j|e].
    + destruct Hs as (-> & Ei & Eu & (S1 & S2 & S3 & S4 & S5 & S6) & W').
      split; [|split]; simpl.
      * split; [lia|]. intros [u Hu]. discriminate.
      * lia.
      * intros _ _. exists vl'. auto.
    + destruct Hs as (-> & He & Hroom).
      split; [|split]; simpl.
      * split; [lia|]. intros [u Hu]. injection Hu as ->. destruct He; discriminate.
      * lia.
      * intros _ Hr. contradiction.
Qed.

End Claims.

Import Sample IEEE.

Lemma vl0_New : LP_VertexList_New 3 lp_pt_triangle = Some vl0.
Proof. reflexivity. Qed.

Lemma vl0_wf : wf vl0.
Proof. apply wf_New with (fpv := 3) (pt := lp_pt_triangle); [lia|apply vl0_New]. Qed.

Lemma LP_VertexList_Add_dedup_witness :
  wf vl0 /\ Z.of_nat (length v123) = floats_per_vert vl0 /\
  LP_VertexList_Add vl0 v123 = (Ret 0, vl1) /\
  ind vl1 = ind vl0 ++ [0] /\
  LP_VertexList_NumInd vl1 = LP_VertexList_NumInd vl0 + 1 /\
  (forall w idx2 vl2, vert_bytes w = vert_bytes v123 ->
     Z.of_nat (length w) = floats_per_vert vl0 ->
     LP_VertexList_Add vl1 w = (Ret idx2, vl2) -> idx2 = 0).
Proof.
  assert (Hl : Z.of_nat (length v123) = floats_per_vert vl0) by reflexivity.
  assert (Ha : LP_VertexList_Add vl0 v123 = (Ret 0, vl1)) by (vm_compute; reflexivity).
  destruct (@LP_VertexList_Add_dedup _ _ _ vl0 v123 0 vl1 vl0_wf Hl Ha) as (_ & _ & H3 & H4 & H5).
  split; [apply vl0_wf|]. split; [exact Hl|]. split; [exact Ha|].
  split; [exact H3|]. split; [exact H4|exact H5].
Defined.

Lemma LP_VertexList_AddIndex_range_witness :
  wf vl0 /\
  (0 > LP_VertexList_NumVert vl0 <->
   exists u, fst (LP_VertexList_AddIndex vl0 0) = Fail (E_range 0 u)) /\
  (0 <= LP_VertexList_NumVert vl0 -> ind_room vl0 ->
   exists vl', LP_VertexList_AddIndex vl0 0 = (Ret 0, vl') /\
               ind vl' = ind vl0 ++ [0] /\
               LP_VertexList_NumInd vl' = LP_VertexList_NumInd vl0 + 1 /\
               vert vl' = vert vl0).
Proof.
  destruct (@LP_VertexList_AddIndex_range _ _ _ vl0 0 vl0_wf) as (H1 & _ & H3).
  split; [apply vl0_wf|]. split; assumption.
Defined.

End VLClaims.

Module HullFacts.
Import Util ConvexHull HullSpec.
Section Facts.
Context `{Env} {F : Type} `{FloatOps F} `{FloatRepr F}.

(** The loop of [Categorize] computes the area sum and the largest edge
    distance over the ring's edges. *)
Lemma Categorize_fold (f : @face F) pt data l x y a m :
  let g := fun fv => in_plane f pt (point data (fv_idx fv)) in
  let r := fold_left (Categorize_step f pt data) l (x, y, a, m) in
  snd (fst r) = fold_left (fun a e => (a + edge_area (fst e) (snd e))%fl)
                          (edges_from (x, y) (map g l)) a /\
  snd r = fold_left (fun m e => let dd := edge_dist (fst e) (snd e) in
                                if (dd >? m)%fl then dd else m)
                    (edges_from (x, y) (map g l)) m.
Proof.
  revert x y a m. induction l as [|fv l IH]; intros x y a m; simpl.
  - split; reflexivity.
  - apply IH.
Qed.

Lemma Categorize_table (f : @face F) idx data :
  Categorize f idx data =
  (decide (plane_dist f idx data) (max_edge_dist f idx data)
          (tolerance (edge_sum f idx data)),
   plane_dist f idx data).
Proof.
  unfold Categorize, max_edge_dist, edge_sum, ring_edges.
  pose proof (Categorize_fold f (point data idx) data (verts f)
                (Dot (sub3 (point data (last_idx (verts f))) (point data idx)) (xx f))
                (Dot (sub3 (point data (last_idx (verts f))) (point data idx)) (yy f))
                f_zero (f_neg f_inf)) as [Ha Hm].
  cbv zeta in Ha, Hm.
  destruct (fold_left _ (verts f) _) as [[[x2 y2] area] max].
  simpl in Ha, Hm.
  change (in_plane f (point data idx) (point data (last_idx (verts f))))
    with (Dot (sub3 (point data (last_idx (verts f))) (point data idx)) (xx f),
          Dot (sub3 (point data (last_idx (verts f))) (point data idx)) (yy f)).
  rewrite <- Ha, <- Hm.
  unfold decide, plane_dist, tolerance.
  repeat match goal with |- context [if ?c then _ else _] => destruct c; simpl end;
    reflexivity.
Qed.

Lemma get_face_app (hs : @hull F) f :
  nth (Z.to_nat (Z.of_nat (length (store hs)) + 1 - 1)) (store hs ++ [f]) empty_face = f.
Proof.
  replace (Z.to_nat (Z.of_nat (length (store hs)) + 1 - 1)) with (length (store hs)) by lia.
  rewrite app_nth2 by lia. rewrite Nat.sub_diag. reflexivity.
Qed.

Lemma Face_New_spec a b c (hs hs' : @hull F) data fc :
  Face_New a b c hs data = Some (fc, hs') ->
  get_face hs' fc = triangle_face (fv_next hs) a b c data.
Proof.
  unfold Face_New. destruct (alloc_ok 64); [|discriminate].
  destruct (Ptr_Insert _ _ _) as [r h']. destruct (r <? 0); [discriminate|].
  intros [= <- <-]. unfold get_face. cbn [store]. apply get_face_app.
Qed.

Lemma classify_all_extend (f : @face F) data len skip l above pool :
  all_extend f len skip data ->
  (forall idx, In idx l -> (idx < len)%nat) ->
  exists pool', fold_left (classify_step f data skip) l (above, pool, PointList_New)
                = (above, pool', PointList_New).
Proof.
  intros Hall. revert pool. induction l as [|idx l IH]; intros pool Hl; cbn [fold_left].
  - eauto.
  - assert (Hstep : exists p, classify_step f data skip (above, pool, PointList_New) idx
                              = (above, p, PointList_New)).
    { unfold classify_step. destruct skip as [[a b] c].
      destruct (Nat.eqb_spec idx a); [simpl; eauto|].
      destruct (Nat.eqb_spec idx b); [simpl; eauto|].
      destruct (Nat.eqb_spec idx c); [simpl; eauto|]. simpl.
      assert (Hc : fst (Categorize f idx data) = Extend).
      { apply Hall; simpl; auto. apply Hl. left. reflexivity. }
      destruct (Categorize f idx data) as [cat dist]. simpl in Hc. subst cat. eauto. }
    destruct Hstep as [p ->]. apply IH. intros i Hi. apply Hl. right. exact Hi.
Qed.

Lemma InitSimplex_few len data (hs : @hull F) :
  (len < 4)%nat -> InitSimplex len data hs = inr Too_few.
Proof.
  intros Hl. unfold InitSimplex. destruct (Nat.ltb_spec len 4); [reflexivity|lia].
Qed.

Lemma norm_triangle_face n m a b c (data : list (list F)) :
  norm (triangle_face n a b c data) = norm (triangle_face m a b c data).
Proof. reflexivity. Qed.

Lemma Categorize_triangle_face n m a b c (data : list (list F)) idx :
  Categorize (triangle_face n a b c data) idx data =
  Categorize (triangle_face m a b c data) idx data.
Proof. reflexivity. Qed.

Lemma InitSimplex_colinear len data (hs : @hull F) :
  (let '(a, b, c) := initial_triangle len data in
   (Norm2 (norm (triangle_face 1 a b c data)) =? f_zero)%fl = true) ->
  exists e, InitSimplex len data hs = inr e.
Proof.
  unfold InitSimplex. destruct (len <? 4)%nat; [eauto|].
  destruct (initial_triangle len data) as [[a b] c]. intros Hn.
  destruct (Face_New a b c hs data) as [[fc hs']|] eqn:Ef; [|eauto].
  rewrite (Face_New_spec _ _ _ _ _ Ef).
  rewrite (norm_triangle_face (fv_next hs) 1). rewrite Hn. eauto.
Qed.

Lemma InitSimplex_coplanar len data (hs : @hull F) :
  (let '(a, b, c) := initial_triangle len data in
   all_extend (triangle_face 1 a b c data) len (a, b, c) data) ->
  exists e, InitSimplex len data hs = inr e.
Proof.
  unfold InitSimplex. destruct (len <? 4)%nat; [eauto|].
  destruct (initial_triangle len data) as [[a b] c]. intros Hall.
  destruct (Face_New a b c hs data) as [[fc hs']|] eqn:Ef; [|eauto].
  rewrite (Face_New_spec _ _ _ _ _ Ef).
  destruct (Norm2 _ =? f_zero)%fl; [eauto|].
  assert (Hall' : all_extend (triangle_face (fv_next hs) a b c data) len (a, b, c) data).
  { intros idx Hi1 Hi2 Hi3 Hi4. rewrite (Categorize_triangle_face (fv_next hs) 1).
    apply Hall; auto. }
  unfold classify.
  assert (Hl : forall idx, In idx (seq 0 len) -> (idx < len)%nat).
  { intros idx Hi. apply in_seq in Hi. lia. }
  destruct (classify_all_extend (seq 0 len)
              (pts (triangle_face (fv_next hs) a b c data)) PointList_New Hall' Hl)
    as [pool' ->].
  unfold flip_face. destruct (flip_test _ _); simpl; eauto.
Qed.

End Facts.
End HullFacts.

(** * The initial triangle in the hull that [InitSimplex] returns *)

Module FlipFacts.
Import Util ConvexHull HullSpec HullFacts.
Section Facts.
Context `{Env} {F : Type} `{FloatOps F} `{FloatRepr F}.

Lemma same_triangle_refl (f : @face F) : same_triangle f f.
Proof. repeat split. Qed.

Lemma same_triangle_trans (f g h : @face F) :
  same_triangle f g -> same_triangle g h -> same_triangle f h.
Proof. intros (A & B & C) (A' & B' & C'). repeat split; congruence. Qed.

Lemma nth_list_set_same_triangle (l : list (@face F)) n m f :
  same_triangle f (nth n l empty_face) ->
  same_triangle (nth m (list_set n f l) empty_face) (nth m l empty_face).
Proof.
  revert n m. induction l as [|a l IH]; intros [|n] [|m]; cbn [list_set nth]; intros Hs;
    try apply same_triangle_refl.
  - exact Hs.
  - apply IH. exact Hs.
Qed.

Lemma nth_list_set_other {A} (l : list A) n m x d :
  n <> m -> nth m (list_set n x l) d = nth m l d.
Proof.
  revert n m. induction l as [|a l IH]; intros [|n] [|m] Hn; cbn [list_set nth];
    try reflexivity; try congruence.
  apply IH. congruence.
Qed.

(** Writing a face that holds the triangle of the one it replaces. *)
Lemma set_face_same (hs : @hull F) p f q :
  same_triangle f (get_face hs p) ->
  same_triangle (get_face (set_face hs p f) q) (get_face hs q).
Proof.
  intros Hs. unfold get_face, set_face. cbn [store].
  apply nth_list_set_same_triangle. exact Hs.
Qed.

Lemma set_face_other (hs : @hull F) p f q :
  0 < p -> 0 < q -> q <> p -> get_face (set_face hs p f) q = get_face hs q.
Proof.
  intros Hp Hq Hn. unfold get_face, set_face. cbn [store].
  apply nth_list_set_other. lia.
Qed.

Lemma set_face_here (hs : @hull F) p f :
  0 < p <= Z.of_nat (length (store hs)) -> get_face (set_face hs p f) p = f.
Proof.
  intros Hp. unfold get_face, set_face. cbn [store].
  apply nth_error_nth. apply list_set_nth_eq. lia.
Qed.

Lemma set_face_length (hs : @hull F) p f :
  length (store (set_face hs p f)) = length (store hs).
Proof. unfold set_face. cbn [store]. apply list_set_length. Qed.

Lemma set_neighbor_same (hs : @hull F) ptr nb q :
  same_triangle (get_face (set_neighbor hs ptr nb) q) (get_face hs q).
Proof.
  unfold set_neighbor. apply set_face_same.
  unfold same_triangle, set_verts, set_neighbor_in. cbn [verts norm pts].
  split; [|split; reflexivity].
  rewrite map_map. apply map_ext. intros fv.
  destruct (fv_id fv =? snd ptr)%Z; reflexivity.
Qed.

Lemma set_neighbor_length (hs : @hull F) ptr nb :
  length (store (set_neighbor hs ptr nb)) = length (store hs).
Proof. unfold set_neighbor. apply set_face_length. Qed.

Lemma set_node_same (hs hs0 : @hull F) p b q :
  store hs0 = store hs ->
  same_triangle (get_face (set_face hs0 p (set_node (get_face hs p) b)) q)
                (get_face hs q).
Proof.
  intros Hs. apply (same_triangle_trans (g := get_face hs0 q)).
  - apply set_face_same. unfold get_face. rewrite Hs. repeat split.
  - unfold get_face. rewrite Hs. repeat split.
Qed.

(** [Face_Update] touches the tree and the face's [node]. *)
Lemma Face_Update_same (hs : @hull F) p q :
  same_triangle (get_face (Face_Update hs p) q) (get_face hs q).
Proof.
  unfold Face_Update. destruct (elems (pts (get_face hs p))).
  - destruct (node (get_face hs p));
      [apply set_node_same; reflexivity|apply same_triangle_refl].
  - destruct (negb (node (get_face hs p))); [apply set_node_same; reflexivity|].
    destruct (FTree.key_of p (faces_with_pts hs)); [|apply same_triangle_refl].
    destruct (negb _); repeat split.
Qed.

Lemma Face_Update_length (hs : @hull F) p :
  length (store (Face_Update hs p)) = length (store hs).
Proof.
  unfold Face_Update. destruct (elems (pts (get_face hs p))).
  - destruct (node (get_face hs p)); [rewrite set_face_length|]; reflexivity.
  - destruct (negb (node (get_face hs p))); [rewrite set_face_length; reflexivity|].
    destruct (FTree.key_of p (faces_with_pts hs)); [|reflexivity].
    destruct (negb _); reflexivity.
Qed.

(** [Face_New] appends the new face. *)
Lemma Face_New_store a b c (hs hs' : @hull F) data fc :
  Face_New a b c hs data = Some (fc, hs') ->
  fc = Z.of_nat (length (store hs)) + 1 /\
  store hs' = store hs ++ [triangle_face (fv_next hs) a b c data].
Proof.
  unfold Face_New. destruct (alloc_ok 64); [|discriminate].
  destruct (Ptr_Insert _ _ _) as [r h']. destruct (r <? 0); [discriminate|].
  intros [= <- <-]. split; reflexivity.
Qed.

Lemma Face_New_old a b c (hs hs' : @hull F) data fc q :
  Face_New a b c hs data = Some (fc, hs') ->
  0 < q <= Z.of_nat (length (store hs)) -> get_face hs' q = get_face hs q.
Proof.
  intros HN Hq. apply Face_New_store in HN. destruct HN as [_ Hs].
  unfold get_face. rewrite Hs. apply app_nth1. lia.
Qed.

(** [Face_AssignPoints] writes the points of its face only. *)
Lemma Face_AssignPoints_other (hs : @hull F) p pool data q :
  0 < p -> 0 < q -> q <> p ->
  get_face (fst (Face_AssignPoints hs p pool data)) q = get_face hs q.
Proof.
  intros Hp Hq Hn. unfold Face_AssignPoints. destruct (elems pool); [reflexivity|].
  destruct (assign_points _ _ _ _) as [fpts kept]. cbn [fst].
  apply set_face_other; assumption.
Qed.

Lemma Face_AssignPoints_length (hs : @hull F) p pool data :
  length (store (fst (Face_AssignPoints hs p pool data))) = length (store hs).
Proof.
  unfold Face_AssignPoints. destruct (elems pool); [reflexivity|].
  destruct (assign_points _ _ _ _) as [fpts kept]. cbn [fst]. apply set_face_length.
Qed.

(** A turn of the loop of [BuildNewFaces] for a ridge that is not
    extended makes a new face; the faces there were keep their triangles. *)
Lemma BuildNewFaces_step_old idx data (st st' : @bnf_state F) rle q :
  rle_extend rle = false ->
  BuildNewFaces_step idx data (Some st) rle = Some st' ->
  0 < q <= Z.of_nat (length (store (b_hs st))) ->
  same_triangle (get_face (b_hs st') q) (get_face (b_hs st) q) /\
  (length (store (b_hs st)) <= length (store (b_hs st')))%nat.
Proof.
  intros Hx. unfold BuildNewFaces_step. rewrite Hx.
  destruct (Face_New idx (rle_idx rle) (b_prev_idx st) (b_hs st) data)
    as [[fc hs1]|] eqn:EN; [|discriminate].
  cbv beta iota zeta.
  destruct (FaceVert_FindEdge _ _ _) as [vcur|]; [|discriminate].
  cbv beta iota zeta.
  match goal with
  | |- context [Face_AssignPoints ?X fc (b_pool st) data] =>
      set (hs4 := X);
      assert (E4 : forall p, same_triangle (get_face hs4 p) (get_face hs1 p));
      [|assert (L4 : length (store hs4) = length (store hs1))]
  end.
  { intros p. subst hs4. destruct (b_neighbor_prev st) as [ptr|].
    - repeat (eapply same_triangle_trans; [apply set_neighbor_same|]).
      apply same_triangle_refl.
    - repeat (eapply same_triangle_trans; [apply set_neighbor_same|]).
      apply same_triangle_refl. }
  { subst hs4. destruct (b_neighbor_prev st) as [ptr|];
      rewrite !set_neighbor_length; reflexivity. }
  clearbody hs4.
  destruct (Face_AssignPoints hs4 fc (b_pool st) data) as [hs5 pool5] eqn:EA.
  assert (E5 : hs5 = fst (Face_AssignPoints hs4 fc (b_pool st) data))
    by (rewrite EA; reflexivity).
  intros [= <-] Hq. cbn [b_hs].
  destruct (Face_New_store _ _ _ _ _ EN) as [Hfc Hst].
  split.
  - eapply same_triangle_trans; [apply Face_Update_same|].
    rewrite E5. rewrite Face_AssignPoints_other by lia.
    eapply same_triangle_trans; [apply E4|].
    erewrite Face_New_old; [apply same_triangle_refl|exact EN|exact Hq].
  - rewrite Face_Update_length, E5, Face_AssignPoints_length, L4, Hst, length_app.
    cbn [length]. lia.
Qed.

Lemma BuildNewFaces_fold_none idx data (rl : list ridge_list_elem) :
  fold_left (@BuildNewFaces_step _ F _ idx data) rl None = None.
Proof. induction rl as [|r rl IH]; [reflexivity|exact IH]. Qed.

Lemma BuildNewFaces_fold_old idx data rl :
  Forall (fun r => rle_extend r = false) rl ->
  forall (st st' : @bnf_state F) q,
    fold_left (BuildNewFaces_step idx data) rl (Some st) = Some st' ->
    0 < q <= Z.of_nat (length (store (b_hs st))) ->
    same_triangle (get_face (b_hs st') q) (get_face (b_hs st) q).
Proof.
  induction 1 as [|r rl Hr Hrl IH]; intros st st' q; cbn [fold_left].
  - intros [= <-] _. apply same_triangle_refl.
  - destruct (BuildNewFaces_step idx data (Some st) r) as [st1|] eqn:E1.
    + intros Hf Hq.
      assert (Hso : same_triangle (get_face (b_hs st1) q) (get_face (b_hs st) q) /\
                    (length (store (b_hs st)) <= length (store (b_hs st1)))%nat)
        by (eapply BuildNewFaces_step_old; eassumption).
      destruct Hso as [Hs Hl].
      eapply same_triangle_trans; [|exact Hs]. eapply IH; [exact Hf|]. lia.
    + rewrite BuildNewFaces_fold_none. discriminate.
Qed.

Lemma BuildNewFaces_old rl pool (hs hs' : @hull F) data pool' q :
  Forall (fun r => rle_extend r = false) rl ->
  BuildNewFaces rl pool hs data = Some (hs', pool') ->
  0 < q <= Z.of_nat (length (store hs)) ->
  same_triangle (get_face hs' q) (get_face hs q).
Proof.
  intros Hrl. unfold BuildNewFaces.
  destruct (elems pool) as [|idx els]; [discriminate|].
  destruct (rev rl) as [|tail rest]; [discriminate|].
  match goal with
  | |- context [fold_left ?g rl (Some ?s0)] =>
      destruct (fold_left g rl (Some s0)) as [st|] eqn:Ef; [|discriminate]
  end.
  destruct (b_first_neighbor st) as [fnb|]; [|discriminate].
  destruct (b_neighbor_prev st) as [npv|]; [|discriminate].
  intros [= <- <-] Hq.
  eapply same_triangle_trans; [apply set_neighbor_same|].
  eapply same_triangle_trans; [apply set_neighbor_same|].
  eapply same_triangle_trans; [eapply BuildNewFaces_fold_old; [exact Hrl|exact Ef|]|].
  - cbn [b_hs]. exact Hq.
  - cbn [b_hs]. apply same_triangle_refl.
Qed.

(** The face that [InitSimplex] makes first holds, in the hull returned,
    the triangle it held after the flip. *)
Lemma InitSimplex_first_face len data (hs hs' : @hull F) :
  InitSimplex len data hs = inl hs' ->
  let '(a, b, c) := initial_triangle len data in
  let f := triangle_face (fv_next hs) a b c data in
  let '(above, pool, below) := classify f data len (a, b, c) in
  same_triangle (get_face hs' (Z.of_nat (length (store hs)) + 1))
                (fst (flip_face f above below)).
Proof.
  unfold InitSimplex. destruct (len <? 4)%nat; [discriminate|].
  destruct (initial_triangle len data) as [[a b] c].
  destruct (Face_New a b c hs data) as [[fc hs1]|] eqn:EN; [|discriminate].
  rewrite (Face_New_spec _ _ _ _ _ EN).
  destruct (Face_New_store _ _ _ _ _ EN) as [Hfc Hst].
  destruct (Norm2 _ =? f_zero)%fl; [discriminate|].
  cbv zeta.
  destruct (classify _ data len (a, b, c)) as [[above pool] below].
  destruct (flip_face _ above below) as [f' below'].
  destruct (elems below'); [discriminate|].
  destruct (PointList_Join pool below') as [pool2 below2].
  match goal with
  | |- context [BuildNewFaces ?rl pool2 ?h data] =>
      destruct (BuildNewFaces rl pool2 h data) as [[hs2 p2]|] eqn:EB; [|discriminate]
  end.
  intros [= <-]. cbn [fst]. rewrite <- Hfc.
  assert (Hv : 0 < fc <= Z.of_nat (length (store hs1))).
  { rewrite Hst, length_app. cbn [length]. lia. }
  eapply same_triangle_trans.
  - eapply BuildNewFaces_old; [|exact EB|].
    + apply Forall_forall. intros r Hr. apply in_map_iff in Hr.
      destruct Hr as (fv & <- & _). reflexivity.
    + rewrite Face_Update_length, set_face_length. exact Hv.
  - eapply same_triangle_trans; [apply Face_Update_same|].
    rewrite set_face_here by exact Hv. apply same_triangle_refl.
Qed.

End Facts.
End FlipFacts.

Module HullClaims.
Import Util VL ConvexHull HullSpec HullFacts FlipFacts.
Section Claims.
Context `{Env} {F : Type} `{FloatOps F} `{FloatRepr F}.

(** C2, as amended.  [Categorize(face, idx)] returns the entry of the
    decision table for [dist], the signed distance of the point to the
    face's plane, [max], the largest signed in-plane distance of the point
    to an edge of the ring, and [tol = 1e-5 * sqrt(|A|)], where [A] is the
    sum over the ring's edges of [x1 * y2 - y1 * x2], which is twice the
    area the ring encloses; and it reports [dist]. *)
Theorem Categorize_decision_table (f : @face F) (idx : nat) (data : list (list F)) :
  let dist := plane_dist f idx data in
  let max := max_edge_dist f idx data in
  let tol := f_scale C_1e_5 (f_sqrt (f_abs (edge_sum f idx data))) in
  Categorize f idx data =
  ((if (max >? f_zero)%fl then
      if (f_abs dist <? tol)%fl || f_lt_scaled (f_abs dist) C_1e_5 max then Extend
      else if (dist >? f_zero)%fl then Delete else Present
    else if (dist >? tol)%fl then Delete
    else if ((dist + tol) * (dist + tol) + max * max <? f_of_Z 4 * tol * tol)%fl
         then Extend else Present),
   dist).
Proof. intros dist max tol. apply Categorize_table. Qed.

(** C4, as amended.  In the hull that [InitSimplex] returns, the face it
    made first holds the initial triangle flipped (the first two indices
    of the ring exchanged, the normal negated, the below collection as its
    outside points) exactly when, after the classification of every
    other point against the triangle, [max_dist] of the above collection
    is greater than [max_dist] of the below collection; otherwise it holds
    the triangle as it was made, with the above collection as its outside
    points. *)
Theorem InitSimplex_flip_furthest_above (len : nat) (data : list (list F))
    (hs hs' : @hull F) :
  InitSimplex len data hs = inl hs' ->
  let '(a, b, c) := initial_triangle len data in
  let f := triangle_face (fv_next hs) a b c data in
  let first := get_face hs' (Z.of_nat (length (store hs)) + 1) in
  let '(above, pool, below) := classify f data len (a, b, c) in
  if (max_dist above >? max_dist below)%fl
  then map fv_idx (verts first) = [b; a; c] /\
       norm first = [f_neg (norm f).[0]; f_neg (norm f).[1]; f_neg (norm f).[2]] /\
       pts first = below
  else map fv_idx (verts first) = [a; b; c] /\
       norm first = norm f /\
       pts first = above.
Proof.
  intros HI. pose proof (InitSimplex_first_face _ _ _ HI) as Hf.
  destruct (initial_triangle len data) as [[a b] c]. cbv zeta in *.
  destruct (classify _ data len (a, b, c)) as [[above pool] below].
  unfold flip_face, flip_test in Hf.
  destruct (max_dist above >? max_dist below)%fl; cbn [fst] in Hf;
    destruct Hf as (Hv & Hn & Hp); rewrite Hv, Hn, Hp; repeat split.
Qed.

(** C3, as amended.  [LP_ConvexHull] fails when the list it works on has
    fewer than four points, when the normal computed for the initial
    triangle is the zero vector, and when the initial triangle categorizes
    every other point [EXTEND]. *)
Theorem LP_ConvexHull_degenerate (fuel : nat) (vin in3 v : @lp_vertex_list F) :
  LP_VertexList_New 3 lp_pt_triangle = Some in3 ->
  hull_points in3 vin = Some v ->
  let len := Z.to_nat (LP_VertexList_NumVert v) in
  let data := vert v in
  ((len < 4)%nat -> LP_ConvexHull fuel vin = Failed) /\
  ((let '(a, b, c) := initial_triangle len data in
    (Norm2 (norm (triangle_face 1 a b c data)) =? f_zero)%fl = true) ->
   LP_ConvexHull fuel vin = Failed) /\
  ((let '(a, b, c) := initial_triangle len data in
    all_extend (triangle_face 1 a b c data) len (a, b, c) data) ->
   LP_ConvexHull fuel vin = Failed).
Proof.
  intros Hnew Hpts len data.
  assert (Hfail : (forall hs, exists e, InitSimplex len data hs = inr e) ->
                  LP_ConvexHull fuel vin = Failed).
  { intros He. unfold LP_ConvexHull. rewrite Hnew, Hpts.
    destruct (Hash.Hash_New Z Z) as [fcs|]; [|reflexivity].
    destruct (alloc_ok 32); [|reflexivity].
    fold len data.
    match goal with |- context [InitSimplex len data ?h] =>
      destruct (He h) as [e ->] end.
    reflexivity. }
  split; [|split]; intros Hc; apply Hfail; intros hs.
  - exists Too_few. apply InitSimplex_few. exact Hc.
  - apply InitSimplex_colinear. exact Hc.
  - apply InitSimplex_coplanar. exact Hc.
Qed.

End Claims.

Import Sample IEEE.

(** C2 as stated fails: for the triangle (0,0,0), (4,0,0), (2,4,0), of area
    8, and the point (2,1,-2^-15), the table with the tolerance taken from
    the triangle's area gives [DELETE], and [Categorize] returns [EXTEND];
    the sum the code takes the root of is 16. *)
Lemma Categorize_triangle_area_counterexample :
  let f := triangle_face 1 0 1 2 near_plane in
  triangle_area f near_plane = fl 8 /\
  edge_sum f 3 near_plane = fl 16 /\
  table_with_triangle_area f 3 near_plane = Delete /\
  fst (Categorize f 3 near_plane) = Extend /\
  fst (Categorize f 3 near_plane) <> table_with_triangle_area f 3 near_plane.
Proof.
  vm_compute. do 4 (split; [reflexivity|]). discriminate.
Qed.

(** C4 as stated fails: with two points above the initial triangle, the
    furthest at distance 2, and one below at distance 1, the below points
    exceed the above points neither in number nor in distance, and the
    triangle is flipped. *)
Lemma InitSimplex_flip_counterexample :
  let f := triangle_face 1 0 1 2 two_sides in
  initial_triangle 6 two_sides = (0, 1, 2)%nat /\
  exists above pool below,
    classify f two_sides 6 (0, 1, 2)%nat = (above, pool, below) /\
    elems above = [4; 3]%nat /\ max_dist above = fl 2 /\
    elems below = [5]%nat /\ max_dist below = fl 1 /\
    below_exceeds_above_count above below = false /\
    below_exceeds_above_dist above below = false /\
    flip_face f above below = (set_pts (flipped f) below, above).
Proof.
  split; [vm_compute; reflexivity|].
  eexists _, _, _. split; [vm_compute; reflexivity|].
  vm_compute. repeat split.
Qed.

(** C3 as stated fails: the four points of [flat_large] lie in the plane
    z = 0, and [LP_ConvexHull] returns a list of four triangles. *)
Lemma LP_ConvexHull_flat_counterexample :
  Forall (fun p => p.[2] = fl 0) (vert (points flat_large)) /\
  LP_VertexList_NumVert (points flat_large) = 4 /\
  exists v, LP_ConvexHull 1 (points flat_large) = Done v /\
            ind v = [0; 1; 2; 3; 1; 0; 3; 0; 2; 3; 2; 1].
Proof.
  split; [vm_compute; repeat constructor|].
  split; [vm_compute; reflexivity|].
  eexists. split; vm_compute; reflexivity.
Qed.

Lemma simplex1_InitSimplex : InitSimplex 6 two_sides hull0 = inl simplex1.
Proof. vm_compute. reflexivity. Qed.

Lemma InitSimplex_flip_furthest_above_witness :
  InitSimplex 6 two_sides hull0 = inl simplex1 /\
  map fv_idx (verts (get_face simplex1 1)) = [1; 0; 2]%nat /\
  norm (get_face simplex1 1) = [f_neg (fl 0); fl 0; f_neg (fl 1)] /\
  pts (get_face simplex1 1) = {| elems := [5]%nat; max_dist := fl 1 |}.
Proof.
  split; [exact simplex1_InitSimplex|].
  pose proof simplex1_InitSimplex as T.
  apply InitSimplex_flip_furthest_above in T.
  vm_compute in T. vm_compute. exact T.
Defined.

Lemma LP_ConvexHull_degenerate_witness :
  LP_ConvexHull 5 (points three_points) = Failed /\
  LP_ConvexHull 5 (points on_a_line) = Failed /\
  LP_ConvexHull 5 (points flat_small) = Failed.
Proof.
  assert (Hnew : LP_VertexList_New 3 lp_pt_triangle = Some vl0) by reflexivity.
  split; [|split].
  - assert (Hp : hull_points vl0 (points three_points) = Some (points three_points))
      by (vm_compute; reflexivity).
    destruct (@LP_ConvexHull_degenerate _ _ _ _ 5 _ _ _ Hnew Hp) as (Hc & _ & _).
    apply Hc. vm_compute. lia.
  - assert (Hp : hull_points vl0 (points on_a_line) = Some (points on_a_line))
      by (vm_compute; reflexivity).
    destruct (@LP_ConvexHull_degenerate _ _ _ _ 5 _ _ _ Hnew Hp) as (_ & Hc & _).
    apply Hc. vm_compute. reflexivity.
  - assert (Hp : hull_points vl0 (points flat_small) = Some (points flat_small))
      by (vm_compute; reflexivity).
    destruct (@LP_ConvexHull_degenerate _ _ _ _ 5 _ _ _ Hnew Hp) as (_ & _ & Hc).
    apply Hc.
    change (all_extend (triangle_face 1 0 1 2 (vert (points flat_small))) 4 (0, 1, 2)%nat
              (vert (points flat_small))).
    intros idx Hlt H0 H1 H2. cbn [fst snd] in H0, H1, H2.
    destruct idx as [|[|[|[|idx]]]]; try congruence; [|lia].
    vm_compute. reflexivity.
Defined.

End HullClaims.

Module VefFacts.
Import Hash HashInv HashFacts HashFacts2 HashFacts3 VLFacts Vef VefInv.
Section Facts.
Context `{Env} {F : Type} `{FloatOps F} `{FloatRepr F}.

Lemma point_bytes (pt : list F) : length pt = 3%nat -> length (vert_bytes pt) = point_size.
Proof. intros Hl. rewrite vert_bytes_length, Hl. reflexivity. Qed.

Lemma Hash_Lookup_data (h : hash (list F) Z) pt d :
  HashInv.wf vert_bytes point_size h -> length pt = 3%nat ->
  Hash_Lookup vert_bytes vert_bytes point_size h pt = Some d ->
  exists e, In e (elements h) /\ data e = d.
Proof.
  intros W Hl. unfold Hash_Lookup.
  destruct (deref h _) as [e|] eqn:Hd; [|discriminate].
  intros [= <-]. exists e. split; [|reflexivity].
  eapply deref_Find_some; eauto. apply point_bytes; auto.
Qed.

(** The lookup of a vertex's bytes returns a vertex. *)
Lemma Fixed_Lookup_vertex (v : @vef F) pt :
  wf v -> length pt = 3%nat -> is_vertex v pt ->
  found (Fixed_Lookup (verts v) pt) <> 0.
Proof.
  intros W Hl (r & Hr & Eb).
  apply In_nth_error in Hr as [i Hi].
  destruct (wf_listed W _ Hi) as (e & He & Ek).
  destruct (@Hash_Lookup_some _ _ _ _ vert_bytes vert_bytes point_size (verts v) pt e)
    as (e' & He' & _ & Hlk).
  - apply (wf_verts W).
  - apply point_bytes; auto.
  - exact He.
  - rewrite Ek. exact Eb.
  - unfold Fixed_Lookup. rewrite Hlk. simpl. apply (wf_data W). exact He'.
Qed.

Lemma Fixed_Lookup_none (v : @vef F) pt :
  wf v -> length pt = 3%nat -> found (Fixed_Lookup (verts v) pt) = 0 ->
  Hash_Lookup vert_bytes vert_bytes point_size (verts v) pt = None.
Proof.
  intros W Hl. unfold Fixed_Lookup.
  destruct (Hash_Lookup _ _ _ _ _) as [d|] eqn:E; [|reflexivity].
  simpl. intros ->. exfalso.
  destruct (Hash_Lookup_data _ (wf_verts W) Hl E) as (e & He & Hd).
  apply (wf_data W _ He). exact Hd.
Qed.

Lemma same_points_refl (v : @vef F) : same_points v v.
Proof. split; reflexivity. Qed.

Lemma same_points_trans (v1 v2 v3 : @vef F) :
  same_points v1 v2 -> same_points v2 v3 -> same_points v1 v3.
Proof. intros [A B] [C D]. split; congruence. Qed.

Lemma wf_same_points (v v' : @vef F) : wf v -> same_points v v' -> wf v'.
Proof.
  intros [W1 W2 W3] [Ev Ep]. split; rewrite ?Ev, ?Ep; auto.
Qed.

Lemma map_list_set {A B} (f : A -> B) n x (l : list A) d :
  f x = f (nth n l d) -> map f (list_set n x l) = map f l.
Proof.
  revert n. induction l as [|a l IH]; intros [|n] E; simpl in *; auto.
  - congruence.
  - f_equal. auto.
Qed.

Lemma set_v_edges_same (v : @vef F) p h : same_points v (set_v_edges v p h).
Proof.
  split; [reflexivity|]. unfold points, set_v_edges, set_vert_mem, set_verts.
  cbn [vert_mem]. apply map_list_set with (d := null_vert). reflexivity.
Qed.

Lemma Edge_New_same v1 v2 (v v' : @vef F) e :
  Edge_New v1 v2 v = Some (e, v') -> same_points v v'.
Proof.
  unfold Edge_New. destruct (negb _); [intros [= <- <-]; apply same_points_refl|].
  destruct (alloc_ok 64); [|discriminate].
  destruct (Ptr_Insert _ _ _) as [r1 h1]. destruct (r1 <? 0); [discriminate|].
  destruct (Ptr_Insert _ _ _) as [r2 h2]. destruct (r2 <? 0); [discriminate|].
  destruct (Ptr_Insert _ _ _) as [r3 h3]. destruct (r3 <? 0); [discriminate|].
  intros [= <- <-].
  eapply same_points_trans; [apply set_v_edges_same|].
  eapply same_points_trans; [apply set_v_edges_same|].
  split; reflexivity.
Qed.

Lemma face_edges_same fc vs counts (v v' : @vef F) es :
  face_edges fc vs counts v = Some (es, v') -> same_points v v'.
Proof.
  revert v es. induction counts as [|c counts IH]; intros v es; simpl.
  - intros [= <- <-]. apply same_points_refl.
  - destruct (Edge_New _ _ v) as [[e v1]|] eqn:Ee; [|discriminate].
    destruct (face_edges _ _ _ _) as [[es' v2]|] eqn:Ef; [|discriminate].
    intros [= <- <-].
    eapply same_points_trans; [eapply Edge_New_same; eauto|].
    eapply same_points_trans; [|eapply IH; eauto].
    split; reflexivity.
Qed.

Lemma Vert_New_wf pt (v v' : @vef F) p :
  wf v -> length pt = 3%nat -> Vert_New pt v = Some (p, v') -> wf v'.
Proof.
  intros W Hl.
  destruct pt as [|c0 [|c1 [|c2 [|c3 pt]]]]; try discriminate Hl.
  unfold Vert_New.
  destruct (found (Fixed_Lookup (verts v) [c0; c1; c2]) =? 0) eqn:Ef; cbn [negb];
    [|intros [= <- <-]; exact W].
  apply Z.eqb_eq in Ef. pose proof (Fixed_Lookup_none [c0; c1; c2] W Hl Ef) as Hnone.
  destruct (alloc_ok 24); [|discriminate].
  destruct (Hash_New Z Z) as [eh|]; [|discriminate].
  cbv zeta. unfold Fixed_Insert. cbn [point firstn].
  destruct (Hash_Insert _ _ _ _ _ _ _ _) as [[[r h'] u'] ko] eqn:Ei.
  destruct (r <? 0) eqn:Er; [discriminate|].
  intros [= <- <-].
  destruct (@Hash_Insert_new _ _ _ _ _ vert_bytes vert_bytes point_size
              FixedCopyKey (verts v) tt [c0; c1; c2]
              (Z.of_nat (length (vert_mem v)) + 1) r h' u' ko (wf_verts W))
    as (Wh & e & Ek & Ed & _ & Ec & Hel).
  { apply point_bytes; auto. }
  { intros k u1. unfold FixedCopyKey. destruct (alloc_ok _); [|discriminate].
    intros [= <- <-]. reflexivity. }
  { exact Hnone. }
  { exact Ei. }
  { exact Er. }
  assert (Eke : key e = [c0; c1; c2]).
  { unfold FixedCopyKey in Ec. destruct (alloc_ok _); [|discriminate].
    injection Ec as Ec _. congruence. }
  unfold set_verts. split; cbn [verts].
  - exact Wh.
  - intros x Hx. apply Hel in Hx as [Hx| ->]; [apply (wf_data W); auto|].
    rewrite Ed. lia.
  - unfold points. cbn [vert_mem]. rewrite map_app. cbn [map point].
    intros i r0 Hi.
    destruct (Nat.lt_ge_cases i (length (map point (vert_mem v)))) as [Hlt|Hge].
    + rewrite nth_error_app1 in Hi by auto.
      destruct (wf_listed W _ Hi) as (x & Hx & Ex). exists x. split; auto.
      apply Hel. auto.
    + rewrite nth_error_app2 in Hi by auto.
      destruct (i - length (map point (vert_mem v)))%nat as [|[|n]]; simpl in Hi;
        try discriminate.
      injection Hi as <-. exists e. split; [apply Hel; auto|]. congruence.
Qed.

Lemma Face_New_wf p1 p2 p3 (v v' : @vef F) fc :
  wf v -> length p1 = 3%nat -> length p2 = 3%nat -> length p3 = 3%nat ->
  Face_New p1 p2 p3 v = Some (fc, v') -> wf v'.
Proof.
  intros W H1' H2' H3'. unfold Face_New. destruct (alloc_ok 112); [|discriminate].
  destruct (Vert_New p1 v) as [[a va]|] eqn:Ea; [|discriminate].
  destruct (Vert_New p2 va) as [[b vb]|] eqn:Eb; [|discriminate].
  destruct (Vert_New p3 vb) as [[c vc]|] eqn:Ec; [|discriminate].
  destruct (face_edges _ _ _ vc) as [[es ve]|] eqn:Ee; [|discriminate].
  destruct (Ptr_Insert _ _ _) as [r h]. destruct (r <? 0); [discriminate|].
  intros [= <- <-].
  assert (Wa : wf va) by (eapply Vert_New_wf; [exact W|exact H1'|exact Ea]).
  assert (Wb : wf vb) by (eapply Vert_New_wf; [exact Wa|exact H2'|exact Eb]).
  assert (Wc : wf vc) by (eapply Vert_New_wf; [exact Wb|exact H3'|exact Ec]).
  apply wf_same_points with (v := vc); auto.
  eapply same_points_trans; [eapply face_edges_same; eauto|].
  split; reflexivity.
Qed.

Lemma Vef_New_loop_wf fuel count num vl (v v' : @vef F) :
  num = VL.LP_VertexList_NumInd vl -> three_floats vl -> 0 <= count ->
  wf v -> Vef_New_loop fuel count num vl v = Done v' -> wf v'.
Proof.
  intros -> H3. revert count v. induction fuel as [|fuel IH]; intros count v Hc W; simpl.
  - discriminate.
  - destruct (count <? _); [|intros [= <-]; exact W].
    destruct (Z.ltb_spec (count + 2) (VL.LP_VertexList_NumInd vl)) as [Hlt|]; [|discriminate].
    destruct (Face_New _ _ _ v) as [[fc v1]|] eqn:Ef; [|discriminate].
    apply IH; [lia|].
    assert (Hlen : forall i, 0 <= i < VL.LP_VertexList_NumInd vl ->
                   length (VL.LP_VertexList_LookupVert vl i) = 3%nat).
    { intros i Hi. unfold three_floats in H3. rewrite Forall_forall in H3.
      specialize (H3 (Z.to_nat i)). rewrite Z2Nat.id in H3 by lia.
      apply H3. apply in_seq. lia. }
    eapply Face_New_wf; [exact W| | | |exact Ef]; apply Hlen; lia.
Qed.

Lemma Vef_New_wf vl (v : @vef F) :
  three_floats vl -> Vef_New vl = Done v -> wf v.
Proof.
  intros H3. unfold Vef_New. destruct (alloc_ok 48 && alloc_ok 40); [|discriminate].
  destruct (Hash_New (list F) Z) as [hv|] eqn:Ev; [|discriminate].
  destruct (Hash_New Z Z) as [he|]; [|discriminate].
  apply Vef_New_loop_wf; auto; [lia|].
  split; cbn [verts vert_mem points map].
  - apply Hash_New_wf; auto.
  - intros e He. rewrite (Hash_New_elements Ev) in He. destruct He.
  - intros [|i] r; discriminate.
Qed.

End Facts.
End VefFacts.

Module VefClaims.
Import Hash Vef VefInv VefFacts.
Section Claims.
Context `{Env} {F : Type} `{FloatOps F} `{FloatRepr F}.

(** C10.  For a vef whose table of vertices is well formed and a query
    point of three floats with the bytes of some vertex's point,
    [Vef_ConvexInteriorDist(vef, pt, start)] returns exactly 0 and leaves
    [*start] as it was, whatever the fuel of the search, also none: the
    search is not entered. *)
Theorem Vef_ConvexInteriorDist_vertex (fuel : nat) (v : @vef F) (pt : list F)
    (start : option Z) :
  wf v -> length pt = 3%nat -> is_vertex v pt ->
  Vef_ConvexInteriorDist fuel v pt start = Done (f_zero, start).
Proof.
  intros W Hl Hv. unfold Vef_ConvexInteriorDist.
  pose proof (Fixed_Lookup_vertex W Hl Hv) as Hf.
  destruct (found (Fixed_Lookup (verts v) pt) =? 0) eqn:E.
  - apply Z.eqb_eq in E. contradiction.
  - reflexivity.
Qed.

End Claims.

Import Sample IEEE.

Lemma tetra_vef_New : Vef_New tetra_mesh = Done tetra_vef.
Proof. vm_compute. reflexivity. Qed.

Lemma tetra_vef_wf : wf tetra_vef.
Proof.
  apply (@Vef_New_wf _ _ _ _ tetra_mesh); [|exact tetra_vef_New].
  unfold three_floats. vm_compute. repeat constructor.
Qed.

Lemma Vef_ConvexInteriorDist_vertex_witness :
  Vef_New tetra_mesh = Done tetra_vef /\
  Vef_ConvexInteriorDist 0 tetra_vef [fl 4; fl 0; fl 0] None = Done (f_zero, None).
Proof.
  split; [exact tetra_vef_New|].
  assert (Hv : is_vertex tetra_vef [fl 4; fl 0; fl 0]).
  { exists [fl 4; fl 0; fl 0]. split; [|reflexivity]. vm_compute. auto. }
  exact (@Vef_ConvexInteriorDist_vertex _ _ _ _ 0 tetra_vef [fl 4; fl 0; fl 0] None
           tetra_vef_wf eq_refl Hv).
Defined.

End VefClaims.

Module BvhClaims.
Import Sample VL IEEE Array Bvh BvhSpec.

(** C9 fails on the code.  For the four vertices (0,0,0), (-1,5,0),
    (10,0,0), (11,0,0) and distance 1, [BvhVl_New] splits the root at
    x = 10; the first child holds the vertices 0, 1 and 2 and records
    [max[1] = 0], below the y coordinate 5 of vertex 1: the update of
    [max] in [Split_BNode] tests [vert[axis]] where [BvhVl_New] tests
    [vert[count]]. *)
Theorem BvhVl_New_bounds_violated :
  exists mn mx a b,
    BvhVl_New 3 spread (fl 1) = Done (BNode 0 mn mx a b None) /\
    subtree_points a = [0; 1; 2] /\
    (exists ax amn amx aa ab pts,
        a = BNode ax amn amx aa ab pts /\ amx.[1] = fl 0 /\
        coord (vert spread) 1 1 = fl 5 /\
        in_box (vert spread) amn amx 1 = false) /\
    bounds_ok (vert spread) (BNode 0 mn mx a b None) = false.
Proof.
  do 4 eexists. split; [vm_compute; reflexivity|].
  split; [reflexivity|]. split; [|vm_compute; reflexivity].
  do 6 eexists. split; [reflexivity|]. vm_compute. repeat split.
Qed.

End BvhClaims.

Module CutFacts.
Import Util PlaneCut CutSpec Exact.
Section Facts.
Context `{Env} {F : Type} `{FloatOps F} `{FloatRepr F}.

Lemma nth_app_last {A} (l : list A) x d :
  nth (Z.to_nat (Z.of_nat (length l) + 1 - 1)) (l ++ [x]) d = x.
Proof.
  replace (Z.to_nat (Z.of_nat (length l) + 1 - 1)) with (length l) by lia.
  rewrite app_nth2 by lia. rewrite Nat.sub_diag. reflexivity.
Qed.

Lemma nth_list_set {A} (n m : nat) (x : A) l d :
  nth m (list_set n x l) d = if Nat.eqb n m && Nat.ltb n (length l) then x else nth m l d.
Proof.
  revert n m. induction l as [|a l IH]; intros [|n] [|m]; simpl; auto.
  rewrite andb_false_r. reflexivity.
Qed.

(** Entering an edge in a vertex's table leaves points and distances. *)
Lemma get_vert_set_v_edges (s : @shape F) p h q :
  point (get_vert (set_v_edges s p h) q) = point (get_vert s q) /\
  v_dist (get_vert (set_v_edges s p h) q) = v_dist (get_vert s q).
Proof.
  unfold get_vert, set_v_edges, with_verts. cbn [vert_mem]. rewrite nth_list_set.
  destruct (Nat.eqb_spec (Z.to_nat (p - 1)) (Z.to_nat (q - 1))) as [E|E]; simpl.
  - destruct (Nat.ltb _ _); [|split; reflexivity]. cbn [point v_dist].
    unfold get_vert. rewrite E. split; reflexivity.
  - split; reflexivity.
Qed.

Lemma Vert_New_dist (pl : @plane F) pt (s s' : @shape F) v :
  Fixed_Lookup 3 (verts s) pt = 0 ->
  Vert_New pt (Some pl) s = Some (v, s') ->
  v_dist (get_vert s' v) = snapped_dist (p_norm pl) (p_dist pl) pt /\
  point (get_vert s' v) = firstn 3 pt.
Proof.
  intros Hn. unfold Vert_New. rewrite Hn. cbn [Z.eqb negb].
  destruct (alloc_ok 32); [|discriminate].
  destruct (Hash.Hash_New Z Z) as [eh|]; [|discriminate].
  destruct (Fixed_Insert 3 (verts s) pt _) as [r h']. destruct (r <? 0); [discriminate|].
  intros [= <- <-]. unfold get_vert, with_verts. cbn [vert_mem].
  rewrite nth_app_last. cbn [v_dist point]. split; [|reflexivity].
  unfold vert_dist, snapped_dist, snap_tol, fmax. reflexivity.
Qed.

Lemma Edge_New_inter (pl : @plane F) v1 v2 (s s' : @shape F) e :
  Ptr_Lookup (v_edges (get_vert s v1)) v2 = 0 ->
  Edge_New v1 v2 (Some pl) s = Some (e, s') ->
  let a := get_vert s v1 in
  let b := get_vert s v2 in
  inter_vld (get_edge s' e) = opposite_signs (v_dist a) (v_dist b) /\
  (inter_vld (get_edge s' e) = true ->
   inter (get_edge s' e) =
   convex_point (cut_ratio (v_dist a) (v_dist b)) (point a) (point b)).
Proof.
  intros Hn. unfold Edge_New. rewrite Hn. cbn [Z.eqb negb].
  destruct (alloc_ok 48); [|discriminate].
  destruct (Ptr_Insert _ _ _) as [r1 h1]. destruct (r1 <? 0); [discriminate|].
  destruct (Ptr_Insert _ _ _) as [r2 h2]. destruct (r2 <? 0); [discriminate|].
  destruct (Ptr_Insert _ _ _) as [r3 h3]. destruct (r3 <? 0); [discriminate|].
  intros [= <- <-]. cbv zeta.
  unfold get_edge, with_edges. cbn [edge_mem].
  assert (Em : edge_mem (set_v_edges (set_v_edges s v1 h1) v2 h2) = edge_mem s) by reflexivity.
  rewrite ?Em. rewrite nth_app_last. cbn [inter inter_vld].
  destruct (get_vert_set_v_edges (set_v_edges s v1 h1) v2 h2 v1) as [P1 D1].
  destruct (get_vert_set_v_edges (set_v_edges s v1 h1) v2 h2 v2) as [P2 D2].
  destruct (get_vert_set_v_edges s v1 h1 v1) as [P3 D3].
  destruct (get_vert_set_v_edges s v1 h1 v2) as [P4 D4].
  rewrite P1, P2, D1, D2, P3, P4, D3, D4.
  split; [reflexivity|]. intros ->. reflexivity.
Qed.

End Facts.
End CutFacts.

Module ExactFacts.
Import Util CutSpec Exact.
Import Qcanon.

(** In exact arithmetic the intersection is [v0 + x * (v1 - v0)]. *)
Lemma convex_point_exact (x : Qcanon.Qc) (v0 v1 : list Qcanon.Qc) :
  convex_point x v0 v1 = along_edge x v0 v1.
Proof.
  unfold convex_point, along_edge. apply map_ext. intros i.
  cbn [f_add f_sub f_mul f_one Exact.rational].
  generalize (cell v0 i) (cell v1 i). intros a b.
  change (Q2Qc (QArith_base.inject_Z 1)) with (Q2Qc (QArith_base.Qmake 1 1)).
  ring.
Qed.

End ExactFacts.

Module CutTermination.
Import Util PlaneCut.
Section Facts.
Context `{Env} {F : Type} `{FloatOps F} `{FloatRepr F}.

Lemma count_list_set (l : list face) n :
  visited (nth n l null_face) = false ->
  S (length (filter (fun f => negb (visited f)) (list_set n (marked (nth n l null_face)) l)))
  = length (filter (fun f => negb (visited f)) l).
Proof.
  revert n. induction l as [|a l IH]; intros [|n]; simpl; try discriminate.
  - intros ->. reflexivity.
  - intros Hv. destruct (negb (visited a)); simpl; rewrite IH; auto.
Qed.

(** Marking a face that is not marked leaves one face less to mark. *)
Lemma unvisited_set_visited (s : @shape F) fc :
  visited (get_face s fc) = false ->
  S (unvisited (set_visited s fc)) = unvisited s.
Proof.
  intros Hv. unfold unvisited, set_visited, with_faces. cbn [face_mem].
  apply (count_list_set (face_mem s) (Z.to_nat (fc - 1))). exact Hv.
Qed.

Lemma poly_step_measure fc (s s' : @shape F) q q' poly poly' count :
  poly_step fc (Some (s, q, poly)) count = Some (s', q', poly') ->
  (unvisited s' + length q' <= unvisited s + length q)%nat.
Proof.
  unfold poly_step. destruct (Get_Next _ _ _ =? 0); [intros [= <- <- <-]; lia|].
  destruct (visited (get_face s _)) eqn:Ev; [intros [= <- <- <-]; lia|].
  unfold Queue.Queue_Push. destruct (alloc_ok 16); [|discriminate].
  intros [= <- <- <-]. pose proof (unvisited_set_visited s _ Ev). simpl. lia.
Qed.

Lemma poly_steps_measure fc counts (s s' : @shape F) q q' poly poly' :
  fold_left (poly_step fc) counts (Some (s, q, poly)) = Some (s', q', poly') ->
  (unvisited s' + length q' <= unvisited s + length q)%nat.
Proof.
  revert s q poly. induction counts as [|c counts IH]; intros s q poly; cbn [fold_left].
  - intros [= <- <- <-]. lia.
  - destruct (poly_step fc (Some (s, q, poly)) c) as [[[s1 q1] p1]|] eqn:E.
    + intros Hf. apply IH in Hf. apply poly_step_measure in E. lia.
    + assert (Hn : forall l, fold_left (poly_step fc) l None = None)
        by (induction l; simpl; auto).
      rewrite Hn. discriminate.
Qed.

(** The loop of [Build_Poly3d] comes to an end. *)
Lemma poly_loop_total fuel (s : @shape F) q poly :
  (unvisited s + length q < fuel)%nat -> poly_loop fuel s q poly <> Stuck.
Proof.
  revert s q poly. induction fuel as [|fuel IH]; intros s q poly Hm; [lia|].
  cbn [poly_loop]. destruct q as [|fc q].
  - simpl. discriminate.
  - destruct (Queue.Queue_Length (fc :: q) >? 0); [|discriminate].
    unfold Queue.Queue_Pop. cbv beta iota zeta.
    match goal with
    | |- match ?X with _ => _ end <> _ => destruct X as [[[s1 q1] p1]|] eqn:Ef
    end; [|discriminate].
    apply IH. apply poly_steps_measure in Ef. simpl in Hm. lia.
Qed.

Lemma Build_Poly3d_total poly fc (s : @shape F) : Build_Poly3d poly fc s <> Stuck.
Proof.
  unfold Build_Poly3d. destruct Queue.Queue_New; [|discriminate].
  destruct (Queue.Queue_Push _ _); [|discriminate].
  apply poly_loop_total. lia.
Qed.

(** [poly_step] fails only when the element for the queue is not
    allocated. *)
Lemma poly_steps_none fc counts (st : option (@shape F * Queue.queue * @VL.lp_vertex_list F)) :
  st <> None -> fold_left (poly_step fc) counts st = None -> alloc_ok 16 = false.
Proof.
  revert st. induction counts as [|c counts IH]; intros st Hst; cbn [fold_left].
  - intros Hn. destruct (Hst Hn).
  - destruct (poly_step fc st c) as [st1|] eqn:E.
    + apply IH. discriminate.
    + intros _. destruct st as [[[s q] poly]|]; [|destruct Hst; reflexivity].
      unfold poly_step in E. destruct (Get_Next _ _ _ =? 0); [discriminate|].
      destruct (visited (get_face s _)); [discriminate|].
      unfold Queue.Queue_Push in E. destruct (alloc_ok 16); [discriminate|reflexivity].
Qed.

Lemma poly_loop_failed fuel (s : @shape F) q poly :
  poly_loop fuel s q poly = Failed -> alloc_ok 16 = false.
Proof.
  revert s q poly. induction fuel as [|fuel IH]; intros s q poly; cbn [poly_loop];
    [discriminate|].
  destruct (Queue.Queue_Length q >? 0); [|discriminate].
  destruct (Queue.Queue_Pop q) as [fc q1].
  destruct (fold_left (poly_step fc) [0; 1; 2]%nat (Some (s, q1, poly)))
    as [[[s1 q2] p1]|] eqn:Ef.
  - apply IH.
  - intros _. eapply poly_steps_none; [|exact Ef]. discriminate.
Qed.

Lemma Build_Poly3d_failed poly fc (s : @shape F) :
  Build_Poly3d poly fc s = Failed -> alloc_ok 24 = false \/ alloc_ok 16 = false.
Proof.
  unfold Build_Poly3d, Queue.Queue_New, Queue.Queue_Push.
  destruct (alloc_ok 24); [|auto].
  destruct (alloc_ok 16) eqn:E16; [|auto].
  intros Hf. apply poly_loop_failed in Hf. rewrite E16 in Hf. discriminate.
Qed.

Section WithTriangulation.
Variable tri : @VL.lp_vertex_list F -> run (@VL.lp_vertex_list F).

(** The cut of one side with the triangulation that returns the empty
    list [e] for NULL: the same shapes and the same lists built; only
    [valid] differs, which a NULL clears. *)
Lemma cut_side_no_triangles e s_count (ss : list (@shape F)) valid valid' out :
  VL.LP_VertexList_NumInd e = 0 ->
  match cut_side (CutSpec.or_no_triangles e tri) s_count ss valid' out with
  | (Done (ss', v', out'), built) =>
      v' = valid' /\
      (forall i, i <> s_count -> sh ss' i = sh ss i) /\
      cut_side tri s_count ss valid out =
      (Done (ss', match tri (poly2d (sh ss s_count)) with Failed => false | _ => valid end,
             out'), built)
  | (Failed, built) => cut_side tri s_count ss valid out = (Failed, built)
  | (Stuck, built) => cut_side tri s_count ss valid out = (Stuck, built)
  end.
Proof.
  intros He. unfold cut_side, CutSpec.or_no_triangles.
  destruct (tri (poly2d (sh ss s_count))) as [t| |].
  - destruct (cap_faces _ _ _ t _ _) as [s'|]; [|reflexivity].
    destruct (side_polys s' out) as [[[s2 o2]| |] b]; try reflexivity.
    split; [reflexivity|]. split; [|reflexivity].
    intros i Hi. unfold sh. rewrite CutFacts.nth_list_set.
    destruct (Nat.eqb_spec s_count i); [congruence|reflexivity].
  - rewrite He. cbn [Z.to_nat cap_faces Z.ltb Z.compare].
    destruct (side_polys (sh ss s_count) out) as [[[s2 o2]| |] b]; try reflexivity.
    split; [reflexivity|]. split; [|reflexivity].
    intros i Hi. unfold sh. rewrite CutFacts.nth_list_set.
    destruct (Nat.eqb_spec s_count i); [congruence|reflexivity].
  - reflexivity.
Qed.

Lemma freed_instead_no_list (r : run (@cut_result F)) out :
  CutSpec.freed_instead r <> Done (Cut out).
Proof. destruct r as [[o|f]| |]; discriminate. Qed.

(** The cut with a triangulation that returns NULL for the outline of a
    side does what the cut with no triangles for that outline does, and
    frees the lists in place of returning them. *)
Lemma LP_PlaneCut_no_triangles e (vin : @VL.lp_vertex_list F) norm dist :
  VL.LP_VertexList_NumInd e = 0 ->
  (forall ss, cut_shapes vin (make_plane norm dist) = Some ss ->
              tri (poly2d (sh ss 0)) = Failed \/ tri (poly2d (sh ss 1)) = Failed) ->
  LP_PlaneCut tri vin norm dist =
  CutSpec.freed_instead (LP_PlaneCut (CutSpec.or_no_triangles e tri) vin norm dist).
Proof.
  intros He Hf. unfold LP_PlaneCut.
  destruct (VL.LP_VertexList_FloatsPerVert vin <? 3); [reflexivity|].
  destruct (VL.LP_VertexList_PrimativeType vin); try reflexivity.
  destruct (cut_shapes vin (make_plane norm dist)) as [ss|]; [|reflexivity].
  specialize (Hf ss eq_refl).
  pose proof (cut_side_no_triangles e 0 ss true true [] He) as H0'.
  destruct (cut_side (CutSpec.or_no_triangles e tri) 0 ss true [])
    as [[[[ss1 v1] out1]| |] b1]; cbv beta iota in H0'.
  - destruct H0' as (-> & Hsh & ->).
    pose proof (cut_side_no_triangles e 1 ss1
                  (match tri (poly2d (sh ss 0)) with Failed => false | _ => true end)
                  true out1 He) as H1'.
    destruct (cut_side (CutSpec.or_no_triangles e tri) 1 ss1 true out1)
      as [[[[ss2 v2] out2]| |] b2]; cbv beta iota in H1'.
    + destruct H1' as (-> & _ & ->). cbn [CutSpec.freed_instead].
      rewrite (Hsh 1%nat) by lia.
      destruct Hf as [-> | ->]; [|reflexivity].
      destruct (tri (poly2d (sh ss 1))); reflexivity.
    + rewrite H1'. reflexivity.
    + rewrite H1'. reflexivity.
  - rewrite H0'. reflexivity.
  - rewrite H0'. reflexivity.
Qed.

End WithTriangulation.
End Facts.
End CutTermination.

Module CutTheorems.
Import Util VL PlaneCut CutSpec CutFacts CutTermination.
Section Theorems.
Context `{Env} {F : Type} `{FloatOps F} `{FloatRepr F}.

(** X16.  A vertex that [Vert_New] makes for the plane [(n, d)] gets
    [dist = v . n - d], set to exactly zero when
    [|dist| < 1e-5 * max(|v|, |d|)]; an edge that [Edge_New] makes has an
    intersection point exactly when the [dist] values of its ends have
    strictly opposite signs, and the point is [(1 - x) * v0 + x * v1] with
    [x = -v0.dist / (v1.dist - v0.dist)], which in exact arithmetic is
    [v0 + x * (v1 - v0)]. *)
Theorem PlaneCut_dist_and_intersection :
  (forall (pl : @plane F) (pt : list F) (s s' : @shape F) (v : Z),
      Fixed_Lookup 3 (verts s) pt = 0 ->
      Vert_New pt (Some pl) s = Some (v, s') ->
      v_dist (get_vert s' v) = snapped_dist (p_norm pl) (p_dist pl) pt) /\
  (forall (pl : @plane F) (v1 v2 : Z) (s s' : @shape F) (e : Z),
      Ptr_Lookup (v_edges (get_vert s v1)) v2 = 0 ->
      Edge_New v1 v2 (Some pl) s = Some (e, s') ->
      let a := get_vert s v1 in
      let b := get_vert s v2 in
      inter_vld (get_edge s' e) = opposite_signs (v_dist a) (v_dist b) /\
      (opposite_signs (v_dist a) (v_dist b) = true ->
       inter (get_edge s' e) =
       convex_point (cut_ratio (v_dist a) (v_dist b)) (point a) (point b))) /\
  (forall (x : Qcanon.Qc) (v0 v1 : list Qcanon.Qc),
      @convex_point _ Exact.rational x v0 v1 = @along_edge _ Exact.rational x v0 v1).
Proof.
  split; [|split].
  - intros pl pt s s' v Hn Hv. eapply Vert_New_dist; eauto.
  - intros pl v1 v2 s s' e Hn He a b.
    destruct (Edge_New_inter pl v1 v2 s Hn He) as [Hv Hi].
    split; [exact Hv|]. intros Ho. apply Hi. rewrite Hv. exact Ho.
  - apply ExactFacts.convex_point_exact.
Qed.

(** X17.  If [LP_Triangulate2D] returns NULL for the cap outline of side
    0 or of side 1, [LP_PlaneCut] goes on as it does when the call
    returns a list of no triangles (it builds the polyhedra of both sides
    from the faces without a cap, and fails where that run fails), and
    then frees every list that run returns and returns NULL: it never
    returns a list. *)
Theorem LP_PlaneCut_triangulation_failure
    (tri : @lp_vertex_list F -> run (@lp_vertex_list F))
    (e vin : @lp_vertex_list F) (norm : list F) (dist : F) :
  LP_VertexList_NumInd e = 0 ->
  (forall ss, cut_shapes vin (make_plane norm dist) = Some ss ->
              tri (poly2d (sh ss 0)) = Failed \/ tri (poly2d (sh ss 1)) = Failed) ->
  LP_PlaneCut tri vin norm dist =
  freed_instead (LP_PlaneCut (or_no_triangles e tri) vin norm dist) /\
  forall out, LP_PlaneCut tri vin norm dist <> Done (Cut out).
Proof.
  intros He Hf.
  assert (Hc : LP_PlaneCut tri vin norm dist =
               freed_instead (LP_PlaneCut (or_no_triangles e tri) vin norm dist))
    by (apply LP_PlaneCut_no_triangles; assumption).
  split; [exact Hc|]. intros out. rewrite Hc. apply freed_instead_no_list.
Qed.

(** X18.  [Build_Poly3d] always returns.  Its flood fill ends within one
    turn for every face that is not marked and every face in the queue,
    since a face is queued only when it is marked and was not; and it
    returns -1 only when the queue or an element of the queue is not
    allocated. *)
Theorem Build_Poly3d_returns (poly : @lp_vertex_list F) (fc : Z) (s : @shape F) :
  Build_Poly3d poly fc s <> Stuck /\
  (Build_Poly3d poly fc s = Failed -> alloc_ok 24 = false \/ alloc_ok 16 = false) /\
  (forall fuel q, (unvisited s + length q < fuel)%nat ->
                  poly_loop fuel s q poly <> Stuck).
Proof.
  split; [apply Build_Poly3d_total|]. split; [apply Build_Poly3d_failed|].
  intros fuel q Hm. apply poly_loop_total. exact Hm.
Qed.

End Theorems.

Import Sample IEEE.

Lemma PlaneCut_dist_and_intersection_witness :
  exists v s' e s'',
    Vert_New [fl 2; fl 1; fl 3] (Some cut_plane) empty_shape = Some (v, s') /\
    v_dist (get_vert s' v) = fl 2 /\
    (exists w s1, Vert_New [fl 0; fl 0; fl 0] (Some cut_plane) s' = Some (w, s1) /\
                  v_dist (get_vert s1 w) = fl (-1) /\
                  Edge_New w v (Some cut_plane) s1 = Some (e, s'') /\
                  inter_vld (get_edge s'' e) = true /\
                  inter (get_edge s'' e) =
                  convex_point (cut_ratio (fl (-1)) (fl 2))
                               [fl 0; fl 0; fl 0] [fl 2; fl 1; fl 3]).
Proof.
  destruct (@PlaneCut_dist_and_intersection _ _ _ _) as (Hv & He & _).
  assert (E1 : exists v s', Vert_New [fl 2; fl 1; fl 3] (Some cut_plane) empty_shape
                            = Some (v, s'))
    by (vm_compute; eauto).
  destruct E1 as (v & s' & E1).
  assert (E2 : exists w s1, Vert_New [fl 0; fl 0; fl 0] (Some cut_plane) s' = Some (w, s1)).
  { vm_compute in E1. injection E1 as <- <-. vm_compute. eauto. }
  destruct E2 as (w & s1 & E2).
  assert (E3 : exists e s'', Edge_New w v (Some cut_plane) s1 = Some (e, s'')).
  { vm_compute in E1. injection E1 as <- <-. vm_compute in E2. injection E2 as <- <-.
    vm_compute. eauto. }
  destruct E3 as (e & s'' & E3).
  exists v, s', e, s''. split; [exact E1|].
  assert (L1 : Fixed_Lookup 3 (verts empty_shape) [fl 2; fl 1; fl 3] = 0)
    by (vm_compute; reflexivity).
  split.
  { rewrite (Hv _ _ _ _ _ L1 E1). vm_compute. reflexivity. }
  exists w, s1. split; [exact E2|].
  assert (L2 : Fixed_Lookup 3 (verts s') [fl 0; fl 0; fl 0] = 0).
  { vm_compute in E1. injection E1 as <- <-. vm_compute. reflexivity. }
  assert (D2 : v_dist (get_vert s1 w) = fl (-1)).
  { rewrite (Hv _ _ _ _ _ L2 E2). vm_compute. reflexivity. }
  split; [exact D2|]. split; [exact E3|].
  assert (L3 : Ptr_Lookup (v_edges (get_vert s1 w)) v = 0).
  { vm_compute in E1. injection E1 as <- <-. vm_compute in E2. injection E2 as <- <-.
    vm_compute. reflexivity. }
  destruct (He _ _ _ _ _ _ L3 E3) as [Hvld Hint].
  assert (Da : v_dist (get_vert s1 v) = fl 2 /\ point (get_vert s1 v) = [fl 2; fl 1; fl 3]
               /\ point (get_vert s1 w) = [fl 0; fl 0; fl 0]).
  { vm_compute in E1. injection E1 as <- <-. vm_compute in E2. injection E2 as <- <-.
    vm_compute. auto. }
  destruct Da as (Da & Pa & Pw).
  rewrite D2, Da in Hvld, Hint. rewrite Pa, Pw in Hint.
  split; [rewrite Hvld; vm_compute; reflexivity|].
  apply Hint. vm_compute. reflexivity.
Defined.

Lemma LP_PlaneCut_triangulation_failure_witness :
  LP_VertexList_NumInd vl0 = 0 /\
  LP_PlaneCut no_triangulation tetra_mesh [fl 0; fl 0; fl 1] (fl 1) =
  freed_instead (LP_PlaneCut (or_no_triangles vl0 no_triangulation) tetra_mesh
                   [fl 0; fl 0; fl 1] (fl 1)) /\
  exists freed,
    LP_PlaneCut no_triangulation tetra_mesh [fl 0; fl 0; fl 1] (fl 1)
    = Done (Cut_failed freed) /\
    length freed = 2%nat.
Proof.
  split; [reflexivity|]. split.
  - apply (@LP_PlaneCut_triangulation_failure _ _ _ _ no_triangulation vl0 tetra_mesh
             [fl 0; fl 0; fl 1] (fl 1)); [reflexivity|].
    intros ss _. left. reflexivity.
  - eexists. split; [vm_compute; reflexivity|reflexivity].
Defined.

End CutTheorems.

Module MapFacts.
Import Permutation Hash HashInv HashMap HashFacts HashFacts2.

Lemma concat_split_nth {A} (bs : list (list A)) b c :
  nth_error bs b = Some c ->
  concat bs = concat (firstn b bs) ++ c ++ concat (skipn (S b) bs).
Proof.
  revert b; induction bs as [|x bs IH]; intros [|b] Hb; simpl in *; try discriminate.
  - injection Hb as ->. reflexivity.
  - rewrite <- app_assoc. f_equal. apply (IH b Hb).
Qed.

Lemma concat_list_set {A} (bs : list (list A)) b c :
  (b < length bs)%nat ->
  concat (list_set b c bs) = concat (firstn b bs) ++ c ++ concat (skipn (S b) bs).
Proof.
  revert b; induction bs as [|x bs IH]; intros [|b] Hb; simpl in *; try lia.
  - reflexivity.
  - rewrite <- app_assoc. f_equal. apply IH. lia.
Qed.

Lemma NoDup_map_in_eq {A B} (f : A -> B) l x y :
  NoDup (map f l) -> In x l -> In y l -> f x = f y -> x = y.
Proof.
  induction l as [|a l IH]; simpl; intros Hn Hx Hy Hf; [contradiction|].
  inversion Hn as [|? ? Hna Hnl]; subst.
  destruct Hx as [->|Hx], Hy as [->|Hy]; auto.
  - exfalso. apply Hna. rewrite Hf. apply in_map. exact Hy.
  - exfalso. apply Hna. rewrite <- Hf. apply in_map. exact Hx.
Qed.

Lemma remove_nth_app {A} (c1 c2 : list A) e :
  remove_nth (length c1) (c1 ++ e :: c2) = c1 ++ c2.
Proof. induction c1 as [|a c1 IH]; simpl; [reflexivity|]. now rewrite IH. Qed.

Lemma list_set_app {A} (c1 c2 : list A) e x :
  list_set (length c1) x (c1 ++ e :: c2) = c1 ++ x :: c2.
Proof. induction c1 as [|a c1 IH]; simpl; [reflexivity|]. now rewrite IH. Qed.

Lemma option_ext {A} (a b : option A) :
  (forall d, a = Some d <-> b = Some d) -> a = b.
Proof.
  intros Hi. destruct a as [x|], b as [y|]; auto.
  - symmetry. apply Hi. reflexivity.
  - symmetry. apply Hi. reflexivity.
  - apply Hi. reflexivity.
Qed.

Section Facts.
Context `{Env} {K D Q : Type}.
Variables (qb : Q -> list Z) (kb : K -> list Z) (size : nat).
Local Abbreviation wf := (HashInv.wf kb size).
Local Abbreviation uniq := (HashMap.unique kb).
Local Abbreviation lookup := (Hash_Lookup qb kb size).
Local Abbreviation kbytes := (fun e : element K D => kb (key e)).

Lemma bucket_range (h : hash K D) hv :
  wf h -> 0 <= hv mod num_buckets h < Z.of_nat (length (buckets h)).
Proof.
  intros W. rewrite (wf_len W). apply Z.mod_pos_bound. apply (wf_pos W).
Qed.

Lemma elements_split (h : hash K D) b :
  0 <= b < Z.of_nat (length (buckets h)) ->
  elements h = concat (firstn (Z.to_nat b) (buckets h)) ++ chain h b
                 ++ concat (skipn (S (Z.to_nat b)) (buckets h)).
Proof.
  intros Hb. unfold elements. apply concat_split_nth. apply chain_nth_error. exact Hb.
Qed.

Lemma elements_set_chain_split (h : hash K D) b c :
  0 <= b < Z.of_nat (length (buckets h)) ->
  elements (set_chain h b c) = concat (firstn (Z.to_nat b) (buckets h)) ++ c
                 ++ concat (skipn (S (Z.to_nat b)) (buckets h)).
Proof.
  intros Hb. unfold elements, set_chain; simpl. apply concat_list_set. lia.
Qed.

Lemma wf_set_chain (h : hash K D) b c :
  wf h -> 0 <= b < num_buckets h ->
  (forall x, In x c -> hash_val x mod num_buckets h = b /\
                       hash_val x = siphash (secret h) (firstn size (kb (key x))) /\
                       length (kb (key x)) = size) ->
  wf (set_chain h b c).
Proof.
  intros W Hb Hc.
  assert (Hb' : 0 <= b < Z.of_nat (length (buckets h))) by (rewrite (wf_len W); exact Hb).
  constructor; simpl.
  - apply (wf_pos W).
  - rewrite list_set_length. apply (wf_len W).
  - intros m cc e Hm He.
    destruct (Nat.eq_dec (Z.to_nat b) m) as [<-|Hne].
    + rewrite list_set_nth_eq in Hm by lia. injection Hm as <-.
      rewrite (proj1 (Hc e He)). lia.
    + rewrite list_set_nth_neq in Hm by exact Hne. eapply (wf_bucket W); eassumption.
  - intros e He. apply elements_set_chain in He; [|exact Hb'].
    destruct He as [He|(m & c' & _ & Hm & He)].
    + destruct (Hc e He) as (_ & H1 & H2). split; assumption.
    + apply (wf_hash W). unfold elements. apply in_concat.
      exists c'. split; [|exact He]. eapply nth_error_In; eassumption.
Qed.

Lemma chain_facts (h : hash K D) b x :
  wf h -> 0 <= b < num_buckets h -> In x (chain h b) ->
  hash_val x mod num_buckets h = b /\
  hash_val x = siphash (secret h) (firstn size (kb (key x))) /\
  length (kb (key x)) = size.
Proof.
  intros W Hb Hx.
  assert (Hb' : 0 <= b < Z.of_nat (length (buckets h))) by (rewrite (wf_len W); exact Hb).
  pose proof (chain_nth_error h Hb') as Hn.
  split.
  - erewrite (wf_bucket W) by eassumption. lia.
  - apply (wf_hash W). eapply in_chain_elements; eassumption.
Qed.

(** [Hash_Lookup] reads the table as a finite map from key bytes to data. *)
Lemma Lookup_some_iff (h : hash K D) q d :
  wf h -> uniq h -> length (qb q) = size ->
  (lookup h q = Some d <->
   exists e, In e (elements h) /\ kb (key e) = qb q /\ data e = d).
Proof.
  intros W U L. split.
  - unfold Hash_Lookup. destruct (deref h _) as [e|] eqn:E; [|discriminate].
    intros [= <-]. destruct (deref_Find_some qb _ W L E) as [Hi Hk].
    exists e. auto.
  - intros (e & Hi & Hk & <-).
    destruct (@Hash_Lookup_some _ K D Q qb kb size h q e W L Hi Hk) as (e' & Hi' & Hk' & ->).
    f_equal. f_equal.
    apply (NoDup_map_in_eq kbytes (elements h)); auto. simpl. congruence.
Qed.

Lemma Lookup_none_iff (h : hash K D) q :
  wf h -> length (qb q) = size ->
  (lookup h q = None <-> forall e, In e (elements h) -> kb (key e) <> qb q).
Proof.
  intros W L. split.
  - unfold Hash_Lookup. destruct (deref h _) as [e|] eqn:E; [discriminate|].
    intros _. apply (deref_Find_none qb _ W L E).
  - intros Hn. destruct (lookup h q) as [d|] eqn:E; [|reflexivity].
    unfold Hash_Lookup in E. destruct (deref h _) as [e|] eqn:E'; [|discriminate].
    destruct (deref_Find_some qb _ W L E') as [Hi Hk]. destruct (Hn e Hi Hk).
Qed.

Lemma lookup_ext (h h' : hash K D) q :
  wf h -> uniq h -> wf h' -> uniq h' -> length (qb q) = size ->
  (forall e, kb (key e) = qb q -> (In e (elements h') <-> In e (elements h))) ->
  lookup h' q = lookup h q.
Proof.
  intros W U W' U' L Hi. apply option_ext. intros d.
  rewrite (@Lookup_some_iff h q d W U L), (@Lookup_some_iff h' q d W' U' L).
  split; intros (e & He & Hk & Hd); exists e; (split; [apply (Hi e Hk); exact He|auto]).
Qed.

Lemma push_front_perm n (bs : list (list (element K D))) e :
  (Z.to_nat (hash_val e mod n) < length bs)%nat ->
  Permutation (concat (push_front n bs e)) (e :: concat bs).
Proof.
  intros Hb. unfold push_front.
  rewrite concat_list_set by exact Hb.
  rewrite (@concat_split_nth _ bs (Z.to_nat (hash_val e mod n))
             (nth (Z.to_nat (hash_val e mod n)) bs []))
    by (apply nth_nth_error_lt; exact Hb).
  simpl. symmetry. apply Permutation_middle.
Qed.

Lemma fold_push_front_perm n (l : list (element K D)) bs :
  0 < n -> length bs = Z.to_nat n ->
  Permutation (concat (fold_left (push_front n) l bs)) (l ++ concat bs).
Proof.
  intros Hn. revert bs; induction l as [|e l IH]; intros bs Hl; simpl.
  - reflexivity.
  - assert (Hb : (Z.to_nat (hash_val e mod n) < length bs)%nat).
    { rewrite Hl. pose proof (Z.mod_pos_bound (hash_val e) n Hn). lia. }
    rewrite IH by (unfold push_front; rewrite list_set_length; exact Hl).
    rewrite (push_front_perm n bs e Hb).
    symmetry. apply Permutation_middle.
Qed.

Lemma Rehash_perm (h : hash K D) :
  0 < num_buckets h -> Permutation (elements (Rehash h)) (elements h).
Proof.
  intros Hp. unfold Rehash.
  destruct (num_buckets h >? SIZE_MAX / 2); [reflexivity|].
  destruct (alloc_ok _); [|reflexivity].
  unfold elements at 1; cbn [buckets].
  rewrite fold_push_front_perm.
  - rewrite concat_repeat_nil, app_nil_r. reflexivity.
  - rewrite Z.shiftl_mul_pow2 by lia. lia.
  - apply repeat_length.
Qed.

Lemma uniq_perm (h h' : hash K D) :
  Permutation (elements h') (elements h) -> uniq h -> uniq h'.
Proof.
  intros P U. unfold unique, key_bytes in *.
  eapply Permutation_NoDup; [|exact U]. apply Permutation_map. symmetry. exact P.
Qed.

Lemma uniq_Rehash (h : hash K D) : wf h -> uniq h -> uniq (Rehash h).
Proof. intros W U. eapply uniq_perm; [apply Rehash_perm, (wf_pos W)|exact U]. Qed.

Lemma deref_split (h : hash K D) loc e :
  deref h loc = Some e ->
  exists c1 c2, chain h (fst loc) = c1 ++ e :: c2 /\ length c1 = snd loc.
Proof. unfold deref. intros E. apply nth_error_split in E. exact E. Qed.

Lemma uniq_set_items (h : hash K D) n : uniq h -> uniq (set_items h n).
Proof. unfold unique, key_bytes. rewrite elements_set_items. auto. Qed.

Lemma num_items_Rehash (h : hash K D) : num_items (Rehash h) = num_items h.
Proof.
  unfold Rehash. destruct (num_buckets h >? SIZE_MAX / 2); [reflexivity|].
  destruct (alloc_ok _); reflexivity.
Qed.

Lemma chain_Clear (h : hash K D) b : chain (Hash_Clear h) b = [].
Proof.
  unfold chain, Hash_Clear; simpl. generalize (Z.to_nat b) as n.
  induction (buckets h) as [|c bs IH]; intros [|n]; simpl; auto.
Qed.

Lemma elements_Clear (h : hash K D) : elements (Hash_Clear h) = [].
Proof.
  unfold elements, Hash_Clear; simpl.
  induction (buckets h) as [|c bs IH]; simpl; auto.
Qed.

Lemma wf_Clear (h : hash K D) : wf h -> wf (Hash_Clear h).
Proof.
  intros W. constructor.
  - apply (wf_pos W).
  - simpl. rewrite length_map. apply (wf_len W).
  - intros b c e Hb He. simpl in Hb. rewrite nth_error_map in Hb.
    destruct (nth_error (buckets h) b); simpl in Hb; [|discriminate].
    injection Hb as <-. destruct He.
  - intros e He. rewrite elements_Clear in He. destruct He.
Qed.

End Facts.
End MapFacts.

Module MapLemmas.
Import Permutation Hash HashInv HashMap HashFacts HashFacts2 MapFacts.
Section Theorems.
Context `{Env} {K D Q U : Type}.
Variables (qb : Q -> list Z) (kb : K -> list Z) (size : nat).

Lemma Lookup_map (h : hash K D) (q : Q) :
  wf kb size h -> unique kb h -> length (qb q) = size ->
  (forall d, Hash_Lookup qb kb size h q = Some d <->
     exists e, In e (elements h) /\ kb (key e) = qb q /\ data e = d) /\
  (Hash_Lookup qb kb size h q = None <->
     forall e, In e (elements h) -> kb (key e) <> qb q).
Proof.
  intros W Un L. split.
  - intros d. apply Lookup_some_iff; assumption.
  - apply Lookup_none_iff; assumption.
Qed.

Lemma Insert_map (copy_key : U -> Q -> option (K * U))
    (h : hash K D) u q d r h' u' ko :
  wf kb size h -> unique kb h -> length (qb q) = size ->
  (forall k u1, copy_key u q = Some (k, u1) -> kb k = qb q) ->
  Hash_Insert qb kb size copy_key h u q d = (r, h', u', ko) ->
  (r <? 0) = false ->
  wf kb size h' /\ unique kb h' /\
  Hash_Lookup qb kb size h' q = Some d /\
  (forall q', length (qb q') = size -> qb q' <> qb q ->
     Hash_Lookup qb kb size h' q' = Hash_Lookup qb kb size h q') /\
  (Hash_Lookup qb kb size h q = None ->
     r = 1 /\ Hash_NumEntries h' = (Hash_NumEntries h + 1) mod (SIZE_MAX + 1) /\
     length (elements h') = S (length (elements h))) /\
  (Hash_Lookup qb kb size h q <> None ->
     r = 0 /\ Hash_NumEntries h' = Hash_NumEntries h /\ u' = u /\
     length (elements h') = length (elements h)).
Proof.
  intros W Un L Hck HI Hr.
  unfold Hash_Insert in HI. cbv zeta in HI.
  set (hv := hash_func qb size h q) in *.
  set (loc := Find qb kb size h q hv) in *.
  assert (Hb : 0 <= fst loc < num_buckets h).
  { unfold loc, Find; simpl. apply Z.mod_pos_bound, (wf_pos W). }
  assert (Hb' : 0 <= fst loc < Z.of_nat (length (buckets h)))
    by (rewrite (wf_len W); exact Hb).
  assert (HL : Hash_Lookup qb kb size h q = option_map (@data K D) (deref h loc)).
  { unfold Hash_Lookup. fold hv. fold loc. destruct (deref h loc); reflexivity. }
  pose proof (elements_split h Hb') as Hel.
  destruct (deref h loc) as [e|] eqn:E.
  - injection HI as ? ? ? ?; subst r h' u' ko.
    destruct (@deref_Find_some _ K D Q qb kb size h q e W L E) as [Hin Hk].
    destruct (deref_split _ _ E) as (c1 & c2 & Hc & Hn).
    change (hv mod num_buckets h) with (fst loc).
    change (Find_chain qb kb size (chain h (fst loc)) q hv 0) with (snd loc).
    rewrite Hc, <- Hn, list_set_app.
    set (e' := {| hash_val := hash_val e; key := key e; data := d |}).
    pose proof (elements_set_chain_split h (c1 ++ e' :: c2) Hb') as Hel'.
    rewrite Hc in Hel.
    assert (W' : wf kb size (set_chain h (fst loc) (c1 ++ e' :: c2))).
    { apply wf_set_chain; auto. intros x Hx.
      assert (Hx' : x = e' \/ In x (chain h (fst loc))).
      { rewrite Hc. apply in_app_or in Hx. destruct Hx as [Hx|[Hx|Hx]]; auto.
        - right. apply in_or_app. auto.
        - right. apply in_or_app. right. right. exact Hx. }
      destruct Hx' as [->|Hx'].
      - apply (chain_facts e W Hb). rewrite Hc. apply in_or_app. right. left. reflexivity.
      - apply (chain_facts x W Hb Hx'). }
    assert (Un' : unique kb (set_chain h (fst loc) (c1 ++ e' :: c2))).
    { unfold unique, key_bytes in *. rewrite Hel'. rewrite Hel in Un.
      rewrite !map_app in *. simpl in *. exact Un. }
    split; [exact W'|]. split; [exact Un'|]. split; [|split; [|split]].
    + apply Lookup_some_iff; [exact W'|exact Un'|exact L|]. exists e'. split; [|split; [exact Hk|reflexivity]].
      rewrite Hel'. apply in_or_app. right. apply in_or_app. left.
      apply in_or_app. right. left. reflexivity.
    + intros q' L' Hne. apply lookup_ext; auto. intros x Hx.
      assert (x <> e) by (intros ->; congruence).
      assert (x <> e') by (intros ->; simpl in Hx; congruence).
      rewrite Hel, Hel'. rewrite !in_app_iff. simpl. intuition congruence.
    + rewrite HL. discriminate.
    + intros _. split; [reflexivity|]. split; [reflexivity|]. split; [reflexivity|].
      rewrite Hel, Hel'. rewrite !length_app. simpl. reflexivity.
  - destruct (alloc_ok sizeof_element); [|injection HI as ? ? ? ?; subst r; discriminate Hr].
    destruct (copy_key u q) as [[k u1]|] eqn:Ck;
      [|injection HI as ? ? ? ?; subst r; discriminate Hr].
    pose proof (Hck k u1 eq_refl) as Hke.
    set (e := {| hash_val := hv; key := k; data := d |}) in *.
    set (h1 := set_chain h (fst loc) (chain h (fst loc) ++ [e])) in *.
    assert (Hne : forall x, In x (elements h) -> kb (key x) <> qb q)
      by (apply (@deref_Find_none _ K D Q qb kb size h q W L E)).
    destruct (@wf_append _ K D size kb h (fst loc) e W Hb) as [W1 _].
    { reflexivity. }
    { simpl. unfold hv, hash_func. rewrite Hke. reflexivity. }
    { simpl. rewrite Hke. exact L. }
    fold h1 in W1.
    assert (P1 : Permutation (elements h1) (e :: elements h)).
    { unfold h1. rewrite (elements_set_chain_split h _ Hb'), Hel.
      rewrite <- !app_assoc. simpl. rewrite !app_assoc. symmetry.
      apply Permutation_middle. }
    assert (Un0 : NoDup (map (fun x => kb (key x)) (e :: elements h))).
    { simpl. constructor; [|exact Un].
      intros Hx. apply in_map_iff in Hx. destruct Hx as (x & Hx1 & Hx2).
      apply (Hne x Hx2). congruence. }
    set (h2 := if Z.shiftr (num_items h1) 1 >? num_buckets h1 then Rehash h1 else h1) in *.
    assert (W2 : wf kb size h2 /\ Permutation (elements h2) (e :: elements h) /\
                 num_items h2 = num_items h).
    { unfold h2. destruct (Z.shiftr (num_items h1) 1 >? num_buckets h1).
      - split; [apply (wf_Rehash W1)|]. split.
        + rewrite (Rehash_perm h1 (wf_pos W1)). exact P1.
        + rewrite num_items_Rehash. reflexivity.
      - split; [exact W1|]. split; [exact P1|reflexivity]. }
    destruct W2 as (W2 & P2 & N2).
    injection HI as ? ? ? ?; subst r h' u' ko.
    assert (W' : wf kb size (set_items h2 ((num_items h2 + 1) mod (SIZE_MAX + 1))))
      by (apply wf_set_items; exact W2).
    assert (Un' : unique kb (set_items h2 ((num_items h2 + 1) mod (SIZE_MAX + 1)))).
    { apply uniq_set_items. unfold unique, key_bytes.
      eapply Permutation_NoDup; [|exact Un0]. apply Permutation_map. symmetry. exact P2. }
    split; [exact W'|]. split; [exact Un'|]. split; [|split; [|split]].
    + apply Lookup_some_iff; [exact W'|exact Un'|exact L|]. exists e. split; [|split; [exact Hke|reflexivity]].
      rewrite elements_set_items. eapply Permutation_in; [symmetry; exact P2|]. left. reflexivity.
    + intros q' L' Hq. apply lookup_ext; auto. intros x Hx.
      rewrite elements_set_items.
      assert (x <> e) by (intros ->; simpl in Hx; congruence).
      split; intros Hi.
      * apply (Permutation_in _ P2) in Hi. destruct Hi as [Hi|Hi]; [congruence|exact Hi].
      * apply (Permutation_in _ (Permutation_sym P2)). right. exact Hi.
    + intros _. split; [reflexivity|]. split.
      * unfold Hash_NumEntries. simpl. rewrite N2. reflexivity.
      * rewrite elements_set_items. rewrite (Permutation_length P2). reflexivity.
    + rewrite HL. intros Hx. destruct Hx. reflexivity.
Qed.

Lemma Remove_map (h : hash K D) q r h' :
  wf kb size h -> unique kb h -> length (qb q) = size ->
  Hash_Remove qb kb size h q = (r, h') ->
  wf kb size h' /\ unique kb h' /\
  Hash_Lookup qb kb size h' q = None /\
  (forall q', length (qb q') = size -> qb q' <> qb q ->
     Hash_Lookup qb kb size h' q' = Hash_Lookup qb kb size h q') /\
  (Hash_Lookup qb kb size h q = None -> r = 0 /\ h' = h) /\
  (Hash_Lookup qb kb size h q <> None ->
     r = 1 /\ Hash_NumEntries h' = (Hash_NumEntries h - 1) mod (SIZE_MAX + 1) /\
     S (length (elements h')) = length (elements h)).
Proof.
  intros W Un L HR.
  unfold Hash_Remove in HR. cbv zeta in HR.
  set (hv := hash_func qb size h q) in *.
  set (loc := Find qb kb size h q hv) in *.
  assert (Hb : 0 <= fst loc < num_buckets h).
  { unfold loc, Find; simpl. apply Z.mod_pos_bound, (wf_pos W). }
  assert (Hb' : 0 <= fst loc < Z.of_nat (length (buckets h)))
    by (rewrite (wf_len W); exact Hb).
  assert (HL : Hash_Lookup qb kb size h q = option_map (@data K D) (deref h loc)).
  { unfold Hash_Lookup. fold hv. fold loc. destruct (deref h loc); reflexivity. }
  pose proof (elements_split h Hb') as Hel.
  destruct (deref h loc) as [e|] eqn:E.
  - injection HR as ? ?; subst r h'.
    destruct (@deref_Find_some _ K D Q qb kb size h q e W L E) as [Hin Hk].
    destruct (deref_split _ _ E) as (c1 & c2 & Hc & Hn).
    change (hv mod num_buckets h) with (fst loc).
    change (Find_chain qb kb size (chain h (fst loc)) q hv 0) with (snd loc).
    rewrite Hc, <- Hn, remove_nth_app.
    set (h1 := set_chain h (fst loc) (c1 ++ c2)).
    pose proof (elements_set_chain_split h (c1 ++ c2) Hb') as Hel'. fold h1 in Hel'.
    rewrite Hc in Hel.
    assert (W1 : wf kb size h1).
    { apply wf_set_chain; auto. intros x Hx.
      apply (chain_facts x W Hb). rewrite Hc.
      apply in_app_or in Hx. apply in_or_app. destruct Hx; [left|right; right]; assumption. }
    assert (Un1 : NoDup (map (fun x => kb (key x)) (elements h1)) /\
                  ~ In (kb (key e)) (map (fun x => kb (key x)) (elements h1))).
    { unfold unique, key_bytes in Un. rewrite Hel in Un. rewrite Hel'.
      rewrite !map_app, map_cons in Un. rewrite !map_app.
      rewrite <- !app_assoc in Un. rewrite <- app_comm_cons in Un.
      rewrite app_assoc in Un. rewrite <- !app_assoc. rewrite app_assoc. split.
      - apply NoDup_remove_1 in Un. exact Un.
      - apply NoDup_remove_2 in Un. exact Un. }
    destruct Un1 as [Un1 Hgone].
    assert (W' : wf kb size (set_items h1 ((num_items h1 - 1) mod (SIZE_MAX + 1))))
      by (apply wf_set_items; exact W1).
    assert (Un' : unique kb (set_items h1 ((num_items h1 - 1) mod (SIZE_MAX + 1))))
      by (apply uniq_set_items; exact Un1).
    split; [exact W'|]. split; [exact Un'|]. split; [|split; [|split]].
    + apply Lookup_none_iff; [exact W'|exact L|]. rewrite elements_set_items.
      intros x Hx Hkx. apply Hgone. rewrite Hk, <- Hkx.
      apply (in_map (fun x => kb (key x))). exact Hx.
    + intros q' L' Hq. apply lookup_ext; auto. intros x Hx.
      rewrite elements_set_items.
      assert (x <> e) by (intros ->; congruence).
      rewrite Hel, Hel'. rewrite !in_app_iff. simpl. intuition congruence.
    + rewrite HL. discriminate.
    + intros _. split; [reflexivity|]. split; [reflexivity|].
      rewrite elements_set_items, Hel, Hel'. rewrite !length_app. simpl. lia.
  - injection HR as ? ?; subst r h'.
    split; [exact W|]. split; [exact Un|]. split; [|split; [|split]].
    + rewrite HL. reflexivity.
    + reflexivity.
    + auto.
    + rewrite HL. intros Hx. destruct Hx. reflexivity.
Qed.

Lemma Rehash_map (h : hash K D) :
  wf kb size h -> unique kb h ->
  wf kb size (Rehash h) /\ unique kb (Rehash h) /\
  Permutation (elements (Rehash h)) (elements h) /\
  Hash_NumEntries (Rehash h) = Hash_NumEntries h /\
  (forall q, length (qb q) = size ->
     Hash_Lookup qb kb size (Rehash h) q = Hash_Lookup qb kb size h q).
Proof.
  intros W Un.
  pose proof (Rehash_perm h (wf_pos W)) as P.
  assert (W' : wf kb size (Rehash h)) by (apply (wf_Rehash W)).
  assert (Un' : unique kb (Rehash h)) by (apply uniq_Rehash with (size := size); assumption).
  split; [exact W'|]. split; [exact Un'|]. split; [exact P|].
  split; [apply num_items_Rehash|].
  intros q L. apply lookup_ext; auto. intros x _. split; intros Hi.
  - apply (Permutation_in _ P Hi).
  - apply (Permutation_in _ (Permutation_sym P) Hi).
Qed.

Lemma Clear_map (h : hash K D) :
  elements (Hash_Clear h) = [] /\
  (forall q, Hash_Lookup qb kb size (Hash_Clear h) q = None) /\
  Hash_NumEntries (Hash_Clear h) = Hash_NumEntries h.
Proof.
  split; [apply elements_Clear|]. split; [|reflexivity].
  intros q. unfold Hash_Lookup, deref, Find. cbn [fst snd].
  rewrite chain_Clear. simpl. reflexivity.
Qed.

End Theorems.
End MapLemmas.

Module HashTheorems.
Import Permutation Hash HashInv HashMap MapFacts MapLemmas HashFacts2.
Section Theorems.
Context `{Env} {K D Q U : Type}.
Variables (qb : Q -> list Z) (kb : K -> list Z) (size : nat).

(** X1.  On a table that satisfies its invariant and holds no two keys
    with the same bytes, [Hash_Lookup] finds the data of the element whose
    key has the bytes of the key looked up, and reports "not found" exactly
    when there is no such element. *)
Theorem Hash_Lookup_finite_map (h : hash K D) (q : Q) :
  wf kb size h -> unique kb h -> length (qb q) = size ->
  (forall d, Hash_Lookup qb kb size h q = Some d <->
     exists e, In e (elements h) /\ kb (key e) = qb q /\ data e = d) /\
  (Hash_Lookup qb kb size h q = None <->
     forall e, In e (elements h) -> kb (key e) <> qb q).
Proof.
  apply Lookup_map.
Qed.

(** X2.  A [Hash_Insert] that does not fail keeps the invariant and the
    distinctness of keys; afterwards the key looks up to the inserted data
    and every other key looks up as before.  It returns 1 and counts one
    more entry for a new key, and returns 0 with the count and the owner
    unchanged for a key that was present. *)
Theorem Hash_Insert_then_Lookup (copy_key : U -> Q -> option (K * U))
    (h : hash K D) u q d r h' u' ko :
  wf kb size h -> unique kb h -> length (qb q) = size ->
  (forall k u1, copy_key u q = Some (k, u1) -> kb k = qb q) ->
  Hash_Insert qb kb size copy_key h u q d = (r, h', u', ko) ->
  (r <? 0) = false ->
  wf kb size h' /\ unique kb h' /\
  Hash_Lookup qb kb size h' q = Some d /\
  (forall q', length (qb q') = size -> qb q' <> qb q ->
     Hash_Lookup qb kb size h' q' = Hash_Lookup qb kb size h q') /\
  (Hash_Lookup qb kb size h q = None ->
     r = 1 /\ Hash_NumEntries h' = (Hash_NumEntries h + 1) mod (SIZE_MAX + 1) /\
     length (elements h') = S (length (elements h))) /\
  (Hash_Lookup qb kb size h q <> None ->
     r = 0 /\ Hash_NumEntries h' = Hash_NumEntries h /\ u' = u /\
     length (elements h') = length (elements h)).
Proof.
  apply Insert_map.
Qed.

(** X3.  [Hash_Remove] keeps the invariant and the distinctness of keys;
    afterwards the key is not found and every other key looks up as
    before.  It returns 0 and leaves the table as it is for a key that was
    not present, and returns 1 with one entry less for one that was. *)
Theorem Hash_Remove_then_Lookup (h : hash K D) q r h' :
  wf kb size h -> unique kb h -> length (qb q) = size ->
  Hash_Remove qb kb size h q = (r, h') ->
  wf kb size h' /\ unique kb h' /\
  Hash_Lookup qb kb size h' q = None /\
  (forall q', length (qb q') = size -> qb q' <> qb q ->
     Hash_Lookup qb kb size h' q' = Hash_Lookup qb kb size h q') /\
  (Hash_Lookup qb kb size h q = None -> r = 0 /\ h' = h) /\
  (Hash_Lookup qb kb size h q <> None ->
     r = 1 /\ Hash_NumEntries h' = (Hash_NumEntries h - 1) mod (SIZE_MAX + 1) /\
     S (length (elements h')) = length (elements h)).
Proof.
  apply Remove_map.
Qed.

(** X4.  [Rehash] keeps the entries: the doubled table holds the same
    elements in some order, satisfies the invariant, and every key looks up
    as before. *)
Theorem Rehash_keeps_entries (h : hash K D) :
  wf kb size h -> unique kb h ->
  wf kb size (Rehash h) /\ unique kb (Rehash h) /\
  Permutation (elements (Rehash h)) (elements h) /\
  Hash_NumEntries (Rehash h) = Hash_NumEntries h /\
  (forall q, length (qb q) = size ->
     Hash_Lookup qb kb size (Rehash h) q = Hash_Lookup qb kb size h q).
Proof.
  apply Rehash_map.
Qed.

(** X5.  [Hash_Clear] removes every element, so that no key is found any
    more, but leaves [num_items] alone: [Hash_NumEntries] still reports
    the count from before the call. *)
Theorem Hash_Clear_keeps_count (h : hash K D) :
  elements (Hash_Clear h) = [] /\
  (forall q, Hash_Lookup qb kb size (Hash_Clear h) q = None) /\
  Hash_NumEntries (Hash_Clear h) = Hash_NumEntries h.
Proof.
  apply Clear_map.
Qed.

End Theorems.

Import Sample.

Lemma table_wf : wf ptr_bytes 8 table.
Proof. apply Hash_New_wf. reflexivity. Qed.

Lemma table_unique : unique ptr_bytes table.
Proof. unfold unique, key_bytes. vm_compute. constructor. Qed.

Lemma table_insert :
  Hash_Insert ptr_bytes ptr_bytes 8 ptr_copy table tt 5 7 = (1, table1, tt, Some 5).
Proof. vm_compute. reflexivity. Qed.

Lemma ptr_copy_key k u1 : ptr_copy tt 5 = Some (k, u1) -> ptr_bytes k = ptr_bytes 5.
Proof. intros [= <- _]. reflexivity. Qed.

Lemma table1_wf : wf ptr_bytes 8 table1.
Proof.
  apply (@HashFacts3.Hash_Insert_new env Z Z Z unit ptr_bytes ptr_bytes 8 ptr_copy
           table tt 5 7 1 table1 tt (Some 5) table_wf eq_refl ptr_copy_key);
    [vm_compute; reflexivity|exact table_insert|reflexivity].
Qed.

Lemma table1_unique : unique ptr_bytes table1.
Proof.
  unfold unique, key_bytes. vm_compute. constructor; [intros []|constructor].
Qed.

Lemma Hash_Lookup_finite_map_witness :
  wf ptr_bytes 8 table1 /\ unique ptr_bytes table1 /\
  (forall d, Hash_Lookup ptr_bytes ptr_bytes 8 table1 5 = Some d <->
     exists e, In e (elements table1) /\ ptr_bytes (key e) = ptr_bytes 5 /\ data e = d) /\
  (Hash_Lookup ptr_bytes ptr_bytes 8 table1 5 = None <->
     forall e, In e (elements table1) -> ptr_bytes (key e) <> ptr_bytes 5).
Proof.
  split; [exact table1_wf|]. split; [exact table1_unique|].
  exact (@Hash_Lookup_finite_map env Z Z Z ptr_bytes ptr_bytes 8 table1 5
           table1_wf table1_unique eq_refl).
Defined.

Lemma Hash_Insert_then_Lookup_witness :
  wf ptr_bytes 8 table /\ unique ptr_bytes table /\
  Hash_Insert ptr_bytes ptr_bytes 8 ptr_copy table tt 5 7 = (1, table1, tt, Some 5) /\
  Hash_Lookup ptr_bytes ptr_bytes 8 table1 5 = Some 7 /\
  (forall q', length (ptr_bytes q') = 8%nat -> ptr_bytes q' <> ptr_bytes 5 ->
     Hash_Lookup ptr_bytes ptr_bytes 8 table1 q' = Hash_Lookup ptr_bytes ptr_bytes 8 table q').
Proof.
  split; [exact table_wf|]. split; [exact table_unique|]. split; [exact table_insert|].
  destruct (@Hash_Insert_then_Lookup env Z Z Z unit ptr_bytes ptr_bytes 8 ptr_copy
              table tt 5 7 1 table1 tt (Some 5) table_wf table_unique eq_refl
              ptr_copy_key table_insert eq_refl) as (_ & _ & L & O & _).
  split; [exact L|exact O].
Defined.

Lemma Hash_Remove_then_Lookup_witness :
  wf ptr_bytes 8 table1 /\ unique ptr_bytes table1 /\
  Hash_Lookup ptr_bytes ptr_bytes 8 (snd (Hash_Remove ptr_bytes ptr_bytes 8 table1 5)) 5 = None /\
  (Hash_Lookup ptr_bytes ptr_bytes 8 table1 5 <> None ->
   fst (Hash_Remove ptr_bytes ptr_bytes 8 table1 5) = 1).
Proof.
  split; [exact table1_wf|]. split; [exact table1_unique|].
  destruct (@Hash_Remove_then_Lookup env Z Z Z ptr_bytes ptr_bytes 8 table1 5
              (fst (Hash_Remove ptr_bytes ptr_bytes 8 table1 5))
              (snd (Hash_Remove ptr_bytes ptr_bytes 8 table1 5))
              table1_wf table1_unique eq_refl (surjective_pairing _))
    as (_ & _ & L & _ & _ & P).
  split; [exact L|]. intros Hn. exact (proj1 (P Hn)).
Defined.

Lemma Rehash_keeps_entries_witness :
  wf ptr_bytes 8 table1 /\ unique ptr_bytes table1 /\
  wf ptr_bytes 8 (Rehash table1) /\
  Hash_Lookup ptr_bytes ptr_bytes 8 (Rehash table1) 5 =
  Hash_Lookup ptr_bytes ptr_bytes 8 table1 5.
Proof.
  split; [exact table1_wf|]. split; [exact table1_unique|].
  destruct (@Rehash_keeps_entries env Z Z Z ptr_bytes ptr_bytes 8 table1
              table1_wf table1_unique) as (W & _ & _ & _ & L).
  split; [exact W|]. apply L. reflexivity.
Defined.

End HashTheorems.

Module VLMore.
Import Hash HashInv HashFacts HashFacts2 MapFacts VL VLInv VLFacts VLCopy VLSpec.
Section Facts.
Context `{Env} {F : Type} `{FloatRepr F}.

Lemma stored_at_dec (vl : @lp_vertex_list F) v i : stored_at vl v i \/ ~ stored_at vl v i.
Proof.
  unfold stored_at.
  destruct (Z_le_dec 0 i) as [Hlo|Hlo]; [|right; intros [[? ?] _]; lia].
  destruct (Z_lt_dec i (vert_used vl)) as [Hhi|Hhi]; [|right; intros [[? ?] _]; lia].
  destruct (nth_error (vert vl) (Z.to_nat i)) as [r|] eqn:E.
  - destruct (list_eq_dec Z.eq_dec (vert_bytes r) (vert_bytes v)) as [He|He].
    + left. split; [lia|]. exists r. auto.
    + right. intros [_ (r' & Hr & Hb)]. congruence.
  - right. intros [_ (r' & Hr & Hb)]. discriminate.
Qed.

Lemma Add_verts (vl : @lp_vertex_list F) v idx vl' :
  wf vl -> Z.of_nat (length v) = floats_per_vert vl ->
  LP_VertexList_Add vl v = (Ret idx, vl') ->
  vert vl' = vert vl \/ vert vl' = vert vl ++ [v].
Proof.
  intros W L HA. destruct (@Add_spec _ _ _ vl v idx vl' W L HA) as (_ & _ & _ & Hex & Hnex & _).
  destruct (stored_at_dec vl v idx) as [Hs|Hs].
  - left. apply Hex. exists idx. exact Hs.
  - right. apply Hnex. intros [i Hi]. apply Hs. apply Hex. exists i. exact Hi.
Qed.

Lemma Add_lookup (vl : @lp_vertex_list F) v idx vl' :
  wf vl -> Z.of_nat (length v) = floats_per_vert vl ->
  LP_VertexList_Add vl v = (Ret idx, vl') ->
  vert_bytes (LP_VertexList_LookupVert vl' (ind_used vl)) = vert_bytes v /\
  (forall i, 0 <= i < ind_used vl ->
     0 <= nth (Z.to_nat i) (ind vl) 0 < vert_used vl ->
     LP_VertexList_LookupVert vl' i = LP_VertexList_LookupVert vl i) /\
  vert_used vl <= vert_used vl' <= vert_used vl + 1.
Proof.
  intros W L HA.
  destruct (@Add_spec _ _ _ vl v idx vl' W L HA) as (W' & Hst & Hf & Hex & Hnex & Hind & Hu).
  pose proof (@Add_verts vl v idx vl' W L HA) as Hv.
  split; [|split].
  - unfold LP_VertexList_LookupVert. rewrite Hind, (wf_ind_used W), Nat2Z.id, nth_middle.
    destruct Hst as (_ & r & Hn & Hb).
    erewrite nth_error_nth_default by exact Hn. exact Hb.
  - intros i Hi Hj. unfold LP_VertexList_LookupVert. rewrite Hind.
    rewrite app_nth1 by (rewrite (wf_ind_used W) in Hi; lia).
    destruct Hv as [-> | ->]; [reflexivity|].
    rewrite app_nth1; [reflexivity|]. rewrite (wf_used W) in Hj. lia.
  - rewrite (wf_used W), (wf_used W').
    destruct Hv as [-> | ->]; rewrite ?length_app; simpl; lia.
Qed.

Lemma New_fields fpv pt (vl : @lp_vertex_list F) :
  LP_VertexList_New fpv pt = Some vl ->
  floats_per_vert vl = fpv /\ primative vl = pt /\ vert vl = [] /\ vert_used vl = 0 /\
  ind vl = [] /\ ind_used vl = 0.
Proof.
  unfold LP_VertexList_New.
  repeat match goal with |- context [if ?c then _ else _] => destruct c end;
    try discriminate.
  destruct (Hash_New Z Z); [|discriminate]. intros [= <-]. simpl. repeat split.
Qed.

Lemma LookupVert_length (vl : @lp_vertex_list F) n :
  wf vl -> valid_inds vl -> (n < length (ind vl))%nat ->
  Z.of_nat (length (LP_VertexList_LookupVert vl (Z.of_nat n))) = floats_per_vert vl.
Proof.
  intros W V Hn. unfold LP_VertexList_LookupVert. rewrite Nat2Z.id.
  pose proof (V _ (nth_In (ind vl) 0 Hn)) as Hj.
  apply (wf_rec W). apply nth_In. rewrite (wf_used W) in Hj. lia.
Qed.

Lemma Copy_loop (vl : @lp_vertex_list F) :
  wf vl -> valid_inds vl ->
  forall n out0 out, (n <= length (ind vl))%nat ->
    wf out0 -> floats_per_vert out0 = floats_per_vert vl -> ind out0 = [] ->
    fold_left (Copy_step vl) (seq 0 n) (Some out0) = Some out ->
    wf out /\ floats_per_vert out = floats_per_vert vl /\
    ind_used out = Z.of_nat n /\ valid_inds out /\
    forall i, 0 <= i < Z.of_nat n ->
      vert_bytes (LP_VertexList_LookupVert out i) = vert_bytes (LP_VertexList_LookupVert vl i).
Proof.
  intros W V. induction n as [|n IH]; intros out0 out Hn W0 Hf0 Hi0 HF.
  - simpl in HF. injection HF as <-.
    split; [exact W0|]. split; [exact Hf0|]. split.
    + rewrite (wf_ind_used W0), Hi0. reflexivity.
    + split; [intros j Hj; rewrite Hi0 in Hj; destruct Hj|intros i Hi; lia].
  - rewrite seq_S, fold_left_app in HF. simpl in HF.
    destruct (fold_left (Copy_step vl) (seq 0 n) (Some out0)) as [outn|] eqn:E;
      [|discriminate HF].
    destruct (IH out0 outn ltac:(lia) W0 Hf0 Hi0 E) as (Wn & Hfn & Hun & Vn & Ln).
    simpl in HF.
    destruct (LP_VertexList_Add outn (LP_VertexList_LookupVert vl (Z.of_nat n)))
      as [r out'] eqn:HA.
    destruct r as [idx|err]; simpl in HF; [|discriminate HF].
    destruct (idx =? UINT_MAX); [discriminate HF|]. injection HF as ->.
    assert (Hlen : Z.of_nat (length (LP_VertexList_LookupVert vl (Z.of_nat n)))
                   = floats_per_vert outn).
    { rewrite Hfn. apply LookupVert_length; [exact W|exact V|lia]. }
    destruct (@Add_spec _ _ _ outn _ idx out Wn Hlen HA)
      as (W' & Hst & Hf & _ & _ & Hind & Hu).
    destruct (@Add_lookup outn _ idx out Wn Hlen HA) as (Lnew & Lold & Hmono).
    split; [exact W'|]. split; [congruence|]. split; [lia|]. split.
    + intros j Hj. rewrite Hind in Hj. apply in_app_or in Hj. destruct Hj as [Hj|[<-|[]]].
      * pose proof (Vn j Hj). lia.
      * destruct Hst as [Hr _]. exact Hr.
    + intros i Hi. destruct (Z.eq_dec i (Z.of_nat n)) as [->|Hne].
      * rewrite Hun in Lnew. exact Lnew.
      * rewrite Lold; [apply Ln; lia|lia|].
        apply Vn. apply nth_In. rewrite (wf_ind_used Wn) in Hun. lia.
Qed.

Lemma wf_LP_VertexList_Clear (vl : @lp_vertex_list F) : wf vl -> wf (LP_VertexList_Clear vl).
Proof.
  intros W.
  pose proof (wf_alloc W) as Ha. pose proof (wf_ind_alloc W) as Hia.
  pose proof (wf_used W) as Hu. pose proof (wf_ind_used W) as Hiu.
  constructor; simpl.
  - apply (wf_fpv W).
  - apply (wf_vsize W).
  - reflexivity.
  - lia.
  - intros r [].
  - intros [|i] j ri rj Hi; discriminate Hi.
  - reflexivity.
  - lia.
  - destruct (wf_table W) as (h & Hh & Wh & _).
    exists (Hash_Clear h). rewrite Hh. simpl. split; [reflexivity|]. split; [|split].
    + apply wf_ext with (kb := VlKey vl).
      * intros e He. rewrite elements_Clear in He. destruct He.
      * apply wf_Clear. exact Wh.
    + intros e He. rewrite elements_Clear in He. destruct He.
    + intros i Hi. lia.
Qed.

End Facts.
End VLMore.

Module VLTheorems.
Import Hash HashInv VL VLInv VLFacts VLCopy VLSpec VLMore.
Section Theorems.
Context `{Env} {F : Type} `{FloatRepr F}.

(** X6.  After a successful [LP_VertexList_Add(vl, v)] on a well-formed
    list, [LP_VertexList_LookupVert] at the position the call filled (the
    old index count) yields a vertex with the bytes of [v]; at every
    earlier position whose index names a stored vertex it yields what it
    did before; and the vertex count has grown by at most one. *)
Theorem LP_VertexList_Add_LookupVert (vl : @lp_vertex_list F) v idx vl' :
  wf vl -> Z.of_nat (length v) = floats_per_vert vl ->
  LP_VertexList_Add vl v = (Ret idx, vl') ->
  vert_bytes (LP_VertexList_LookupVert vl' (LP_VertexList_NumInd vl)) = vert_bytes v /\
  (forall i, 0 <= i < LP_VertexList_NumInd vl ->
     0 <= nth (Z.to_nat i) (LP_VertexList_GetInd vl) 0 < LP_VertexList_NumVert vl ->
     LP_VertexList_LookupVert vl' i = LP_VertexList_LookupVert vl i) /\
  LP_VertexList_NumVert vl <= LP_VertexList_NumVert vl' <= LP_VertexList_NumVert vl + 1.
Proof. intros W L HA. exact (@Add_lookup _ _ _ vl v idx vl' W L HA). Qed.

(** X7.  [LP_VertexList_Copy] refuses every [new_floats_per_vert] above
    the list's own, [SIZE_MAX] included (the test comes before [SIZE_MAX]
    is replaced).  A copy with the list's own [floats_per_vert], of a
    well-formed list whose indices all name stored vertices, is well
    formed, has as many indices, and holds at each position a vertex with
    the bytes of the source's. *)
Theorem LP_VertexList_Copy_same (vl : @lp_vertex_list F) :
  wf vl -> valid_inds vl ->
  (forall n, floats_per_vert vl < n -> LP_VertexList_Copy vl n = None) /\
  (forall out, LP_VertexList_Copy vl (LP_VertexList_FloatsPerVert vl) = Some out ->
     wf out /\ valid_inds out /\
     LP_VertexList_FloatsPerVert out = LP_VertexList_FloatsPerVert vl /\
     LP_VertexList_NumInd out = LP_VertexList_NumInd vl /\
     forall i, 0 <= i < LP_VertexList_NumInd vl ->
       vert_bytes (LP_VertexList_LookupVert out i) =
       vert_bytes (LP_VertexList_LookupVert vl i)).
Proof.
  intros W V. split.
  - intros n Hn. unfold LP_VertexList_Copy, LP_VertexList_FloatsPerVert.
    destruct (Z.ltb_spec (floats_per_vert vl) n); [reflexivity|lia].
  - intros out HC. unfold LP_VertexList_Copy, LP_VertexList_FloatsPerVert in HC.
    rewrite Z.ltb_irrefl in HC.
    assert (Hsame : (if floats_per_vert vl =? SIZE_MAX then floats_per_vert vl
                     else floats_per_vert vl) = floats_per_vert vl)
      by (destruct (floats_per_vert vl =? SIZE_MAX); reflexivity).
    rewrite Hsame in HC.
    destruct (LP_VertexList_New (floats_per_vert vl) (LP_VertexList_PrimativeType vl))
      as [out0|] eqn:EN; [|discriminate HC].
    pose proof EN as EN'. apply New_fields in EN'. destruct EN' as (Hf0 & _ & _ & _ & Hi0 & _).
    assert (W0 : wf out0) by (eapply VLClaims.wf_New; [apply (wf_fpv W)|exact EN]).
    unfold LP_VertexList_NumInd in HC. rewrite (wf_ind_used W), Nat2Z.id in HC.
    destruct (@Copy_loop _ _ _ vl W V _ out0 out (le_n _) W0 Hf0 Hi0 HC) as (Wo & Hfo & Huo & Vo & Lo).
    unfold LP_VertexList_NumInd, LP_VertexList_FloatsPerVert.
    rewrite (wf_ind_used W).
    split; [exact Wo|]. split; [exact Vo|]. split; [exact Hfo|]. split; [exact Huo|exact Lo].
Qed.

(** X8.  [LP_VertexList_Clear] turns a well-formed list into a well-formed
    empty one: no vertex, no index, the capacities as they were, and no
    vertex is found in it. *)
Theorem LP_VertexList_Clear_empty (vl : @lp_vertex_list F) :
  wf vl ->
  wf (LP_VertexList_Clear vl) /\
  LP_VertexList_NumVert (LP_VertexList_Clear vl) = 0 /\
  LP_VertexList_NumInd (LP_VertexList_Clear vl) = 0 /\
  LP_VertexList_GetVert (LP_VertexList_Clear vl) = [] /\
  LP_VertexList_GetInd (LP_VertexList_Clear vl) = [] /\
  vert_alloc (LP_VertexList_Clear vl) = vert_alloc vl /\
  ind_alloc (LP_VertexList_Clear vl) = ind_alloc vl /\
  (forall v i, ~ stored_at (LP_VertexList_Clear vl) v i).
Proof.
  intros W. split; [apply wf_LP_VertexList_Clear; exact W|].
  repeat (split; [reflexivity|]).
  intros v i [Hr _]. simpl in Hr. lia.
Qed.

End Theorems.

Import Sample IEEE.

Lemma vl1_Add : LP_VertexList_Add vl0 v123 = (Ret 0, vl1).
Proof. vm_compute. reflexivity. Qed.

Lemma vl1_wf : wf vl1.
Proof.
  apply (@Add_spec _ _ _ vl0 v123 0 vl1 VLClaims.vl0_wf eq_refl vl1_Add).
Qed.

Lemma vl1_valid : valid_inds vl1.
Proof.
  intros j Hj. assert (Hv : vert_used vl1 = 1) by (vm_compute; reflexivity).
  rewrite Hv. vm_compute in Hj. destruct Hj as [<-|[]]. lia.
Qed.

Lemma LP_VertexList_Add_LookupVert_witness :
  wf vl0 /\ Z.of_nat (length v123) = floats_per_vert vl0 /\
  LP_VertexList_Add vl0 v123 = (Ret 0, vl1) /\
  vert_bytes (LP_VertexList_LookupVert vl1 (LP_VertexList_NumInd vl0)) = vert_bytes v123 /\
  LP_VertexList_NumVert vl0 <= LP_VertexList_NumVert vl1 <= LP_VertexList_NumVert vl0 + 1.
Proof.
  split; [exact VLClaims.vl0_wf|]. split; [reflexivity|]. split; [exact vl1_Add|].
  destruct (@LP_VertexList_Add_LookupVert _ _ _ vl0 v123 0 vl1 VLClaims.vl0_wf eq_refl vl1_Add)
    as (A & _ & B).
  split; [exact A|exact B].
Defined.

Lemma vl1_Copy : LP_VertexList_Copy vl1 (LP_VertexList_FloatsPerVert vl1) = Some vl1.
Proof. vm_compute. reflexivity. Qed.

Lemma LP_VertexList_Copy_same_witness :
  wf vl1 /\ valid_inds vl1 /\
  LP_VertexList_Copy vl1 SIZE_MAX = None /\
  LP_VertexList_Copy vl1 (LP_VertexList_FloatsPerVert vl1) = Some vl1 /\
  forall i, 0 <= i < LP_VertexList_NumInd vl1 ->
    vert_bytes (LP_VertexList_LookupVert vl1 i) = vert_bytes (LP_VertexList_LookupVert vl1 i).
Proof.
  split; [exact vl1_wf|]. split; [exact vl1_valid|].
  destruct (@LP_VertexList_Copy_same _ _ _ vl1 vl1_wf vl1_valid) as (A & B).
  split; [apply A; reflexivity|]. split; [exact vl1_Copy|].
  destruct (B vl1 vl1_Copy) as (_ & _ & _ & _ & L). exact L.
Defined.

Lemma LP_VertexList_Clear_empty_witness :
  wf vl1 /\ wf (LP_VertexList_Clear vl1) /\
  LP_VertexList_NumVert (LP_VertexList_Clear vl1) = 0 /\
  LP_VertexList_NumInd (LP_VertexList_Clear vl1) = 0.
Proof.
  split; [exact vl1_wf|].
  destruct (@LP_VertexList_Clear_empty _ _ _ vl1 vl1_wf) as (A & B & C & _).
  split; [exact A|]. split; [exact B|exact C].
Defined.

End VLTheorems.

Module ArrayTheorems.
Import Array ArrayRemove ArraySpec.

Lemma nth_firstn_lt {A} (l : list A) n k d :
  (k < n)%nat -> nth k (firstn n l) d = nth k l d.
Proof.
  revert n k; induction l as [|a l IH]; intros [|n] [|k] Hk; simpl; try lia; auto.
  apply IH. lia.
Qed.

Lemma nth_list_set_at {A} (l : list A) n k x d :
  (n < length l)%nat ->
  nth k (list_set n x l) d = if Nat.eqb k n then x else nth k l d.
Proof.
  revert n k; induction l as [|a l IH]; intros [|n] [|k] Hn; simpl in *; try lia; auto.
  apply IH. lia.
Qed.

Section Arr.
Context `{Env}.

(** X9.  [Array_Add] returns 0 or -1.  On -1 the array is as it was; on 0
    the element is appended and the length is one more.  The length stays
    within the capacity when the capacity was positive; an array of
    capacity 0 keeps capacity 0 (twice 0), so the element is written past
    the allocation. *)
Theorem Array_Add_appends (a : array) d :
  arr_ok a ->
  (fst (Array_Add a d) = 0 \/ fst (Array_Add a d) = -1) /\
  (fst (Array_Add a d) = -1 -> snd (Array_Add a d) = a) /\
  (fst (Array_Add a d) = 0 ->
     Array_Data (snd (Array_Add a d)) = Array_Data a ++ [d] /\
     Array_Length (snd (Array_Add a d)) = Array_Length a + 1 /\
     (0 < num_alloc a -> arr_ok (snd (Array_Add a d))) /\
     (num_alloc a = 0 ->
        num_alloc (snd (Array_Add a d)) = 0 /\ len (snd (Array_Add a d)) = 1)).
Proof.
  intros [Hl Hc]. unfold Array_Add, Array_Data, Array_Length, arr_ok.
  assert (Hs : Z.shiftl (num_alloc a) 1 = 2 * num_alloc a)
    by (rewrite Z.shiftl_mul_pow2; lia).
  rewrite Hs. clear Hs.
  destruct (Z.geb_spec (len a) (num_alloc a)) as [Hge|Hlt].
  - destruct (num_alloc a >=? Z.shiftr SIZE_MAX 1); cbn [fst snd len num_alloc data].
    + split; [auto|]. split; [auto|]. intros Hx; discriminate Hx.
    + destruct (alloc_ok _); cbn [fst snd len num_alloc data].
      * split; [auto|]. split; [intros Hx; discriminate Hx|]. intros _.
        split; [reflexivity|]. split; [reflexivity|].
        rewrite length_app; cbn [length]. split.
        -- intros Hp. split; lia.
        -- intros Hz. rewrite Hz. split; [reflexivity|lia].
      * split; [auto|]. split; [auto|]. intros Hx; discriminate Hx.
  - cbn [fst snd len num_alloc data]. split; [auto|]. split; [intros Hx; discriminate Hx|]. intros _.
    split; [reflexivity|]. split; [reflexivity|]. rewrite length_app; cbn [length]. split.
    + intros _. split; lia.
    + intros Hz. lia.
Qed.

End Arr.

(** X10.  [Array_Remove] leaves the array alone when the index, counted
    from the end if negative, is out of range.  Otherwise the array is one
    shorter, the last element has taken the place of the one removed and
    the others are where they were. *)
Theorem Array_Remove_moves_last (a : array) idx :
  arr_ok a ->
  (~ 0 <= from_end a idx < len a -> Array_Remove a idx = a) /\
  (0 <= from_end a idx < len a ->
     arr_ok (Array_Remove a idx) /\
     Array_Length (Array_Remove a idx) = Array_Length a - 1 /\
     num_alloc (Array_Remove a idx) = num_alloc a /\
     forall k, 0 <= k < len a - 1 ->
       nth (Z.to_nat k) (Array_Data (Array_Remove a idx)) 0 =
       if k =? from_end a idx then nth (Z.to_nat (len a - 1)) (Array_Data a) 0
       else nth (Z.to_nat k) (Array_Data a) 0).
Proof.
  intros [Hl Hc]. unfold Array_Remove, Array_Data, Array_Length, arr_ok.
  set (i := from_end a idx).
  destruct (Z.ltb_spec i 0) as [Hneg|Hpos]; simpl.
  - split; [reflexivity|]. intros Hr. lia.
  - destruct (Z.geb_spec i (len a)) as [Hge|Hlt]; simpl.
    + split; [reflexivity|]. intros Hr. lia.
    + split; [intros Hr; lia|]. intros _.
      assert (Hfl : length (firstn (Z.to_nat (len a - 1))
                      (list_set (Z.to_nat i) (nth (Z.to_nat (len a - 1)) (data a) 0) (data a)))
                    = Z.to_nat (len a - 1)).
      { rewrite length_firstn, list_set_length. lia. }
      split; [split; [rewrite Hfl; lia|lia]|].
      split; [reflexivity|]. split; [reflexivity|].
      intros k Hk. rewrite nth_firstn_lt by lia.
      rewrite nth_list_set_at by lia.
      destruct (Z.eqb_spec k i) as [->|Hne].
      * rewrite Nat.eqb_refl. reflexivity.
      * destruct (Nat.eqb_spec (Z.to_nat k) (Z.to_nat i)) as [He|He]; [lia|reflexivity].
Qed.

Import Sample.

Lemma arr3_ok : arr_ok arr3.
Proof. split; [reflexivity|]. simpl. lia. Qed.

Lemma Array_Add_appends_witness :
  arr_ok arr3 /\
  (fst (Array_Add arr3 40) = 0 ->
   Array_Data (snd (Array_Add arr3 40)) = Array_Data arr3 ++ [40] /\
   Array_Length (snd (Array_Add arr3 40)) = Array_Length arr3 + 1).
Proof.
  split; [exact arr3_ok|].
  destruct (@Array_Add_appends env arr3 40 arr3_ok) as (_ & _ & A).
  intros Hr. destruct (A Hr) as (B & C & _). split; [exact B|exact C].
Defined.

Lemma Array_Remove_moves_last_witness :
  arr_ok arr3 /\
  (0 <= from_end arr3 (-3) < len arr3 ->
   arr_ok (Array_Remove arr3 (-3)) /\
   Array_Length (Array_Remove arr3 (-3)) = Array_Length arr3 - 1).
Proof.
  split; [exact arr3_ok|].
  destruct (@Array_Remove_moves_last arr3 (-3) arr3_ok) as (_ & A).
  intros Hr. destruct (A Hr) as (B & C & _). split; [exact B|exact C].
Defined.

End ArrayTheorems.

Module PointFacts.
Import Permutation Util ConvexHull PointSpec.
Section Facts.
Context `{Env} {F : Type} `{FloatOps F} `{FloatRepr F}.

Lemma PointList_Add_perm (pl : @point_list F) e d :
  Permutation (elems (PointList_Add pl e d)) (elems pl ++ [e]).
Proof.
  unfold PointList_Add. destruct (elems pl) as [|a l] eqn:E; simpl.
  - reflexivity.
  - destruct (f_ltb (max_dist pl) d); simpl.
    + change (a :: l ++ [e]) with ((a :: l) ++ [e]). apply Permutation_cons_append.
    + reflexivity.
Qed.

Lemma PointList_Join_perm (dest src : @point_list F) :
  Permutation (elems (fst (PointList_Join dest src))) (elems dest ++ elems src) /\
  elems (snd (PointList_Join dest src)) = [].
Proof.
  unfold PointList_Join. destruct (elems src) as [|a l] eqn:E; simpl.
  - rewrite app_nil_r. split; [reflexivity|exact E].
  - split; [|reflexivity].
    rewrite (PointList_Add_perm dest a (max_dist src)).
    rewrite <- app_assoc. reflexivity.
Qed.

Lemma assign_points_spec (f : @face F) data rest fpts :
  snd (assign_points f data rest fpts) =
    filter (fun i => negb (in_category f data Delete i)) rest /\
  Permutation (elems (fst (assign_points f data rest fpts)))
    (elems fpts ++ filter (in_category f data Delete) rest).
Proof.
  revert fpts. induction rest as [|cur rest IH]; intros fpts; simpl.
  - rewrite app_nil_r. split; reflexivity.
  - assert (Hc : in_category f data Delete cur =
                 category_eqb (fst (Categorize f cur data)) Delete) by reflexivity.
    rewrite !Hc. clear Hc.
    destruct (Categorize f cur data) as [cat dist] eqn:EC. simpl.
    destruct (category_eqb cat Delete) eqn:ED; simpl.
    + destruct (IH (PointList_Add fpts cur dist)) as [IH1 IH2].
      split; [exact IH1|]. rewrite IH2.
      rewrite (PointList_Add_perm fpts cur dist). rewrite <- app_assoc. reflexivity.
    + destruct (IH fpts) as [IH1 IH2].
      destruct (assign_points f data rest fpts) as [fpts' kept]. simpl in *.
      split; [f_equal; exact IH1|exact IH2].
Qed.

Lemma classify_fold (f : @face F) data skip l above pool below :
  let r := fold_left (classify_step f data skip) l (above, pool, below) in
  Permutation (elems (fst (fst r))) (elems above ++ filter (goes f data skip Delete) l) /\
  Permutation (elems (snd (fst r))) (elems pool ++ filter (goes f data skip Extend) l) /\
  Permutation (elems (snd r)) (elems below ++ filter (goes f data skip Present) l).
Proof.
  revert above pool below. induction l as [|x l IH]; intros above pool below.
  - simpl. rewrite !app_nil_r. repeat split; reflexivity.
  - cbn [fold_left filter].
    assert (Hg : forall c, goes f data skip c x =
                 negb (skipped skip x) && category_eqb (fst (Categorize f x data)) c)
      by reflexivity.
    rewrite !Hg. clear Hg.
    assert (Hst : classify_step f data skip (above, pool, below) x =
                  if skipped skip x then (above, pool, below)
                  else match fst (Categorize f x data) with
                       | Delete => (PointList_Add above x (snd (Categorize f x data)), pool, below)
                       | Extend => (above, PointList_Add pool x (f_abs (snd (Categorize f x data))), below)
                       | Present => (above, pool, PointList_Add below x (f_neg (snd (Categorize f x data))))
                       end).
    { unfold classify_step, skipped. destruct skip as [[a b] c].
      destruct (Categorize f x data) as [cat dist]. simpl.
      destruct (Nat.eqb x a || Nat.eqb x b || Nat.eqb x c); [reflexivity|].
      destruct cat; reflexivity. }
    rewrite Hst. clear Hst.
    destruct (skipped skip x); cbn [negb andb].
    + apply IH.
    + destruct (Categorize f x data) as [cat dist]. cbn [fst snd].
      destruct cat; cbn [category_eqb cat_ptr Z.eqb Pos.eqb].
      * destruct (IH above pool (PointList_Add below x (f_neg dist))) as (I1 & I2 & I3).
        split; [exact I1|]. split; [exact I2|].
        rewrite I3, (PointList_Add_perm below x (f_neg dist)), <- app_assoc. reflexivity.
      * destruct (IH above (PointList_Add pool x (f_abs dist)) below) as (I1 & I2 & I3).
        split; [exact I1|]. split; [|exact I3].
        rewrite I2, (PointList_Add_perm pool x (f_abs dist)), <- app_assoc. reflexivity.
      * destruct (IH (PointList_Add above x dist) pool below) as (I1 & I2 & I3).
        split; [|split; [exact I2|exact I3]].
        rewrite I1, (PointList_Add_perm above x dist), <- app_assoc. reflexivity.
Qed.

End Facts.
End PointFacts.

Module PointTheorems.
Import Permutation Util ConvexHull PointSpec PointFacts.
Section Theorems.
Context `{Env} {F : Type} `{FloatOps F} `{FloatRepr F}.

(** X11.  [PointList_Add] and [PointList_Join] lose no point and add none:
    the list after [PointList_Add] holds the old points and the new one,
    the destination of [PointList_Join] holds the points of both lists,
    and the source is left empty. *)
Theorem PointList_Join_moves_all (dest src : @point_list F) e d :
  Permutation (elems (PointList_Add dest e d)) (e :: elems dest) /\
  Permutation (elems (fst (PointList_Join dest src))) (elems dest ++ elems src) /\
  elems (snd (PointList_Join dest src)) = [].
Proof.
  split.
  - rewrite PointList_Add_perm. symmetry. apply Permutation_cons_append.
  - apply PointList_Join_perm.
Qed.

(** X12.  [Face_AssignPoints] never looks at the head of the pool.  Of the
    points after it, those the face puts in category [DELETE] move to the
    face's list and the others stay in the pool, in their order. *)
Theorem Face_AssignPoints_splits_pool (hs : @hull F) p pool data head rest :
  0 < p <= Z.of_nat (length (store hs)) ->
  elems pool = head :: rest ->
  elems (snd (Face_AssignPoints hs p pool data)) =
    head :: filter (fun i => negb (in_category (get_face hs p) data Delete i)) rest /\
  Permutation (elems (pts (get_face (fst (Face_AssignPoints hs p pool data)) p)))
    (elems (pts (get_face hs p)) ++ filter (in_category (get_face hs p) data Delete) rest).
Proof.
  intros Hp Hpool. unfold Face_AssignPoints. rewrite Hpool.
  destruct (assign_points_spec (get_face hs p) data rest (pts (get_face hs p))) as [A B].
  destruct (assign_points (get_face hs p) data rest (pts (get_face hs p))) as [fpts kept].
  simpl in *. split; [f_equal; exact A|].
  unfold get_face at 1. unfold set_face. simpl.
  erewrite nth_error_nth_default; [|apply list_set_nth_eq; lia]. simpl. exact B.
Qed.

(** X13.  [classify], the sorting loop of [InitSimplex], puts every index
    below [len] other than the three skipped ones in exactly one list: the
    first for category [DELETE], the second for [EXTEND], the third for
    [PRESENT]. *)
Theorem classify_sorts_every_point (f : @face F) data len skip :
  Permutation (elems (fst (fst (classify f data len skip))))
    (elems (pts f) ++ filter (goes f data skip Delete) (seq 0 len)) /\
  Permutation (elems (snd (fst (classify f data len skip))))
    (filter (goes f data skip Extend) (seq 0 len)) /\
  Permutation (elems (snd (classify f data len skip)))
    (filter (goes f data skip Present) (seq 0 len)).
Proof.
  unfold classify.
  exact (classify_fold f data skip (seq 0 len) (pts f) PointList_New PointList_New).
Qed.

End Theorems.

Import Sample IEEE.

Lemma Face_AssignPoints_splits_pool_witness :
  0 < 1 <= Z.of_nat (length (store hull1)) /\
  elems pool1 = 3%nat :: [4; 5]%nat /\
  elems (snd (Face_AssignPoints hull1 1 pool1 two_sides)) =
    3%nat :: filter (fun i => negb (in_category (get_face hull1 1) two_sides Delete i))
               [4; 5]%nat.
Proof.
  split; [simpl; lia|]. split; [reflexivity|].
  apply Face_AssignPoints_splits_pool; [simpl; lia|reflexivity].
Defined.

End PointTheorems.

Module UQFacts.
Import Permutation Hash HashInv HashMap HashFacts2 MapFacts MapLemmas ConvexHull UQSpec.
Section Facts.
Context `{Env}.
Local Abbreviation plook := (Hash_Lookup (K:=Z) (D:=Z) ptr_bytes ptr_bytes 8).
Local Abbreviation pwf := (HashInv.wf (K:=Z) (D:=Z) ptr_bytes 8).
Local Abbreviation puniq := (HashMap.unique (K:=Z) (D:=Z) ptr_bytes).
Local Abbreviation bytes_dec := (list_eq_dec Z.eq_dec).

Lemma ptr_len v : length (ptr_bytes v) = 8%nat.
Proof. reflexivity. Qed.

Lemma plook_elem (h : hash Z Z) e :
  pwf h -> puniq h -> In e (elements h) -> plook h (key e) = Some (data e).
Proof.
  intros W U He. apply Lookup_some_iff; [exact W|exact U|apply ptr_len|].
  exists e. auto.
Qed.

Lemma plook_some (h : hash Z Z) v d :
  pwf h -> puniq h -> plook h v = Some d ->
  exists e, In e (elements h) /\ ptr_bytes (key e) = ptr_bytes v /\ data e = d.
Proof.
  intros W U HL. apply Lookup_some_iff in HL; [exact HL|exact W|exact U|apply ptr_len].
Qed.

Lemma plook_bytes (h : hash Z Z) v w :
  pwf h -> puniq h -> ptr_bytes v = ptr_bytes w -> plook h v = plook h w.
Proof.
  intros W U Hb. apply option_ext. intros d. split; intros HL.
  - apply plook_some in HL; [|exact W|exact U]. destruct HL as (e & He & Hk & Hd).
    apply Lookup_some_iff; [exact W|exact U|apply ptr_len|]. exists e. split; [exact He|].
    split; [congruence|exact Hd].
  - apply plook_some in HL; [|exact W|exact U]. destruct HL as (e & He & Hk & Hd).
    apply Lookup_some_iff; [exact W|exact U|apply ptr_len|]. exists e. split; [exact He|].
    split; [congruence|exact Hd].
Qed.

Lemma uq_ok_New uq : UniqueQueue_New = Some uq -> uq_ok uq.
Proof.
  unfold UniqueQueue_New. destruct (alloc_ok 24); [|discriminate].
  destruct (Hash_New Z Z) as [h|] eqn:EN; [|discriminate]. simpl. intros [= <-].
  constructor; simpl.
  - apply Hash_New_wf. exact EN.
  - unfold unique, key_bytes. rewrite (Hash_New_elements EN). constructor.
  - constructor.
  - intros e He. rewrite (Hash_New_elements EN) in He. destruct He.
  - intros v [].
Qed.

Lemma PushBack_ok uq v r uq' :
  uq_ok uq -> UniqueQueue_PushBack uq v = (r, uq') -> (r <? 0) = false ->
  uq_ok uq' /\
  (queued uq v -> r = 0 /\ uq' = uq) /\
  (~ queued uq v -> r = 1 /\ uq_items uq' = uq_items uq ++ [v]).
Proof.
  intros O HP Hr. unfold UniqueQueue_PushBack in HP. cbv zeta in HP.
  pose proof (uq_wf O) as W. pose proof (uq_unique O) as U.
  destruct (in_dec bytes_dec (ptr_bytes v) (map ptr_bytes (uq_items uq))) as [Hq|Hq].
  - pose proof Hq as Hq'. apply in_map_iff in Hq' as (w & Hw & Hiw).
    destruct (uq_queued O w Hiw) as (e & He & Hk).
    assert (HL : Ptr_Lookup (uq_hash uq) v = Some (data e)).
    { unfold Ptr_Lookup. pose proof He as Le. apply plook_elem in Le; [|exact W|exact U].
      rewrite <- Le. apply plook_bytes; [exact W|exact U|congruence]. }
    rewrite HL in HP. destruct (uq_marked O e He) as [Hd _].
    apply Z.eqb_neq in Hd. rewrite Hd in HP. simpl in HP. injection HP as <- <-.
    split; [exact O|]. split; [auto|]. intros Hn. destruct (Hn Hq).
  - assert (HL : Ptr_Lookup (uq_hash uq) v = None).
    { unfold Ptr_Lookup. apply Lookup_none_iff; [exact W|apply ptr_len|].
      intros e He Hk. destruct (uq_marked O e He) as [_ Hin]. apply Hq.
      rewrite <- Hk. exact Hin. }
    rewrite HL in HP. simpl in HP.
    destruct (Ptr_Insert (uq_hash uq) v PRESENT) as [r1 h1] eqn:PI.
    unfold Ptr_Insert in PI.
    destruct (Hash_Insert ptr_bytes ptr_bytes 8 (fun (u : unit) (q : Z) => Some (q, u))
                (uq_hash uq) tt v PRESENT) as [[[r2 h2] u2] ko] eqn:HI.
    injection PI as -> ->.
    destruct (r1 <? 0) eqn:Hr1; [injection HP as <- <-; discriminate Hr|].
    destruct (alloc_ok 16); [|injection HP as <- <-; discriminate Hr].
    injection HP as <- <-.
    destruct (@Insert_map _ Z Z Z unit ptr_bytes ptr_bytes 8
                (fun (u : unit) (q : Z) => Some (q, u)) (uq_hash uq) tt v PRESENT
                r1 h1 u2 ko W U (ptr_len v)) as (W1 & U1 & L1 & O1 & N1 & _);
      [intros k u1 [= <- _]; reflexivity|exact HI|exact Hr1|].
    split; [|split; [intros Hx; destruct (Hq Hx)|intros _; split; [|reflexivity]]].
    + constructor; simpl.
      * exact W1.
      * exact U1.
      * rewrite map_app. simpl. eapply Permutation_NoDup; [apply Permutation_cons_append|].
        constructor; [exact Hq|apply (uq_nodup O)].
      * intros e He. pose proof He as Le. apply plook_elem in Le; [|exact W1|exact U1].
        destruct (bytes_dec (ptr_bytes (key e)) (ptr_bytes v)) as [Hk|Hk].
        -- erewrite plook_bytes in Le; [|exact W1|exact U1|exact Hk]. rewrite L1 in Le. injection Le as Hd.
           split; [rewrite <- Hd; unfold PRESENT; lia|].
           rewrite map_app. apply in_or_app. right. left. symmetry. exact Hk.
        -- rewrite (O1 (key e) (ptr_len _) Hk) in Le.
           apply plook_some in Le; [|exact W|exact U].
           destruct Le as (e0 & He0 & Hk0 & Hd0).
           destruct (uq_marked O e0 He0) as [Hd Hin].
           split; [rewrite <- Hd0; exact Hd|].
           rewrite map_app. apply in_or_app. left. rewrite <- Hk0. exact Hin.
      * intros w Hw. apply in_app_or in Hw. destruct Hw as [Hw|[<-|[]]].
        -- destruct (uq_queued O w Hw) as (e0 & He0 & Hk0).
           assert (Hne : ptr_bytes w <> ptr_bytes v).
           { intros Heq. apply Hq. rewrite <- Heq. apply in_map. exact Hw. }
           pose proof He0 as L0. apply plook_elem in L0; [|exact W|exact U].
           erewrite plook_bytes in L0; [|exact W|exact U|exact Hk0].
           rewrite <- (O1 w (ptr_len w) Hne) in L0.
           apply plook_some in L0; [|exact W1|exact U1].
           destruct L0 as (e & He & Hk & _). exists e. auto.
        -- apply plook_some in L1; [|exact W1|exact U1].
           destruct L1 as (e & He & Hk & _). exists e. auto.
    + reflexivity.
Qed.

Lemma Pop_ok uq :
  uq_ok uq ->
  uq_ok (snd (UniqueQueue_Pop uq)) /\
  (uq_items uq = [] -> UniqueQueue_Pop uq = (0, uq)) /\
  (forall v rest, uq_items uq = v :: rest ->
     fst (UniqueQueue_Pop uq) = v /\ uq_items (snd (UniqueQueue_Pop uq)) = rest /\
     ~ queued (snd (UniqueQueue_Pop uq)) v).
Proof.
  intros O. pose proof (uq_wf O) as W. pose proof (uq_unique O) as U.
  pose proof (uq_nodup O) as ND. pose proof (uq_marked O) as M. pose proof (uq_queued O) as Q.
  unfold UniqueQueue_Pop. destruct (uq_items uq) as [|v rest] eqn:E.
  - split; [exact O|]. split; [reflexivity|]. intros v rest Hx. discriminate Hx.
  - simpl. unfold Ptr_Remove.
    destruct (Hash_Remove ptr_bytes ptr_bytes 8 (uq_hash uq) v) as [r h1] eqn:HR. simpl.
    destruct (@Remove_map _ Z Z Z ptr_bytes ptr_bytes 8 (uq_hash uq) v r h1 W U (ptr_len v) HR)
      as (W1 & U1 & L1 & O1 & _).
    simpl in ND. inversion ND as [|? ? Hnin ND']; subst.
    split; [|split; [intros Hx; discriminate Hx|]].
    + constructor; simpl.
      * exact W1.
      * exact U1.
      * exact ND'.
      * intros e He. pose proof He as Le. apply plook_elem in Le; [|exact W1|exact U1].
        destruct (bytes_dec (ptr_bytes (key e)) (ptr_bytes v)) as [Hk|Hk].
        -- erewrite plook_bytes in Le; [|exact W1|exact U1|exact Hk]. rewrite L1 in Le. discriminate Le.
        -- rewrite (O1 (key e) (ptr_len _) Hk) in Le.
           apply plook_some in Le; [|exact W|exact U].
           destruct Le as (e0 & He0 & Hk0 & Hd0).
           destruct (M e0 He0) as [Hd Hin].
           split; [rewrite <- Hd0; exact Hd|].
           simpl in Hin. destruct Hin as [Hin|Hin]; [congruence|].
           rewrite <- Hk0. exact Hin.
      * intros w Hw.
        assert (Hne : ptr_bytes w <> ptr_bytes v).
        { intros Heq. apply Hnin. rewrite <- Heq. apply in_map. exact Hw. }
        destruct (Q w (or_intror Hw)) as (e0 & He0 & Hk0).
        pose proof He0 as L0. apply plook_elem in L0; [|exact W|exact U].
        erewrite plook_bytes in L0; [|exact W|exact U|exact Hk0].
        rewrite <- (O1 w (ptr_len w) Hne) in L0.
        apply plook_some in L0; [|exact W1|exact U1].
        destruct L0 as (e & He & Hk & _). exists e. auto.
    + intros v' rest' [= <- <-]. split; [reflexivity|]. split; [reflexivity|].
      unfold queued. simpl. exact Hnin.
Qed.

End Facts.
End UQFacts.

Module UQTheorems.
Import Hash ConvexHull UQSpec UQFacts.
Section Theorems.
Context `{Env}.

(** X14.  A [UniqueQueue_PushBack] that does not fail keeps the queue's
    invariant, so the queue never holds a value twice: for a value that is
    queued it returns 0 and changes nothing, for any other it returns 1
    and appends the value. *)
Theorem UniqueQueue_PushBack_once uq v r uq' :
  uq_ok uq -> UniqueQueue_PushBack uq v = (r, uq') -> (r <? 0) = false ->
  uq_ok uq' /\
  (queued uq v -> r = 0 /\ uq' = uq) /\
  (~ queued uq v -> r = 1 /\ uq_items uq' = uq_items uq ++ [v]).
Proof.
  apply PushBack_ok.
Qed.

(** X15.  [UniqueQueue_Pop] keeps the invariant.  It returns NULL and
    changes nothing on an empty queue; otherwise it returns the head, the
    rest stays queued in order, and the value returned is no longer
    queued, so that it can be pushed again. *)
Theorem UniqueQueue_Pop_head uq :
  uq_ok uq ->
  uq_ok (snd (UniqueQueue_Pop uq)) /\
  (uq_items uq = [] -> UniqueQueue_Pop uq = (0, uq)) /\
  (forall v rest, uq_items uq = v :: rest ->
     fst (UniqueQueue_Pop uq) = v /\ uq_items (snd (UniqueQueue_Pop uq)) = rest /\
     ~ queued (snd (UniqueQueue_Pop uq)) v).
Proof.
  apply Pop_ok.
Qed.

End Theorems.

Import Sample.

Lemma uq0_ok : uq_ok uq0.
Proof. apply uq_ok_New. reflexivity. Qed.

Lemma uq1_ok : uq_ok uq1.
Proof.
  apply (@PushBack_ok env uq0 5 (fst (UniqueQueue_PushBack uq0 5)) uq1 uq0_ok
           (surjective_pairing _)).
  vm_compute. reflexivity.
Qed.

Lemma UniqueQueue_PushBack_once_witness :
  uq_ok uq0 /\
  (fst (UniqueQueue_PushBack uq0 5) <? 0) = false /\
  uq_ok uq1 /\
  (~ queued uq0 5 -> fst (UniqueQueue_PushBack uq0 5) = 1 /\ uq_items uq1 = uq_items uq0 ++ [5]).
Proof.
  split; [exact uq0_ok|].
  assert (Hr : (fst (UniqueQueue_PushBack uq0 5) <? 0) = false) by (vm_compute; reflexivity).
  split; [exact Hr|].
  destruct (@UniqueQueue_PushBack_once env uq0 5 (fst (UniqueQueue_PushBack uq0 5)) uq1
              uq0_ok (surjective_pairing _) Hr) as (A & _ & B).
  split; [exact A|exact B].
Defined.

Lemma UniqueQueue_Pop_head_witness :
  uq_ok uq1 /\ uq_ok (snd (UniqueQueue_Pop uq1)) /\
  (forall v rest, uq_items uq1 = v :: rest ->
     fst (UniqueQueue_Pop uq1) = v /\ uq_items (snd (UniqueQueue_Pop uq1)) = rest /\
     ~ queued (snd (UniqueQueue_Pop uq1)) v).
Proof.
  split; [exact uq1_ok|].
  destruct (@UniqueQueue_Pop_head env uq1 uq1_ok) as (A & _ & B).
  split; [exact A|exact B].
Defined.

End UQTheorems.

Module ExactTheorems.
Import Util Util2 LinSpec Exact.
Import Qcanon.
Import Field_tac.

Lemma eqb_false (a b : Qc) : Exact.eqb a b = false -> a <> b.
Proof.
  unfold Exact.eqb. intros Hc ->.
  rewrite (proj1 (Qceq_alt b b) eq_refl) in Hc. discriminate Hc.
Qed.

Lemma eqb_true (a b : Qc) : Exact.eqb a b = true -> a = b.
Proof.
  unfold Exact.eqb. intros Hc. apply Qceq_alt.
  destruct (a ?= b); [reflexivity|discriminate Hc|discriminate Hc].
Qed.

Ltac exact_ops :=
  cbn [f_add f_sub f_mul f_div f_neg f_one f_zero f_eqb Exact.rational] in *;
  change (Q2Qc (QArith_base.inject_Z 1)) with (Q2Qc (QArith_base.Qmake 1 1)) in *;
  change (Q2Qc (QArith_base.inject_Z 0)) with (Q2Qc (QArith_base.Qmake 0 1)) in *.

Ltac name_cells :=
  repeat match goal with
  | |- context [nth ?i ?m ?d] =>
      let x := fresh "x" in generalize (nth i m d); intros x
  | |- context [cell ?m ?i] =>
      let x := fresh "x" in generalize (cell m i); intros x
  end.



End ExactTheorems.

Module VefMore.
Import Hash HashFacts HashFacts2 HashFacts3 MapFacts Util Vef VefInv VefFacts.
Section Facts.
Context `{Env} {F : Type} `{FloatOps F} `{FloatRepr F}.

(** [Vert_New] on a point that is found returns the vertex found; on any
    other point it appends a vertex, under which the point is found from
    then on. *)
Lemma Vert_New_spec pt (v v' : @vef F) p :
  wf v -> length pt = 3%nat -> Vert_New pt v = Some (p, v') ->
  wf v' /\ p <> 0 /\
  (found (Fixed_Lookup (verts v) pt) <> 0 ->
     v' = v /\ p = found (Fixed_Lookup (verts v) pt)) /\
  (found (Fixed_Lookup (verts v) pt) = 0 ->
     points v' = points v ++ [pt] /\ p = Z.of_nat (length (points v)) + 1) /\
  found (Fixed_Lookup (verts v') pt) = p.
Proof.
  intros W Hl HV. pose proof (Vert_New_wf pt W Hl HV) as W'.
  split; [exact W'|]. revert HV.
  destruct pt as [|c0 [|c1 [|c2 [|c3 pt]]]]; try discriminate Hl.
  unfold Vert_New.
  destruct (found (Fixed_Lookup (verts v) [c0; c1; c2]) =? 0) eqn:Ef; cbn [negb].
  - apply Z.eqb_eq in Ef. pose proof (Fixed_Lookup_none [c0; c1; c2] W Hl Ef) as Hnone.
    destruct (alloc_ok 24); [|discriminate].
    destruct (Hash_New Z Z) as [eh|]; [|discriminate].
    cbv zeta. unfold Fixed_Insert. cbn [point firstn].
    destruct (Hash_Insert _ _ _ _ _ _ _ _) as [[[r h'] u'] ko] eqn:Ei.
    destruct (r <? 0) eqn:Er; [discriminate|].
    intros [= <- <-].
    destruct (@Hash_Insert_new _ _ _ _ _ vert_bytes vert_bytes point_size
                FixedCopyKey (verts v) tt [c0; c1; c2]
                (Z.of_nat (length (vert_mem v)) + 1) r h' u' ko (wf_verts W))
      as (Wh & e & Ek & Ed & _ & Ec & Hel).
    { apply point_bytes; auto. }
    { intros k u1. unfold FixedCopyKey. destruct (alloc_ok _); [|discriminate].
      intros [= <- <-]. reflexivity. }
    { exact Hnone. }
    { exact Ei. }
    { exact Er. }
    assert (HL : Fixed_Lookup h' [c0; c1; c2] = Some (Z.of_nat (length (vert_mem v)) + 1)).
    { unfold Fixed_Lookup.
      destruct (@Hash_Lookup_some _ _ _ _ vert_bytes vert_bytes point_size h'
                  [c0; c1; c2] e Wh) as (e' & He' & Hk' & ->).
      { apply point_bytes; auto. }
      { apply Hel. auto. }
      { exact Ek. }
      f_equal. apply Hel in He'. destruct He' as [He'| ->]; [|exact Ed].
      exfalso. revert He' Hk'.
      apply (proj1 (@Lookup_none_iff _ _ _ _ vert_bytes vert_bytes point_size (verts v)
                      [c0; c1; c2] (wf_verts W) (point_bytes _ Hl)) Hnone). }
    split; [lia|]. split; [intros Hx; destruct (Hx Ef)|]. split.
    + intros _. unfold points, set_verts. cbn [vert_mem]. rewrite map_app, length_map.
      split; reflexivity.
    + unfold set_verts. cbn [verts]. rewrite HL. reflexivity.
  - intros [= <- <-]. apply Z.eqb_neq in Ef.
    split; [exact Ef|]. split; [auto|]. split; [intros Hx; destruct (Ef Hx)|reflexivity].
Qed.

End Facts.
End VefMore.

Module VefTheorems.
Import Hash Util Vef VefInv VefFacts VefMore.
Section Theorems.
Context `{Env} {F : Type} `{FloatOps F} `{FloatRepr F}.


(** X22.  [Vert_New] makes a vertex only for a point that is not found:
    for a point that is found (as every vertex's point is) it returns the
    vertex found and leaves the vef as it is; otherwise it appends one
    vertex with the point.  In both cases the invariant is kept and a
    second [Vert_New] of the point returns the same vertex and changes
    nothing. *)
Theorem Vert_New_once pt (v v' : @vef F) p :
  wf v -> length pt = 3%nat -> Vert_New pt v = Some (p, v') ->
  wf v' /\ p <> 0 /\
  (found (Fixed_Lookup (verts v) pt) <> 0 ->
     v' = v /\ p = found (Fixed_Lookup (verts v) pt)) /\
  (is_vertex v pt -> v' = v) /\
  (found (Fixed_Lookup (verts v) pt) = 0 ->
     points v' = points v ++ [pt] /\ p = Z.of_nat (length (points v)) + 1) /\
  Vert_New pt v' = Some (p, v').
Proof.
  intros W Hl HV.
  destruct (Vert_New_spec pt W Hl HV) as (W' & Hp & Hold & Hnew & Hf).
  split; [exact W'|]. split; [exact Hp|]. split; [exact Hold|]. split; [|split; [exact Hnew|]].
  - intros Hv. apply Hold. apply Fixed_Lookup_vertex; assumption.
  - unfold Vert_New. rewrite Hf.
    destruct (Z.eqb_spec p 0) as [Hz|Hz]; [destruct (Hp Hz)|reflexivity].
Qed.

End Theorems.

Import Sample IEEE.

Lemma tetra_three_floats : three_floats tetra_mesh.
Proof. unfold three_floats. vm_compute. repeat constructor. Qed.


Lemma tetra_Vert_New :
  Vert_New [fl 4; fl 0; fl 0] tetra_vef =
  Some (found (Fixed_Lookup (verts tetra_vef) [fl 4; fl 0; fl 0]), tetra_vef).
Proof.
  unfold Vert_New.
  assert (Hf : (found (Fixed_Lookup (verts tetra_vef) [fl 4; fl 0; fl 0]) =? 0) = false).
  { apply Z.eqb_neq. apply Fixed_Lookup_vertex; [exact VefClaims.tetra_vef_wf|reflexivity|].
    exists [fl 4; fl 0; fl 0]. split; [|reflexivity]. vm_compute. auto. }
  rewrite Hf. reflexivity.
Qed.

Lemma Vert_New_once_witness :
  wf tetra_vef /\
  Vert_New [fl 4; fl 0; fl 0] tetra_vef =
  Some (found (Fixed_Lookup (verts tetra_vef) [fl 4; fl 0; fl 0]), tetra_vef) /\
  found (Fixed_Lookup (verts tetra_vef) [fl 4; fl 0; fl 0]) <> 0.
Proof.
  split; [exact VefClaims.tetra_vef_wf|]. split; [exact tetra_Vert_New|].
  destruct (@Vert_New_once _ _ _ _ [fl 4; fl 0; fl 0] tetra_vef tetra_vef _
              VefClaims.tetra_vef_wf eq_refl tetra_Vert_New) as (_ & Hp & _).
  exact Hp.
Defined.

End VefTheorems.

Module FTreeFacts.
Import FTree FTreeSpec.

Ltac len_norm :=
  repeat (rewrite length_app in * || cbn [length inorder] in * ).
Ltac list_norm := repeat (rewrite <- app_assoc || rewrite <- app_comm_cons).

Lemma hd_error_app {A} (l m : list A) : l <> [] -> hd_error (l ++ m) = hd_error l.
Proof. destruct l; [intros Hn; destruct Hn; reflexivity|reflexivity]. Qed.

Section Facts.
Context {F : Type} `{FloatOps F}.

Lemma ITEMS_counted (t : @ftree_node F) : counted t -> ITEMS t = Z.of_nat (length (inorder t)).
Proof. destruct t; simpl; [reflexivity|]. intros [Hi _]. exact Hi. Qed.

Lemma HEIGHT_ge (t : @ftree_node F) : counted t -> -1 <= HEIGHT t.
Proof. destruct t; simpl; [lia|]. intros (_ & Hh & _). lia. Qed.

Lemma inorder_Node k d i h (l r : @ftree_node F) : inorder (Node k d i h l r) <> [].
Proof. cbn [inorder]. intros Hx. apply app_eq_nil in Hx. destruct Hx as [_ Hx]. discriminate Hx. Qed.

Lemma mk_spec k d (l r : @ftree_node F) :
  counted l -> counted r ->
  Z.of_nat (length (inorder l ++ (k, d) :: inorder r)) <= SIZE_MAX ->
  counted (mk k d l r) /\ inorder (mk k d l r) = inorder l ++ (k, d) :: inorder r.
Proof.
  intros Cl Cr Hr. pose proof (HEIGHT_ge l Cl). pose proof (HEIGHT_ge r Cr).
  unfold mk, FixHeight. cbn [counted inorder]. split; [|reflexivity].
  split; [|split; [lia|split; assumption]].
  rewrite (ITEMS_counted l Cl), (ITEMS_counted r Cr).
  len_norm. unfold SIZE_MAX in *. rewrite Z.mod_small; lia.
Qed.

Lemma balance_node_spec k d i h (l r : @ftree_node F) :
  counted l -> counted r ->
  Z.of_nat (length (inorder l ++ (k, d) :: inorder r)) <= SIZE_MAX ->
  counted (balance_node (Node k d i h l r)) /\
  inorder (balance_node (Node k d i h l r)) = inorder l ++ (k, d) :: inorder r.
Proof.
  intros Cl Cr Hr. pose proof (HEIGHT_ge l Cl) as Hl. pose proof (HEIGHT_ge r Cr) as Hrr.
  cbn [balance_node].
  destruct (Z.gtb_spec (HEIGHT l) (HEIGHT r + 1)) as [Hgt|Hle].
  - destruct l as [|zk zd zi zh zl y]; [cbn [HEIGHT] in *; lia|].
    cbn [RotateRight]. destruct Cl as (Hzi & Hzh & Czl & Cy).
    pose proof (HEIGHT_ge zl Czl). pose proof (HEIGHT_ge y Cy).
    destruct (Z.gtb_spec (HEIGHT y) (HEIGHT zl)) as [Hy|Hy].
    + destruct y as [|yk yd yi yh yl yr]; [cbn [HEIGHT] in *; lia|].
      destruct Cy as (_ & _ & Cyl & Cyr).
      destruct (mk_spec zk zd zl yl Czl Cyl) as [C1 I1]; [len_norm; lia|].
      destruct (mk_spec k d yr r Cyr Cr) as [C2 I2]; [len_norm; lia|].
      destruct (mk_spec yk yd (mk zk zd zl yl) (mk k d yr r) C1 C2) as [C3 I3].
      { rewrite I1, I2. len_norm. lia. }
      split; [exact C3|]. rewrite I3, I1, I2. cbn [inorder]. list_norm. reflexivity.
    + destruct (mk_spec k d y r Cy Cr) as [C1 I1]; [len_norm; lia|].
      destruct (mk_spec zk zd zl (mk k d y r) Czl C1) as [C2 I2].
      { rewrite I1. len_norm. lia. }
      split; [exact C2|]. rewrite I2, I1. cbn [inorder]. list_norm. reflexivity.
  - destruct (Z.gtb_spec (HEIGHT r) (HEIGHT l + 1)) as [Hgt|Hle'].
    + destruct r as [|zk zd zi zh y zr]; [cbn [HEIGHT] in *; lia|].
      cbn [RotateLeft]. destruct Cr as (Hzi & Hzh & Cy & Czr).
      pose proof (HEIGHT_ge zr Czr). pose proof (HEIGHT_ge y Cy).
      destruct (Z.gtb_spec (HEIGHT y) (HEIGHT zr)) as [Hy|Hy].
      * destruct y as [|yk yd yi yh yl yr]; [cbn [HEIGHT] in *; lia|].
        destruct Cy as (_ & _ & Cyl & Cyr).
        destruct (mk_spec k d l yl Cl Cyl) as [C1 I1]; [len_norm; lia|].
        destruct (mk_spec zk zd yr zr Cyr Czr) as [C2 I2]; [len_norm; lia|].
        destruct (mk_spec yk yd (mk k d l yl) (mk zk zd yr zr) C1 C2) as [C3 I3].
        { rewrite I1, I2. len_norm. lia. }
        split; [exact C3|]. rewrite I3, I1, I2. cbn [inorder]. list_norm. reflexivity.
      * destruct (mk_spec k d l y Cl Cy) as [C1 I1]; [len_norm; lia|].
        destruct (mk_spec zk zd (mk k d l y) zr C1 Czr) as [C2 I2].
        { rewrite I1. len_norm. lia. }
        split; [exact C2|]. rewrite I2, I1. cbn [inorder]. list_norm. reflexivity.
    + change (FixHeight (Node k d i h l r)) with (mk k d l r).
      apply mk_spec; assumption.
Qed.

Lemma Place_spec (t : @ftree_node F) k d :
  counted t -> Z.of_nat (length (inorder t)) < SIZE_MAX ->
  counted (Place t (Node k d 1 0 Leaf Leaf)) /\
  exists l1 l2, inorder t = l1 ++ l2 /\
                inorder (Place t (Node k d 1 0 Leaf Leaf)) = l1 ++ (k, d) :: l2.
Proof.
  induction t as [|k' d' i h l IHl r IHr]; intros Ct Hr.
  - cbn. split; [repeat split; lia|]. exists [], []. split; reflexivity.
  - destruct Ct as (Hi & Hh & Cl & Cr). cbn [Place].
    destruct (f_ltb k k').
    + destruct (IHl Cl) as (Cl' & l1 & l2 & E1 & E2); [len_norm; lia|].
      destruct (balance_node_spec k' d' i h (Place l (Node k d 1 0 Leaf Leaf)) r Cl' Cr)
        as [Cb Ib].
      { rewrite E2. cbn [inorder] in Hr. rewrite E1 in Hr. len_norm. lia. }
      split; [exact Cb|]. exists l1, (l2 ++ (k', d') :: inorder r). split.
      * cbn [inorder]. rewrite E1. list_norm. reflexivity.
      * rewrite Ib, E2. list_norm. reflexivity.
    + destruct (IHr Cr) as (Cr' & l1 & l2 & E1 & E2); [len_norm; lia|].
      destruct (balance_node_spec k' d' i h l (Place r (Node k d 1 0 Leaf Leaf)) Cl Cr')
        as [Cb Ib].
      { rewrite E2. cbn [inorder] in Hr. rewrite E1 in Hr. len_norm. lia. }
      split; [exact Cb|]. exists (inorder l ++ (k', d') :: l1), l2. split.
      * cbn [inorder]. rewrite E1. list_norm. reflexivity.
      * rewrite Ib, E2. list_norm. reflexivity.
Qed.

Lemma Lowest_spec (t : @ftree_node F) : FTree_Lowest t = hd_error (inorder t).
Proof.
  induction t as [|k d i h l IHl r IHr]; [reflexivity|].
  destruct l as [|lk ld li lh ll lr]; [reflexivity|].
  change (FTree_Lowest (Node k d i h (Node lk ld li lh ll lr) r))
    with (FTree_Lowest (Node lk ld li lh ll lr)).
  rewrite IHl. cbn [inorder]. symmetry.
  apply (hd_error_app _ (@inorder_Node lk ld li lh ll lr)).
Qed.

Lemma Highest_spec (t : @ftree_node F) : FTree_Highest t = hd_error (rev (inorder t)).
Proof.
  induction t as [|k d i h l IHl r IHr]; [reflexivity|].
  destruct r as [|rk rd ri rh rl rr].
  - cbn [FTree_Highest inorder]. rewrite rev_app_distr. reflexivity.
  - change (FTree_Highest (Node k d i h l (Node rk rd ri rh rl rr)))
      with (FTree_Highest (Node rk rd ri rh rl rr)).
    rewrite IHr. cbn [inorder]. rewrite (rev_app_distr (inorder l)). cbn [rev].
    rewrite <- app_assoc. symmetry. apply hd_error_app.
    intros Hx. apply (f_equal (@rev _)) in Hx. rewrite rev_involutive in Hx.
    exact (@inorder_Node rk rd ri rh rl rr Hx).
Qed.

Lemma Median_from_spec (t : @ftree_node F) target :
  counted t -> 0 <= target ->
  Median_from t target = nth_error (inorder t) (Z.to_nat target).
Proof.
  revert target. induction t as [|k d i h l IHl r IHr]; intros target Ct Ht.
  - cbn. destruct (Z.to_nat target); reflexivity.
  - destruct Ct as (_ & _ & Cl & Cr). cbn [Median_from inorder].
    rewrite (ITEMS_counted l Cl).
    destruct (Z.eqb_spec target (Z.of_nat (length (inorder l)))) as [->|Hne].
    + rewrite Nat2Z.id, nth_error_app2, Nat.sub_diag by lia. reflexivity.
    + destruct (Z.ltb_spec target (Z.of_nat (length (inorder l)))) as [Hlt|Hge].
      * rewrite nth_error_app1 by lia. apply IHl; assumption.
      * rewrite nth_error_app2 by lia.
        replace (Z.to_nat target - length (inorder l))%nat
          with (S (Z.to_nat (target - (Z.of_nat (length (inorder l)) + 1)))) by lia.
        cbn [nth_error]. apply IHr; [assumption|lia].
Qed.

End Facts.
End FTreeFacts.

Module FTreeTheorems.
Import FTree FTreeSpec FTreeFacts.
Section Theorems.
Context {F : Type} `{FloatOps F}.

(** X23.  [FTree_Insert] adds one entry and keeps the others in their
    order: the new entry sits somewhere in the old in-order sequence,
    every node's [items] counts the entries under it again after the
    rotations, and [FTree_ItemCount] is one more. *)
Theorem FTree_Insert_adds_one (t : @ftree F) k d :
  counted t -> Z.of_nat (length (inorder t)) < SIZE_MAX ->
  counted (FTree_Insert t k d) /\
  FTree_ItemCount (FTree_Insert t k d) = FTree_ItemCount t + 1 /\
  exists l1 l2, inorder t = l1 ++ l2 /\ inorder (FTree_Insert t k d) = l1 ++ (k, d) :: l2.
Proof.
  intros Ct Hr. unfold FTree_Insert, FTree_ItemCount.
  destruct (Place_spec t k d Ct Hr) as (Cp & l1 & l2 & E1 & E2).
  split; [exact Cp|]. split; [|exists l1, l2; auto].
  rewrite (ITEMS_counted _ Cp), (ITEMS_counted _ Ct), E1, E2. len_norm. lia.
Qed.

(** X24.  On a tree whose nodes count their entries, [FTree_Lowest]
    returns the first entry of the in-order sequence, [FTree_Highest] the
    last, and [FTree_Median] the entry of rank [ItemCount / 2]; each
    returns NULL exactly on the empty tree. *)
Theorem FTree_order_statistics (t : @ftree F) :
  counted t ->
  FTree_Lowest t = hd_error (inorder t) /\
  FTree_Highest t = hd_error (rev (inorder t)) /\
  FTree_Median t = nth_error (inorder t) (Z.to_nat (FTree_ItemCount t / 2)).
Proof.
  intros Ct. split; [apply Lowest_spec|]. split; [apply Highest_spec|].
  unfold FTree_Median. apply Median_from_spec; [exact Ct|].
  unfold FTree_ItemCount. rewrite (ITEMS_counted t Ct). apply Z.div_pos; lia.
Qed.

End Theorems.

Import Sample IEEE.

Lemma tree3_counted : counted tree3.
Proof. vm_compute. repeat split; discriminate. Qed.

Lemma FTree_Insert_adds_one_witness :
  counted tree3 /\ Z.of_nat (length (inorder tree3)) < SIZE_MAX /\
  counted (FTree_Insert tree3 (fl 0) 5) /\
  FTree_ItemCount (FTree_Insert tree3 (fl 0) 5) = FTree_ItemCount tree3 + 1.
Proof.
  split; [exact tree3_counted|].
  assert (Hr : Z.of_nat (length (inorder tree3)) < SIZE_MAX) by (vm_compute; reflexivity).
  split; [exact Hr|].
  destruct (FTree_Insert_adds_one tree3 (fl 0) 5 tree3_counted Hr) as (A & B & _).
  split; [exact A|exact B].
Defined.

Lemma FTree_order_statistics_witness :
  counted tree3 /\
  FTree_Lowest tree3 = hd_error (inorder tree3) /\
  FTree_Highest tree3 = hd_error (rev (inorder tree3)) /\
  FTree_Median tree3 = nth_error (inorder tree3) (Z.to_nat (FTree_ItemCount tree3 / 2)).
Proof.
  split; [exact tree3_counted|].
  exact (FTree_order_statistics tree3 tree3_counted).
Defined.

End FTreeTheorems.

Module OrderFacts.
Import IEEE IEEEOrder.

Lemma lexc_cases k1 k2 :
  (lexc k1 k2 = Lt /\ lt3 k1 k2) \/
  (lexc k1 k2 = Eq /\ k1 = k2) \/
  (lexc k1 k2 = Gt /\ lt3 k2 k1).
Proof.
  destruct k1 as [[a b] c], k2 as [[a' b'] c']. unfold lexc, lt3.
  destruct (Z.compare_spec a a'); [|left; split; [reflexivity|lia]|right; right; split; [reflexivity|lia]].
  destruct (Z.compare_spec b b'); [|left; split; [reflexivity|lia]|right; right; split; [reflexivity|lia]].
  destruct (Z.compare_spec c c'); [|left; split; [reflexivity|lia]|right; right; split; [reflexivity|lia]].
  right. left. subst. split; reflexivity.
Qed.

Lemma SFcompare_rank x y :
  not_nan x = true -> not_nan y = true -> SFcompare x y = Some (lexc (rank x) (rank y)).
Proof.
  destruct x as [sx|sx| |sx mx ex]; try discriminate;
  destruct y as [sy|sy| |sy my ey]; try discriminate; intros _ _;
  try (destruct sx; destruct sy; reflexivity);
  try (destruct sx; reflexivity); try (destruct sy; reflexivity).
  destruct sx, sy; cbn [SFcompare rank lexc]; try reflexivity.
  change (-1 ?= -1) with Eq. cbn iota. rewrite Z.compare_opp.
  rewrite (Z.compare_antisym ex ey). destruct (ex ?= ey); reflexivity.
Qed.

Lemma lt3_irrefl k : ~ lt3 k k.
Proof. destruct k as [[a b] c]. unfold lt3. lia. Qed.

Lemma lt3_asym k1 k2 : lt3 k1 k2 -> ~ lt3 k2 k1.
Proof. destruct k1 as [[a b] c], k2 as [[a' b'] c']. unfold lt3. lia. Qed.

Lemma ltb_iff x y :
  not_nan x = true -> not_nan y = true -> (SFltb x y = true <-> lt3 (rank x) (rank y)).
Proof.
  intros Hx Hy. unfold SFltb. rewrite (SFcompare_rank x y Hx Hy).
  destruct (lexc_cases (rank x) (rank y)) as [[-> L]|[[-> E]|[-> L]]].
  - split; auto.
  - split; [discriminate|]. rewrite E. intros Hl. destruct (@lt3_irrefl _ Hl).
  - split; [discriminate|]. intros Hl. destruct (@lt3_asym _ _ L Hl).
Qed.

Lemma leb_iff x y :
  not_nan x = true -> not_nan y = true -> (SFleb x y = true <-> ~ lt3 (rank y) (rank x)).
Proof.
  intros Hx Hy. unfold SFleb. rewrite (SFcompare_rank x y Hx Hy).
  destruct (lexc_cases (rank x) (rank y)) as [[-> L]|[[-> E]|[-> L]]].
  - split; [intros _; apply lt3_asym; exact L|reflexivity].
  - split; [intros _; rewrite E; apply lt3_irrefl|reflexivity].
  - split; [discriminate|]. intros Hn. destruct (Hn L).
Qed.

Lemma leb_refl x : not_nan x = true -> SFleb x x = true.
Proof. intros Hx. apply leb_iff; auto. apply lt3_irrefl. Qed.

Lemma not_ltb_leb x y :
  not_nan x = true -> not_nan y = true -> SFltb x y = false -> SFleb y x = true.
Proof.
  intros Hx Hy Hl. apply leb_iff; auto. intros L.
  apply (ltb_iff x y Hx Hy) in L. congruence.
Qed.

Lemma ltb_leb_trans x y z :
  not_nan x = true -> not_nan y = true -> not_nan z = true ->
  SFltb x y = true -> SFleb y z = true -> SFleb x z = true.
Proof.
  intros Hx Hy Hz Hl Hle. apply (ltb_iff x y Hx Hy) in Hl. apply (leb_iff y z Hy Hz) in Hle.
  apply leb_iff; auto. revert Hl Hle.
  destruct (rank x) as [[a b] c], (rank y) as [[a' b'] c'], (rank z) as [[a2 b2] c2].
  unfold lt3. lia.
Qed.

Lemma leb_ltb_trans x y z :
  not_nan x = true -> not_nan y = true -> not_nan z = true ->
  SFleb x y = true -> SFltb y z = true -> SFleb x z = true.
Proof.
  intros Hx Hy Hz Hle Hl. apply (ltb_iff y z Hy Hz) in Hl. apply (leb_iff x y Hx Hy) in Hle.
  apply leb_iff; auto. revert Hl Hle.
  destruct (rank x) as [[a b] c], (rank y) as [[a' b'] c'], (rank z) as [[a2 b2] c2].
  unfold lt3. lia.
Qed.

End OrderFacts.

Module BvhFacts.
Import Array Bvh BvhSpec BvhShape.
Section Facts.
Context `{Env} {F : Type} `{FloatOps F}.

Lemma Array_Add_data (arr : array) p :
  data (snd (Array_Add arr p)) = data arr \/ data (snd (Array_Add arr p)) = data arr ++ [p].
Proof.
  unfold Array_Add.
  destruct (len arr >=? num_alloc arr); [|right; reflexivity].
  destruct (num_alloc arr >=? Z.shiftr SIZE_MAX 1); [left; reflexivity|].
  destruct (alloc_ok _); [right; reflexivity|left; reflexivity].
Qed.

Lemma Array_Add_incl (arr : array) p l :
  incl (data arr) l -> incl (data (snd (Array_Add arr p))) (l ++ [p]).
Proof.
  intros Hi. destruct (Array_Add_data arr p) as [-> | ->].
  - apply incl_appl. exact Hi.
  - apply incl_app; [apply incl_appl; exact Hi|apply incl_appr, incl_refl].
Qed.

Lemma BNode_New_form n (nd : @bvh_node F) :
  BNode_New n = Some nd ->
  exists arr, nd = BNode 0 [f_inf; f_inf; f_inf] [f_neg f_inf; f_neg f_inf; f_neg f_inf]
                     BNull BNull (Some arr) /\ data arr = [].
Proof.
  unfold BNode_New. destruct (alloc_ok 56); [|discriminate].
  unfold Array_New. destruct (alloc_ok 32 && alloc_ok (n * sizeof_ptr)); [|discriminate].
  intros [= <-]. eexists. split; reflexivity.
Qed.

Lemma add_point_within verts axis (nd : @bvh_node F) p l :
  leaf_within nd l -> leaf_within (add_point verts axis nd p) (l ++ [p]).
Proof.
  intros (ax & mn & mx & arr & -> & Hi). cbn [add_point].
  do 4 eexists. split; [reflexivity|]. apply Array_Add_incl. exact Hi.
Qed.

Lemma leaf_within_incl (nd : @bvh_node F) l l' :
  leaf_within nd l -> incl l l' -> leaf_within nd l'.
Proof.
  intros (ax & mn & mx & arr & -> & Hi) Hl. do 4 eexists. split; [reflexivity|].
  eapply incl_tran; eassumption.
Qed.

Lemma partition_within verts axis median pts (na nb : @bvh_node F) la lb :
  leaf_within na la -> leaf_within nb lb ->
  leaf_within (fst (fold_left (fun (ab : bvh_node * bvh_node) p =>
                                 if (coord verts p axis <=? median)%fl
                                 then (add_point verts axis (fst ab) p, snd ab)
                                 else (fst ab, add_point verts axis (snd ab) p))
                              pts (na, nb))) (la ++ pts) /\
  leaf_within (snd (fold_left (fun (ab : bvh_node * bvh_node) p =>
                                 if (coord verts p axis <=? median)%fl
                                 then (add_point verts axis (fst ab) p, snd ab)
                                 else (fst ab, add_point verts axis (snd ab) p))
                              pts (na, nb))) (lb ++ pts).
Proof.
  revert na nb la lb. induction pts as [|p pts IH]; intros na nb la lb Ha Hb.
  - cbn [fold_left fst snd]. rewrite !app_nil_r. split; assumption.
  - cbn [fold_left fst snd].
    destruct (coord verts p axis <=? median)%fl.
    + destruct (IH (add_point verts axis na p) nb (la ++ [p]) (lb ++ [p])) as [A B].
      * apply add_point_within. exact Ha.
      * eapply leaf_within_incl; [exact Hb|apply incl_appl, incl_refl].
      * rewrite <- !app_assoc in A, B. split; assumption.
    + destruct (IH na (add_point verts axis nb p) (la ++ [p]) (lb ++ [p])) as [A B].
      * eapply leaf_within_incl; [exact Ha|apply incl_appl, incl_refl].
      * apply add_point_within. exact Hb.
      * rewrite <- !app_assoc in A, B. split; assumption.
Qed.

(** [Split_BNode] keeps the node's box and puts under it only points that
    the node held. *)
Lemma Split_BNode_within verts dist fuel :
  forall ax mn mx arr r (node' : @bvh_node F),
    Split_BNode fuel verts (BNode ax mn mx BNull BNull (Some arr)) dist = Done (r, node') ->
    (exists ax' a' b' pts', node' = BNode ax' mn mx a' b' pts') /\
    incl (subtree_points node') (data arr).
Proof.
  induction fuel as [|fuel IH]; intros ax mn mx arr r node' HS; [discriminate HS|].
  cbn [Split_BNode] in HS. unfold Array_Length, Array_Data in HS.
  assert (Hself : forall ax', incl (subtree_points (BNode ax' mn mx BNull BNull (Some arr)))
                                   (data arr)).
  { intros ax'. cbn [subtree_points]. rewrite !app_nil_r. apply incl_refl. }
  destruct (len arr <? 4).
  { injection HS as <- <-. split; [do 4 eexists; reflexivity|apply Hself]. }
  destruct (_ <? dist)%fl.
  { injection HS as <- <-. split; [do 4 eexists; reflexivity|apply Hself]. }
  destruct (alloc_ok 32);
    [|injection HS as <- <-; split; [do 4 eexists; reflexivity|apply Hself]].
  destruct (BNode_New (len arr)) as [na|] eqn:Ea;
    [|injection HS as <- <-; split; [do 4 eexists; reflexivity|apply Hself]].
  destruct (BNode_New_form _ Ea) as (arra & -> & Hda).
  match type of HS with
  | context [fold_left ?f ?l ?i] =>
      pose proof (@partition_within verts (pick_axis mn mx)
                    (split_median verts (pick_axis mn mx) (data arr) mn mx) (data arr)
                    (BNode 0 [f_inf; f_inf; f_inf] [f_neg f_inf; f_neg f_inf; f_neg f_inf]
                           BNull BNull (Some arra))
                    (BNode 0 [f_inf; f_inf; f_inf] [f_neg f_inf; f_neg f_inf; f_neg f_inf]
                           BNull BNull (Some arra)) [] []) as P;
      destruct (fold_left f l i) as [na' nb'] eqn:EF
  end.
  cbn [fst snd app] in P.
  destruct P as [(axa & mna & mxa & arra' & -> & Hia) (axb & mnb & mxb & arrb' & -> & Hib)];
    try (do 4 eexists; split; [reflexivity|rewrite Hda; apply incl_refl]).
  destruct (Split_BNode fuel verts (BNode axa mna mxa BNull BNull (Some arra')) dist)
    as [[ra na'']| |] eqn:Sa; try discriminate HS.
  destruct (Split_BNode fuel verts (BNode axb mnb mxb BNull BNull (Some arrb')) dist)
    as [[rb nb'']| |] eqn:Sb; try discriminate HS.
  injection HS as <- <-.
  destruct (IH _ _ _ _ _ _ Sa) as [_ Ia]. destruct (IH _ _ _ _ _ _ Sb) as [_ Ib].
  split; [do 4 eexists; reflexivity|].
  cbn [subtree_points app]. apply incl_app.
  - eapply incl_tran; eassumption.
  - eapply incl_tran; eassumption.
Qed.

End Facts.
End BvhFacts.

Module BvhTheorems.
Import IEEE IEEEOrder OrderFacts Array Bvh BvhSpec BvhShape BvhOrder BvhFacts VL.

Lemma cell_map3 (f : nat -> float32) c : (c < 3)%nat -> (map f [0; 1; 2]%nat).[c] = f c.
Proof. intros Hc. destruct c as [|[|[|c]]]; try lia; reflexivity. Qed.

Lemma grow_boxed verts mn mx pts p :
  boxed verts mn mx pts ->
  (forall c, (c < 3)%nat -> not_nan (coord verts p c) = true) ->
  boxed verts (grow_min verts p mn) (grow_max verts p mx) (pts ++ [p]).
Proof.
  intros [Hb Hq] Hp. split.
  - intros c Hc. unfold grow_min, grow_max. rewrite !cell_map3 by exact Hc.
    destruct (Hb c Hc) as [Hn Hx]. specialize (Hp c Hc).
    cbn [f_ltb IEEE32]. split.
    + destruct (SFltb _ _); assumption.
    + destruct (SFltb _ _); assumption.
  - intros q c Hin Hc. unfold grow_min, grow_max. rewrite !cell_map3 by exact Hc.
    destruct (Hb c Hc) as [Hn Hx]. pose proof (Hp c Hc) as Hpc.
    cbn [f_ltb IEEE32].
    apply in_app_or in Hin. destruct Hin as [Hin|[<-|[]]].
    + destruct (Hq q c Hin Hc) as (Hqn & Hlo & Hhi). split; [exact Hqn|]. split.
      * destruct (SFltb (coord verts p c) mn.[c]) eqn:E; [|exact Hlo].
        eapply ltb_leb_trans; [ | | |exact E|exact Hlo]; assumption.
      * destruct (SFltb mx.[c] (coord verts p c)) eqn:E; [|exact Hhi].
        eapply leb_ltb_trans; [ | | |exact Hhi|exact E]; assumption.
    + split; [exact Hpc|]. split.
      * destruct (SFltb (coord verts p c) mn.[c]) eqn:E; [apply leb_refl; exact Hpc|].
        apply not_ltb_leb; assumption.
      * destruct (SFltb mx.[c] (coord verts p c)) eqn:E; [apply leb_refl; exact Hpc|].
        apply not_ltb_leb; assumption.
Qed.

Lemma boxed_incl verts mn mx pts pts' :
  boxed verts mn mx pts -> incl pts' pts -> boxed verts mn mx pts'.
Proof. intros [Hb Hq] Hi. split; [exact Hb|]. intros q c Hin Hc. apply Hq; auto. Qed.

Lemma boxed_in_box verts mn mx pts q :
  boxed verts mn mx pts -> In q pts -> in_box verts mn mx q = true.
Proof.
  intros [_ Hq] Hin. unfold in_box. cbn [forallb f_leb IEEE32].
  destruct (Hq q 0%nat Hin ltac:(lia)) as (_ & -> & ->).
  destruct (Hq q 1%nat Hin ltac:(lia)) as (_ & -> & ->).
  destruct (Hq q 2%nat Hin ltac:(lia)) as (_ & -> & ->).
  reflexivity.
Qed.

Section Root.
Context `{Env}.

Lemma root_fold verts ps :
  forall ax mn mx (a b : @bvh_node float32) arr,
    boxed verts mn mx (data arr) ->
    (forall p c, In p ps -> (c < 3)%nat -> not_nan (coord verts p c) = true) ->
    exists mn' mx' arr',
      fold_left (fun nd p =>
                   match nd with
                   | BNode ax mn mx a b (Some arr) =>
                       BNode ax (grow_min verts p mn) (grow_max verts p mx) a b
                             (Some (snd (Array_Add arr p)))
                   | _ => nd
                   end) ps (BNode ax mn mx a b (Some arr))
      = BNode ax mn' mx' a b (Some arr') /\
      boxed verts mn' mx' (data arr').
Proof.
  induction ps as [|p ps IH]; intros ax mn mx a b arr Hb Hn.
  - cbn [fold_left]. do 3 eexists. split; [reflexivity|exact Hb].
  - cbn [fold_left]. apply IH.
    + pose proof (grow_boxed p Hb (fun c Hc => Hn p c (or_introl eq_refl) Hc)) as Hg.
      destruct (Array_Add_data arr p) as [-> | ->]; [|exact Hg].
      eapply boxed_incl; [exact Hg|apply incl_appl, incl_refl].
    + intros q c Hq Hc. apply Hn; [right; exact Hq|exact Hc].
Qed.


End Root.

Import Sample.

Lemma spread_bvh_New : BvhVl_New 3 spread (fl 1) = Done spread_bvh.
Proof. vm_compute. reflexivity. Qed.

Lemma spread_no_nan : no_nan (vert spread) (LP_VertexList_NumVert spread) = true.
Proof. vm_compute. reflexivity. Qed.


End BvhTheorems.

Module SimplifyTheorems.
Import Simplify SimplifySpec.

Ltac canon_cases :=
  unfold Face_Cannonize, rotate, distinct in *;
  repeat match goal with
         | |- context [?a <? ?b] => destruct (Z.ltb_spec a b)
         end;
  cbn [andb fst] in *.

(** X26.  [Face_Cannonize] turns the three vertices of a face without
    changing their cyclic order, and the first of the result is not above
    the others.  When the three are pairwise distinct, every rotation of
    the face gets the same result, and a second call changes nothing. *)
Theorem Face_Cannonize_rotation (v : Z * Z * Z) :
  (Face_Cannonize v = v \/ Face_Cannonize v = rotate v \/
   Face_Cannonize v = rotate (rotate v)) /\
  (let '(a, b, c) := Face_Cannonize v in a <= b /\ a <= c) /\
  (distinct v ->
     Face_Cannonize (rotate v) = Face_Cannonize v /\
     Face_Cannonize (Face_Cannonize v) = Face_Cannonize v).
Proof.
  destruct v as [[v0 v1] v2]. split; [|split].
  - canon_cases; auto.
  - canon_cases; lia.
  - intros (H01 & H12 & H02). split.
    + canon_cases; try reflexivity; lia.
    + unfold Face_Cannonize at 2 3.
      destruct (Z.ltb_spec v0 v1), (Z.ltb_spec v0 v2); cbn [andb];
        try destruct (Z.ltb_spec v1 v2); canon_cases; try reflexivity; lia.
Qed.

End SimplifyTheorems.

Module QueueFacts.
Import QueueMem QueueSpec.

Lemma nth_list_set_cell {A} (l : list A) n m x d :
  nth m (list_set n x l) d = if Nat.eqb m n && Nat.ltb n (length l) then x else nth m l d.
Proof.
  revert n m. induction l as [|a l IH]; intros [|n] [|m]; simpl; auto.
  rewrite andb_false_r. reflexivity.
Qed.

Lemma last_cons_more {A} (x : A) l d : l <> [] -> last (x :: l) d = last l d.
Proof. destruct l; [intros Hn; destruct Hn; reflexivity|reflexivity]. Qed.

Lemma chain_range m p l a :
  chain m p l -> In a (map fst l) -> 0 < a <= Z.of_nat (length m).
Proof.
  revert p. induction l as [|[b v] rest IH]; intros p Hc Hin; [destruct Hin|].
  destruct Hc as (_ & Hr & _ & Hc). destruct Hin as [<-|Hin]; [exact Hr|].
  apply (IH _ Hc Hin).
Qed.

Lemma chain_ext m m' p l :
  chain m p l -> (length m <= length m')%nat ->
  (forall a, In a (map fst l) ->
     nth (Z.to_nat (a - 1)) m' null_elem = nth (Z.to_nat (a - 1)) m null_elem) ->
  chain m' p l.
Proof.
  revert p. induction l as [|[b v] rest IH]; intros p Hc Hl He; [exact Hc|].
  destruct Hc as (Hp & Hr & Hv & Hc). cbn [chain].
  rewrite (He b (or_introl eq_refl)).
  split; [exact Hp|]. split; [lia|]. split; [exact Hv|].
  apply IH; [exact Hc|exact Hl|]. intros a Ha. apply He. right. exact Ha.
Qed.

Lemma chain_app_cell m p l x :
  chain m p l -> chain (m ++ [x]) p l.
Proof.
  intros Hc. eapply chain_ext; [exact Hc|rewrite length_app; lia|].
  intros a Ha. pose proof Ha as Hr. eapply chain_range in Hr; [|exact Hc].
  apply app_nth1. lia.
Qed.

Lemma chain_empty m p l : chain m p l -> (p = 0 <-> l = []).
Proof.
  destruct l as [|[b v] rest]; cbn [chain].
  - intros ->. split; reflexivity.
  - intros (-> & Hr & _). split; [lia|discriminate].
Qed.

(** Linking a new last element behind the tail. *)
Lemma chain_snoc m l v :
  forall p, chain m p l -> l <> [] -> NoDup (map fst l) ->
  chain (list_set (Z.to_nat (last (map fst l) 0 - 1))
           {| value := value (nth (Z.to_nat (last (map fst l) 0 - 1)) m null_elem);
              next := Z.of_nat (length m) + 1 |} m
         ++ [{| value := v; next := 0 |}])
        p (l ++ [(Z.of_nat (length m) + 1, v)]).
Proof.
  induction l as [|[a v0] rest IH]; intros p Hc Hne Hnd; [destruct Hne; reflexivity|].
  destruct Hc as (Hp & Hr & Hv & Hc).
  cbn [map fst] in Hnd. apply NoDup_cons_iff in Hnd as [Hnin Hnd'].
  destruct rest as [|[b v1] rest'].
  - clear IH. cbn [map fst last app chain] in *.
    rewrite app_nth1 by (rewrite list_set_length; lia).
    rewrite nth_list_set_cell.
    replace (Nat.eqb (Z.to_nat (a - 1)) (Z.to_nat (a - 1)) &&
             Nat.ltb (Z.to_nat (a - 1)) (length m)) with true
      by (symmetry; apply andb_true_intro; split;
          [apply Nat.eqb_refl|apply Nat.ltb_lt; lia]).
    cbn [value next]. rewrite length_app, list_set_length. cbn [length].
    split; [exact Hp|]. split; [lia|]. split; [exact Hv|].
    split; [reflexivity|]. split; [lia|].
    replace (Z.to_nat (Z.of_nat (length m) + 1 - 1)) with (length m) by lia.
    rewrite app_nth2 by (rewrite list_set_length; lia).
    rewrite list_set_length, Nat.sub_diag. cbn [nth value next]. auto.
  - assert (Hlast : last (map fst ((a, v0) :: (b, v1) :: rest')) 0
                    = last (map fst ((b, v1) :: rest')) 0) by reflexivity.
    rewrite Hlast.
    assert (Hin : In (last (map fst ((b, v1) :: rest')) 0) (map fst ((b, v1) :: rest'))).
    { cbn [map fst]. clear. generalize (map fst rest'). intros l. revert b.
      induction l as [|x l IHl]; intros b; [left; reflexivity|].
      right. apply IHl. }
    pose proof Hin as Ht. eapply chain_range in Ht; [|exact Hc].
    assert (Hta : last (map fst ((b, v1) :: rest')) 0 <> a).
    { intros Heq. apply Hnin. rewrite <- Heq. exact Hin. }
    change (((a, v0) :: (b, v1) :: rest') ++ [(Z.of_nat (length m) + 1, v)])
      with ((a, v0) :: (((b, v1) :: rest') ++ [(Z.of_nat (length m) + 1, v)])).
    cbn [chain].
    rewrite app_nth1 by (rewrite list_set_length; lia).
    rewrite nth_list_set_cell.
    replace (Nat.eqb (Z.to_nat (a - 1)) (Z.to_nat (last (map fst ((b, v1) :: rest')) 0 - 1)))
      with false by (symmetry; apply Nat.eqb_neq; lia).
    cbn [andb]. rewrite length_app, list_set_length. cbn [length].
    split; [exact Hp|]. split; [lia|]. split; [exact Hv|].
    apply IH; [exact Hc|discriminate|exact Hnd'].
Qed.

Section Q.
Context `{Env}.

Lemma New_holds q : Queue_New = Some q -> holds q [].
Proof.
  unfold Queue_New. destruct (alloc_ok 24); [|discriminate]. intros [= <-].
  repeat split. constructor.
Qed.

Lemma last_in_cons {A} (b : A) l d : In (last (b :: l) d) (b :: l).
Proof.
  revert b. induction l as [|x l IHl]; intros b; [left; reflexivity|].
  right. apply IHl.
Qed.

Lemma NoDup_snoc {A} (l : list A) a : NoDup l -> ~ In a l -> NoDup (l ++ [a]).
Proof.
  induction l as [|x l IH]; intros Hn Hi; cbn [app].
  - constructor; [intros []|constructor].
  - apply NoDup_cons_iff in Hn as [Hx Hn]. constructor.
    + intros Hin. apply in_app_or in Hin. destruct Hin as [Hin|[->|[]]].
      * exact (Hx Hin).
      * apply Hi. left. reflexivity.
    + apply IH; [exact Hn|]. intros Hin. apply Hi. right. exact Hin.
Qed.

Lemma mod_word n : 0 <= n <= SIZE_MAX -> n mod (SIZE_MAX + 1) = n.
Proof. intros Hn. apply Z.mod_small. lia. Qed.

Lemma Push_holds q l v :
  holds q l -> Z.of_nat (length l) < SIZE_MAX -> alloc_ok 16 = true ->
  fst (Queue_Push q v) = 0 /\
  holds (snd (Queue_Push q v)) ((Z.of_nat (length (cells q)) + 1, v) :: l).
Proof.
  intros (Hc & Hnd & Hlen & Htl) Hb Ha. unfold Queue_Push. rewrite Ha.
  cbn [fst snd]. split; [reflexivity|].
  unfold holds. cbn [cells head tail len].
  split; [|split; [|split]].
  - cbn [chain]. rewrite length_app. cbn [length].
    replace (Z.to_nat (Z.of_nat (length (cells q)) + 1 - 1)) with (length (cells q)) by lia.
    rewrite nth_middle. cbn [value next].
    split; [reflexivity|]. split; [lia|]. split; [reflexivity|].
    apply chain_app_cell. exact Hc.
  - cbn [map fst]. constructor; [|exact Hnd]. intros Hin.
    eapply chain_range in Hin; [|exact Hc]. lia.
  - rewrite Hlen. cbn [length]. rewrite mod_word; lia.
  - rewrite Hlen. destruct l as [|x l'].
    + reflexivity.
    + cbn [length]. destruct (Z.eqb_spec (Z.of_nat (S (length l'))) 0) as [Hz|Hz]; [lia|].
      rewrite Htl. cbn [map]. symmetry. apply last_cons_more. discriminate.
Qed.

Lemma PushBack_holds q l v :
  holds q l -> Z.of_nat (length l) < SIZE_MAX -> alloc_ok 16 = true ->
  fst (Queue_PushBack q v) = 0 /\
  holds (snd (Queue_PushBack q v)) (l ++ [(Z.of_nat (length (cells q)) + 1, v)]).
Proof.
  intros (Hc & Hnd & Hlen & Htl) Hb Ha. unfold Queue_PushBack. rewrite Ha.
  cbv zeta. cbn [fst snd]. split; [reflexivity|].
  unfold holds. cbn [cells head tail len].
  destruct l as [|x l'].
  - cbn [map last] in Htl. rewrite Htl. cbn [Z.eqb app].
    split; [|split; [|split]].
    + cbn [chain]. rewrite length_app. cbn [length].
      replace (Z.to_nat (Z.of_nat (length (cells q)) + 1 - 1)) with (length (cells q)) by lia.
      rewrite nth_middle. cbn [value next].
      split; [reflexivity|]. split; [lia|]. split; reflexivity.
    + cbn [map fst]. constructor; [intros []|constructor].
    + rewrite Hlen. cbn [length]. rewrite mod_word; [reflexivity|unfold SIZE_MAX; lia].
    + reflexivity.
  - assert (Ht : 0 < tail q <= Z.of_nat (length (cells q))).
    { rewrite Htl. eapply chain_range; [exact Hc|]. cbn [map]. apply last_in_cons. }
    destruct (Z.eqb_spec (tail q) 0) as [Hz|Hz]; [lia|].
    split; [|split; [|split]].
    + unfold get. rewrite Htl. apply chain_snoc; [exact Hc|discriminate|exact Hnd].
    + rewrite map_app.
      change (map fst [(Z.of_nat (length (cells q)) + 1, v)])
        with [Z.of_nat (length (cells q)) + 1].
      apply NoDup_snoc; [exact Hnd|].
      intros Hin. eapply chain_range in Hin; [|exact Hc]. lia.
    + rewrite Hlen, length_app. cbn [length] in *. rewrite mod_word; lia.
    + rewrite map_app. cbn [map fst]. rewrite last_last. reflexivity.
Qed.

Lemma Pop_holds q l :
  holds q l -> Z.of_nat (length l) <= SIZE_MAX ->
  match l with
  | [] => Queue_Pop q = (0, q)
  | (a, v) :: rest => fst (Queue_Pop q) = v /\ holds (snd (Queue_Pop q)) rest
  end.
Proof.
  intros (Hc & Hnd & Hlen & Htl) Hb. unfold Queue_Pop. destruct l as [|[a v] rest].
  - cbn [chain] in Hc. rewrite Hc. reflexivity.
  - destruct Hc as (Hp & Hr & Hv & Hc).
    destruct (Z.eqb_spec (head q) 0) as [Hz|Hz]; [lia|].
    cbn [fst snd]. unfold get. rewrite Hp. split; [exact Hv|].
    unfold holds. cbn [cells head tail len]. split; [exact Hc|].
    cbn [map fst] in Hnd. apply NoDup_cons_iff in Hnd as [_ Hnd'].
    split; [exact Hnd'|].
    rewrite Hlen. cbn [length] in *.
    replace ((Z.of_nat (S (length rest)) - 1) mod (SIZE_MAX + 1))
      with (Z.of_nat (length rest)) by (rewrite mod_word; lia).
    split; [reflexivity|].
    destruct rest as [|y rest'].
    + reflexivity.
    + cbn [length]. destruct (Z.eqb_spec (Z.of_nat (S (length rest'))) 0) as [Hz'|Hz']; [lia|].
      rewrite Htl. cbn [map]. apply last_cons_more. discriminate.
Qed.

Lemma chain_last m l :
  forall p, chain m p l -> l <> [] ->
  value (nth (Z.to_nat (last (map fst l) 0 - 1)) m null_elem) = last (map snd l) 0.
Proof.
  induction l as [|[a v] rest IH]; intros p Hc Hne; [destruct Hne; reflexivity|].
  destruct Hc as (Hp & Hr & Hv & Hc). destruct rest as [|[b w] rest'].
  - exact Hv.
  - change (last (map fst ((a, v) :: (b, w) :: rest')) 0)
      with (last (map fst ((b, w) :: rest')) 0).
    change (last (map snd ((a, v) :: (b, w) :: rest')) 0)
      with (last (map snd ((b, w) :: rest')) 0).
    eapply IH; [exact Hc|discriminate].
Qed.

Lemma Peak_ends q l :
  holds q l ->
  Queue_Peak q = hd 0 (map snd l) /\
  Queue_PeakBack q = last (map snd l) 0 /\
  holds (Queue_Clear q) [].
Proof.
  intros (Hc & Hnd & Hlen & Htl). split; [|split].
  - unfold Queue_Peak. destruct l as [|[a v] rest].
    + cbn [chain] in Hc. rewrite Hc. reflexivity.
    + destruct Hc as (Hp & Hr & Hv & Hc).
      destruct (Z.eqb_spec (head q) 0) as [Hz|Hz]; [lia|].
      unfold get. rewrite Hp. exact Hv.
  - unfold Queue_PeakBack. destruct l as [|x l'].
    + cbn [map last] in Htl. rewrite Htl. reflexivity.
    + assert (Ht : 0 < tail q <= Z.of_nat (length (cells q))).
      { rewrite Htl. eapply chain_range; [exact Hc|]. cbn [map]. apply last_in_cons. }
      destruct (Z.eqb_spec (tail q) 0) as [Hz|Hz]; [lia|].
      unfold get. rewrite Htl. eapply chain_last; [exact Hc|discriminate].
  - unfold holds, Queue_Clear. cbn [cells head tail len chain map length last].
    repeat split. constructor.
Qed.

End Q.
End QueueFacts.

Module QueueTheorems.
Import QueueMem QueueSpec QueueFacts.
Section Theorems.
Context `{Env}.

(** X27.  The linked list of [queue.c] is a queue.  When it holds the
    values [l], head first, [Queue_Length] is their number;
    [Queue_PushBack] puts a value behind them and [Queue_Push] in front
    of them, or returns -1 and changes nothing when there is no memory;
    [Queue_Pop] returns the first and leaves the others in order, and
    returns NULL on an empty queue: the behaviour of the list
    operations of the same names. *)
Theorem Queue_is_fifo (q : queue) (l : list (Z * Z)) (v : Z) :
  holds q l -> Z.of_nat (length l) < SIZE_MAX ->
  Queue_Length q = Queue.Queue_Length (map snd l) /\
  match Queue.Queue_PushBack (map snd l) v with
  | Some c => fst (Queue_PushBack q v) = 0 /\
              exists l', holds (snd (Queue_PushBack q v)) l' /\ map snd l' = c
  | None => Queue_PushBack q v = (-1, q)
  end /\
  match Queue.Queue_Push (map snd l) v with
  | Some c => fst (Queue_Push q v) = 0 /\
              exists l', holds (snd (Queue_Push q v)) l' /\ map snd l' = c
  | None => Queue_Push q v = (-1, q)
  end /\
  fst (Queue_Pop q) = fst (Queue.Queue_Pop (map snd l)) /\
  exists l', holds (snd (Queue_Pop q)) l' /\ map snd l' = snd (Queue.Queue_Pop (map snd l)).
Proof.
  intros Hh Hb. split; [|split; [|split; [|split]]].
  - unfold Queue_Length, Queue.Queue_Length. destruct Hh as (_ & _ & -> & _).
    rewrite length_map. reflexivity.
  - unfold Queue.Queue_PushBack. destruct (alloc_ok 16) eqn:Ea.
    + destruct (PushBack_holds v Hh Hb Ea) as [Hr Hq]. split; [exact Hr|].
      eexists. split; [exact Hq|]. rewrite map_app. reflexivity.
    + unfold Queue_PushBack. rewrite Ea. reflexivity.
  - unfold Queue.Queue_Push. destruct (alloc_ok 16) eqn:Ea.
    + destruct (Push_holds v Hh Hb Ea) as [Hr Hq]. split; [exact Hr|].
      eexists. split; [exact Hq|]. reflexivity.
    + unfold Queue_Push. rewrite Ea. reflexivity.
  - pose proof (Pop_holds Hh ltac:(lia)) as Hp. destruct l as [|[a w] rest].
    + rewrite Hp. reflexivity.
    + destruct Hp as [Hp _]. exact Hp.
  - pose proof (Pop_holds Hh ltac:(lia)) as Hp. destruct l as [|[a w] rest].
    + rewrite Hp. exists []. split; [exact Hh|reflexivity].
    + destruct Hp as [_ Hp]. exists rest. split; [exact Hp|reflexivity].
Qed.

(** X28.  [Queue_Peak] returns the value at the head and
    [Queue_PeakBack] the value at the tail of a queue, NULL when it is
    empty, and [Queue_Clear] leaves a queue that holds nothing. *)
Theorem Queue_Peak_both_ends (q : queue) (l : list (Z * Z)) :
  holds q l ->
  Queue_Peak q = hd 0 (map snd l) /\
  Queue_PeakBack q = last (map snd l) 0 /\
  holds (Queue_Clear q) [].
Proof. apply Peak_ends. Qed.

End Theorems.

Import Sample.

Lemma queue1_holds : holds queue1 [(1, 7)].
Proof.
  unfold holds. vm_compute. repeat split; try discriminate.
  constructor; [intros []|constructor].
Qed.

Lemma Queue_is_fifo_witness :
  holds queue1 [(1, 7)] /\ Z.of_nat (length [(1, 7)]) < SIZE_MAX /\
  Queue_Length queue1 = Queue.Queue_Length (map snd [(1, 7)]) /\
  fst (Queue_Pop queue1) = fst (Queue.Queue_Pop (map snd [(1, 7)])).
Proof.
  split; [exact queue1_holds|].
  assert (Hb : Z.of_nat (length [(1, 7)]) < SIZE_MAX) by (vm_compute; reflexivity).
  split; [exact Hb|].
  destruct (@Queue_is_fifo env queue1 [(1, 7)] 9 queue1_holds Hb) as (A & _ & _ & B & _).
  split; [exact A|exact B].
Defined.

Lemma queue2_holds : holds (snd (Queue_PushBack queue1 9)) [(1, 7); (2, 9)].
Proof.
  unfold holds. vm_compute. repeat split; try discriminate.
  constructor; [intros [Hx|[]]; discriminate|].
  constructor; [intros []|constructor].
Qed.

Lemma Queue_Peak_both_ends_witness :
  holds (snd (Queue_PushBack queue1 9)) [(1, 7); (2, 9)] /\
  Queue_Peak (snd (Queue_PushBack queue1 9)) = 7 /\
  Queue_PeakBack (snd (Queue_PushBack queue1 9)) = 9.
Proof.
  split; [exact queue2_holds|].
  destruct (Queue_Peak_both_ends queue2_holds) as (A & B & _).
  split; [exact A|exact B].
Defined.

End QueueTheorems.
